(** * EnsoXR mesh painting core: MeshPaintable.ts and MeshBrush.ts

    A shallow embedding of the ray-to-texture query of [MeshPaintable]
    and of the per-frame stroke logic of [MeshBrush], with the properties
    of the specification proved about them.  The second part of the
    proofs covers the rest of the two files: the order of the scan, the
    drawing of a dab, the area caches, [start()] with the debug pattern,
    the identity of an object, the invariants of the brush over the
    frames, and the editor plugin that shares a file with the brush.

    Numbers.  The program computes on JavaScript numbers, and two
    embeddings of them are used.  The first keeps exact rational
    arithmetic for every finite value and a single non-finite value
    [NaN], which is what a read outside an array turns into as soon as
    it is used in arithmetic; it carries the statements about the values
    the program computes (the UV of a hit, the hit point, the planar
    projection) and about the frame logic of the brush.  The module
    [Binary64] repeats the ray query on IEEE 754 numbers, binary64 with
    a rounding to binary32 on every store into a [Float32Array], in the
    arithmetic of [SpecFloat]; it carries the statements whose point is
    which triangle the query returns, or whether it returns any, which
    rounding decides. *)

From Stdlib Require Import QArith Qabs Qround Qpower Lqa Lia ZArith String Ascii List Bool.
From Stdlib Require Import SpecFloat.
From stdpp Require Import gmap.
Import ListNotations.

(** ** JavaScript numbers *)

Module JsNum.

Inductive num : Type :=
  | Fin (q : Q)
  | NaN.

Definition Qltb (a b : Q) : bool :=
  match (a ?= b)%Q with Lt => true | _ => false end.

Definition Qleb (a b : Q) : bool :=
  match (a ?= b)%Q with Gt => false | _ => true end.

Definition nadd (a b : num) : num :=
  match a, b with Fin x, Fin y => Fin (x + y) | _, _ => NaN end.

Definition nsub (a b : num) : num :=
  match a, b with Fin x, Fin y => Fin (x - y) | _, _ => NaN end.

Definition nmul (a b : num) : num :=
  match a, b with Fin x, Fin y => Fin (x * y) | _, _ => NaN end.

(** Every divisor in the modelled code is guarded against zero before it
    is used ([det] by the epsilon test, the others by [|| 1] or by
    [Math.max(1, _)]); the quotient by zero, an infinity in JavaScript,
    has no finite value and is left as [NaN]. *)
Definition ndiv (a b : num) : num :=
  match a, b with
  | Fin x, Fin y => if Qeq_bool y 0 then NaN else Fin (x / y)
  | _, _ => NaN
  end.

(** Comparisons are false as soon as one side is [NaN]. *)
Definition nlt (a b : num) : bool :=
  match a, b with Fin x, Fin y => Qltb x y | _, _ => false end.

Definition nle (a b : num) : bool :=
  match a, b with Fin x, Fin y => Qleb x y | _, _ => false end.

Definition ngt (a b : num) : bool := nlt b a.
Definition nge (a b : num) : bool := nle b a.

(** [a === b] on numbers. *)
Definition neqb (a b : num) : bool :=
  match a, b with Fin x, Fin y => Qeq_bool x y | _, _ => false end.

(** [Math.min] and [Math.max]: [NaN] as soon as one argument is. *)
Definition Qmin2 (x y : Q) : Q := if Qleb x y then x else y.
Definition Qmax2 (x y : Q) : Q := if Qleb x y then y else x.

Definition nmin (a b : num) : num :=
  match a, b with Fin x, Fin y => Fin (Qmin2 x y) | _, _ => NaN end.

Definition nmax (a b : num) : num :=
  match a, b with Fin x, Fin y => Fin (Qmax2 x y) | _, _ => NaN end.

Definition nmin3 (a b c : num) : num := nmin (nmin a b) c.
Definition nmax3 (a b c : num) : num := nmax (nmax a b) c.

Definition nfloor (a : num) : num :=
  match a with Fin x => Fin (inject_Z (Qfloor x)) | NaN => NaN end.

Definition nceil (a : num) : num :=
  match a with Fin x => Fin (inject_Z (Qceiling x)) | NaN => NaN end.

(** [a || d] on numbers: [0] and [NaN] are falsy. *)
Definition nor (a d : num) : num :=
  match a with
  | Fin x => if Qeq_bool x 0 then d else a
  | NaN => d
  end.

Definition isfin (a : num) : bool :=
  match a with Fin _ => true | NaN => false end.

(** Equality of numbers up to the value of the fraction. *)
Definition num_eq (a b : num) : Prop :=
  match a, b with
  | Fin x, Fin y => x == y
  | NaN, NaN => True
  | _, _ => False
  end.

Declare Scope num_scope.
Delimit Scope num_scope with num.
Bind Scope num_scope with num.
Infix "+" := nadd : num_scope.
Infix "-" := nsub : num_scope.
Infix "*" := nmul : num_scope.
Infix "/" := ndiv : num_scope.
Infix "<?" := nlt : num_scope.
Infix "<=?" := nle : num_scope.
Infix ">?" := ngt : num_scope.
Infix ">=?" := nge : num_scope.
Infix "=~" := num_eq (at level 70) : num_scope.

(** A typed array read [a[i]]: [undefined], hence [NaN] in arithmetic,
    outside the array or at an index that is itself not a number. *)
Definition read (a : list Q) (i : option Z) : num :=
  match i with
  | Some z =>
      if (z <? 0)%Z then NaN
      else match a !! Z.to_nat z with Some q => Fin q | None => NaN end
  | None => NaN
  end.

Definition read_num (a : list num) (i : Z) : num :=
  if (i <? 0)%Z then NaN
  else match a !! Z.to_nat i with Some n => n | None => NaN end.

(** An [Int32Array] read: [None] stands for [undefined]. *)
Definition read_int (a : list Z) (i : Z) : option Z :=
  if (i <? 0)%Z then None else a !! Z.to_nat i.

(** [vi * 3 + k] where [vi] may be [undefined]. *)
Definition idx (vi : option Z) (stride k : Z) : option Z :=
  match vi with Some z => Some (z * stride + k)%Z | None => None end.

(** The values [t = 0, 1, ...] of a loop [for (t = 0; t < n; t++)]. *)
Definition for_lt (n : Q) : list nat := seq 0 (Z.to_nat (Qceiling n)).

(** A typed array of [len] cells filled by in-order writes: a write past
    the end is dropped.  The loops that fill these arrays write every
    cell below [len]. *)
Definition typed_array {A} (len : Q) (cells : list A) : list A :=
  take (Z.to_nat (Qfloor len)) cells.

End JsNum.
Export JsNum.

(** ** Exact geometry

    The determinant method for a ray against a triangle, on rationals:
    the quantities the specification names [determinant], [u], [v], [t]. *)

Module Exact.

Local Open Scope Q_scope.

Definition qvec : Type := (Q * Q * Q)%type.

Definition vsub (a b : qvec) : qvec :=
  let '(ax, ay, az) := a in
  let '(bx, b_y, bz) := b in
  (ax - bx, ay - b_y, az - bz).

Definition cross (a b : qvec) : qvec :=
  let '(ax, ay, az) := a in
  let '(bx, b_y, bz) := b in
  (ay * bz - az * b_y, az * bx - ax * bz, ax * b_y - ay * bx).

Definition dot (a b : qvec) : Q :=
  let '(ax, ay, az) := a in
  let '(bx, b_y, bz) := b in
  ax * bx + ay * b_y + az * bz.

(** The point [o + s d] of a ray. *)
Definition along (o d : qvec) (s : Q) : qvec :=
  let '(ox, oy, oz) := o in
  let '(dx, dy, dz) := d in
  (ox + dx * s, oy + dy * s, oz + dz * s).

Definition triangle : Type := (qvec * qvec * qvec)%type.

Definition mt_det (d : qvec) (tri : triangle) : Q :=
  let '(p0, p1, p2) := tri in
  dot (vsub p1 p0) (cross d (vsub p2 p0)).

Definition mt_u (o d : qvec) (tri : triangle) : Q :=
  let '(p0, p1, p2) := tri in
  dot (vsub o p0) (cross d (vsub p2 p0)) * (1 / mt_det d tri).

Definition mt_v (o d : qvec) (tri : triangle) : Q :=
  let '(p0, p1, p2) := tri in
  dot d (cross (vsub o p0) (vsub p1 p0)) * (1 / mt_det d tri).

Definition mt_t (o d : qvec) (tri : triangle) : Q :=
  let '(p0, p1, p2) := tri in
  dot (vsub p2 p0) (cross (vsub o p0) (vsub p1 p0)) * (1 / mt_det d tri).

(** A valid intersection, in the words of the specification:
    |determinant| >= 1e-8, 0 <= u <= 1, 0 <= v, u + v <= 1,
    t > 1e-6 and t <= maxDistance. *)
Definition valid_intersection (o d : qvec) (maxDistance : Q) (tri : triangle) : Prop :=
  (1 # 100000000) <= Qabs (mt_det d tri) /\
  0 <= mt_u o d tri /\ mt_u o d tri <= 1 /\
  0 <= mt_v o d tri /\ mt_u o d tri + mt_v o d tri <= 1 /\
  (1 # 1000000) < mt_t o d tri /\ mt_t o d tri <= maxDistance.

(** Componentwise clamp of a value to [0,1]. *)
Definition clamp01 (x : Q) : Q := Qmin2 (Qmax2 x 0) 1.

End Exact.
Export Exact.

(** ** MeshPaintable.ts *)

Module MeshPaintable.

Local Open Scope num_scope.

Record vec3 : Type := V3 { at0 : num; at1 : num; at2 : num }.

(** The engine's mesh as [_buildMeshCaches] reads it: the position
    attribute (one triple per vertex), the optional texture coordinate
    attribute and the optional index data. *)
Record Mesh : Type := {
  positionAttr : option (list (Q * Q * Q));
  uvAttr : option (list (Q * Q));
  indexData : option (list Z)
}.

Record MeshPaintable : Type := {
  textureWidth : Z;
  textureHeight : Z;
  flipY : bool;
  planarFallback : bool;
  created : bool;
  _positionsFlat : option (list Q);
  _uvsFlat : option (list Q);
  _triIndices : option (list Z);
  _triMin : option (list num);
  _triMax : option (list num);
  _triCount : Q
}.

(** The component before [start()]: the properties as configured, no
    canvas and no caches. *)
Definition unstarted (w h : Z) (flip planar : bool) : MeshPaintable :=
  {| textureWidth := w; textureHeight := h; flipY := flip;
     planarFallback := planar; created := false;
     _positionsFlat := None; _uvsFlat := None; _triIndices := None;
     _triMin := None; _triMax := None; _triCount := 0%Q |}.

Definition flatten3 (l : list (Q * Q * Q)) : list Q :=
  flat_map (fun p => let '(x, y, z) := p in [x; y; z]) l.

Definition flatten2 (n : nat) (l : list (Q * Q)) : list Q :=
  flat_map (fun i => let '(a, b) := default (0%Q, 0%Q) (l !! i) in [a; b]) (seq 0 n).

(** Vertex [k] (0, 1 or 2) of triangle [t]: the index read from
    [triIndices], then the three coordinates read from [positions]. *)
Definition tri_vertex_index (triIndices : list Z) (t : nat) (k : Z) : option Z :=
  read_int triIndices (Z.of_nat t * 3 + k).

Definition vertex_at (positions : list Q) (vi : option Z) : vec3 :=
  V3 (read positions (idx vi 3 0)%Z) (read positions (idx vi 3 1)%Z) (read positions (idx vi 3 2)%Z).

Definition _buildMeshCaches (this : MeshPaintable) (mesh : Mesh) : MeshPaintable :=
  match positionAttr mesh with
  | None => this
  | Some posAttr =>
      let vertexCount := length posAttr in
      let positionsFlat := flatten3 posAttr in
      let uvsFlat :=
        match uvAttr mesh with
        | Some uvs => Some (flatten2 vertexCount uvs)
        | None => None
        end in
      let '(triCount, triIndices) :=
        match indexData mesh with
        | Some ((_ :: _) as indices) =>
            (inject_Z (Z.of_nat (length indices)) / 3, indices)%Q
        | _ =>
            let triCount := (inject_Z (Z.of_nat vertexCount) / 3)%Q in
            (triCount,
             typed_array (triCount * 3)%Q
               (flat_map (fun t => [Z.of_nat t * 3 + 0; Z.of_nat t * 3 + 1; Z.of_nat t * 3 + 2]%Z)
                  (for_lt triCount)))
        end in
      let corner (t : nat) (k : Z) := vertex_at positionsFlat (tri_vertex_index triIndices t k) in
      let triMin :=
        typed_array (triCount * 3)%Q
          (flat_map (fun t =>
             let tmp0 := corner t 0%Z in
             let tmp1 := corner t 1%Z in
             let tmp2 := corner t 2%Z in
             [nmin3 (at0 tmp0) (at0 tmp1) (at0 tmp2);
              nmin3 (at1 tmp0) (at1 tmp1) (at1 tmp2);
              nmin3 (at2 tmp0) (at2 tmp1) (at2 tmp2)]) (for_lt triCount)) in
      let triMax :=
        typed_array (triCount * 3)%Q
          (flat_map (fun t =>
             let tmp0 := corner t 0%Z in
             let tmp1 := corner t 1%Z in
             let tmp2 := corner t 2%Z in
             [nmax3 (at0 tmp0) (at0 tmp1) (at0 tmp2);
              nmax3 (at1 tmp0) (at1 tmp1) (at1 tmp2);
              nmax3 (at2 tmp0) (at2 tmp1) (at2 tmp2)]) (for_lt triCount)) in
      {| textureWidth := textureWidth this; textureHeight := textureHeight this;
         flipY := flipY this; planarFallback := planarFallback this;
         created := created this;
         _positionsFlat := Some positionsFlat;
         _uvsFlat := uvsFlat;
         _triIndices := Some triIndices;
         _triMin := Some triMin;
         _triMax := Some triMax;
         _triCount := triCount |}
  end.

(** [start()]: without a mesh component nothing happens; otherwise the
    canvas is created, [created] is set and the caches are built.  The
    per-triangle areas and their prefix sums, which no query reads, are
    left out. *)
Definition start (this : MeshPaintable) (meshComp : option Mesh) : MeshPaintable :=
  match meshComp with
  | None => this
  | Some mesh =>
      _buildMeshCaches
        {| textureWidth := textureWidth this; textureHeight := textureHeight this;
           flipY := flipY this; planarFallback := planarFallback this;
           created := true;
           _positionsFlat := _positionsFlat this; _uvsFlat := _uvsFlat this;
           _triIndices := _triIndices this; _triMin := _triMin this;
           _triMax := _triMax this; _triCount := _triCount this |} mesh
  end.

Record Hit : Type := { hit_t : num; hit_u : num; hit_v : num }.

Definition EPS : num := Fin (1 # 100000000).
Definition negEPS : num := Fin (- (1 # 100000000)).

Definition rayTriangleIntersectMollerTrumbore (orig dir p0 p1 p2 : vec3) : option Hit :=
  let edge1x := at0 p1 - at0 p0 in
  let edge1y := at1 p1 - at1 p0 in
  let edge1z := at2 p1 - at2 p0 in
  let edge2x := at0 p2 - at0 p0 in
  let edge2y := at1 p2 - at1 p0 in
  let edge2z := at2 p2 - at2 p0 in
  let px := at1 dir * edge2z - at2 dir * edge2y in
  let py := at2 dir * edge2x - at0 dir * edge2z in
  let pz := at0 dir * edge2y - at1 dir * edge2x in
  let det := edge1x * px + edge1y * py + edge1z * pz in
  if (det >? negEPS) && (det <? EPS) then None else
  let invDet := Fin 1 / det in
  let tx := at0 orig - at0 p0 in
  let ty := at1 orig - at1 p0 in
  let tz := at2 orig - at2 p0 in
  let u := (tx * px + ty * py + tz * pz) * invDet in
  if (u <? Fin 0) || (u >? Fin 1) then None else
  let qx := ty * edge1z - tz * edge1y in
  let qy := tz * edge1x - tx * edge1z in
  let qz := tx * edge1y - ty * edge1x in
  let v := (at0 dir * qx + at1 dir * qy + at2 dir * qz) * invDet in
  if (v <? Fin 0) || (u + v >? Fin 1) then None else
  let t := (edge2x * qx + edge2y * qy + edge2z * qz) * invDet in
  if t <=? EPS then None else
  Some {| hit_t := t; hit_u := u; hit_v := v |}.

(** The loop variables of [getUVFromLocalRay].  [closestT = None] is the
    initial [Infinity]; [bestTri], [bestLocalHit] start as [null]. *)
Record Scan : Type := {
  closestT : option num;
  bestTri : option nat;
  bestU : num;
  bestV : num;
  bestLocalHit : option vec3
}.

Definition scan_init : Scan :=
  {| closestT := None; bestTri := None; bestU := Fin 0; bestV := Fin 0;
     bestLocalHit := None |}.

(** [x < closestT]. *)
Definition lt_closest (x : num) (c : option num) : bool :=
  match c with
  | None => isfin x
  | Some y => x <? y
  end.

(** The exact test of one triangle and the update of the best hit. *)
Definition scan_exact (positions : list Q) (triIndices : list Z)
    (localOrigin localDir : vec3) (maxDistance : num) (s : Scan) (t : nat) : Scan :=
  let vi0 := tri_vertex_index triIndices t 0%Z in
  let vi1 := tri_vertex_index triIndices t 1%Z in
  let vi2 := tri_vertex_index triIndices t 2%Z in
  let p0 := vertex_at positions vi0 in
  let p1 := vertex_at positions vi1 in
  let p2 := vertex_at positions vi2 in
  match rayTriangleIntersectMollerTrumbore localOrigin localDir p0 p1 p2 with
  | Some hit =>
      if (hit_t hit >? Fin (1 # 1000000)) && lt_closest (hit_t hit) (closestT s)
         && (hit_t hit <=? maxDistance)
      then {| closestT := Some (hit_t hit);
              bestTri := Some t;
              bestU := hit_u hit;
              bestV := hit_v hit;
              bestLocalHit :=
                Some (V3 (at0 localOrigin + at0 localDir * hit_t hit)
                         (at1 localOrigin + at1 localDir * hit_t hit)
                         (at2 localOrigin + at2 localDir * hit_t hit)) |}
      else s
  | None => s
  end.

(** The bounding-box rejection of triangle [t]: its box and the box of
    the segment from the origin to [origin + dir * maxDistance] are
    apart on some axis. *)
Definition box_miss (triMin triMax : list num) (localOrigin localDir : vec3)
    (maxDistance : num) (t : nat) : bool :=
  let localEnd :=
    V3 (at0 localOrigin + at0 localDir * maxDistance)
       (at1 localOrigin + at1 localDir * maxDistance)
       (at2 localOrigin + at2 localDir * maxDistance) in
  let rayMinX := nmin (at0 localOrigin) (at0 localEnd) in
  let rayMinY := nmin (at1 localOrigin) (at1 localEnd) in
  let rayMinZ := nmin (at2 localOrigin) (at2 localEnd) in
  let rayMaxX := nmax (at0 localOrigin) (at0 localEnd) in
  let rayMaxY := nmax (at1 localOrigin) (at1 localEnd) in
  let rayMaxZ := nmax (at2 localOrigin) (at2 localEnd) in
  let minX := read_num triMin (Z.of_nat t * 3 + 0) in
  let minY := read_num triMin (Z.of_nat t * 3 + 1) in
  let minZ := read_num triMin (Z.of_nat t * 3 + 2) in
  let maxX := read_num triMax (Z.of_nat t * 3 + 0) in
  let maxY := read_num triMax (Z.of_nat t * 3 + 1) in
  let maxZ := read_num triMax (Z.of_nat t * 3 + 2) in
  (maxX <? rayMinX) || (minX >? rayMaxX) ||
  (maxY <? rayMinY) || (minY >? rayMaxY) ||
  (maxZ <? rayMinZ) || (minZ >? rayMaxZ).

(** One iteration of the loop: a rejected triangle is skipped
    ([continue]), the others go through the exact test. *)
Definition scan_step (positions : list Q) (triIndices : list Z) (triMin triMax : list num)
    (localOrigin localDir : vec3) (maxDistance : num) (s : Scan) (t : nat) : Scan :=
  if box_miss triMin triMax localOrigin localDir maxDistance t
  then s
  else scan_exact positions triIndices localOrigin localDir maxDistance s t.

Definition clamp (x : num) : num := nmin (nmax x (Fin 0)) (Fin 1).

(** The extents loop of the planar fallback.  An accumulator is [None]
    while it still holds its initial infinity. *)
Record Extents : Type := {
  ext_minX : option num;
  ext_minZ : option num;
  ext_maxX : option num;
  ext_maxZ : option num
}.

Definition lower (x : num) (acc : option num) : option num :=
  match acc with
  | None => if isfin x then Some x else None
  | Some m => if x <? m then Some x else acc
  end.

Definition raise (x : num) (acc : option num) : option num :=
  match acc with
  | None => if isfin x then Some x else None
  | Some m => if x >? m then Some x else acc
  end.

Definition extents_step (positions : list Q) (e : Extents) (i : nat) : Extents :=
  let x := read positions (Some (Z.of_nat i)) in
  let z := read positions (Some (Z.of_nat i + 2)%Z) in
  {| ext_minX := lower x (ext_minX e);
     ext_minZ := lower z (ext_minZ e);
     ext_maxX := raise x (ext_maxX e);
     ext_maxZ := raise z (ext_maxZ e) |}.

(** The values [i = 0, 3, 6, ...] below [n]. *)
Definition for_by3 (n : nat) : list nat :=
  map (fun k => (3 * k)%nat) (seq 0 (Nat.div (n + 2) 3)).

Definition extents (positions : list Q) : Extents :=
  fold_left (extents_step positions) (for_by3 (length positions))
    {| ext_minX := None; ext_minZ := None; ext_maxX := None; ext_maxZ := None |}.

(** [(h - min) / (max - min || 1)], clamped.  With no finite position the
    two accumulators are still infinite, and the quotient of infinities
    is [NaN]. *)
Definition planar_coord (h : num) (lo hi : option num) : num :=
  match lo, hi with
  | Some mn, Some mx => clamp ((h - mn) / nor (mx - mn) (Fin 1))
  | _, _ => NaN
  end.

Record UVResult : Type := {
  uv : num * num;
  triIndex : nat;
  localHit : vec3
}.

(** What follows the loop: the UV of the best hit. *)
Definition resolve_uv (this : MeshPaintable) (positions : list Q) (triIndices : list Z)
    (s : Scan) : option UVResult :=
  match bestTri s, bestLocalHit s with
  | Some bestTri, Some bestLocalHit =>
      match _uvsFlat this with
      | Some uvsFlat =>
          let vi0 := tri_vertex_index triIndices bestTri 0%Z in
          let vi1 := tri_vertex_index triIndices bestTri 1%Z in
          let vi2 := tri_vertex_index triIndices bestTri 2%Z in
          let u0 := read uvsFlat (idx vi0 2 0)%Z in
          let v0 := read uvsFlat (idx vi0 2 1)%Z in
          let u1 := read uvsFlat (idx vi1 2 0)%Z in
          let v1 := read uvsFlat (idx vi1 2 1)%Z in
          let u2 := read uvsFlat (idx vi2 2 0)%Z in
          let v2 := read uvsFlat (idx vi2 2 1)%Z in
          let w0 := Fin 1 - bestU s - bestV s in
          let w1 := bestU s in
          let w2 := bestV s in
          let finalU := w0 * u0 + w1 * u1 + w2 * u2 in
          let finalV := w0 * v0 + w1 * v1 + w2 * v2 in
          Some {| uv := (clamp finalU, clamp finalV);
                  triIndex := bestTri;
                  localHit := bestLocalHit |}
      | None =>
          if planarFallback this then
            let e := extents positions in
            let u := planar_coord (at0 bestLocalHit) (ext_minX e) (ext_maxX e) in
            let v := planar_coord (at2 bestLocalHit) (ext_minZ e) (ext_maxZ e) in
            Some {| uv := (u, v); triIndex := bestTri; localHit := bestLocalHit |}
          else None
      end
  | _, _ => None
  end.

Definition getUVFromLocalRay (this : MeshPaintable) (localOrigin localDir : vec3)
    (maxDistance : num) : option UVResult :=
  match _positionsFlat this, _triIndices this, _triMin this, _triMax this with
  | Some positions, Some triIndices, Some triMin, Some triMax =>
      let s :=
        fold_left
          (scan_step positions triIndices triMin triMax localOrigin localDir maxDistance)
          (for_lt (_triCount this)) scan_init in
      resolve_uv this positions triIndices s
  | _, _, _, _ => None
  end.

(** [paintAtUV]: the pixel centre of the dab, or nothing before
    [start()].  On exact numbers: [1 - cv] and the products are not
    rounded. *)
Definition paintAtUV (this : MeshPaintable) (u v : num) : option (num * num) :=
  if created this then
    let cu := nmin (nmax u (Fin 0)) (Fin 1) in
    let cv := nmin (nmax v (Fin 0)) (Fin 1) in
    let x := nfloor (cu * Fin (inject_Z (textureWidth this))) in
    let y := nfloor ((if flipY this then Fin 1 - cv else cv)
                     * Fin (inject_Z (textureHeight this))) in
    Some (x, y)
  else None.

Definition getCanvasSize (this : MeshPaintable) : Z * Z :=
  (textureWidth this, textureHeight this).

End MeshPaintable.
Export MeshPaintable.

(** ** Vocabulary of the statements *)

Module Vocabulary.

Local Open Scope Q_scope.

(** A vector of finite numbers as the program holds it, and back. *)
Definition fin3 (p : qvec) : vec3 :=
  let '(x, y, z) := p in V3 (Fin x) (Fin y) (Fin z).

Definition to_qvec (p : vec3) : option qvec :=
  match p with
  | V3 (Fin x) (Fin y) (Fin z) => Some (x, y, z)
  | _ => None
  end.

(** Triangle [t] of the cached arrays, when its three vertices are
    defined: every read of an index and of a coordinate stays inside its
    array. *)
Definition triangle_at (positions : list Q) (triIndices : list Z) (t : nat) : option triangle :=
  match to_qvec (vertex_at positions (tri_vertex_index triIndices t 0)),
        to_qvec (vertex_at positions (tri_vertex_index triIndices t 1)),
        to_qvec (vertex_at positions (tri_vertex_index triIndices t 2)) with
  | Some p0, Some p1, Some p2 => Some (p0, p1, p2)
  | _, _, _ => None
  end.

(** The outcome of the exact test on finite data, as a decision. *)
Definition mt_ok (o d : qvec) (tri : triangle) : bool :=
  negb (Qltb (- (1 # 100000000)) (mt_det d tri) && Qltb (mt_det d tri) (1 # 100000000))
  && negb (Qltb (mt_u o d tri) 0 || Qltb 1 (mt_u o d tri))
  && negb (Qltb (mt_v o d tri) 0 || Qltb 1 (mt_u o d tri + mt_v o d tri))
  && negb (Qleb (mt_t o d tri) (1 # 100000000)).

Definition valid_b (o d : qvec) (maxDistance : Q) (tri : triangle) : bool :=
  mt_ok o d tri && Qltb (1 # 1000000) (mt_t o d tri) && Qleb (mt_t o d tri) maxDistance.

(** The loop variables after a hit on triangle [k]. *)
Definition scan_of_hit (o d : qvec) (k : nat) (tri : triangle) : Scan :=
  {| closestT := Some (Fin (mt_t o d tri));
     bestTri := Some k;
     bestU := Fin (mt_u o d tri);
     bestV := Fin (mt_v o d tri);
     bestLocalHit := Some (fin3 (along o d (mt_t o d tri))) |}.

(** A cell of [triMin] or [triMax] as the scan reads it: the bound that
    [_buildMeshCaches] computed, or [NaN] past the end of the array. *)
Definition box_cell (r expected : num) : Prop := r = NaN \/ r = expected.

(** The bounding boxes are those of the triangles. *)
Definition boxes_consistent (positions : list Q) (triIndices : list Z)
    (triMin triMax : list num) : Prop :=
  forall t : nat,
    let p0 := vertex_at positions (tri_vertex_index triIndices t 0) in
    let p1 := vertex_at positions (tri_vertex_index triIndices t 1) in
    let p2 := vertex_at positions (tri_vertex_index triIndices t 2) in
    box_cell (read_num triMin (Z.of_nat t * 3 + 0)) (nmin3 (at0 p0) (at0 p1) (at0 p2)) /\
    box_cell (read_num triMin (Z.of_nat t * 3 + 1)) (nmin3 (at1 p0) (at1 p1) (at1 p2)) /\
    box_cell (read_num triMin (Z.of_nat t * 3 + 2)) (nmin3 (at2 p0) (at2 p1) (at2 p2)) /\
    box_cell (read_num triMax (Z.of_nat t * 3 + 0)) (nmax3 (at0 p0) (at0 p1) (at0 p2)) /\
    box_cell (read_num triMax (Z.of_nat t * 3 + 1)) (nmax3 (at1 p0) (at1 p1) (at1 p2)) /\
    box_cell (read_num triMax (Z.of_nat t * 3 + 2)) (nmax3 (at2 p0) (at2 p1) (at2 p2)).

(** Triangle [t] of a paintable's caches. *)
Definition triangle_of (this : MeshPaintable) (t : nat) : option triangle :=
  match _positionsFlat this, _triIndices this with
  | Some positions, Some triIndices => triangle_at positions triIndices t
  | _, _ => None
  end.

(** The loop variables hold the closest valid intersection among the
    triangles [l] already visited, or their initial values when none of
    them has one. *)
Definition best_among (positions : list Q) (triIndices : list Z) (o d : qvec) (maxD : Q)
    (l : list nat) (s : Scan) : Prop :=
  (s = scan_init /\
   forall t tri, In t l -> triangle_at positions triIndices t = Some tri ->
     ~ valid_intersection o d maxD tri) \/
  (exists k tri,
     In k l /\ triangle_at positions triIndices k = Some tri /\
     valid_intersection o d maxD tri /\ s = scan_of_hit o d k tri /\
     forall j tri', In j l -> triangle_at positions triIndices j = Some tri' ->
       valid_intersection o d maxD tri' -> mt_t o d tri <= mt_t o d tri').

(** A paintable as the engine holds it: the configured component after
    [start()]. *)
Definition paintable (w h : Z) (flip planar : bool) (meshComp : option Mesh) : MeshPaintable :=
  start (unstarted w h flip planar) meshComp.

(** The UV of vertex [k] of triangle [t], read from the flat UV array. *)
Definition vertex_uv (uvsFlat : list Q) (triIndices : list Z) (t : nat) (k : Z) : option (Q * Q) :=
  match tri_vertex_index triIndices t k with
  | Some vi =>
      match read uvsFlat (Some (vi * 2 + 0)%Z), read uvsFlat (Some (vi * 2 + 1)%Z) with
      | Fin a, Fin b => Some (a, b)
      | _, _ => None
      end
  | None => None
  end.

(** A point of the convex hull of three points of the plane. *)
Definition in_hull (p a b c : Q * Q) : Prop :=
  exists w0 w1 w2 : Q,
    0 <= w0 /\ 0 <= w1 /\ 0 <= w2 /\ w0 + w1 + w2 == 1 /\
    fst p == w0 * fst a + w1 * fst b + w2 * fst c /\
    snd p == w0 * snd a + w1 * snd b + w2 * snd c.

(** Least and greatest element of a list. *)
Definition least (m : Q) (l : list Q) : Prop := In m l /\ forall x, In x l -> m <= x.
Definition greatest (m : Q) (l : list Q) : Prop := In m l /\ forall x, In x l -> x <= m.

(** The denominator of the planar fallback: a zero extent counts as 1. *)
Definition extent (lo hi : Q) : Q := if Qeq_bool (hi - lo) 0 then 1 else hi - lo.

(** ** Fixtures *)

(** A flat square [-1,1] x [-1,1] in the local X/Z plane, without UVs. *)
Definition plane_no_uv : Mesh :=
  {| positionAttr := Some [(-1, 0, -1); (1, 0, -1); (1, 0, 1); (-1, 0, 1)];
     uvAttr := None;
     indexData := Some [0; 1; 2; 0; 2; 3]%Z |}.

(** The same four vertices without index data: three of them form the
    one complete triangle, the fourth starts a triple that has no
    second and third vertex. *)
Definition plane_unindexed : Mesh :=
  {| positionAttr := Some [(-1, 0, -1); (1, 0, -1); (1, 0, 1); (-1, 0, 1)];
     uvAttr := None;
     indexData := None |}.

(** The two-triangle unit quad of the specification, flat in the local
    X/Z plane. *)
Definition quad_xz : Mesh :=
  {| positionAttr :=
       Some [(-(1 # 2), 0, -(1 # 2)); (1 # 2, 0, -(1 # 2)); (1 # 2, 0, 1 # 2); (-(1 # 2), 0, 1 # 2)];
     uvAttr := Some [(0, 0); (1, 0); (1, 1); (0, 1)];
     indexData := Some [0; 1; 2; 0; 2; 3]%Z |}.

End Vocabulary.
Export Vocabulary.

(** ** MeshBrush.ts *)

Module MeshBrush.

Local Open Scope num_scope.

(** *** The color recognizer *)

Definition is_hex_digit (c : ascii) : bool :=
  let n := nat_of_ascii c in
  ((48 <=? n) && (n <=? 57) || (97 <=? n) && (n <=? 102) || (65 <=? n) && (n <=? 70))%nat.

(** The next [n] characters when they are all hex digits. *)
Fixpoint hex_digits (n : nat) (s : string) : option string :=
  match n with
  | O => Some EmptyString
  | S n' =>
      match s with
      | String c rest =>
          if is_hex_digit c
          then match hex_digits n' rest with
               | Some h => Some (String c h)
               | None => None
               end
          else None
      | EmptyString => None
      end
  end.

(** [name.match(/#([0-9a-fA-F]{6}|[0-9a-fA-F]{3})/)[0]]: the leftmost
    position where the pattern matches, six digits tried before three. *)
Fixpoint match_hex_color (name : string) : option string :=
  match name with
  | EmptyString => None
  | String c rest =>
      if Ascii.eqb c "#"
      then match hex_digits 6 rest with
           | Some h => Some (String "#" h)
           | None =>
               match hex_digits 3 rest with
               | Some h => Some (String "#" h)
               | None => match_hex_color rest
               end
           end
      else match_hex_color rest
  end.

Definition lower_ascii (c : ascii) : ascii :=
  let n := nat_of_ascii c in
  if ((65 <=? n) && (n <=? 90))%nat then ascii_of_nat (n + 32) else c.

(** [s.toLowerCase()]. *)
Fixpoint toLowerCase (s : string) : string :=
  match s with
  | EmptyString => EmptyString
  | String c rest => String (lower_ascii c) (toLowerCase rest)
  end.

(** [s.replace('#', '')]: the first [#] is removed. *)
Fixpoint remove_first_hash (s : string) : string :=
  match s with
  | EmptyString => EmptyString
  | String c rest => if Ascii.eqb c "#" then rest else String c (remove_first_hash rest)
  end.

(** [h.split('').map((c) => c + c).join('')]. *)
Fixpoint double_chars (s : string) : string :=
  match s with
  | EmptyString => EmptyString
  | String c rest => String c (String c (double_chars rest))
  end.

Definition hex_value (c : ascii) : Z :=
  let n := nat_of_ascii c in
  if ((48 <=? n) && (n <=? 57))%nat then Z.of_nat (n - 48)
  else if ((97 <=? n) && (n <=? 102))%nat then Z.of_nat (n - 87)
  else Z.of_nat (n - 55).

(** The value of the leading hex digits of [s], [acc] being the value of
    the digits already read. *)
Fixpoint hex_prefix (s : string) (acc : option Z) : option Z :=
  match s with
  | String c rest =>
      if is_hex_digit c
      then hex_prefix rest (Some (default 0%Z acc * 16 + hex_value c)%Z)
      else acc
  | EmptyString => acc
  end.

(** [parseInt(s, 16)] on a string that starts with its digits: the value
    of the leading hex digits, [None] (for [NaN]) when there is none.
    The callers pass two characters of the hex digits the pattern
    matched; leading blanks, a sign or a [0x] prefix do not occur. *)
Definition parseInt16 (s : string) : option Z := hex_prefix s None.

Definition _hexToRgbNormalized (hex : string) : option (Q * Q * Q) :=
  let h := remove_first_hash hex in
  let h' :=
    if Nat.eqb (String.length h) 3 then Some (double_chars h)
    else if negb (Nat.eqb (String.length h) 6) then None
    else Some h in
  match h' with
  | None => None
  | Some h =>
      match parseInt16 (substring 0 2 h), parseInt16 (substring 2 2 h),
            parseInt16 (substring 4 2 h) with
      | Some r, Some g, Some b =>
          Some (inject_Z r / 255, inject_Z g / 255, inject_Z b / 255)%Q
      | _, _, _ => None
      end
  end.

(** *** The brush *)

Definition color : Type := (Q * Q * Q * Q)%type.
Definition tri_verts : Type := (option Z * option Z * option Z)%type.

Record MeshBrush : Type := {
  brushRadiusPx : Q;
  brushColor : color;
  paintOnProximity : bool;
  brushWorldRadius : Q;
  maxDistance : Q;
  _lastUVPerObject : gmap Z (num * num);
  _lastTriPerObject : gmap Z tri_verts;
  _contactLostPerObject : gmap Z bool
}.

(** The component as configured, before its first frame. *)
Definition new_brush (radiusPx : Q) (c : color) (proximity : bool)
    (worldRadius maxDist : Q) : MeshBrush :=
  {| brushRadiusPx := radiusPx; brushColor := c; paintOnProximity := proximity;
     brushWorldRadius := worldRadius; maxDistance := maxDist;
     _lastUVPerObject := ∅; _lastTriPerObject := ∅; _contactLostPerObject := ∅ |}.

Definition set_brushColor (c : color) (this : MeshBrush) : MeshBrush :=
  {| brushRadiusPx := brushRadiusPx this; brushColor := c;
     paintOnProximity := paintOnProximity this;
     brushWorldRadius := brushWorldRadius this; maxDistance := maxDistance this;
     _lastUVPerObject := _lastUVPerObject this;
     _lastTriPerObject := _lastTriPerObject this;
     _contactLostPerObject := _contactLostPerObject this |}.

Definition set_lastUV (m : gmap Z (num * num)) (this : MeshBrush) : MeshBrush :=
  {| brushRadiusPx := brushRadiusPx this; brushColor := brushColor this;
     paintOnProximity := paintOnProximity this;
     brushWorldRadius := brushWorldRadius this; maxDistance := maxDistance this;
     _lastUVPerObject := m;
     _lastTriPerObject := _lastTriPerObject this;
     _contactLostPerObject := _contactLostPerObject this |}.

Definition set_lastTri (m : gmap Z tri_verts) (this : MeshBrush) : MeshBrush :=
  {| brushRadiusPx := brushRadiusPx this; brushColor := brushColor this;
     paintOnProximity := paintOnProximity this;
     brushWorldRadius := brushWorldRadius this; maxDistance := maxDistance this;
     _lastUVPerObject := _lastUVPerObject this;
     _lastTriPerObject := m;
     _contactLostPerObject := _contactLostPerObject this |}.

Definition set_contactLost (m : gmap Z bool) (this : MeshBrush) : MeshBrush :=
  {| brushRadiusPx := brushRadiusPx this; brushColor := brushColor this;
     paintOnProximity := paintOnProximity this;
     brushWorldRadius := brushWorldRadius this; maxDistance := maxDistance this;
     _lastUVPerObject := _lastUVPerObject this;
     _lastTriPerObject := _lastTriPerObject this;
     _contactLostPerObject := m |}.

(** What a frame leaves behind besides the brush's own state: the calls
    of [paintAtUV] on the hit paintable, and the call of the
    [onPickedColor] hook together with the brush color it finds. *)
Inductive Event : Type :=
  | PaintAtUV (u v : num) (radiusPx : Q) (colorRGBA : color)
  | PickedColor (hex : string) (seen : color).

(** Returns the lower-cased match and sets [brushColor], or returns
    nothing and leaves the brush alone. *)
Definition _tryPickColorFromName (this : MeshBrush) (name : option string)
    : MeshBrush * option string :=
  match name with
  | None | Some EmptyString => (this, None)
  | Some name =>
      match match_hex_color name with
      | None => (this, None)
      | Some hex =>
          match _hexToRgbNormalized hex with
          | None => (this, None)
          | Some (r, g, b) => (set_brushColor (r, g, b, 1%Q) this, Some (toLowerCase hex))
          end
      end
  end.

(** The default hook logs the color; the event records what it sees. *)
Definition onPickedColor (this : MeshBrush) (hex : string) : list Event :=
  [PickedColor hex (brushColor this)].

(** The engine's answer for the struck object. *)
Record Object3D : Type := {
  name : option string;
  objectId : option Z;
  meshPaintable : option MeshPaintable;
  transformPointInverseWorld : vec3 -> vec3
}.

Record RayHit : Type := {
  hitCount : Z;
  location0 : vec3;
  object0 : option Object3D
}.

(** One frame of the host: the pose of the brush object and the answer
    of the physics ray cast. *)
Record Frame : Type := {
  worldOrigin : vec3;
  worldDir : vec3;
  rayHit : option RayHit
}.

Definition to_int32 (x : Z) : Z := ((x + 2147483648) mod 4294967296 - 2147483648)%Z.

(** The hash loop of [_stableObjectId].  A character of a name stands
    for the UTF-16 code unit of the same number: the names of this
    development are those whose code units are below 256. *)
Fixpoint hash_chars (s : string) (h : Z) : Z :=
  match s with
  | EmptyString => h
  | String c rest =>
      hash_chars rest (to_int32 (to_int32 (h * 32) - h + Z.of_nat (nat_of_ascii c)))
  end.

Definition _stableObjectId (obj : Object3D) : Z :=
  match objectId obj with
  | Some id => id
  | None =>
      let name := default "anonymous_obj"%string (name obj) in
      let h := hash_chars name 0 in
      if (Z.abs h =? 0)%Z then 1%Z else Z.abs h
  end.

Definition _getTriangleVertexIndices (paintable : MeshPaintable) (triIndex : nat)
    : option tri_verts :=
  match _triIndices paintable with
  | None => None
  | Some triIndices =>
      let base := (Z.of_nat triIndex * 3)%Z in
      Some (read_int triIndices (base + 0), read_int triIndices (base + 1),
            read_int triIndices (base + 2))
  end.

(** [a === b] on two reads of an index array. *)
Definition same_index (a b : option Z) : bool := bool_decide (a = b).

Definition shares_vertex (c l : tri_verts) : bool :=
  let '(c0, c1, c2) := c in
  let '(l0, l1, l2) := l in
  same_index c0 l0 || same_index c0 l1 || same_index c0 l2 ||
  same_index c1 l0 || same_index c1 l1 || same_index c1 l2 ||
  same_index c2 l0 || same_index c2 l1 || same_index c2 l2.

(** The values [s = 0, 1, ...] of a loop [for (s = 0; s <= n; s++)]. *)
Definition for_le (n : num) : list nat :=
  match n with
  | Fin q => if Qltb q 0 then [] else seq 0 (Z.to_nat (Qfloor q) + 1)
  | NaN => []
  end.

Definition fin_of_nat (n : nat) : num := Fin (inject_Z (Z.of_nat n)).

(** The flag of every key of the last-UV map is set. *)
Definition mark_all_lost (this : MeshBrush) : MeshBrush :=
  set_contactLost
    (map_fold (fun key _ m => <[key := true]> m) (_contactLostPerObject this)
       (_lastUVPerObject this))
    this.

(** The flag of the hit object itself, when it has an id. *)
Definition mark_hit_lost (this : MeshBrush) (hitObj : Object3D) : MeshBrush :=
  match objectId hitObj with
  | Some id => set_contactLost (<[id := true]> (_contactLostPerObject this)) this
  | None => this
  end.

(** The continuity of one object is dropped. *)
Definition end_stroke (this : MeshBrush) (id : Z) : MeshBrush :=
  set_contactLost (<[id := true]> (_contactLostPerObject this))
    (set_lastTri (delete id (_lastTriPerObject this))
       (set_lastUV (delete id (_lastUVPerObject this)) this)).

Section Frames.

(** [Math.sqrt] as the host computes it; [Math.hypot] is [NaN] as soon
    as one argument is. *)
Variable sqrt : Q -> Q.

Fixpoint sum_squares (l : list num) : num :=
  match l with
  | [] => Fin 0
  | x :: l' => x * x + sum_squares l'
  end.

Definition hypot (l : list num) : num :=
  match sum_squares l with
  | Fin q => Fin (sqrt q)
  | NaN => NaN
  end.

(** The world ray, from the origin to the point at [maxDistance],
    brought into the local space of the hit object. *)
Definition to_local_ray (this : MeshBrush) (env : Frame) (hitObj : Object3D) : vec3 * vec3 :=
  let md := Fin (maxDistance this) in
  let worldEnd :=
    V3 (at0 (worldOrigin env) + at0 (worldDir env) * md)
       (at1 (worldOrigin env) + at1 (worldDir env) * md)
       (at2 (worldOrigin env) + at2 (worldDir env) * md) in
  let localOrigin := transformPointInverseWorld hitObj (worldOrigin env) in
  let localEnd := transformPointInverseWorld hitObj worldEnd in
  let d0 := at0 localEnd - at0 localOrigin in
  let d1 := at1 localEnd - at1 localOrigin in
  let d2 := at2 localEnd - at2 localOrigin in
  let len := nor (hypot [d0; d1; d2]) (Fin 1) in
  (localOrigin, V3 (d0 / len) (d1 / len) (d2 / len)).

(** The distance from the brush tip to the world position of the hit. *)
Definition worldDist (env : Frame) (hitWorldPos : vec3) : num :=
  let dx := at0 (worldOrigin env) - at0 hitWorldPos in
  let dy := at1 (worldOrigin env) - at1 hitWorldPos in
  let dz := at2 (worldOrigin env) - at2 hitWorldPos in
  hypot [dx; dy; dz].

Definition withinRange (this : MeshBrush) (dist : num) : bool :=
  if negb (paintOnProximity this) then false
  else dist <=? Fin (brushWorldRadius this).

(** The number of interpolation steps between two UVs. *)
Definition stepCount (this : MeshBrush) (canvasSize : Z * Z) (lastUV uv : num * num) : num :=
  let width := Fin (inject_Z (fst canvasSize)) in
  let height := Fin (inject_Z (snd canvasSize)) in
  let dxuv := fst uv * width - fst lastUV * width in
  let dyuv := snd uv * height - snd lastUV * height in
  let distuv := hypot [dxuv; dyuv] in
  let stepSize := nmax (Fin 1) (nfloor (Fin (brushRadiusPx this) * Fin (1 # 2))) in
  nmax (Fin 1) (nceil (distuv / stepSize)).

(** The dab of the loop at [s]. *)
Definition dab_at (this : MeshBrush) (lastUV : option (num * num)) (uv : num * num)
    (steps : num) (s : nat) : Event :=
  let t := if neqb steps (Fin 0) then Fin 0 else fin_of_nat s / steps in
  let iu := match lastUV with
            | Some l => fst l * (Fin 1 - t) + fst uv * t
            | None => fst uv
            end in
  let iv := match lastUV with
            | Some l => snd l * (Fin 1 - t) + snd uv * t
            | None => snd uv
            end in
  PaintAtUV iu iv (brushRadiusPx this) (brushColor this).

(** The frame from the point where the paintable has resolved a UV. *)
Definition stroke (this : MeshBrush) (env : Frame) (hitWorldPos : vec3)
    (hitObj : Object3D) (paintable : MeshPaintable) (uvResult : UVResult)
    : MeshBrush * list Event :=
  let uv := uv uvResult in
  let triIndex := triIndex uvResult in
  let canvasSize := getCanvasSize paintable in
  let objectId := _stableObjectId hitObj in
  if negb (withinRange this (worldDist env hitWorldPos))
  then (end_stroke this objectId, [])
  else
    let this :=
      match _contactLostPerObject this !! objectId with
      | Some true =>
          set_contactLost (<[objectId := false]> (_contactLostPerObject this))
            (set_lastTri (delete objectId (_lastTriPerObject this))
               (set_lastUV (delete objectId (_lastUVPerObject this)) this))
      | _ => this
      end in
    let lastUV := _lastUVPerObject this !! objectId in
    let lastTri := _lastTriPerObject this !! objectId in
    let doInterpolate :=
      match lastUV, lastTri with
      | Some _, Some lastTriArr =>
          match _getTriangleVertexIndices paintable triIndex with
          | Some currTriIndices => shares_vertex currTriIndices lastTriArr
          | None => false
          end
      | _, _ => false
      end in
    let steps :=
      match lastUV with
      | Some l => if doInterpolate then stepCount this canvasSize l uv else Fin 1
      | None => Fin 1
      end in
    let dabs :=
      if negb doInterpolate
      then [PaintAtUV (fst uv) (snd uv) (brushRadiusPx this) (brushColor this)]
      else map (dab_at this lastUV uv steps) (for_le steps) in
    let this := set_lastUV (<[objectId := uv]> (_lastUVPerObject this)) this in
    let this :=
      match _getTriangleVertexIndices paintable triIndex with
      | Some currTriVerts =>
          set_lastTri (<[objectId := currTriVerts]> (_lastTriPerObject this)) this
      | None => this
      end in
    let this := set_contactLost (<[objectId := false]> (_contactLostPerObject this)) this in
    (this, dabs).

Definition update (this : MeshBrush) (env : Frame) : MeshBrush * list Event :=
  match rayHit env with
  | None => (mark_all_lost this, [])
  | Some rayHit =>
      if (hitCount rayHit =? 0)%Z then (mark_all_lost this, [])
      else
        let hitWorldPos := location0 rayHit in
        match object0 rayHit with
        | None => (mark_all_lost this, [])
        | Some hitObj =>
            match _tryPickColorFromName this (name hitObj) with
            | (this, Some picked) =>
                let this := end_stroke this (_stableObjectId hitObj) in
                (this, onPickedColor this picked)
            | (this, None) =>
                match meshPaintable hitObj with
                | None => (mark_hit_lost this hitObj, [])
                | Some paintable =>
                    let '(localOrigin, localDir) := to_local_ray this env hitObj in
                    match getUVFromLocalRay paintable localOrigin localDir
                            (Fin (maxDistance this)) with
                    | None => (mark_hit_lost this hitObj, [])
                    | Some uvResult =>
                        stroke this env hitWorldPos hitObj paintable uvResult
                    end
                end
            end
        end
  end.

End Frames.

(** A square root on rationals for running frames: exact on the squares
    of rationals, rounded down to a multiple of 1/denominator otherwise. *)
Definition sqrt_floor (q : Q) : Q :=
  let q' := Qred q in
  Z.sqrt (Qnum q' * Zpos (Qden q')) # Qden q'.

End MeshBrush.
Export MeshBrush.

(** ** Vocabulary of the statements about frames *)

Module FrameVocabulary.

Local Open Scope Q_scope.

(** The color token at the head of [s]: [#] followed by six hex digits,
    or else [#] followed by three. *)
Definition token_at_head (s : string) : option string :=
  match s with
  | String c rest =>
      if Ascii.eqb c "#"
      then match hex_digits 6 rest with
           | Some h => Some (String "#" h)
           | None =>
               match hex_digits 3 rest with
               | Some h => Some (String "#" h)
               | None => None
               end
           end
      else None
  | EmptyString => None
  end.

(** [s] without its first [i] characters. *)
Fixpoint string_drop (i : nat) (s : string) : string :=
  match i, s with
  | O, _ => s
  | S i', String _ rest => string_drop i' rest
  | S _, EmptyString => EmptyString
  end.

(** The dabs of a frame: the UVs of its [paintAtUV] calls, in order. *)
Definition dabs (evs : list Event) : list (num * num) :=
  flat_map (fun e => match e with
                     | PaintAtUV u v _ _ => [(u, v)]
                     | PickedColor _ _ => []
                     end) evs.

(** The frame has a first hit on an object whose name holds no color,
    that carries a paintable, and the paintable resolves the local ray
    to a UV. *)
Definition resolved_hit (sqrt : Q -> Q) (this : MeshBrush) (env : Frame) (rh : RayHit)
    (hitObj : Object3D) (mp : MeshPaintable) (r : UVResult) : Prop :=
  rayHit env = Some rh /\ hitCount rh <> 0%Z /\ object0 rh = Some hitObj /\
  snd (_tryPickColorFromName this (name hitObj)) = None /\
  meshPaintable hitObj = Some mp /\
  getUVFromLocalRay mp (fst (to_local_ray sqrt this env hitObj))
    (snd (to_local_ray sqrt this env hitObj)) (Fin (maxDistance this)) = Some r.

(** A pair of numbers. *)
Definition finite_uv (p : num * num) : Prop := exists a b, p = (Fin a, Fin b).

(** Every stored UV is a pair of numbers. *)
Definition brush_ok (this : MeshBrush) : Prop :=
  forall id p, _lastUVPerObject this !! id = Some p -> finite_uv p.

(** A paintable that went through [start()]. *)
Definition started (mp : MeshPaintable) : Prop :=
  exists w h flip planar meshComp, mp = paintable w h flip planar meshComp.

(** The paintable of the struck object, when there is one, is started. *)
Definition frame_ok (env : Frame) : Prop :=
  forall rh obj mp,
    rayHit env = Some rh -> object0 rh = Some obj -> meshPaintable obj = Some mp ->
    started mp.

(** The states of a brush over the frames of a host whose paintables
    are started. *)
Inductive reachable (sqrt : Q -> Q) : MeshBrush -> Prop :=
  | reach_new radiusPx c proximity worldRadius maxDist :
      reachable sqrt (new_brush radiusPx c proximity worldRadius maxDist)
  | reach_update this env :
      reachable sqrt this -> frame_ok env -> reachable sqrt (fst (update sqrt this env)).

(** The pixel distance between two UVs on a raster, as [Math.hypot]
    forms it. *)
Definition pixel_distance (sqrt : Q -> Q) (canvasSize : Z * Z) (last cur : Q * Q) : Q :=
  let dx := fst cur * inject_Z (fst canvasSize) - fst last * inject_Z (fst canvasSize) in
  let dy := snd cur * inject_Z (snd canvasSize) - snd last * inject_Z (snd canvasSize) in
  sqrt (dx * dx + (dy * dy + 0)).

(** steps = max(1, ceil(distance / max(1, floor(radius * 0.5)))). *)
Definition steps_between (sqrt : Q -> Q) (radiusPx : Q) (canvasSize : Z * Z)
    (last cur : Q * Q) : Z :=
  Z.max 1 (Qceiling (pixel_distance sqrt canvasSize last cur
                     / Qmax2 1 (inject_Z (Qfloor (radiusPx * (1 # 2)))))).

(** The point at fraction [s / steps] of the way from [last] to [cur]. *)
Definition lerp_uv (last cur : Q * Q) (steps : Z) (s : nat) : num * num :=
  let t := inject_Z (Z.of_nat s) / inject_Z steps in
  (Fin (fst last * (1 - t) + fst cur * t), Fin (snd last * (1 - t) + snd cur * t)).


(** *** Fixtures *)

Definition default_brush : MeshBrush := new_brush 10 (0, 0, 0, 1) true (1 # 20) 10.

(** An object that carries the unit quad, in its own frame. *)
Definition quad_object (nm : string) (id : Z) : Object3D :=
  {| name := Some nm; objectId := Some id;
     meshPaintable := Some (paintable 8 8 true true (Some quad_xz));
     transformPointInverseWorld := fun p => p |}.

(** An object without a paintable. *)
Definition bare_object (nm : string) (id : Z) : Object3D :=
  {| name := Some nm; objectId := Some id; meshPaintable := None;
     transformPointInverseWorld := fun p => p |}.

(** The brush held [height] above the point (x, 0, z), looking down. *)
Definition frame_above (x z height : Q) (obj : Object3D) : Frame :=
  {| worldOrigin := V3 (Fin x) (Fin height) (Fin z);
     worldDir := V3 (Fin 0) (Fin (-1)) (Fin 0);
     rayHit := Some {| hitCount := 1;
                       location0 := V3 (Fin x) (Fin 0) (Fin z);
                       object0 := Some obj |} |}.

(** Two consecutive frames of one stroke across the diagonal of the
    quad, and the brush between them. *)
Definition stroke_start : Frame :=
  frame_above (-(1 # 4)) (-(1 # 8)) (1 # 50) (quad_object "Quad" 7).

Definition stroke_next : Frame :=
  frame_above (1 # 4) (-(1 # 8)) (1 # 50) (quad_object "Quad" 7).

Definition brush_in_stroke : MeshBrush :=
  fst (update sqrt_floor default_brush stroke_start).

(** The same pose, too far above the quad. *)
Definition stroke_far : Frame :=
  frame_above (1 # 4) (-(1 # 8)) (1 # 2) (quad_object "Quad" 7).

(** A swatch of the palette under the brush. *)
Definition swatch_frame : Frame :=
  frame_above 0 0 (1 # 50) (quad_object "Palette_#1a2b3c_swatch" 7).

Definition frame_no_hit : Frame :=
  {| worldOrigin := V3 (Fin 0) (Fin 1) (Fin 0);
     worldDir := V3 (Fin 0) (Fin (-1)) (Fin 0);
     rayHit := None |}.

End FrameVocabulary.
Export FrameVocabulary.

(** ** The calls on the canvas *)

Module CanvasCalls.

Local Open Scope num_scope.

(** [Math.round]: the nearest integer, a half rounded up. *)
Definition nround (a : num) : num := nfloor (a + Fin (1 # 2)).

(** A fill style: the text [rgba(r,g,b,a)] built from four numbers, or
    a color name. *)
Inductive Style : Type :=
  | Rgba (r g b a : num)
  | Named (name : string).

(** The calls the component makes on its 2D context and its texture.
    [Arc x y radius] is the full circle [arc(x, y, radius, 0, 2 pi)]. *)
Inductive Call : Type :=
  | BeginPath
  | SetFillStyle (s : Style)
  | Arc (x y radius : num)
  | Fill
  | FillRect (x y w h : num)
  | PutImageData (w h : Z) (data : list Z)
  | TextureUpdate.

(** [rgba(${Math.round(c[0] * 255)}, ..., ${c[3]})]. *)
Definition rgba_of (c : color) : Style :=
  let '(r, g, b, a) := c in
  Rgba (nround (Fin r * Fin 255)) (nround (Fin g * Fin 255)) (nround (Fin b * Fin 255)) (Fin a).

(** [paintAtUV] with its drawing: the dab, the magenta mark on top of
    it when [markPaintOnCanvas] is set, and the texture update.  On
    exact numbers: 0.4 is taken as 2/5. *)
Definition paintAtUV_calls (this : MeshPaintable) (markPaintOnCanvas : bool)
    (u v : num) (radiusPx : Q) (colorRGBA : color) : list Call :=
  match paintAtUV this u v with
  | None => []
  | Some (x, y) =>
      [BeginPath; SetFillStyle (rgba_of colorRGBA); Arc x y (Fin radiusPx); Fill] ++
      (if markPaintOnCanvas
       then [BeginPath; SetFillStyle (Named "magenta");
             Arc x y (nmax (Fin 2) (nfloor (Fin radiusPx * Fin (2 # 5)))); Fill]
       else []) ++
      [TextureUpdate]
  end.

End CanvasCalls.
Export CanvasCalls.

(** ** MeshPaintable.ts: the areas of the triangles *)

Module MeshAreas.

Local Open Scope num_scope.

(** What [_buildMeshCaches] also stores: the area of every triangle,
    the running sums of the areas and their total. *)
Record AreaCaches : Type := {
  _triAreas : list num;
  _triCum : list num;
  _triTotalArea : num
}.

(** A number that is an index of an array: a non-negative integer. *)
Definition is_index (q : Q) : bool := Qeq_bool (inject_Z (Qfloor q)) q && Qleb 0 q.

Section Areas.

Variable sqrt : Q -> Q.

(** [0.5 * Math.hypot(cx, cy, cz)] for the cross product of two edges
    of triangle [t]. *)
Definition tri_area (positions : list Q) (triIndices : list Z) (t : nat) : num :=
  let tmp0 := vertex_at positions (tri_vertex_index triIndices t 0%Z) in
  let tmp1 := vertex_at positions (tri_vertex_index triIndices t 1%Z) in
  let tmp2 := vertex_at positions (tri_vertex_index triIndices t 2%Z) in
  let abx := at0 tmp1 - at0 tmp0 in
  let aby := at1 tmp1 - at1 tmp0 in
  let abz := at2 tmp1 - at2 tmp0 in
  let acx := at0 tmp2 - at0 tmp0 in
  let acy := at1 tmp2 - at1 tmp0 in
  let acz := at2 tmp2 - at2 tmp0 in
  let cx := aby * acz - abz * acy in
  let cy := abz * acx - abx * acz in
  let cz := abx * acy - aby * acx in
  Fin (1 # 2) * hypot sqrt [cx; cy; cz].

(** One iteration of the loop of the running sums: [triCum[t] = cum]
    and [cum += triAreas[t]]. *)
Definition cum_step (triAreas : list num) (st : list num * num) (t : nat) : list num * num :=
  let '(cells, cum) := st in
  (cells ++ [cum], cum + read_num triAreas (Z.of_nat t)).

(** The last three arrays of [_buildMeshCaches] and the total.  The
    write [triCum[triCount] = cum] lands in the array only when
    [triCount] is an index.  The local [totalArea], which is summed in
    the area loop and never read, is left out.  On exact numbers: the
    cells hold the values as computed, not rounded to binary32. *)
Definition build_area_caches (positions : list Q) (triIndices : list Z) (triCount : Q)
    : AreaCaches :=
  let triAreas :=
    typed_array triCount (map (tri_area positions triIndices) (for_lt triCount)) in
  let '(cells, cum) := fold_left (cum_step triAreas) (for_lt triCount) ([], Fin 0) in
  let triCum :=
    typed_array (triCount + 1)%Q (cells ++ (if is_index triCount then [cum] else [])) in
  {| _triAreas := triAreas; _triCum := triCum; _triTotalArea := cum |}.

(** The area caches of a component, from the arrays it has built. *)
Definition area_caches (this : MeshPaintable) : option AreaCaches :=
  match _positionsFlat this, _triIndices this with
  | Some positions, Some triIndices =>
      Some (build_area_caches positions triIndices (_triCount this))
  | _, _ => None
  end.

End Areas.

End MeshAreas.
Export MeshAreas.

(** ** MeshPaintable.ts: [start()] with its drawing, and [drawUvDebug] *)

Module UvDebug.

Local Open Scope num_scope.

(** How a call ends. *)
Inductive Completion : Type := Returns | Throws.

(** The values [x = 0, size, 2 size, ...] of a loop
    [for (x = 0; x < n; x += size)]. *)
Definition for_by (size n : Z) : list Z :=
  map (fun k => (Z.of_nat k * size)%Z) (seq 0 (Z.to_nat ((n + size - 1) / size))).

(** The values [x = 0, 1, ...] below [n]. *)
Definition for_below (n : Z) : list Z := map Z.of_nat (seq 0 (Z.to_nat n)).

(** The checkerboard of 32-pixel cells. *)
Definition checker (w h : Z) : list Call :=
  flat_map (fun y =>
    flat_map (fun x =>
      let even := (Z.rem (to_int32 (x / 32) + to_int32 (y / 32)) 2 =? 0)%Z in
      [SetFillStyle (if even
                     then Rgba (Fin 200) (Fin 200) (Fin 200) (Fin (9 # 10))
                     else Rgba (Fin 80) (Fin 80) (Fin 80) (Fin (9 # 10)));
       FillRect (Fin (inject_Z x)) (Fin (inject_Z y)) (Fin 32) (Fin 32)])
      (for_by 32 w))
    (for_by 32 h).

(** A store into a [Uint8ClampedArray]: [NaN] becomes 0, a number is
    rounded to the nearest integer, a half to the even one, and clamped
    to 0..255. *)
Definition to_uint8_clamped (a : num) : Z :=
  match a with
  | NaN => 0%Z
  | Fin q =>
      let f := Qfloor q in
      let r := (q - inject_Z f)%Q in
      let n := if Qltb r (1 # 2) then f
               else if Qltb (1 # 2) r then (f + 1)%Z
               else if Z.even f then f else (f + 1)%Z in
      Z.max 0 (Z.min 255 n)
  end.

(** The image of the UV gradient: four bytes per pixel, row by row. *)
Definition uv_image (w h : Z) : list Z :=
  flat_map (fun yy =>
    flat_map (fun xx =>
      [to_uint8_clamped (nround (Fin (inject_Z xx) / Fin (inject_Z (w - 1)) * Fin 255));
       to_uint8_clamped (nround (Fin (inject_Z yy) / Fin (inject_Z (h - 1)) * Fin 255));
       128%Z; 255%Z])
      (for_below w))
    (for_below h).

(** [drawUvDebug] on a canvas of [w] by [h] pixels.  [createImageData]
    refuses an empty image; the last statement calls [update] on
    [this.canvasTexture], which throws while that field is still
    unassigned. *)
Definition drawUvDebug (canvasTexture : bool) (w h : Z) : list Call * Completion :=
  let calls := checker w h in
  if ((w =? 0) || (h =? 0))%Z then (calls, Throws)
  else
    let calls := calls ++ [PutImageData w h (uv_image w h)] in
    if canvasTexture then (calls ++ [TextureUpdate], Returns) else (calls, Throws).

Record Started : Type := {
  component : MeshPaintable;
  calls : list Call;
  completion : Completion
}.

(** [start()] with the drawing that [MeshPaintable.start] leaves out:
    the canvas is filled with [initialColor]; with [showUvDebug] the
    debug pattern is drawn next, before the texture of the canvas is
    created; what follows (the texture, the material, [created] and the
    caches) is reached only when that call returns. *)
Definition start_drawing (initialColor : color) (showUvDebug : bool)
    (this : MeshPaintable) (meshComp : option Mesh) : Started :=
  match meshComp with
  | None => {| component := this; calls := []; completion := Returns |}
  | Some mesh =>
      let w := textureWidth this in
      let h := textureHeight this in
      let fill := [SetFillStyle (rgba_of initialColor);
                   FillRect (Fin 0) (Fin 0) (Fin (inject_Z w)) (Fin (inject_Z h))] in
      let '(debug, c) :=
        if showUvDebug then drawUvDebug false w h else ([], Returns) in
      match c with
      | Throws => {| component := this; calls := fill ++ debug; completion := Throws |}
      | Returns =>
          {| component := start this meshComp; calls := fill ++ debug;
             completion := Returns |}
      end
  end.

End UvDebug.
Export UvDebug.

(** ** The editor plugin *)

Module CustomPlugin.

Local Open Scope num_scope.

(** [_count] holds a number until the countdown ends, then the text
    [":)"]. *)
Inductive Count : Type :=
  | Num (n : num)
  | Smiley.

(** The two functions handed to [setTimeout]: the bound [count] method
    and the arrow function inside it. *)
Inductive Callback : Type := CallCount | Tick.

(** The plugin and the timers it has pending, each with the time in
    milliseconds at which it is due, in the order they were set.  All
    delays are equal, so this is also the order in which they fire. *)
Record Plugin : Type := {
  name : string;
  _count : Count;
  timers : list (Z * Callback);
  clock : Z
}.

Definition setTimeout (cb : Callback) (delay : Z) (p : Plugin) : Plugin :=
  {| name := name p; _count := _count p;
     timers := timers p ++ [((clock p + delay)%Z, cb)]; clock := clock p |}.

Definition set_count (c : Count) (p : Plugin) : Plugin :=
  {| name := name p; _count := c; timers := timers p; clock := clock p |}.

Definition constructor : Plugin :=
  setTimeout CallCount 1000
    {| name := "CustomPlugin"; _count := Num (Fin 10); timers := []; clock := 0 |}.

Definition count (p : Plugin) : Plugin := setTimeout Tick 1000 p.

(** [this._count--]: the text [":)"] read as a number is [NaN]. *)
Definition decrement (c : Count) : num :=
  match c with
  | Num n => n - Fin 1
  | Smiley => NaN
  end.

(** The arrow function of [count]. *)
Definition tick (p : Plugin) : Plugin :=
  let c := decrement (_count p) in
  let p := set_count (Num c) p in
  if c >? Fin 0 then count p else set_count Smiley p.

(** The host runs the timer that is due first. *)
Definition fire (p : Plugin) : Plugin :=
  match timers p with
  | [] => p
  | (due, cb) :: rest =>
      let p := {| name := name p; _count := _count p; timers := rest; clock := due |} in
      match cb with
      | CallCount => count p
      | Tick => tick p
      end
  end.

(** [draw()]: the label is the text [Explosion in: ] followed by the
    count. *)
Definition draw (p : Plugin) : string * Count := ("Explosion in: "%string, _count p).

End CustomPlugin.

Module GeometryVocabulary.

Local Open Scope Q_scope.

(** Equality of points up to the value of the fractions. *)
Definition qvec_eq (a b : qvec) : Prop :=
  let '(ax, ay, az) := a in
  let '(bx, b_y, bz) := b in
  ax == bx /\ ay == b_y /\ az == bz.

(** The point of a triangle with barycentric weights (1-u-v, u, v). *)
Definition barycentric (tri : triangle) (u v : Q) : qvec :=
  let '(p0, p1, p2) := tri in
  let '(ax, ay, az) := p0 in
  let '(bx, b_y, bz) := p1 in
  let '(cx, cy, cz) := p2 in
  ((1 - u - v) * ax + u * bx + v * cx,
   (1 - u - v) * ay + u * b_y + v * cy,
   (1 - u - v) * az + u * bz + v * cz).

(** The three coordinates of a vector are numbers. *)
Definition defined3 (p : vec3) : bool := isfin (at0 p) && isfin (at1 p) && isfin (at2 p).

End GeometryVocabulary.
Export GeometryVocabulary.

Module IdentityVocabulary.

(** The value of a string read as a number in base 31, its character
    codes as digits, continued from [acc]. *)
Fixpoint base31 (s : string) (acc : Z) : Z :=
  match s with
  | EmptyString => acc
  | String c rest => base31 rest (acc * 31 + Z.of_nat (nat_of_ascii c))%Z
  end.

End IdentityVocabulary.
Export IdentityVocabulary.

Module StrokeVocabulary.

Local Open Scope Q_scope.

(** The three maps of a brush agree on what is tracked: an identity has
    a stored triangle exactly when it has a stored UV, every identity
    with a stored UV has a contact-lost flag, and a clear flag belongs
    to an identity with a stored UV. *)
Definition tracked_ok (this : MeshBrush) : Prop :=
  forall id : Z,
    (is_Some (_lastTriPerObject this !! id) <-> is_Some (_lastUVPerObject this !! id)) /\
    (is_Some (_lastUVPerObject this !! id) -> is_Some (_contactLostPerObject this !! id)) /\
    (_contactLostPerObject this !! id = Some false -> is_Some (_lastUVPerObject this !! id)).

(** A UV of the unit square. *)
Definition unit_uv (p : num * num) : Prop :=
  exists a b, p = (Fin a, Fin b) /\ 0 <= a /\ a <= 1 /\ 0 <= b /\ b <= 1.

(** Every stored UV lies in the unit square. *)
Definition unit_uvs (this : MeshBrush) : Prop :=
  forall id p, _lastUVPerObject this !! id = Some p -> unit_uv p.

(** The frame has no ray hit: no answer, no hit, or no object for the
    first hit. *)
Definition no_hit (env : Frame) : Prop :=
  rayHit env = None \/
  (exists rh, rayHit env = Some rh /\ (hitCount rh = 0%Z \/ object0 rh = None)).

(** The length of a vector as [Math.hypot] forms it. *)
Definition norm3 (sqrt : Q -> Q) (p : qvec) : Q :=
  let '(x, y, z) := p in sqrt (x * x + (y * y + (z * z + 0))).

Definition scale (p : qvec) (k : Q) : qvec :=
  let '(x, y, z) := p in (x * k, y * k, z * k).

End StrokeVocabulary.
Export StrokeVocabulary.

Module CodeUnits.

(** The UTF-16 code units of a name, as [charCodeAt] returns them.  A
    character of the 8-bit strings of this development stands for the
    code unit of the same number. *)
Definition code_units (s : string) : list Z :=
  map (fun c => Z.of_nat (nat_of_ascii c)) (list_ascii_of_string s).

(** The hash loop of [_stableObjectId] over the code units of a name:
    [h = (h << 5) - h + name.charCodeAt(i); h |= 0]. *)
Fixpoint hash_units (l : list Z) (h : Z) : Z :=
  match l with
  | [] => h
  | c :: rest => hash_units rest (to_int32 (to_int32 (h * 32) - h + c))
  end.

(** [Math.abs(h) || 1]. *)
Definition stable_id_of_units (l : list Z) : Z :=
  let h := hash_units l 0 in
  if (Z.abs h =? 0)%Z then 1%Z else Z.abs h.

(** A list of numbers read as the digits of a number in base 31,
    continued from [acc]. *)
Fixpoint base31_units (l : list Z) (acc : Z) : Z :=
  match l with
  | [] => acc
  | c :: rest => base31_units rest (acc * 31 + c)%Z
  end.

End CodeUnits.
Export CodeUnits.

Module ProximityVocabulary.

Local Open Scope Q_scope.

(** The hit lies within proximity: proximity painting is enabled, the
    brush tip and the world position of the hit are points of numbers,
    and their distance, the square root of the sum of the squares of
    the three differences, is at most the proximity radius. *)
Definition within_proximity (sqrt : Q -> Q) (this : MeshBrush) (env : Frame) (rh : RayHit)
    : Prop :=
  paintOnProximity this = true /\
  exists o p : qvec,
    worldOrigin env = fin3 o /\ location0 rh = fin3 p /\
    norm3 sqrt (vsub o p) <= brushWorldRadius this.


(** A brush with a proximity radius of 1/16, and the frame in which it
    is 1/16 above the quad: the distance to the hit equals the
    radius. *)
Definition near_brush : MeshBrush := new_brush 10 (0, 0, 0, 1) true (1 # 16) 10.

Definition stroke_at_radius : Frame :=
  frame_above (1 # 4) (-(1 # 8)) (1 # 16) (quad_object "Quad" 7).

(** An object without a paintable whose name holds a color. *)
Definition bare_swatch : Frame :=
  frame_above 0 0 (1 # 50) (bare_object "Wall_#fff" 7).

End ProximityVocabulary.
Export ProximityVocabulary.

(** ** Binary64: the numbers as the program computes them

    The ray query once more, on IEEE 754 numbers: every JavaScript
    number is a binary64 value, every cell of a [Float32Array] a
    binary32 value, and every operation rounds to nearest, ties to
    even.  The arithmetic is that of [SpecFloat], which is the one of
    IEEE 754 on numbers written with a normalised mantissa, as
    [of_Z], [literal], [fround] and the operations themselves write
    them. *)

Module Binary64.

Definition float : Type := spec_float.

Definition prec : Z := 53.
Definition emax : Z := 1024.

Definition fadd : float -> float -> float := SFadd prec emax.
Definition fsub : float -> float -> float := SFsub prec emax.
Definition fmul : float -> float -> float := SFmul prec emax.
Definition fdiv : float -> float -> float := SFdiv prec emax.
Definition fneg : float -> float := SFopp.
Definition fabs : float -> float := SFabs.

Definition of_Z (z : Z) : float := binary_normalize prec emax z 0 false.

(** The decimal literal whose value is [p / q], for whole numbers [p]
    and [q] below 2^53 in absolute value (which binary64 holds as they
    are): the binary64 number nearest to [p / q]. *)
Definition literal (p q : Z) : float := fdiv (of_Z p) (of_Z q).

Definition Infinity : float := S754_infinity false.

(** [Math.fround], the value a store into a [Float32Array] keeps: the
    nearest binary32 number, written again with the mantissa and the
    exponent of binary64, which holds every binary32 number as it is. *)
Definition fround (x : float) : float :=
  match x with
  | S754_finite s m e =>
      match binary_round 24 128 s m e with
      | S754_finite s' m' e' => binary_normalize prec emax (cond_Zopp s' (Zpos m')) e' s'
      | y => y
      end
  | _ => x
  end.

(** The value of a number, for the comparisons: IEEE 754 compares
    values, whatever the mantissa and exponent that hold them, and
    [NaN] has none. *)
Inductive xreal : Type := NegInf | Real (q : Q) | PosInf.

Definition value (x : float) : option xreal :=
  match x with
  | S754_nan => None
  | S754_infinity s => Some (if s then NegInf else PosInf)
  | S754_zero _ => Some (Real 0)
  | S754_finite s m e => Some (Real (inject_Z (cond_Zopp s (Zpos m)) * Qpower 2 e))
  end.

Definition xlt (a b : xreal) : bool :=
  match a, b with
  | Real p, Real q => Qltb p q
  | NegInf, NegInf => false
  | NegInf, _ => true
  | Real _, PosInf => true
  | _, _ => false
  end.

Definition xle (a b : xreal) : bool :=
  match a, b with
  | Real p, Real q => Qleb p q
  | NegInf, _ => true
  | _, PosInf => true
  | _, _ => false
  end.

Definition flt (a b : float) : bool :=
  match value a, value b with Some x, Some y => xlt x y | _, _ => false end.

Definition fle (a b : float) : bool :=
  match value a, value b with Some x, Some y => xle x y | _, _ => false end.

Definition fgt (a b : float) : bool := flt b a.
Definition fge (a b : float) : bool := fle b a.

Definition is_nan (x : float) : bool :=
  match x with S754_nan => true | _ => false end.

Definition is_neg_zero (x : float) : bool :=
  match x with S754_zero true => true | _ => false end.

(** [Math.min] and [Math.max]: [NaN] as soon as one argument is, and
    [-0] below [+0]. *)
Definition fmin (a b : float) : float :=
  if is_nan a || is_nan b then S754_nan
  else if flt a b then a
  else if flt b a then b
  else if is_neg_zero a then a else b.

Definition fmax (a b : float) : float :=
  if is_nan a || is_nan b then S754_nan
  else if flt a b then b
  else if flt b a then a
  else if is_neg_zero a then b else a.

Definition fmin3 (a b c : float) : float := fmin (fmin a b) c.
Definition fmax3 (a b c : float) : float := fmax (fmax a b) c.

(** [a || d]: [0], [-0] and [NaN] are falsy. *)
Definition f_or (a d : float) : float :=
  match a with
  | S754_zero _ | S754_nan => d
  | _ => a
  end.

Declare Scope float_scope.
Delimit Scope float_scope with float.
Infix "+" := fadd : float_scope.
Infix "-" := fsub : float_scope.
Infix "*" := fmul : float_scope.
Infix "/" := fdiv : float_scope.
Infix "<?" := flt : float_scope.
Infix "<=?" := fle : float_scope.
Infix ">?" := fgt : float_scope.
Infix ">=?" := fge : float_scope.

Local Open Scope float_scope.

(** A typed array read: [undefined], hence [NaN] in arithmetic and in a
    store, outside the array or at an index that is not a number. *)
Definition read (a : list float) (i : option Z) : float :=
  match i with
  | Some z =>
      if (z <? 0)%Z then S754_nan
      else match a !! Z.to_nat z with Some x => x | None => S754_nan end
  | None => S754_nan
  end.

(** The values [t = 0, 1, ...] of a loop [for (t = 0; t < n; t++)].
    The bound is a length divided by three, never an infinity. *)
Definition for_lt (n : float) : list nat :=
  match value n with
  | Some (Real q) => seq 0 (Z.to_nat (Qceiling q))
  | _ => []
  end.

(** A typed array of [len] cells filled by in-order writes: the length
    is truncated to an integer and a write past the end is dropped. *)
Definition typed_array {A} (len : float) (cells : list A) : list A :=
  match value len with
  | Some (Real q) => take (Z.to_nat (Qfloor q)) cells
  | _ => []
  end.

Record vec3 : Type := V3 { at0 : float; at1 : float; at2 : float }.

(** The engine's mesh: the attributes hold binary32 numbers. *)
Record Mesh : Type := {
  positionAttr : option (list (float * float * float));
  uvAttr : option (list (float * float));
  indexData : option (list Z)
}.

Record MeshPaintable : Type := {
  planarFallback : bool;
  created : bool;
  _positionsFlat : option (list float);
  _uvsFlat : option (list float);
  _triIndices : option (list Z);
  _triMin : option (list float);
  _triMax : option (list float);
  _triCount : float
}.

Definition unstarted (planar : bool) : MeshPaintable :=
  {| planarFallback := planar; created := false;
     _positionsFlat := None; _uvsFlat := None; _triIndices := None;
     _triMin := None; _triMax := None; _triCount := of_Z 0 |}.

Definition flatten3 (l : list (float * float * float)) : list float :=
  flat_map (fun p => let '(x, y, z) := p in [fround x; fround y; fround z]) l.

Definition flatten2 (n : nat) (l : list (float * float)) : list float :=
  flat_map (fun i => let '(a, b) := default (of_Z 0, of_Z 0) (l !! i) in [fround a; fround b])
    (seq 0 n).

(** The vertex at index [vi], copied into one of the three [Float32Array]
    buffers of the component. *)
Definition vertex_at (positions : list float) (vi : option Z) : vec3 :=
  V3 (fround (read positions (idx vi 3 0)%Z)) (fround (read positions (idx vi 3 1)%Z))
     (fround (read positions (idx vi 3 2)%Z)).

(** The caches the query reads. *)
Definition _buildMeshCaches (this : MeshPaintable) (mesh : Mesh) : MeshPaintable :=
  match positionAttr mesh with
  | None => this
  | Some posAttr =>
      let vertexCount := length posAttr in
      let positionsFlat := flatten3 posAttr in
      let uvsFlat :=
        match uvAttr mesh with
        | Some uvs => Some (flatten2 vertexCount uvs)
        | None => None
        end in
      let '(triCount, triIndices) :=
        match indexData mesh with
        | Some ((_ :: _) as indices) =>
            (of_Z (Z.of_nat (length indices)) / of_Z 3, indices)
        | _ =>
            let triCount := of_Z (Z.of_nat vertexCount) / of_Z 3 in
            (triCount,
             typed_array (triCount * of_Z 3)
               (flat_map (fun t => [Z.of_nat t * 3 + 0; Z.of_nat t * 3 + 1; Z.of_nat t * 3 + 2]%Z)
                  (for_lt triCount)))
        end in
      let corner (t : nat) (k : Z) := vertex_at positionsFlat (tri_vertex_index triIndices t k) in
      let triMin :=
        typed_array (triCount * of_Z 3)
          (flat_map (fun t =>
             let tmp0 := corner t 0%Z in
             let tmp1 := corner t 1%Z in
             let tmp2 := corner t 2%Z in
             [fround (fmin3 (at0 tmp0) (at0 tmp1) (at0 tmp2));
              fround (fmin3 (at1 tmp0) (at1 tmp1) (at1 tmp2));
              fround (fmin3 (at2 tmp0) (at2 tmp1) (at2 tmp2))]) (for_lt triCount)) in
      let triMax :=
        typed_array (triCount * of_Z 3)
          (flat_map (fun t =>
             let tmp0 := corner t 0%Z in
             let tmp1 := corner t 1%Z in
             let tmp2 := corner t 2%Z in
             [fround (fmax3 (at0 tmp0) (at0 tmp1) (at0 tmp2));
              fround (fmax3 (at1 tmp0) (at1 tmp1) (at1 tmp2));
              fround (fmax3 (at2 tmp0) (at2 tmp1) (at2 tmp2))]) (for_lt triCount)) in
      {| planarFallback := planarFallback this;
         created := created this;
         _positionsFlat := Some positionsFlat;
         _uvsFlat := uvsFlat;
         _triIndices := Some triIndices;
         _triMin := Some triMin;
         _triMax := Some triMax;
         _triCount := triCount |}
  end.

Definition start (this : MeshPaintable) (meshComp : option Mesh) : MeshPaintable :=
  match meshComp with
  | None => this
  | Some mesh =>
      _buildMeshCaches
        {| planarFallback := planarFallback this; created := true;
           _positionsFlat := _positionsFlat this; _uvsFlat := _uvsFlat this;
           _triIndices := _triIndices this; _triMin := _triMin this;
           _triMax := _triMax this; _triCount := _triCount this |} mesh
  end.

Record Hit : Type := { hit_t : float; hit_u : float; hit_v : float }.

Definition EPS : float := literal 1 100000000.

Definition rayTriangleIntersectMollerTrumbore (orig dir p0 p1 p2 : vec3) : option Hit :=
  let edge1x := at0 p1 - at0 p0 in
  let edge1y := at1 p1 - at1 p0 in
  let edge1z := at2 p1 - at2 p0 in
  let edge2x := at0 p2 - at0 p0 in
  let edge2y := at1 p2 - at1 p0 in
  let edge2z := at2 p2 - at2 p0 in
  let px := at1 dir * edge2z - at2 dir * edge2y in
  let py := at2 dir * edge2x - at0 dir * edge2z in
  let pz := at0 dir * edge2y - at1 dir * edge2x in
  let det := edge1x * px + edge1y * py + edge1z * pz in
  if (det >? fneg EPS) && (det <? EPS) then None else
  let invDet := of_Z 1 / det in
  let tx := at0 orig - at0 p0 in
  let ty := at1 orig - at1 p0 in
  let tz := at2 orig - at2 p0 in
  let u := (tx * px + ty * py + tz * pz) * invDet in
  if (u <? of_Z 0) || (u >? of_Z 1) then None else
  let qx := ty * edge1z - tz * edge1y in
  let qy := tz * edge1x - tx * edge1z in
  let qz := tx * edge1y - ty * edge1x in
  let v := (at0 dir * qx + at1 dir * qy + at2 dir * qz) * invDet in
  if (v <? of_Z 0) || (u + v >? of_Z 1) then None else
  let t := (edge2x * qx + edge2y * qy + edge2z * qz) * invDet in
  if t <=? EPS then None else
  Some {| hit_t := t; hit_u := u; hit_v := v |}.

(** The loop variables of [getUVFromLocalRay]. *)
Record Scan : Type := {
  closestT : float;
  bestTri : option nat;
  bestU : float;
  bestV : float;
  bestLocalHit : option vec3
}.

Definition scan_init : Scan :=
  {| closestT := Infinity; bestTri := None; bestU := of_Z 0; bestV := of_Z 0;
     bestLocalHit := None |}.

(** The exact test of one triangle and the update of the best hit; the
    hit point is stored in a [Float32Array]. *)
Definition scan_exact (positions : list float) (triIndices : list Z)
    (localOrigin localDir : vec3) (maxDistance : float) (s : Scan) (t : nat) : Scan :=
  let vi0 := tri_vertex_index triIndices t 0%Z in
  let vi1 := tri_vertex_index triIndices t 1%Z in
  let vi2 := tri_vertex_index triIndices t 2%Z in
  let p0 := vertex_at positions vi0 in
  let p1 := vertex_at positions vi1 in
  let p2 := vertex_at positions vi2 in
  match rayTriangleIntersectMollerTrumbore localOrigin localDir p0 p1 p2 with
  | Some hit =>
      if (hit_t hit >? literal 1 1000000) && (hit_t hit <? closestT s)
         && (hit_t hit <=? maxDistance)
      then {| closestT := hit_t hit;
              bestTri := Some t;
              bestU := hit_u hit;
              bestV := hit_v hit;
              bestLocalHit :=
                Some (V3 (fround (at0 localOrigin + at0 localDir * hit_t hit))
                         (fround (at1 localOrigin + at1 localDir * hit_t hit))
                         (fround (at2 localOrigin + at2 localDir * hit_t hit))) |}
      else s
  | None => s
  end.

(** The end of the ray, stored in a [Float32Array]. *)
Definition ray_end (localOrigin localDir : vec3) (maxDistance : float) : vec3 :=
  V3 (fround (at0 localOrigin + at0 localDir * maxDistance))
     (fround (at1 localOrigin + at1 localDir * maxDistance))
     (fround (at2 localOrigin + at2 localDir * maxDistance)).

(** The bounding-box rejection of triangle [t]. *)
Definition box_miss (triMin triMax : list float) (localOrigin localDir : vec3)
    (maxDistance : float) (t : nat) : bool :=
  let localEnd := ray_end localOrigin localDir maxDistance in
  let rayMinX := fmin (at0 localOrigin) (at0 localEnd) in
  let rayMinY := fmin (at1 localOrigin) (at1 localEnd) in
  let rayMinZ := fmin (at2 localOrigin) (at2 localEnd) in
  let rayMaxX := fmax (at0 localOrigin) (at0 localEnd) in
  let rayMaxY := fmax (at1 localOrigin) (at1 localEnd) in
  let rayMaxZ := fmax (at2 localOrigin) (at2 localEnd) in
  let minX := read triMin (Some (Z.of_nat t * 3 + 0)%Z) in
  let minY := read triMin (Some (Z.of_nat t * 3 + 1)%Z) in
  let minZ := read triMin (Some (Z.of_nat t * 3 + 2)%Z) in
  let maxX := read triMax (Some (Z.of_nat t * 3 + 0)%Z) in
  let maxY := read triMax (Some (Z.of_nat t * 3 + 1)%Z) in
  let maxZ := read triMax (Some (Z.of_nat t * 3 + 2)%Z) in
  (maxX <? rayMinX) || (minX >? rayMaxX) ||
  (maxY <? rayMinY) || (minY >? rayMaxY) ||
  (maxZ <? rayMinZ) || (minZ >? rayMaxZ).

Definition scan_step (positions : list float) (triIndices : list Z) (triMin triMax : list float)
    (localOrigin localDir : vec3) (maxDistance : float) (s : Scan) (t : nat) : Scan :=
  if box_miss triMin triMax localOrigin localDir maxDistance t
  then s
  else scan_exact positions triIndices localOrigin localDir maxDistance s t.

Definition clamp (x : float) : float := fmin (fmax x (of_Z 0)) (of_Z 1).

(** The extents loop of the planar fallback. *)
Record Extents : Type := {
  ext_minX : float;
  ext_minZ : float;
  ext_maxX : float;
  ext_maxZ : float
}.

Definition extents_step (positions : list float) (e : Extents) (i : nat) : Extents :=
  let x := read positions (Some (Z.of_nat i)) in
  let z := read positions (Some (Z.of_nat i + 2)%Z) in
  {| ext_minX := if x <? ext_minX e then x else ext_minX e;
     ext_minZ := if z <? ext_minZ e then z else ext_minZ e;
     ext_maxX := if x >? ext_maxX e then x else ext_maxX e;
     ext_maxZ := if z >? ext_maxZ e then z else ext_maxZ e |}.

Definition extents (positions : list float) : Extents :=
  fold_left (extents_step positions) (for_by3 (length positions))
    {| ext_minX := Infinity; ext_minZ := Infinity;
       ext_maxX := fneg Infinity; ext_maxZ := fneg Infinity |}.

Record UVResult : Type := {
  uv : float * float;
  triIndex : nat;
  localHit : vec3
}.

(** What follows the loop: the UV of the best hit. *)
Definition resolve_uv (this : MeshPaintable) (positions : list float) (triIndices : list Z)
    (s : Scan) : option UVResult :=
  match bestTri s, bestLocalHit s with
  | Some bestTri, Some bestLocalHit =>
      match _uvsFlat this with
      | Some uvsFlat =>
          let vi0 := tri_vertex_index triIndices bestTri 0%Z in
          let vi1 := tri_vertex_index triIndices bestTri 1%Z in
          let vi2 := tri_vertex_index triIndices bestTri 2%Z in
          let u0 := read uvsFlat (idx vi0 2 0)%Z in
          let v0 := read uvsFlat (idx vi0 2 1)%Z in
          let u1 := read uvsFlat (idx vi1 2 0)%Z in
          let v1 := read uvsFlat (idx vi1 2 1)%Z in
          let u2 := read uvsFlat (idx vi2 2 0)%Z in
          let v2 := read uvsFlat (idx vi2 2 1)%Z in
          let w0 := of_Z 1 - bestU s - bestV s in
          let w1 := bestU s in
          let w2 := bestV s in
          let finalU := w0 * u0 + w1 * u1 + w2 * u2 in
          let finalV := w0 * v0 + w1 * v1 + w2 * v2 in
          Some {| uv := (clamp finalU, clamp finalV);
                  triIndex := bestTri;
                  localHit := bestLocalHit |}
      | None =>
          if planarFallback this then
            let e := extents positions in
            let denomX := f_or (ext_maxX e - ext_minX e) (of_Z 1) in
            let denomZ := f_or (ext_maxZ e - ext_minZ e) (of_Z 1) in
            let u := (at0 bestLocalHit - ext_minX e) / denomX in
            let v := (at2 bestLocalHit - ext_minZ e) / denomZ in
            Some {| uv := (clamp u, clamp v); triIndex := bestTri; localHit := bestLocalHit |}
          else None
      end
  | _, _ => None
  end.

Definition getUVFromLocalRay (this : MeshPaintable) (localOrigin localDir : vec3)
    (maxDistance : float) : option UVResult :=
  match _positionsFlat this, _triIndices this, _triMin this, _triMax this with
  | Some positions, Some triIndices, Some triMin, Some triMax =>
      let s :=
        fold_left
          (scan_step positions triIndices triMin triMax localOrigin localDir maxDistance)
          (for_lt (_triCount this)) scan_init in
      resolve_uv this positions triIndices s
  | _, _, _, _ => None
  end.


(** *** Vocabulary of the statements *)

(** The four quantities of the determinant method for one triangle, as
    the test computes them. *)
Record Quantities : Type := { q_det : float; q_u : float; q_v : float; q_t : float }.

Definition quantities (orig dir p0 p1 p2 : vec3) : Quantities :=
  let edge1x := at0 p1 - at0 p0 in
  let edge1y := at1 p1 - at1 p0 in
  let edge1z := at2 p1 - at2 p0 in
  let edge2x := at0 p2 - at0 p0 in
  let edge2y := at1 p2 - at1 p0 in
  let edge2z := at2 p2 - at2 p0 in
  let px := at1 dir * edge2z - at2 dir * edge2y in
  let py := at2 dir * edge2x - at0 dir * edge2z in
  let pz := at0 dir * edge2y - at1 dir * edge2x in
  let det := edge1x * px + edge1y * py + edge1z * pz in
  let invDet := of_Z 1 / det in
  let tx := at0 orig - at0 p0 in
  let ty := at1 orig - at1 p0 in
  let tz := at2 orig - at2 p0 in
  let u := (tx * px + ty * py + tz * pz) * invDet in
  let qx := ty * edge1z - tz * edge1y in
  let qy := tz * edge1x - tx * edge1z in
  let qz := tx * edge1y - ty * edge1x in
  let v := (at0 dir * qx + at1 dir * qy + at2 dir * qz) * invDet in
  let t := (edge2x * qx + edge2y * qy + edge2z * qz) * invDet in
  {| q_det := det; q_u := u; q_v := v; q_t := t |}.

(** A valid intersection, in the words of the specification:
    |determinant| >= 1e-8, 0 <= u <= 1, 0 <= v, u + v <= 1,
    t > 1e-6 and t <= maxDistance. *)
Definition valid_intersection (q : Quantities) (maxDistance : float) : Prop :=
  (EPS <=? fabs (q_det q)) = true /\
  (of_Z 0 <=? q_u q) = true /\ (q_u q <=? of_Z 1) = true /\
  (of_Z 0 <=? q_v q) = true /\ (q_u q + q_v q <=? of_Z 1) = true /\
  (literal 1 1000000 <? q_t q) = true /\ (q_t q <=? maxDistance) = true.

(** A triangle the scan takes as a candidate: none of the conditions
    that make the test give up holds, and [t] is above 1e-6, below
    [Infinity] and at most [maxDistance]. *)
Definition accepted (q : Quantities) (maxDistance : float) : bool :=
  negb ((fneg EPS <? q_det q) && (q_det q <? EPS)) &&
  negb (q_u q <? of_Z 0) && negb (of_Z 1 <? q_u q) &&
  negb (q_v q <? of_Z 0) && negb (of_Z 1 <? q_u q + q_v q) &&
  (literal 1 1000000 <? q_t q) && (q_t q <? Infinity) && (q_t q <=? maxDistance).

(** [u] and [v] are numbers. *)
Definition numbers (q : Quantities) : Prop :=
  is_nan (q_u q) = false /\ is_nan (q_v q) = false.

(** Corner [k] of triangle [t], and the quantities of triangle [t]. *)
Definition corner (positions : list float) (triIndices : list Z) (t : nat) (k : Z) : vec3 :=
  vertex_at positions (tri_vertex_index triIndices t k).

Definition tri_quantities (positions : list float) (triIndices : list Z)
    (orig dir : vec3) (t : nat) : Quantities :=
  quantities orig dir (corner positions triIndices t 0) (corner positions triIndices t 1)
    (corner positions triIndices t 2).

(** Two intervals are apart: one ends before the other begins. *)
Definition apart (lo hi lo' hi' : float) : Prop :=
  (hi <? lo') = true \/ (hi' <? lo) = true.

(** The stored box of triangle [t] and the box of the ray, from the
    origin to the stored end [origin + dir * maxDistance], are apart on
    some axis. *)
Definition rejected (triMin triMax : list float) (orig dir : vec3) (maxDistance : float)
    (t : nat) : Prop :=
  let cell (a : list float) (k : Z) := read a (Some (Z.of_nat t * 3 + k)%Z) in
  let ex := fround (at0 orig + at0 dir * maxDistance) in
  let ey := fround (at1 orig + at1 dir * maxDistance) in
  let ez := fround (at2 orig + at2 dir * maxDistance) in
  apart (cell triMin 0%Z) (cell triMax 0%Z) (fmin (at0 orig) ex) (fmax (at0 orig) ex) \/
  apart (cell triMin 1%Z) (cell triMax 1%Z) (fmin (at1 orig) ey) (fmax (at1 orig) ey) \/
  apart (cell triMin 2%Z) (cell triMax 2%Z) (fmin (at2 orig) ez) (fmax (at2 orig) ez).

(** The point of the ray at parameter [t], as stored in a
    [Float32Array]. *)
Definition stored_point (orig dir : vec3) (t : float) : vec3 :=
  V3 (fround (at0 orig + at0 dir * t)) (fround (at1 orig + at1 dir * t))
     (fround (at2 orig + at2 dir * t)).

(** The same numbers: both [NaN], or the same value. *)
Definition same_value (a b : float) : Prop :=
  match value a, value b with
  | None, None => True
  | Some (Real p), Some (Real q) => (p == q)%Q
  | Some NegInf, Some NegInf | Some PosInf, Some PosInf => True
  | _, _ => False
  end.

(** The loop variables after a hit on triangle [t]. *)
Definition scan_of_hit (positions : list float) (triIndices : list Z) (orig dir : vec3)
    (t : nat) : Scan :=
  let q := tri_quantities positions triIndices orig dir t in
  {| closestT := q_t q; bestTri := Some t; bestU := q_u q; bestV := q_v q;
     bestLocalHit := Some (stored_point orig dir (q_t q)) |}.

(** One turn of a loop that keeps the first least [tt] among the
    triangles [ok]. *)
Definition keep_least (ok : nat -> bool) (tt : nat -> float) (hit : nat -> Scan)
    (s : Scan) (t : nat) : Scan :=
  if ok t && (tt t <? closestT s) then hit t else s.

(** The loop variables hold the first least [tt] among the triangles
    [ok] below [n], or their initial values when there is none. *)
Definition first_least (ok : nat -> bool) (tt : nat -> float) (hit : nat -> Scan)
    (n : nat) (s : Scan) : Prop :=
  (s = scan_init /\ forall j, (j < n)%nat -> ok j = false) \/
  (exists k, (k < n)%nat /\ ok k = true /\ s = hit k /\
     (forall j, (j < n)%nat -> ok j = true -> (tt k <=? tt j) = true) /\
     (forall j, (j < k)%nat -> ok j = true -> (tt k <? tt j) = true)).

(** *** Fixtures *)

Definition vec (x y z : float) : vec3 := V3 x y z.

(** The unit quad in the plane Y = 0, with its UVs. *)
Definition quad_xz : Mesh :=
  {| positionAttr :=
       Some [(literal (-1) 2, of_Z 0, literal (-1) 2); (literal 1 2, of_Z 0, literal (-1) 2);
             (literal 1 2, of_Z 0, literal 1 2); (literal (-1) 2, of_Z 0, literal 1 2)];
     uvAttr := Some [(of_Z 0, of_Z 0); (of_Z 1, of_Z 0); (of_Z 1, of_Z 1); (of_Z 0, of_Z 1)];
     indexData := Some [0; 1; 2; 0; 2; 3]%Z |}.

(** The square spanning [-1,1] x [-1,1] in X/Z, without UVs. *)
Definition plane_no_uv : Mesh :=
  {| positionAttr :=
       Some [(of_Z (-1), of_Z 0, of_Z (-1)); (of_Z 1, of_Z 0, of_Z (-1));
             (of_Z 1, of_Z 0, of_Z 1); (of_Z (-1), of_Z 0, of_Z 1)];
     uvAttr := None;
     indexData := Some [0; 1; 2; 0; 2; 3]%Z |}.

(** One triangle a hair below the plane Y = 0, at y = -2^-100, which is
    a binary32 number. *)
Definition below_zero : float := S754_finite true 4503599627370496 (-152).

Definition sunken_triangle : Mesh :=
  {| positionAttr :=
       Some [(of_Z 0, below_zero, of_Z 0); (of_Z 1, below_zero, of_Z 0);
             (of_Z 0, below_zero, of_Z 1)];
     uvAttr := Some [(of_Z 0, of_Z 0); (of_Z 1, of_Z 0); (of_Z 0, of_Z 1)];
     indexData := Some [0; 1; 2]%Z |}.

(** The same triangle twice. *)
Definition doubled_triangle : Mesh :=
  {| positionAttr :=
       Some [(of_Z 0, of_Z 0, of_Z 0); (of_Z 1, of_Z 0, of_Z 0); (of_Z 0, of_Z 0, of_Z 1)];
     uvAttr := Some [(of_Z 0, of_Z 0); (of_Z 1, of_Z 0); (of_Z 0, of_Z 1)];
     indexData := Some [0; 1; 2; 0; 1; 2]%Z |}.

(** The triangle at y = -2^-100 above, and the same triangle in the
    plane Y = 0 after it. *)
Definition two_layers : Mesh :=
  {| positionAttr :=
       Some [(of_Z 0, below_zero, of_Z 0); (of_Z 1, below_zero, of_Z 0);
             (of_Z 0, below_zero, of_Z 1);
             (of_Z 0, of_Z 0, of_Z 0); (of_Z 1, of_Z 0, of_Z 0); (of_Z 0, of_Z 0, of_Z 1)];
     uvAttr := Some [(of_Z 0, of_Z 0); (of_Z 1, of_Z 0); (of_Z 0, of_Z 1);
                     (of_Z 0, of_Z 0); (of_Z 1, of_Z 0); (of_Z 0, of_Z 1)];
     indexData := Some [0; 1; 2; 3; 4; 5]%Z |}.

(** A ray of binary32 numbers that ends on a vertex, and two more
    vertices, binary32 numbers as well. *)
Definition slanted_origin : vec3 :=
  V3 (literal (-2217) 256) (literal (-443) 256) (literal (-445) 256).
Definition slanted_dir : vec3 :=
  V3 (literal 2015 128) (literal (-269) 64) (literal 619 256).
Definition slanted_end : vec3 :=
  V3 (literal 1813 256) (literal (-1519) 256) (literal 87 128).
Definition corner_a : vec3 :=
  V3 (literal 5057935 4194304) (literal (-7717899) 524288) (literal (-1822303) 1048576).
Definition corner_b : vec3 :=
  V3 (literal 12640145 1048576) (literal (-3180581) 262144) (literal (-12943697) 1048576).

Definition paintable (planar : bool) (meshComp : option Mesh) : MeshPaintable :=
  start (unstarted planar) meshComp.

End Binary64.

(** * Proofs *)

Local Open Scope Q_scope.

(** ** Facts about numbers *)

Lemma Qltb_lt (a b : Q) : Qltb a b = true <-> (a < b)%Q.
Proof.
  unfold Qltb. rewrite Qlt_alt. destruct (a ?= b)%Q; split; congruence.
Qed.

Lemma Qleb_le (a b : Q) : Qleb a b = true <-> (a <= b)%Q.
Proof.
  unfold Qleb. rewrite Qle_alt. destruct (a ?= b)%Q; split; congruence.
Qed.

Lemma Qltb_ge (a b : Q) : Qltb a b = false <-> (b <= a)%Q.
Proof.
  rewrite <- not_true_iff_false, Qltb_lt. split; [apply Qnot_lt_le | apply Qle_not_lt].
Qed.

Lemma Qleb_gt (a b : Q) : Qleb a b = false <-> (b < a)%Q.
Proof.
  rewrite <- not_true_iff_false, Qleb_le. split; [apply Qnot_le_lt | apply Qlt_not_le].
Qed.

Lemma Qeq_bool_false (a b : Q) : Qeq_bool a b = false <-> ~ (a == b)%Q.
Proof.
  rewrite <- not_true_iff_false, Qeq_bool_iff. tauto.
Qed.

Lemma Qmin2_spec (x y : Q) : (x <= y /\ Qmin2 x y = x) \/ (y < x /\ Qmin2 x y = y).
Proof.
  unfold Qmin2. destruct (Qleb x y) eqn:E.
  - left. split; [now apply Qleb_le | reflexivity].
  - right. split; [now apply Qleb_gt | reflexivity].
Qed.

Lemma Qmax2_spec (x y : Q) : (x <= y /\ Qmax2 x y = y) \/ (y < x /\ Qmax2 x y = x).
Proof.
  unfold Qmax2. destruct (Qleb x y) eqn:E.
  - left. split; [now apply Qleb_le | reflexivity].
  - right. split; [now apply Qleb_gt | reflexivity].
Qed.

Lemma clamp01_range (x : Q) : (0 <= clamp01 x <= 1)%Q.
Proof.
  unfold clamp01.
  destruct (Qmax2_spec x 0) as [[H1 ->]|[H1 ->]];
    [destruct (Qmin2_spec 0 1) as [[H2 ->]|[H2 ->]]
    |destruct (Qmin2_spec x 1) as [[H2 ->]|[H2 ->]]]; lra.
Qed.

Lemma isfin_true (a : num) : isfin a = true <-> exists q, a = Fin q.
Proof.
  destruct a; simpl; split; intros H.
  - now exists q.
  - reflexivity.
  - discriminate.
  - destruct H as [q H]. discriminate.
Qed.

Lemma isfin_add (a b : num) : isfin (a + b) = isfin a && isfin b.
Proof. now destruct a, b. Qed.

Lemma isfin_sub (a b : num) : isfin (a - b) = isfin a && isfin b.
Proof. now destruct a, b. Qed.

Lemma isfin_mul (a b : num) : isfin (a * b) = isfin a && isfin b.
Proof. now destruct a, b. Qed.

Lemma isfin_div (a b : num) : isfin (a / b) = true -> isfin a = true /\ isfin b = true.
Proof. destruct a, b; simpl; auto; discriminate. Qed.

Lemma nlt_fin (a b : num) : (a <? b)%num = true -> isfin a = true /\ isfin b = true.
Proof. destruct a, b; simpl; auto; discriminate. Qed.

Lemma nle_fin (a b : num) : (a <=? b)%num = true -> isfin a = true /\ isfin b = true.
Proof. destruct a, b; simpl; auto; discriminate. Qed.

(** ** The exact test *)

Lemma mt_fin (o d p0 p1 p2 : qvec) :
  rayTriangleIntersectMollerTrumbore (fin3 o) (fin3 d) (fin3 p0) (fin3 p1) (fin3 p2) =
  if mt_ok o d (p0, p1, p2)
  then Some {| hit_t := Fin (mt_t o d (p0, p1, p2));
               hit_u := Fin (mt_u o d (p0, p1, p2));
               hit_v := Fin (mt_v o d (p0, p1, p2)) |}
  else None.
Proof.
  destruct o as [[ox oy] oz], d as [[dx dy] dz], p0 as [[ax ay] az],
    p1 as [[bx b_y] bz], p2 as [[cx cy] cz].
  unfold rayTriangleIntersectMollerTrumbore, mt_ok, mt_t, mt_u, mt_v, mt_det,
    dot, cross, vsub, fin3, EPS, negEPS.
  cbn [at0 at1 at2 nadd nsub nmul ngt nlt nle].
  set (det := ((bx - ax) * (dy * (cz - az) - dz * (cy - ay)) +
               (b_y - ay) * (dz * (cx - ax) - dx * (cz - az)) +
               (bz - az) * (dx * (cy - ay) - dy * (cx - ax)))).
  destruct (Qltb (- (1 # 100000000)) det && Qltb det (1 # 100000000)) eqn:Edet; [reflexivity|].
  assert (Hnz : Qeq_bool det 0 = false).
  { apply Qeq_bool_false. intros Hz.
    apply andb_false_iff in Edet. destruct Edet as [E|E]; apply Qltb_ge in E; lra. }
  cbn [ndiv]. rewrite Hnz. cbn [at0 at1 at2 nadd nsub nmul ngt nlt nle negb andb orb].
  match goal with |- context [Qltb ?u 0 || Qltb 1 ?u] =>
    destruct (Qltb u 0 || Qltb 1 u); [reflexivity|] end.
  cbn [negb andb orb].
  match goal with |- context [Qltb ?v 0 || Qltb 1 ?w] =>
    destruct (Qltb v 0 || Qltb 1 w); [reflexivity|] end.
  cbn [negb andb orb].
  match goal with |- context [Qleb ?t (1 # 100000000)] =>
    destruct (Qleb t (1 # 100000000)); reflexivity end.
Qed.

Lemma mt_ok_spec (o d : qvec) (tri : triangle) :
  mt_ok o d tri = true <->
  (1 # 100000000) <= Qabs (mt_det d tri) /\
  0 <= mt_u o d tri /\ mt_u o d tri <= 1 /\
  0 <= mt_v o d tri /\ mt_u o d tri + mt_v o d tri <= 1 /\
  (1 # 100000000) < mt_t o d tri.
Proof.
  unfold mt_ok.
  rewrite !andb_true_iff, !negb_true_iff, !orb_false_iff, andb_false_iff,
    !Qltb_ge, Qleb_gt.
  split.
  - intros [[[Hd [Hu0 Hu1]] [Hv0 Hv1]] Ht].
    repeat split; try assumption.
    apply Qabs_case; intros; destruct Hd; lra.
  - intros (Hd & Hu0 & Hu1 & Hv0 & Hv1 & Ht).
    repeat split; try assumption.
    revert Hd. apply Qabs_case; intros; [right|left]; lra.
Qed.

Lemma valid_b_spec (o d : qvec) (maxDistance : Q) (tri : triangle) :
  valid_b o d maxDistance tri = true <-> valid_intersection o d maxDistance tri.
Proof.
  unfold valid_b, valid_intersection.
  rewrite !andb_true_iff, mt_ok_spec, Qltb_lt, Qleb_le.
  split.
  - intros [[(Hd & Hu0 & Hu1 & Hv0 & Hv1 & Ht) Ht'] Hm]. repeat split; assumption.
  - intros (Hd & Hu0 & Hu1 & Hv0 & Hv1 & Ht & Hm). repeat split; try assumption. lra.
Qed.

Lemma isfin_vec3 (p : vec3) :
  isfin (at0 p) = true -> isfin (at1 p) = true -> isfin (at2 p) = true ->
  exists q, p = fin3 q.
Proof.
  destruct p as [a b c]; simpl.
  intros [x ->]%isfin_true [y ->]%isfin_true [z ->]%isfin_true.
  now exists (x, y, z).
Qed.

(** A hit whose [t] is a number comes from a ray and three vertices
    whose coordinates are all numbers: one undefined read makes the
    determinant, and with it [t], [NaN]. *)
Lemma mt_hit_fin (orig dir p0 p1 p2 : vec3) (h : Hit) :
  rayTriangleIntersectMollerTrumbore orig dir p0 p1 p2 = Some h ->
  isfin (hit_t h) = true ->
  exists o d q0 q1 q2,
    orig = fin3 o /\ dir = fin3 d /\ p0 = fin3 q0 /\ p1 = fin3 q1 /\ p2 = fin3 q2.
Proof.
  unfold rayTriangleIntersectMollerTrumbore.
  destruct (_ && _); [discriminate|].
  destruct (_ || _); [discriminate|].
  destruct (_ || _); [discriminate|].
  destruct (_ <=? _)%num; [discriminate|].
  intros [= <-]. cbn [hit_t]. rewrite isfin_mul, andb_true_iff.
  intros [Hq Hinv].
  match type of Hinv with isfin (match ?det with _ => _ end) = true =>
    apply (isfin_div (Fin 1) det) in Hinv end.
  destruct Hinv as [_ Hdet].
  repeat match goal with
  | H : _ /\ _ |- _ => destruct H
  | H : isfin (_ + _) = true |- _ => rewrite isfin_add, andb_true_iff in H
  | H : isfin (_ - _) = true |- _ => rewrite isfin_sub, andb_true_iff in H
  | H : isfin (_ * _) = true |- _ => rewrite isfin_mul, andb_true_iff in H
  end.
  assert (exists q, orig = fin3 q) as [o ->] by (apply isfin_vec3; assumption).
  assert (exists q, dir = fin3 q) as [d ->] by (apply isfin_vec3; assumption).
  assert (exists q, p0 = fin3 q) as [q0 ->] by (apply isfin_vec3; assumption).
  assert (exists q, p1 = fin3 q) as [q1 ->] by (apply isfin_vec3; assumption).
  assert (exists q, p2 = fin3 q) as [q2 ->] by (apply isfin_vec3; assumption).
  now exists o, d, q0, q1, q2.
Qed.

(** ** Geometry of a valid hit *)

Lemma seg_bounds (o dx s m : Q) :
  0 <= s -> s <= m ->
  Qmin2 o (o + dx * m) <= o + dx * s /\ o + dx * s <= Qmax2 o (o + dx * m).
Proof.
  intros Hs Hm.
  destruct (Qmin2_spec o (o + dx * m)) as [[H1 ->]|[H1 ->]];
  destruct (Qmax2_spec o (o + dx * m)) as [[H2 ->]|[H2 ->]];
  destruct (Qlt_le_dec dx 0); split; nra.
Qed.

Lemma hull_bounds (a b c u v : Q) :
  0 <= u -> 0 <= v -> u + v <= 1 ->
  Qmin2 (Qmin2 a b) c <= a + u * (b - a) + v * (c - a) /\
  a + u * (b - a) + v * (c - a) <= Qmax2 (Qmax2 a b) c.
Proof.
  intros Hu Hv Huv.
  set (lo := Qmin2 (Qmin2 a b) c). set (hi := Qmax2 (Qmax2 a b) c).
  assert (Hlo : lo <= a /\ lo <= b /\ lo <= c).
  { unfold lo. destruct (Qmin2_spec a b) as [[H1 ->]|[H1 ->]];
      [destruct (Qmin2_spec a c) as [[H2 ->]|[H2 ->]]
      |destruct (Qmin2_spec b c) as [[H2 ->]|[H2 ->]]]; repeat split; lra. }
  assert (Hhi : a <= hi /\ b <= hi /\ c <= hi).
  { unfold hi. destruct (Qmax2_spec a b) as [[H1 ->]|[H1 ->]];
      [destruct (Qmax2_spec b c) as [[H2 ->]|[H2 ->]]
      |destruct (Qmax2_spec a c) as [[H2 ->]|[H2 ->]]]; repeat split; lra. }
  clearbody lo hi. destruct Hlo as (La & Lb & Lc), Hhi as (Ha & Hb & Hc).
  assert (0 <= u * (b - lo)) by (apply Qmult_le_0_compat; lra).
  assert (0 <= v * (c - lo)) by (apply Qmult_le_0_compat; lra).
  assert (0 <= (1 - u - v) * (a - lo)) by (apply Qmult_le_0_compat; lra).
  assert (0 <= u * (hi - b)) by (apply Qmult_le_0_compat; lra).
  assert (0 <= v * (hi - c)) by (apply Qmult_le_0_compat; lra).
  assert (0 <= (1 - u - v) * (hi - a)) by (apply Qmult_le_0_compat; lra).
  split; lra.
Qed.

(** Cramer's rule: the point of the ray at parameter [t] is the point of
    the triangle with barycentric coordinates [(1 - u - v, u, v)]. *)
Lemma hit_point_barycentric (o d p0 p1 p2 : qvec) :
  ~ mt_det d (p0, p1, p2) == 0 ->
  let u := mt_u o d (p0, p1, p2) in
  let v := mt_v o d (p0, p1, p2) in
  let '(hx, hy, hz) := along o d (mt_t o d (p0, p1, p2)) in
  let '(ax, ay, az) := p0 in
  let '(bx, b_y, bz) := p1 in
  let '(cx, cy, cz) := p2 in
  hx == ax + u * (bx - ax) + v * (cx - ax) /\
  hy == ay + u * (b_y - ay) + v * (cy - ay) /\
  hz == az + u * (bz - az) + v * (cz - az).
Proof.
  destruct o as [[ox oy] oz], d as [[dx dy] dz], p0 as [[ax ay] az],
    p1 as [[bx b_y] bz], p2 as [[cx cy] cz].
  unfold mt_t, mt_u, mt_v, mt_det, along, dot, cross, vsub.
  intros Hdet. cbv zeta.
  repeat split; field; exact Hdet.
Qed.

(** ** Arrays laid out in triples *)

Lemma lookup_flat_map_chunks {A B} (c : nat) (g : A -> list B) (l : list A) (t k : nat) :
  (forall x, length (g x) = c) -> (k < c)%nat ->
  flat_map g l !! (c * t + k)%nat = l !! t ≫= (fun x => g x !! k).
Proof.
  intros Hg Hk. revert t. induction l as [|a l IH]; intros t.
  - reflexivity.
  - change (flat_map g (a :: l)) with (g a ++ flat_map g l).
    destruct t as [|t].
    + rewrite lookup_app_l by (rewrite Hg; lia).
      replace (c * 0 + k)%nat with k by lia. reflexivity.
    + rewrite lookup_app_r by (rewrite Hg; lia).
      replace (c * S t + k - length (g a))%nat with (c * t + k)%nat by (rewrite Hg; lia).
      apply IH.
Qed.

Lemma read_num_triples (g0 g1 g2 : nat -> num) (len : Q) (n t k : nat) :
  (k < 3)%nat ->
  let cells := typed_array len (flat_map (fun t => [g0 t; g1 t; g2 t]) (seq 0 n)) in
  let r := read_num cells (Z.of_nat t * 3 + Z.of_nat k) in
  r = NaN \/ Some r = [g0 t; g1 t; g2 t] !! k.
Proof.
  intros Hk cells r. unfold r, read_num, cells, typed_array.
  destruct (Z.ltb_spec (Z.of_nat t * 3 + Z.of_nat k) 0); [lia|].
  replace (Z.to_nat (Z.of_nat t * 3 + Z.of_nat k)) with (3 * t + k)%nat by lia.
  destruct (take _ _ !! _) as [x|] eqn:E; [|now left].
  right. apply lookup_take_Some in E. destruct E as [E _].
  rewrite (lookup_flat_map_chunks 3) in E by (auto; lia).
  destruct (seq 0 n !! t) as [t'|] eqn:Et; [|discriminate].
  apply lookup_seq in Et. destruct Et as [-> _]. simpl in E. now rewrite E.
Qed.

(** ** The caches built by [_buildMeshCaches] *)

Lemma typed_array_length {A} (len : Q) (cells : list A) :
  0 <= len -> inject_Z (Z.of_nat (length (typed_array len cells))) <= len.
Proof.
  intros Hlen. unfold typed_array. rewrite length_take.
  assert (H0 : (0 <= Qfloor len)%Z).
  { rewrite <- (Qfloor_Z 0). now apply Qfloor_resp_le. }
  apply Qle_trans with (inject_Z (Qfloor len)); [|apply Qfloor_le].
  rewrite <- Zle_Qle. lia.
Qed.

Lemma built_caches (this : MeshPaintable) (mesh : Mesh) (pos : list (Q * Q * Q)) :
  positionAttr mesh = Some pos ->
  exists triIndices triMin triMax,
    _positionsFlat (_buildMeshCaches this mesh) = Some (flatten3 pos) /\
    _triIndices (_buildMeshCaches this mesh) = Some triIndices /\
    _triMin (_buildMeshCaches this mesh) = Some triMin /\
    _triMax (_buildMeshCaches this mesh) = Some triMax /\
    _uvsFlat (_buildMeshCaches this mesh) = option_map (flatten2 (length pos)) (uvAttr mesh) /\
    planarFallback (_buildMeshCaches this mesh) = planarFallback this /\
    inject_Z (Z.of_nat (length triIndices)) <= _triCount (_buildMeshCaches this mesh) * 3 /\
    boxes_consistent (flatten3 pos) triIndices triMin triMax.
Proof.
  intros Hpos. unfold _buildMeshCaches. rewrite Hpos.
  match goal with |- context [let '(_, _) := ?X in _] =>
    assert (Hlen : inject_Z (Z.of_nat (length (snd X))) <= fst X * 3);
    [|destruct X as [triCount triIndices]] end.
  { destruct (indexData mesh) as [[|i indices]|]; cbn [fst snd].
    - apply typed_array_length.
      assert (0 <= inject_Z (Z.of_nat (length pos))) by (rewrite <- (Zle_Qle 0); lia).
      assert (E : inject_Z (Z.of_nat (length pos)) / 3 * 3 == inject_Z (Z.of_nat (length pos)))
        by field.
      now rewrite E.
    - apply Qle_lteq. right. field.
    - apply typed_array_length.
      assert (0 <= inject_Z (Z.of_nat (length pos))) by (rewrite <- (Zle_Qle 0); lia).
      assert (E : inject_Z (Z.of_nat (length pos)) / 3 * 3 == inject_Z (Z.of_nat (length pos)))
        by field.
      now rewrite E. }
  cbn [_positionsFlat _triIndices _triMin _triMax _uvsFlat planarFallback _triCount fst snd] in *.
  eexists _, _, _.
  split; [reflexivity|]. split; [reflexivity|]. split; [reflexivity|]. split; [reflexivity|].
  split; [now destruct (uvAttr mesh)|]. split; [reflexivity|]. split; [exact Hlen|].
  intros t. cbv zeta.
  repeat split;
    match goal with
    | |- box_cell (read_num (typed_array ?len
                     (flat_map (fun j => [@?g0 j; @?g1 j; @?g2 j]) (for_lt ?n)))
                     (Z.of_nat ?t * 3 + ?k)) _ =>
        destruct (read_num_triples g0 g1 g2 len (Z.to_nat (Qceiling n)) t (Z.to_nat k)
                    ltac:(simpl; lia)) as [E|E];
        [left; exact E | right; injection E as E; exact E]
    end.
Qed.

(** ** One iteration of the scan *)

Lemma to_qvec_some (p : vec3) (q : qvec) : to_qvec p = Some q -> p = fin3 q.
Proof.
  destruct p as [[a|] [b|] [c|]]; simpl; intros [= <-]; reflexivity.
Qed.

Lemma to_qvec_fin3 (q : qvec) : to_qvec (fin3 q) = Some q.
Proof. now destruct q as [[x y] z]. Qed.

Lemma triangle_at_some (positions : list Q) (triIndices : list Z) (t : nat) (p0 p1 p2 : qvec) :
  triangle_at positions triIndices t = Some (p0, p1, p2) ->
  vertex_at positions (tri_vertex_index triIndices t 0) = fin3 p0 /\
  vertex_at positions (tri_vertex_index triIndices t 1) = fin3 p1 /\
  vertex_at positions (tri_vertex_index triIndices t 2) = fin3 p2.
Proof.
  unfold triangle_at.
  destruct (to_qvec (vertex_at positions (tri_vertex_index triIndices t 0))) as [q0|] eqn:E0; [|discriminate].
  destruct (to_qvec (vertex_at positions (tri_vertex_index triIndices t 1))) as [q1|] eqn:E1; [|discriminate].
  destruct (to_qvec (vertex_at positions (tri_vertex_index triIndices t 2))) as [q2|] eqn:E2; [|discriminate].
  intros [= <- <- <-]. auto using to_qvec_some.
Qed.

Lemma triangle_at_in_loop (positions : list Q) (triIndices : list Z) (triCount : Q)
    (t : nat) (tri : triangle) :
  inject_Z (Z.of_nat (length triIndices)) <= triCount * 3 ->
  triangle_at positions triIndices t = Some tri ->
  In t (for_lt triCount).
Proof.
  intros Hlen Htri. destruct tri as [[p0 p1] p2].
  apply triangle_at_some in Htri. destruct Htri as (_ & _ & E2).
  unfold vertex_at, tri_vertex_index, read_int in E2.
  destruct (Z.ltb_spec (Z.of_nat t * 3 + 2) 0); [lia|].
  destruct (triIndices !! Z.to_nat (Z.of_nat t * 3 + 2)) as [vi|] eqn:E.
  - apply lookup_lt_Some in E.
    assert (Ht : inject_Z (Z.of_nat t) < triCount).
    { assert (Hi : inject_Z (Z.of_nat t * 3 + 2) < inject_Z (Z.of_nat (length triIndices)))
        by (rewrite <- Zlt_Qlt; lia).
      rewrite inject_Z_plus, inject_Z_mult in Hi.
      change (inject_Z 3) with 3 in Hi. change (inject_Z 2) with 2 in Hi. lra. }
    unfold for_lt. apply in_seq. split; [lia|].
    pose proof (Qle_ceiling triCount) as Hc.
    assert (Hz : (Z.of_nat t < Qceiling triCount)%Z) by (rewrite Zlt_Qlt; lra).
    lia.
  - destruct p2 as [[x y] z]. discriminate.
Qed.

Lemma along_fin3 (o d : qvec) (s : Q) :
  V3 (at0 (fin3 o) + at0 (fin3 d) * Fin s)
     (at1 (fin3 o) + at1 (fin3 d) * Fin s)
     (at2 (fin3 o) + at2 (fin3 d) * Fin s) = fin3 (along o d s).
Proof. now destruct o as [[ox oy] oz], d as [[dx dy] dz]. Qed.

(** The exact test on triangle [t], for a ray of finite numbers: a
    triangle with an undefined vertex never hits; a defined one replaces
    the best hit exactly when its intersection is valid and closer. *)
Lemma scan_exact_spec (positions : list Q) (triIndices : list Z) (o d : qvec) (maxD : Q)
    (s : Scan) (t : nat) :
  scan_exact positions triIndices (fin3 o) (fin3 d) (Fin maxD) s t =
  match triangle_at positions triIndices t with
  | Some tri =>
      if valid_b o d maxD tri && lt_closest (Fin (mt_t o d tri)) (closestT s)
      then scan_of_hit o d t tri else s
  | None => s
  end.
Proof.
  unfold scan_exact.
  destruct (triangle_at positions triIndices t) as [[[p0 p1] p2]|] eqn:Etri.
  - apply triangle_at_some in Etri. destruct Etri as (-> & -> & ->).
    rewrite mt_fin. unfold valid_b.
    destruct (mt_ok o d (p0, p1, p2)); [|reflexivity].
    cbn [hit_t hit_u hit_v ngt nlt nle andb].
    destruct (Qltb (1 # 1000000) (mt_t o d (p0, p1, p2))); [|reflexivity].
    cbn [andb].
    destruct (lt_closest (Fin (mt_t o d (p0, p1, p2))) (closestT s));
      [|now rewrite andb_false_r].
    rewrite andb_true_r.
    destruct (Qleb (mt_t o d (p0, p1, p2)) maxD); [|reflexivity].
    unfold scan_of_hit. now rewrite along_fin3.
  - destruct (rayTriangleIntersectMollerTrumbore _ _ _ _ _) as [h|] eqn:Eh; [|reflexivity].
    destruct (hit_t h >? Fin (1 # 1000000))%num eqn:Egt; [|reflexivity].
    exfalso. unfold ngt in Egt. apply nlt_fin in Egt. destruct Egt as [_ Hfin].
    destruct (mt_hit_fin _ _ _ _ _ _ Eh Hfin) as (o' & d' & q0 & q1 & q2 & _ & _ & E0 & E1 & E2).
    unfold triangle_at in Etri. rewrite E0, E1, E2, !to_qvec_fin3 in Etri. discriminate.
Qed.

(** A valid intersection lies in the box of its triangle and in the box
    of the ray, so the two overlap on every axis. *)
Lemma valid_boxes_overlap (o d p0 p1 p2 : qvec) (m : Q) :
  valid_intersection o d m (p0, p1, p2) ->
  let '(ox, oy, oz) := o in
  let '(dx, dy, dz) := d in
  let '(ax, ay, az) := p0 in
  let '(bx, b_y, bz) := p1 in
  let '(cx, cy, cz) := p2 in
  Qmin2 ox (ox + dx * m) <= Qmax2 (Qmax2 ax bx) cx /\
  Qmin2 (Qmin2 ax bx) cx <= Qmax2 ox (ox + dx * m) /\
  Qmin2 oy (oy + dy * m) <= Qmax2 (Qmax2 ay b_y) cy /\
  Qmin2 (Qmin2 ay b_y) cy <= Qmax2 oy (oy + dy * m) /\
  Qmin2 oz (oz + dz * m) <= Qmax2 (Qmax2 az bz) cz /\
  Qmin2 (Qmin2 az bz) cz <= Qmax2 oz (oz + dz * m).
Proof.
  intros (Hdet & Hu0 & Hu1 & Hv0 & Hv1 & Ht & Hm).
  assert (Hnz : ~ mt_det d (p0, p1, p2) == 0).
  { intros Hz. revert Hdet. apply Qabs_case; intros; lra. }
  pose proof (hit_point_barycentric o d p0 p1 p2 Hnz) as Hb.
  cbv zeta in Hb.
  set (u := mt_u o d (p0, p1, p2)) in *. set (v := mt_v o d (p0, p1, p2)) in *.
  set (t := mt_t o d (p0, p1, p2)) in *. clearbody u v t.
  destruct o as [[ox oy] oz], d as [[dx dy] dz], p0 as [[ax ay] az],
    p1 as [[bx b_y] bz], p2 as [[cx cy] cz].
  unfold along in Hb. destruct Hb as (Hx & Hy & Hz).
  assert (Ht0 : 0 <= t) by lra.
  pose proof (seg_bounds ox dx t m Ht0 Hm) as [Sx1 Sx2].
  pose proof (seg_bounds oy dy t m Ht0 Hm) as [Sy1 Sy2].
  pose proof (seg_bounds oz dz t m Ht0 Hm) as [Sz1 Sz2].
  pose proof (hull_bounds ax bx cx u v Hu0 Hv0 Hv1) as [Bx1 Bx2].
  pose proof (hull_bounds ay b_y cy u v Hu0 Hv0 Hv1) as [By1 By2].
  pose proof (hull_bounds az bz cz u v Hu0 Hv0 Hv1) as [Bz1 Bz2].
  repeat split; lra.
Qed.

Lemma box_cell_lt_false (r expected bound : num) :
  box_cell r expected -> (expected <? bound)%num = false -> (r <? bound)%num = false.
Proof. intros [->| ->]; [reflexivity | auto]. Qed.

Lemma box_cell_gt_false (r expected bound : num) :
  box_cell r expected -> (expected >? bound)%num = false -> (r >? bound)%num = false.
Proof. intros [->| ->]; [now destruct bound | auto]. Qed.

(** The bounding-box test never rejects a triangle that has a valid
    intersection. *)
Lemma box_miss_sound (positions : list Q) (triIndices : list Z) (triMin triMax : list num)
    (o d : qvec) (maxD : Q) (t : nat) (tri : triangle) :
  boxes_consistent positions triIndices triMin triMax ->
  triangle_at positions triIndices t = Some tri ->
  valid_intersection o d maxD tri ->
  box_miss triMin triMax (fin3 o) (fin3 d) (Fin maxD) t = false.
Proof.
  intros Hbox Etri Hv. destruct tri as [[p0 p1] p2].
  apply valid_boxes_overlap in Hv.
  specialize (Hbox t). cbv zeta in Hbox.
  apply triangle_at_some in Etri. destruct Etri as (E0 & E1 & E2).
  rewrite E0, E1, E2 in Hbox.
  destruct o as [[ox oy] oz], d as [[dx dy] dz], p0 as [[ax ay] az],
    p1 as [[bx b_y] bz], p2 as [[cx cy] cz].
  destruct Hv as (V1 & V2 & V3 & V4 & V5 & V6).
  destruct Hbox as (B1 & B2 & B3 & B4 & B5 & B6).
  unfold box_miss.
  cbn [fin3 at0 at1 at2 nadd nmul nmin nmax nmin3 nmax3] in *.
  rewrite (box_cell_lt_false _ _ _ B4), (box_cell_gt_false _ _ _ B1),
    (box_cell_lt_false _ _ _ B5), (box_cell_gt_false _ _ _ B2),
    (box_cell_lt_false _ _ _ B6), (box_cell_gt_false _ _ _ B3);
    [reflexivity | cbn [ngt nlt]; apply Qltb_ge; assumption ..].
Qed.

(** Hence a rejected triangle is one that the exact test would leave
    aside as well. *)
Lemma scan_step_exact (positions : list Q) (triIndices : list Z) (triMin triMax : list num)
    (o d : qvec) (maxD : Q) (s : Scan) (t : nat) :
  boxes_consistent positions triIndices triMin triMax ->
  scan_step positions triIndices triMin triMax (fin3 o) (fin3 d) (Fin maxD) s t =
  scan_exact positions triIndices (fin3 o) (fin3 d) (Fin maxD) s t.
Proof.
  intros Hbox. unfold scan_step.
  destruct (box_miss triMin triMax (fin3 o) (fin3 d) (Fin maxD) t) eqn:Hc; [|reflexivity].
  rewrite scan_exact_spec.
  destruct (triangle_at positions triIndices t) as [tri|] eqn:Etri; [|reflexivity].
  destruct (valid_b o d maxD tri) eqn:Hv; [|reflexivity].
  apply valid_b_spec in Hv.
  rewrite (box_miss_sound positions triIndices triMin triMax o d maxD t tri Hbox Etri Hv) in Hc.
  discriminate.
Qed.

(** ** The whole scan *)

Lemma fold_left_agree {A B} (f g : A -> B -> A) (l : list B) (a : A) :
  (forall s t, f s t = g s t) -> fold_left f l a = fold_left g l a.
Proof.
  intros H. revert a. induction l as [|x l IH]; intros a; simpl; [reflexivity|].
  now rewrite H, IH.
Qed.

Ltac best_hit k tri :=
  right; exists k, tri; split; [|split; [|split; [|split]]].

Lemma scan_exact_best (positions : list Q) (triIndices : list Z) (o d : qvec) (maxD : Q)
    (l : list nat) :
  best_among positions triIndices o d maxD l
    (fold_left (scan_exact positions triIndices (fin3 o) (fin3 d) (Fin maxD)) l scan_init).
Proof.
  induction l as [|t l IH] using rev_ind.
  - left. split; [reflexivity|]. intros t tri [].
  - rewrite fold_left_app. cbn [fold_left].
    set (s := fold_left _ l scan_init) in *. clearbody s.
    rewrite scan_exact_spec.
    destruct (triangle_at positions triIndices t) as [tri|] eqn:Etri.
    + destruct (valid_b o d maxD tri) eqn:Hv.
      * pose proof (proj1 (valid_b_spec _ _ _ _) Hv) as Hvalid. cbn [andb].
        destruct IH as [[-> Hnone]|(k & tri0 & Hk & Ek & Hv0 & -> & Hmin)].
        -- cbn [lt_closest closestT scan_init isfin].
           best_hit t tri; try assumption; try reflexivity.
           ++ apply in_or_app. right. now left.
           ++ intros j tri' [Hj|[<-|[]]]%in_app_or Ej Hvj.
              ** exfalso. exact (Hnone j tri' Hj Ej Hvj).
              ** rewrite Etri in Ej. injection Ej as <-. apply Qle_refl.
        -- cbn [lt_closest closestT scan_of_hit nlt].
           destruct (Qltb (mt_t o d tri) (mt_t o d tri0)) eqn:Hlt.
           ++ apply Qltb_lt in Hlt.
              best_hit t tri; try assumption; try reflexivity.
              ** apply in_or_app. right. now left.
              ** intros j tri' [Hj|[<-|[]]]%in_app_or Ej Hvj.
                 --- specialize (Hmin j tri' Hj Ej Hvj). lra.
                 --- rewrite Etri in Ej. injection Ej as <-. apply Qle_refl.
           ++ apply Qltb_ge in Hlt.
              best_hit k tri0; try assumption; try reflexivity.
              ** apply in_or_app. now left.
              ** intros j tri' [Hj|[<-|[]]]%in_app_or Ej Hvj.
                 --- exact (Hmin j tri' Hj Ej Hvj).
                 --- rewrite Etri in Ej. injection Ej as <-. exact Hlt.
      * assert (Hnv : ~ valid_intersection o d maxD tri).
        { rewrite <- valid_b_spec, Hv. discriminate. }
        cbn [andb].
        destruct IH as [[-> Hnone]|(k & tri0 & Hk & Ek & Hv0 & -> & Hmin)].
        -- left. split; [reflexivity|].
           intros j tri' [Hj|[<-|[]]]%in_app_or Ej.
           ++ exact (Hnone j tri' Hj Ej).
           ++ rewrite Etri in Ej. now injection Ej as <-.
        -- best_hit k tri0; try assumption; try reflexivity.
           ++ apply in_or_app. now left.
           ++ intros j tri' [Hj|[<-|[]]]%in_app_or Ej Hvj.
              ** exact (Hmin j tri' Hj Ej Hvj).
              ** rewrite Etri in Ej. injection Ej as <-. contradiction.
    + destruct IH as [[-> Hnone]|(k & tri0 & Hk & Ek & Hv0 & -> & Hmin)].
      * left. split; [reflexivity|].
        intros j tri' [Hj|[<-|[]]]%in_app_or Ej.
        -- exact (Hnone j tri' Hj Ej).
        -- congruence.
      * best_hit k tri0; try assumption; try reflexivity.
        -- apply in_or_app. now left.
        -- intros j tri' [Hj|[<-|[]]]%in_app_or Ej Hvj.
           ++ exact (Hmin j tri' Hj Ej Hvj).
           ++ congruence.
Qed.

(** ** The query on a started paintable *)

Lemma paintable_cases (w h : Z) (flip planar : bool) (meshComp : option Mesh) :
  let mp := paintable w h flip planar meshComp in
  (_positionsFlat mp = None /\ _triIndices mp = None) \/
  (exists mesh pos triIndices triMin triMax,
     meshComp = Some mesh /\ positionAttr mesh = Some pos /\
     _positionsFlat mp = Some (flatten3 pos) /\
     _triIndices mp = Some triIndices /\
     _triMin mp = Some triMin /\
     _triMax mp = Some triMax /\
     _uvsFlat mp = option_map (flatten2 (length pos)) (uvAttr mesh) /\
     planarFallback mp = planar /\
     inject_Z (Z.of_nat (length triIndices)) <= _triCount mp * 3 /\
     boxes_consistent (flatten3 pos) triIndices triMin triMax).
Proof.
  unfold paintable, start. destruct meshComp as [mesh|]; [|now left].
  destruct (positionAttr mesh) as [pos|] eqn:Hpos.
  - right.
    match goal with |- context [_buildMeshCaches ?this mesh] =>
      destruct (built_caches this mesh pos Hpos)
        as (ti & tmin & tmax & H1 & H2 & H3 & H4 & H5 & H6 & H7 & H8) end.
    exists mesh, pos, ti, tmin, tmax.
    exact (conj eq_refl (conj Hpos (conj H1 (conj H2 (conj H3 (conj H4 (conj H5
             (conj H6 (conj H7 H8))))))))).
  - left. unfold _buildMeshCaches. rewrite Hpos. now split.
Qed.

(** The pruned scan computes what the exhaustive scan computes, and that
    is the closest valid intersection. *)
Lemma scan_result (w h : Z) (flip planar : bool) (meshComp : option Mesh)
    (positions : list Q) (triIndices : list Z) (triMin triMax : list num)
    (o d : qvec) (maxD : Q) :
  let mp := paintable w h flip planar meshComp in
  _positionsFlat mp = Some positions -> _triIndices mp = Some triIndices ->
  _triMin mp = Some triMin -> _triMax mp = Some triMax ->
  let s := fold_left (scan_step positions triIndices triMin triMax (fin3 o) (fin3 d) (Fin maxD))
             (for_lt (_triCount mp)) scan_init in
  s = fold_left (scan_exact positions triIndices (fin3 o) (fin3 d) (Fin maxD))
        (for_lt (_triCount mp)) scan_init /\
  best_among positions triIndices o d maxD (for_lt (_triCount mp)) s /\
  (forall t tri, triangle_at positions triIndices t = Some tri -> In t (for_lt (_triCount mp))).
Proof.
  intros mp Hp Hi Hmin Hmax s. subst mp.
  destruct (paintable_cases w h flip planar meshComp)
    as [[E _]|(mesh & pos & ti & tmin & tmax & _ & _ & E1 & E2 & E3 & E4 & _ & _ & Hlen & Hbox)];
    [congruence|].
  set (mp := paintable w h flip planar meshComp) in *.
  assert (positions = flatten3 pos) as -> by congruence.
  assert (triIndices = ti) as -> by congruence.
  assert (triMin = tmin) as -> by congruence.
  assert (triMax = tmax) as -> by congruence.
  assert (Hs : s = fold_left (scan_exact (flatten3 pos) ti (fin3 o) (fin3 d) (Fin maxD))
                     (for_lt (_triCount mp)) scan_init).
  { unfold s. apply fold_left_agree. intros. now apply scan_step_exact. }
  split; [exact Hs|]. split.
  - rewrite Hs. apply scan_exact_best.
  - intros t tri. now apply triangle_at_in_loop.
Qed.

(** What the query returns, in terms of the exhaustive scan. *)
Lemma scan_outcome (w h : Z) (flip planar : bool) (meshComp : option Mesh)
    (o d : qvec) (maxD : Q) :
  let mp := paintable w h flip planar meshComp in
  (getUVFromLocalRay mp (fin3 o) (fin3 d) (Fin maxD) = None /\
   forall t, triangle_of mp t = None) \/
  (exists positions triIndices s,
     (forall t, triangle_of mp t = triangle_at positions triIndices t) /\
     getUVFromLocalRay mp (fin3 o) (fin3 d) (Fin maxD) = resolve_uv mp positions triIndices s /\
     best_among positions triIndices o d maxD (for_lt (_triCount mp)) s /\
     forall t tri, triangle_at positions triIndices t = Some tri ->
       In t (for_lt (_triCount mp))).
Proof.
  intros mp. subst mp. unfold getUVFromLocalRay, triangle_of.
  destruct (paintable_cases w h flip planar meshComp)
    as [[E E']|(mesh & pos & ti & tmin & tmax & _ & _ & Hp & Hi & E3 & E4 & _)].
  { left. rewrite E. now split. }
  right.
  destruct (scan_result w h flip planar meshComp _ _ _ _ o d maxD Hp Hi E3 E4)
    as (_ & Hbest & Hloop).
  set (mp := paintable w h flip planar meshComp) in *.
  rewrite Hp, Hi, E3, E4. cbv zeta in Hbest |- *.
  eexists _, _, _. split; [reflexivity|]. split; [reflexivity|]. split; assumption.
Qed.

(** Without a valid intersection the query returns nothing. *)
Lemma no_valid_intersection_none (w h : Z) (flip planar : bool) (meshComp : option Mesh)
    (o d : qvec) (maxD : Q) :
  let mp := paintable w h flip planar meshComp in
  (forall t tri, triangle_of mp t = Some tri -> ~ valid_intersection o d maxD tri) ->
  getUVFromLocalRay mp (fin3 o) (fin3 d) (Fin maxD) = None.
Proof.
  intros mp. subst mp. intros Hnone.
  destruct (scan_outcome w h flip planar meshComp o d maxD)
    as [[E _]|(positions & triIndices & s & Htri & -> & Hbest & Hloop)]; [exact E|].
  destruct Hbest as [[-> _]|(k & tri & _ & Ek & Hv & _)]; [reflexivity|].
  exfalso. apply (Hnone k tri); [now rewrite Htri | exact Hv].
Qed.

(** ** Vertices and their UVs in the flat arrays *)

Lemma flatten3_lookup (pos : list (Q * Q * Q)) (i k : nat) :
  (k < 3)%nat ->
  flatten3 pos !! (3 * i + k)%nat =
  pos !! i ≫= (fun p => let '(x, y, z) := p in [x; y; z] !! k).
Proof.
  intros Hk. unfold flatten3.
  rewrite (lookup_flat_map_chunks 3) by (auto; now intros [[? ?] ?]).
  destruct (pos !! i) as [[[x y] z]|]; reflexivity.
Qed.

Lemma vertex_at_flatten3 (pos : list (Q * Q * Q)) (vi : option Z) (p : qvec) :
  vertex_at (flatten3 pos) vi = fin3 p ->
  exists z, vi = Some z /\ (0 <= z)%Z /\ pos !! Z.to_nat z = Some p.
Proof.
  destruct vi as [z|]; [|destruct p as [[? ?] ?]; discriminate].
  unfold vertex_at, idx, read. intros H. exists z. split; [reflexivity|].
  destruct (Z.ltb_spec (z * 3 + 0) 0); [destruct p as [[? ?] ?]; discriminate|].
  destruct (Z.ltb_spec (z * 3 + 1) 0); [lia|].
  destruct (Z.ltb_spec (z * 3 + 2) 0); [lia|].
  split; [lia|].
  replace (Z.to_nat (z * 3 + 0)) with (3 * Z.to_nat z + 0)%nat in H by lia.
  replace (Z.to_nat (z * 3 + 1)) with (3 * Z.to_nat z + 1)%nat in H by lia.
  replace (Z.to_nat (z * 3 + 2)) with (3 * Z.to_nat z + 2)%nat in H by lia.
  rewrite !flatten3_lookup in H by lia.
  destruct (pos !! Z.to_nat z) as [[[x y] z']|]; destruct p as [[px py] pz]; simpl in H;
    [|discriminate].
  now injection H as -> -> ->.
Qed.

Lemma vertex_at_of_mesh (pos : list (Q * Q * Q)) (z : Z) (p : qvec) :
  (0 <= z)%Z -> pos !! Z.to_nat z = Some p ->
  vertex_at (flatten3 pos) (Some z) = fin3 p.
Proof.
  intros Hz Hp. unfold vertex_at, idx, read.
  destruct (Z.ltb_spec (z * 3 + 0) 0); [lia|].
  destruct (Z.ltb_spec (z * 3 + 1) 0); [lia|].
  destruct (Z.ltb_spec (z * 3 + 2) 0); [lia|].
  replace (Z.to_nat (z * 3 + 0)) with (3 * Z.to_nat z + 0)%nat by lia.
  replace (Z.to_nat (z * 3 + 1)) with (3 * Z.to_nat z + 1)%nat by lia.
  replace (Z.to_nat (z * 3 + 2)) with (3 * Z.to_nat z + 2)%nat by lia.
  rewrite !flatten3_lookup by lia. unfold qvec in Hp. rewrite Hp.
  now destruct p as [[x y] z'].
Qed.

Lemma flatten2_read (n : nat) (uvs : list (Q * Q)) (z : Z) :
  (0 <= z)%Z -> (Z.to_nat z < n)%nat ->
  read (flatten2 n uvs) (Some (z * 2 + 0)%Z) = Fin (fst (default (0, 0) (uvs !! Z.to_nat z))) /\
  read (flatten2 n uvs) (Some (z * 2 + 1)%Z) = Fin (snd (default (0, 0) (uvs !! Z.to_nat z))).
Proof.
  intros Hz Hn. unfold read, flatten2.
  destruct (Z.ltb_spec (z * 2 + 0) 0); [lia|].
  destruct (Z.ltb_spec (z * 2 + 1) 0); [lia|].
  replace (Z.to_nat (z * 2 + 0)) with (2 * Z.to_nat z + 0)%nat by lia.
  replace (Z.to_nat (z * 2 + 1)) with (2 * Z.to_nat z + 1)%nat by lia.
  rewrite !(lookup_flat_map_chunks 2)
    by (auto; intros i; now destruct (default (0, 0) (uvs !! i))).
  rewrite lookup_seq_lt by lia. simpl.
  destruct (default (0, 0) (uvs !! Z.to_nat z)); now split.
Qed.

(** ** The extents of the planar fallback *)

Lemma fold_left_agree_in {A B} (f g : A -> B -> A) (l : list B) (a : A) :
  (forall s t, In t l -> f s t = g s t) -> fold_left f l a = fold_left g l a.
Proof.
  revert a. induction l as [|x l IH]; intros a H; simpl; [reflexivity|].
  rewrite H by now left. apply IH. intros s t Ht. apply H. now right.
Qed.

Lemma fold_left_indices {A B} (F : A -> B -> A) (l : list B) (a : A) :
  fold_left (fun e k => match l !! k with Some p => F e p | None => e end)
    (seq 0 (length l)) a = fold_left F l a.
Proof.
  induction l as [|x l IH] using rev_ind; [reflexivity|].
  rewrite length_app, Nat.add_1_r, seq_S, !fold_left_app. cbn [fold_left].
  rewrite lookup_app_r, Nat.sub_diag by lia. cbn [lookup list_lookup].
  f_equal. rewrite <- IH. apply fold_left_agree_in.
  intros s t Ht. apply in_seq in Ht. now rewrite lookup_app_l by lia.
Qed.

Lemma lower_nan (acc : option num) : lower NaN acc = acc.
Proof. now destruct acc. Qed.

Lemma raise_nan (acc : option num) : raise NaN acc = acc.
Proof. destruct acc as [[m|]|]; reflexivity. Qed.

Lemma extents_flatten3 (pos : list (Q * Q * Q)) :
  extents (flatten3 pos) =
  fold_left (fun e p => let '(x, y, z) := p in
               {| ext_minX := lower (Fin x) (ext_minX e);
                  ext_minZ := lower (Fin z) (ext_minZ e);
                  ext_maxX := raise (Fin x) (ext_maxX e);
                  ext_maxZ := raise (Fin z) (ext_maxZ e) |})
    pos {| ext_minX := None; ext_minZ := None; ext_maxX := None; ext_maxZ := None |}.
Proof.
  unfold extents, for_by3.
  assert (Hlen : length (flatten3 pos) = (3 * length pos)%nat).
  { unfold flatten3. induction pos as [|[[x y] z] pos IH]; simpl; [reflexivity|].
    rewrite IH. lia. }
  rewrite Hlen.
  replace ((3 * length pos + 2) `div` 3)%nat with (length pos)
    by (apply Nat.div_unique with 2%nat; lia).
  rewrite <- (fold_left_indices _ pos).
  generalize {| ext_minX := None; ext_minZ := None; ext_maxX := None; ext_maxZ := None |}.
  generalize (seq 0 (length pos)) as ks.
  induction ks as [|k ks IH]; intros e; [reflexivity|].
  cbn [map fold_left]. rewrite IH. f_equal.
  unfold extents_step, read.
  destruct (Z.ltb_spec (Z.of_nat (3 * k)) 0); [lia|].
  destruct (Z.ltb_spec (Z.of_nat (3 * k) + 2) 0); [lia|].
  replace (Z.to_nat (Z.of_nat (3 * k))) with (3 * k + 0)%nat by lia.
  replace (Z.to_nat (Z.of_nat (3 * k) + 2)) with (3 * k + 2)%nat by lia.
  rewrite !flatten3_lookup by lia.
  destruct (pos !! k) as [[[x y] z]|]; cbn [mbind option_bind lookup list_lookup].
  - reflexivity.
  - rewrite !lower_nan, !raise_nan. now destruct e.
Qed.

Lemma lower_fold (xs : list Q) :
  match fold_left (fun acc x => lower (Fin x) acc) xs None with
  | None => xs = []
  | Some m => exists q, m = Fin q /\ least q xs
  end.
Proof.
  induction xs as [|x xs IH] using rev_ind; [reflexivity|].
  rewrite fold_left_app. cbn [fold_left].
  destruct (fold_left _ xs None) as [m|].
  - destruct IH as (q & -> & Hin & Hle). cbn [lower nlt].
    destruct (Qltb x q) eqn:E.
    + apply Qltb_lt in E. exists x. split; [reflexivity|]. split.
      * apply in_or_app. right. now left.
      * intros y [Hy|[<-|[]]]%in_app_or; [specialize (Hle y Hy); lra | apply Qle_refl].
    + apply Qltb_ge in E. exists q. split; [reflexivity|]. split.
      * apply in_or_app. now left.
      * intros y [Hy|[<-|[]]]%in_app_or; [now apply Hle | exact E].
  - subst xs. cbn [lower isfin]. exists x. split; [reflexivity|]. split.
    + now left.
    + intros y [<-|[]]. apply Qle_refl.
Qed.

Lemma raise_fold (xs : list Q) :
  match fold_left (fun acc x => raise (Fin x) acc) xs None with
  | None => xs = []
  | Some m => exists q, m = Fin q /\ greatest q xs
  end.
Proof.
  induction xs as [|x xs IH] using rev_ind; [reflexivity|].
  rewrite fold_left_app. cbn [fold_left].
  destruct (fold_left _ xs None) as [m|].
  - destruct IH as (q & -> & Hin & Hle). cbn [raise ngt nlt].
    destruct (Qltb q x) eqn:E.
    + apply Qltb_lt in E. exists x. split; [reflexivity|]. split.
      * apply in_or_app. right. now left.
      * intros y [Hy|[<-|[]]]%in_app_or; [specialize (Hle y Hy); lra | apply Qle_refl].
    + apply Qltb_ge in E. exists q. split; [reflexivity|]. split.
      * apply in_or_app. now left.
      * intros y [Hy|[<-|[]]]%in_app_or; [now apply Hle | exact E].
  - subst xs. cbn [raise isfin]. exists x. split; [reflexivity|]. split.
    + now left.
    + intros y [<-|[]]. apply Qle_refl.
Qed.

Lemma extents_spec (pos : list (Q * Q * Q)) :
  pos <> [] ->
  exists minX maxX minZ maxZ,
    extents (flatten3 pos) =
      {| ext_minX := Some (Fin minX); ext_minZ := Some (Fin minZ);
         ext_maxX := Some (Fin maxX); ext_maxZ := Some (Fin maxZ) |} /\
    least minX (map (fun p => fst (fst p)) pos) /\
    greatest maxX (map (fun p => fst (fst p)) pos) /\
    least minZ (map snd pos) /\
    greatest maxZ (map snd pos).
Proof.
  intros Hne. rewrite extents_flatten3.
  set (F := fun e p => _). set (e0 := Build_Extents None None None None).
  assert (Hproj : forall l e,
    fold_left F l e =
    {| ext_minX := fold_left (fun acc x => lower (Fin x) acc) (map (fun p => fst (fst p)) l) (ext_minX e);
       ext_minZ := fold_left (fun acc x => lower (Fin x) acc) (map snd l) (ext_minZ e);
       ext_maxX := fold_left (fun acc x => raise (Fin x) acc) (map (fun p => fst (fst p)) l) (ext_maxX e);
       ext_maxZ := fold_left (fun acc x => raise (Fin x) acc) (map snd l) (ext_maxZ e) |}).
  { induction l as [|[[x y] z] l IH]; intros e; [now destruct e|].
    cbn [fold_left map]. rewrite IH. reflexivity. }
  rewrite Hproj. cbn [ext_minX ext_minZ ext_maxX ext_maxZ e0].
  pose proof (lower_fold (map (fun p => fst (fst p)) pos)) as H1.
  pose proof (raise_fold (map (fun p => fst (fst p)) pos)) as H2.
  pose proof (lower_fold (map snd pos)) as H3.
  pose proof (raise_fold (map snd pos)) as H4.
  destruct (fold_left _ (map (fun p => fst (fst p)) pos) None) as [a|];
    [|destruct pos; [congruence|discriminate]].
  destruct (fold_left (fun acc x => raise (Fin x) acc) (map (fun p => fst (fst p)) pos) None) as [b|];
    [|destruct pos; [congruence|discriminate]].
  destruct (fold_left _ (map snd pos) None) as [c|];
    [|destruct pos; [congruence|discriminate]].
  destruct (fold_left (fun acc x => raise (Fin x) acc) (map snd pos) None) as [e|];
    [|destruct pos; [congruence|discriminate]].
  destruct H1 as (minX & -> & H1), H2 as (maxX & -> & H2),
    H3 as (minZ & -> & H3), H4 as (maxZ & -> & H4).
  exists minX, maxX, minZ, maxZ. auto.
Qed.

(** ** The resolved UV *)

Lemma getUV_some (w h : Z) (flip planar : bool) (meshComp : option Mesh)
    (o d : qvec) (maxD : Q) (r : UVResult) :
  let mp := paintable w h flip planar meshComp in
  getUVFromLocalRay mp (fin3 o) (fin3 d) (Fin maxD) = Some r ->
  exists mesh pos triIndices k tri,
    meshComp = Some mesh /\ positionAttr mesh = Some pos /\
    _positionsFlat mp = Some (flatten3 pos) /\
    _triIndices mp = Some triIndices /\
    _uvsFlat mp = option_map (flatten2 (length pos)) (uvAttr mesh) /\
    planarFallback mp = planar /\
    triangle_at (flatten3 pos) triIndices k = Some tri /\
    valid_intersection o d maxD tri /\
    resolve_uv mp (flatten3 pos) triIndices (scan_of_hit o d k tri) = Some r.
Proof.
  intros mp. subst mp. unfold getUVFromLocalRay.
  destruct (paintable_cases w h flip planar meshComp)
    as [[E E']|(mesh & pos & ti & tmin & tmax & Em & Epos & Hp & Hi & E3 & E4 & Euv & Epl & _)].
  { rewrite E. discriminate. }
  destruct (scan_result w h flip planar meshComp _ _ _ _ o d maxD Hp Hi E3 E4)
    as (_ & Hbest & _).
  set (mp := paintable w h flip planar meshComp) in *.
  rewrite Hp, Hi, E3, E4. cbv zeta in Hbest |- *.
  set (s := fold_left _ (for_lt (_triCount mp)) scan_init) in *. clearbody s.
  destruct Hbest as [[-> _]|(k & tri & _ & Ek & Hv & -> & _)]; [discriminate|].
  intros Hr. exists mesh, pos, ti, k, tri.
  exact (conj Em (conj Epos (conj eq_refl (conj eq_refl (conj Euv (conj Epl
           (conj Ek (conj Hv Hr)))))))).
Qed.

Lemma clamp_fin (x : Q) : clamp (Fin x) = Fin (clamp01 x).
Proof. reflexivity. Qed.

Lemma planar_coord_fin (hx lo hi : Q) :
  planar_coord (Fin hx) (Some (Fin lo)) (Some (Fin hi)) =
  Fin (clamp01 ((hx - lo) / extent lo hi)).
Proof.
  unfold planar_coord, extent. cbn [nsub nor].
  destruct (Qeq_bool (hi - lo) 0) eqn:E; cbn [ndiv].
  - reflexivity.
  - now rewrite E.
Qed.

Lemma triangle_vertices_in_mesh (pos : list (Q * Q * Q)) (triIndices : list Z) (k : nat)
    (p0 p1 p2 : qvec) :
  triangle_at (flatten3 pos) triIndices k = Some (p0, p1, p2) ->
  exists z0 z1 z2,
    tri_vertex_index triIndices k 0 = Some z0 /\
    tri_vertex_index triIndices k 1 = Some z1 /\
    tri_vertex_index triIndices k 2 = Some z2 /\
    (0 <= z0)%Z /\ (0 <= z1)%Z /\ (0 <= z2)%Z /\
    pos !! Z.to_nat z0 = Some p0 /\ pos !! Z.to_nat z1 = Some p1 /\
    pos !! Z.to_nat z2 = Some p2.
Proof.
  intros Htri. apply triangle_at_some in Htri. destruct Htri as (E0 & E1 & E2).
  apply vertex_at_flatten3 in E0, E1, E2.
  destruct E0 as (z0 & -> & ? & ?), E1 as (z1 & -> & ? & ?), E2 as (z2 & -> & ? & ?).
  exists z0, z1, z2. auto 12.
Qed.

Lemma vertex_uv_built (pos : list (Q * Q * Q)) (uvs : list (Q * Q)) (triIndices : list Z)
    (k : nat) (j z : Z) (p : qvec) :
  tri_vertex_index triIndices k j = Some z -> (0 <= z)%Z -> pos !! Z.to_nat z = Some p ->
  let c := default (0, 0) (uvs !! Z.to_nat z) in
  read (flatten2 (length pos) uvs) (idx (Some z) 2 0) = Fin (fst c) /\
  read (flatten2 (length pos) uvs) (idx (Some z) 2 1) = Fin (snd c) /\
  vertex_uv (flatten2 (length pos) uvs) triIndices k j = Some c.
Proof.
  intros Ei Hz Hp c. apply lookup_lt_Some in Hp.
  destruct (flatten2_read (length pos) uvs z Hz Hp) as [R0 R1].
  unfold vertex_uv, idx. rewrite Ei, R0, R1. fold c. now destruct c.
Qed.

(** A hit can only come from a ray of numbers. *)
Lemma scan_step_ray_finite (positions : list Q) (triIndices : list Z) (triMin triMax : list num)
    (lo ld : vec3) (m : num) (s : Scan) (t : nat) :
  scan_step positions triIndices triMin triMax lo ld m s t = s \/
  exists o d, lo = fin3 o /\ ld = fin3 d.
Proof.
  unfold scan_step.
  destruct (box_miss triMin triMax lo ld m t); [now left|].
  unfold scan_exact.
  destruct (rayTriangleIntersectMollerTrumbore _ _ _ _ _) as [h|] eqn:Eh; [|now left].
  destruct (hit_t h >? Fin (1 # 1000000))%num eqn:Egt; [|now left].
  right. unfold ngt in Egt. apply nlt_fin in Egt. destruct Egt as [_ Hfin].
  destruct (mt_hit_fin _ _ _ _ _ _ Eh Hfin) as (o & d & _ & _ & _ & Eo & Ed & _).
  now exists o, d.
Qed.

Lemma getUV_ray_finite (this : MeshPaintable) (lo ld : vec3) (m : num) (r : UVResult) :
  getUVFromLocalRay this lo ld m = Some r ->
  exists o d, lo = fin3 o /\ ld = fin3 d.
Proof.
  unfold getUVFromLocalRay.
  destruct (_positionsFlat this) as [positions|]; [|discriminate].
  destruct (_triIndices this) as [triIndices|]; [|discriminate].
  destruct (_triMin this) as [triMin|]; [|discriminate].
  destruct (_triMax this) as [triMax|]; [|discriminate].
  cbv zeta.
  assert (H : forall l,
    fold_left (scan_step positions triIndices triMin triMax lo ld m) l scan_init = scan_init \/
    exists o d, lo = fin3 o /\ ld = fin3 d).
  { induction l as [|t l IH] using rev_ind; [now left|].
    rewrite fold_left_app. cbn [fold_left].
    destruct IH as [->|IH]; [|now right].
    apply scan_step_ray_finite. }
  destruct (H (for_lt (_triCount this))) as [->|Hfin]; [discriminate|].
  intros _. exact Hfin.
Qed.

(** The UV returned by a started paintable is a pair of numbers of
    [0,1]. *)
Lemma getUV_uv_range (w h : Z) (flip planar : bool) (meshComp : option Mesh)
    (o d : qvec) (maxD : Q) (r : UVResult) :
  getUVFromLocalRay (paintable w h flip planar meshComp) (fin3 o) (fin3 d) (Fin maxD) = Some r ->
  exists a b, uv r = (Fin a, Fin b) /\ 0 <= a /\ a <= 1 /\ 0 <= b /\ b <= 1.
Proof.
  intros Hr.
  destruct (getUV_some w h flip planar meshComp o d maxD r Hr)
    as (mesh & pos & ti & k & tri & Em & Epos & Hp & Hi & Euv & Epl & Ek & Hv & Hres).
  destruct tri as [[p0 p1] p2].
  destruct (triangle_vertices_in_mesh pos ti k p0 p1 p2 Ek)
    as (z0 & z1 & z2 & I0 & I1 & I2 & Z0 & Z1 & Z2 & P0 & P1 & P2).
  unfold resolve_uv in Hres. cbn [bestTri bestLocalHit bestU bestV scan_of_hit] in Hres.
  destruct (uvAttr mesh) as [uvs|]; cbn [option_map] in Euv; rewrite Euv in Hres.
  - rewrite I0, I1, I2 in Hres.
    destruct (vertex_uv_built pos uvs ti k 0 z0 p0 I0 Z0 P0) as (A0 & B0 & U0).
    destruct (vertex_uv_built pos uvs ti k 1 z1 p1 I1 Z1 P1) as (A1 & B1 & U1).
    destruct (vertex_uv_built pos uvs ti k 2 z2 p2 I2 Z2 P2) as (A2 & B2 & U2).
    cbv zeta in A0, B0, A1, B1, A2, B2.
    rewrite A0, B0, A1, B1, A2, B2 in Hres.
    cbn [nadd nsub nmul] in Hres. rewrite !clamp_fin in Hres.
    injection Hres as <-. cbn [uv].
    eexists _, _. split; [reflexivity|].
    split; [apply clamp01_range|]. split; [apply clamp01_range|].
    split; apply clamp01_range.
  - rewrite Epl in Hres. destruct planar; [|discriminate].
    assert (Hne : pos <> []) by (intros ->; discriminate).
    destruct (extents_spec pos Hne) as (minX & maxX & minZ & maxZ & Eext & _).
    rewrite Eext in Hres. cbn [ext_minX ext_maxX ext_minZ ext_maxZ] in Hres.
    destruct (along o d (mt_t o d (p0, p1, p2))) as [[hx hy] hz].
    cbn [fin3 at0 at2] in Hres. rewrite !planar_coord_fin in Hres.
    injection Hres as <-. cbn [uv].
    eexists _, _. split; [reflexivity|].
    split; [apply clamp01_range|]. split; [apply clamp01_range|].
    split; apply clamp01_range.
Qed.

(** C5.  For every paintable built by [start()] and every ray of finite
    numbers, a returned UV is a pair of numbers in [0,1] x [0,1]; and
    when the mesh carries UVs, it is the componentwise clamp of
    (1-u-v) uv0 + u uv1 + v uv2, where (u, v) are the barycentric
    coordinates of a valid intersection with the returned triangle and
    uv0, uv1, uv2 the UVs of its three vertices, a point that lies in
    the convex hull of uv0, uv1, uv2. *)
Theorem resolved_uv_is_clamped_barycentric (w h : Z) (flip planar : bool)
    (meshComp : option Mesh) (o d : qvec) (maxD : Q) (r : UVResult) :
  let mp := paintable w h flip planar meshComp in
  getUVFromLocalRay mp (fin3 o) (fin3 d) (Fin maxD) = Some r ->
  (exists a b, uv r = (Fin a, Fin b) /\ 0 <= a /\ a <= 1 /\ 0 <= b /\ b <= 1) /\
  (forall uvsFlat, _uvsFlat mp = Some uvsFlat ->
   exists triIndices tri uv0 uv1 uv2,
     _triIndices mp = Some triIndices /\
     triangle_of mp (triIndex r) = Some tri /\
     valid_intersection o d maxD tri /\
     vertex_uv uvsFlat triIndices (triIndex r) 0 = Some uv0 /\
     vertex_uv uvsFlat triIndices (triIndex r) 1 = Some uv1 /\
     vertex_uv uvsFlat triIndices (triIndex r) 2 = Some uv2 /\
     let u := mt_u o d tri in
     let v := mt_v o d tri in
     let iu := (1 - u - v) * fst uv0 + u * fst uv1 + v * fst uv2 in
     let iv := (1 - u - v) * snd uv0 + u * snd uv1 + v * snd uv2 in
     uv r = (Fin (clamp01 iu), Fin (clamp01 iv)) /\
     in_hull (iu, iv) uv0 uv1 uv2).
Proof.
  intros mp Hr. split; [exact (getUV_uv_range w h flip planar meshComp o d maxD r Hr)|].
  destruct (getUV_some w h flip planar meshComp o d maxD r Hr)
    as (mesh & pos & ti & k & tri & Em & Epos & Hp & Hi & Euv & Epl & Ek & Hv & Hres).
  fold mp in Hp, Hi, Euv, Epl, Hres.
  destruct tri as [[p0 p1] p2].
  destruct (triangle_vertices_in_mesh pos ti k p0 p1 p2 Ek)
    as (z0 & z1 & z2 & I0 & I1 & I2 & Z0 & Z1 & Z2 & P0 & P1 & P2).
  unfold resolve_uv in Hres. cbn [bestTri bestLocalHit bestU bestV scan_of_hit] in Hres.
  destruct (uvAttr mesh) as [uvs|]; cbn [option_map] in Euv; rewrite Euv in Hres.
  - rewrite I0, I1, I2 in Hres.
    destruct (vertex_uv_built pos uvs ti k 0 z0 p0 I0 Z0 P0) as (A0 & B0 & U0).
    destruct (vertex_uv_built pos uvs ti k 1 z1 p1 I1 Z1 P1) as (A1 & B1 & U1).
    destruct (vertex_uv_built pos uvs ti k 2 z2 p2 I2 Z2 P2) as (A2 & B2 & U2).
    cbv zeta in A0, B0, U0, A1, B1, U1, A2, B2, U2.
    rewrite A0, B0, A1, B1, A2, B2 in Hres.
    cbn [nadd nsub nmul] in Hres. rewrite !clamp_fin in Hres.
    injection Hres as <-. cbn [uv triIndex].
    intros uvsFlat Hu. rewrite Euv in Hu. injection Hu as <-.
    exists ti, (p0, p1, p2), (default (0, 0) (uvs !! Z.to_nat z0)),
      (default (0, 0) (uvs !! Z.to_nat z1)), (default (0, 0) (uvs !! Z.to_nat z2)).
    unfold triangle_of. rewrite Hp, Hi.
    refine (conj eq_refl (conj Ek (conj Hv (conj U0 (conj U1 (conj U2 _)))))).
    cbv zeta. split; [reflexivity|].
    destruct Hv as (_ & Hu0 & _ & Hv0 & Huv & _).
    exists (1 - mt_u o d (p0, p1, p2) - mt_v o d (p0, p1, p2)),
      (mt_u o d (p0, p1, p2)), (mt_v o d (p0, p1, p2)).
    cbn [fst snd].
    split; [lra|]. split; [assumption|]. split; [assumption|].
    split; [ring|]. split; reflexivity.
  - intros uvsFlat. rewrite Euv. discriminate.
Qed.

Lemma getUV_unresolvable (mp : MeshPaintable) (lo ld : vec3) (m : num) :
  _uvsFlat mp = None -> planarFallback mp = false -> getUVFromLocalRay mp lo ld m = None.
Proof.
  intros Huv Hpl. unfold getUVFromLocalRay.
  destruct (_positionsFlat mp) as [positions|]; [|reflexivity].
  destruct (_triIndices mp) as [triIndices|]; [|reflexivity].
  destruct (_triMin mp) as [triMin|]; [|reflexivity].
  destruct (_triMax mp) as [triMax|]; [|reflexivity].
  cbv zeta. unfold resolve_uv.
  destruct (bestTri _); [|reflexivity]. destruct (bestLocalHit _); [|reflexivity].
  now rewrite Huv, Hpl.
Qed.

Lemma paintable_no_uv (w h : Z) (flip planar : bool) (mesh : Mesh) :
  uvAttr mesh = None ->
  _uvsFlat (paintable w h flip planar (Some mesh)) = None /\
  planarFallback (paintable w h flip planar (Some mesh)) = planar.
Proof.
  intros Huv. unfold paintable, start, _buildMeshCaches. cbn [positionAttr].
  destruct (positionAttr mesh) as [pos|]; [|split; reflexivity].
  rewrite Huv. destruct (indexData mesh) as [[|i l]|]; split; reflexivity.
Qed.

(** A frame whose hit object carries a paintable without UVs and with
    the planar fallback off paints nothing. *)
Lemma no_uv_no_dab (sqrt : Q -> Q) (this : MeshBrush) (env : Frame) (rh : RayHit)
    (hitObj : Object3D) (mp : MeshPaintable) :
  rayHit env = Some rh -> object0 rh = Some hitObj -> meshPaintable hitObj = Some mp ->
  _uvsFlat mp = None -> planarFallback mp = false ->
  dabs (snd (update sqrt this env)) = [].
Proof.
  intros Hrh Hobj Hmp Huv Hpl. unfold update. rewrite Hrh.
  destruct (hitCount rh =? 0)%Z; [reflexivity|]. rewrite Hobj.
  destruct (_tryPickColorFromName this (name hitObj)) as [this1 [picked|]]; [reflexivity|].
  rewrite Hmp. destruct (to_local_ray sqrt this1 env hitObj) as [lo ld].
  now rewrite (getUV_unresolvable mp lo ld _ Huv Hpl).
Qed.

(** C6.  For every mesh without UVs: with the planar fallback enabled, a
    returned UV is u = (x - minX) / (maxX - minX), v = (z - minZ) /
    (maxZ - minZ) of the local hit point, clamped to [0,1], where minX,
    maxX, minZ, maxZ are the extents of all the vertices of the mesh and
    a zero extent is replaced by 1; with the fallback disabled
    [getUVFromLocalRay] returns nothing, and a frame whose first hit is
    on an object with such a paintable paints no dab.  On the square
    spanning
    [-1,1] x [-1,1] in X/Z, the hit at (x, z) = (-1, -1) resolves to
    (0, 0) and the hit at (1, 1) to (1, 1). *)
Theorem planar_fallback_uv (w h : Z) (flip : bool) (mesh : Mesh) (o d : qvec) (maxD : Q) :
  uvAttr mesh = None ->
  (forall r,
     getUVFromLocalRay (paintable w h flip true (Some mesh)) (fin3 o) (fin3 d) (Fin maxD) = Some r ->
     exists pos hx hy hz minX maxX minZ maxZ,
       positionAttr mesh = Some pos /\
       localHit r = fin3 (hx, hy, hz) /\
       least minX (map (fun p => fst (fst p)) pos) /\
       greatest maxX (map (fun p => fst (fst p)) pos) /\
       least minZ (map snd pos) /\
       greatest maxZ (map snd pos) /\
       uv r = (Fin (clamp01 ((hx - minX) / extent minX maxX)),
               Fin (clamp01 ((hz - minZ) / extent minZ maxZ)))) /\
  getUVFromLocalRay (paintable w h flip false (Some mesh)) (fin3 o) (fin3 d) (Fin maxD) = None /\
  (forall (sqrt : Q -> Q) (this : MeshBrush) (env : Frame) (rh : RayHit) (hitObj : Object3D),
     rayHit env = Some rh -> object0 rh = Some hitObj ->
     meshPaintable hitObj = Some (paintable w h flip false (Some mesh)) ->
     dabs (snd (update sqrt this env)) = []) /\
  (exists r,
     getUVFromLocalRay (paintable w h flip true (Some plane_no_uv))
       (fin3 (-1, 1, -1)) (fin3 (0, -1, 0)) (Fin 10) = Some r /\
     (at0 (localHit r) =~ Fin (-1))%num /\ (at2 (localHit r) =~ Fin (-1))%num /\
     (fst (uv r) =~ Fin 0)%num /\ (snd (uv r) =~ Fin 0)%num) /\
  (exists r,
     getUVFromLocalRay (paintable w h flip true (Some plane_no_uv))
       (fin3 (1, 1, 1)) (fin3 (0, -1, 0)) (Fin 10) = Some r /\
     (at0 (localHit r) =~ Fin 1)%num /\ (at2 (localHit r) =~ Fin 1)%num /\
     (fst (uv r) =~ Fin 1)%num /\ (snd (uv r) =~ Fin 1)%num).
Proof.
  intros Hnouv. split; [|split; [|split; [|split]]].
  - intros r Hr.
    destruct (getUV_some w h flip true (Some mesh) o d maxD r Hr)
      as (mesh' & pos & ti & k & tri & Em & Epos & Hp & Hi & Euv & Epl & Ek & Hv & Hres).
    injection Em as <-. rewrite Hnouv in Euv. cbn [option_map] in Euv.
    unfold resolve_uv in Hres. cbn [bestTri bestLocalHit scan_of_hit] in Hres.
    rewrite Euv, Epl in Hres.
    assert (Hne : pos <> []).
    { intros ->. destruct tri as [[p0 p1] p2].
      destruct (triangle_vertices_in_mesh [] ti k p0 p1 p2 Ek)
        as (z0 & z1 & z2 & _ & _ & _ & _ & _ & _ & P0 & _).
      discriminate. }
    destruct (extents_spec pos Hne) as (minX & maxX & minZ & maxZ & Eext & L1 & G1 & L2 & G2).
    rewrite Eext in Hres. cbn [ext_minX ext_maxX ext_minZ ext_maxZ] in Hres.
    destruct (along o d (mt_t o d tri)) as [[hx hy] hz].
    cbn [fin3 at0 at2] in Hres. rewrite !planar_coord_fin in Hres.
    injection Hres as <-. cbn [uv localHit].
    exists pos, hx, hy, hz, minX, maxX, minZ, maxZ.
    exact (conj Epos (conj eq_refl (conj L1 (conj G1 (conj L2 (conj G2 eq_refl)))))).
  - destruct (getUVFromLocalRay _ _ _ _) as [r|] eqn:Hr; [|reflexivity].
    exfalso.
    destruct (getUV_some w h flip false (Some mesh) o d maxD r Hr)
      as (mesh' & pos & ti & k & tri & Em & Epos & Hp & Hi & Euv & Epl & Ek & Hv & Hres).
    injection Em as <-. rewrite Hnouv in Euv. cbn [option_map] in Euv.
    unfold resolve_uv in Hres. cbn [bestTri bestLocalHit scan_of_hit] in Hres.
    rewrite Euv, Epl in Hres. discriminate.
  - intros sqrt this env rh hitObj Hrh Hobj Hmp.
    destruct (paintable_no_uv w h flip false mesh Hnouv) as [Huv Hpl].
    exact (no_uv_no_dab sqrt this env rh hitObj _ Hrh Hobj Hmp Huv Hpl).
  - eexists. split; [vm_compute; reflexivity|]. vm_compute. auto.
  - eexists. split; [vm_compute; reflexivity|]. vm_compute. auto.
Qed.

Lemma planar_fallback_uv_witness :
  getUVFromLocalRay (paintable 1024 1024 true false (Some plane_no_uv))
    (fin3 (-1, 1, -1)) (fin3 (0, -1, 0)) (Fin 10) = None.
Proof.
  exact (proj1 (proj2 (planar_fallback_uv 1024 1024 true plane_no_uv
                         (-1, 1, -1) (0, -1, 0) 10 eq_refl))).
Defined.

Lemma resolved_uv_is_clamped_barycentric_witness :
  exists r a b,
    getUVFromLocalRay (paintable 1024 1024 true true (Some quad_xz))
      (fin3 (0, 1, 0)) (fin3 (0, -1, 0)) (Fin 10) = Some r /\
    uv r = (Fin a, Fin b) /\ 0 <= a /\ a <= 1 /\ 0 <= b /\ b <= 1.
Proof.
  destruct (getUVFromLocalRay (paintable 1024 1024 true true (Some quad_xz))
              (fin3 (0, 1, 0)) (fin3 (0, -1, 0)) (Fin 10)) as [r|] eqn:Hr;
    [|vm_compute in Hr; discriminate].
  destruct (resolved_uv_is_clamped_barycentric 1024 1024 true true (Some quad_xz)
              (0, 1, 0) (0, -1, 0) 10 r Hr) as [(a & b & Huv & Hab) _].
  exists r, a, b. auto.
Defined.

(** ** The raster under a dab *)

(** A paintable that resolves a ray has gone through [start()], so
    [paintAtUV] draws on it. *)
Lemma getUV_created (w h : Z) (flip planar : bool) (meshComp : option Mesh)
    (lo ld : vec3) (m : num) (r : UVResult) :
  getUVFromLocalRay (paintable w h flip planar meshComp) lo ld m = Some r ->
  created (paintable w h flip planar meshComp) = true.
Proof.
  unfold paintable, start. destruct meshComp as [mesh|]; [|discriminate].
  intros _. unfold _buildMeshCaches.
  destruct (positionAttr mesh); [|reflexivity].
  match goal with |- context [let '(_, _) := ?X in _] => now destruct X end.
Qed.

(** The centre of a dab is a pixel of the canvas, its far edges
    included. *)
Lemma paintAtUV_on_canvas (this : MeshPaintable) (u v : Q) :
  created this = true ->
  (0 <= textureWidth this)%Z -> (0 <= textureHeight this)%Z ->
  exists x y : Z,
    paintAtUV this (Fin u) (Fin v) = Some (Fin (inject_Z x), Fin (inject_Z y)) /\
    (0 <= x <= textureWidth this)%Z /\ (0 <= y <= textureHeight this)%Z.
Proof.
  intros Hc Hw Hh. unfold paintAtUV. rewrite Hc.
  change (nmin (nmax (Fin u) (Fin 0)) (Fin 1)) with (Fin (clamp01 u)).
  change (nmin (nmax (Fin v) (Fin 0)) (Fin 1)) with (Fin (clamp01 v)).
  pose proof (clamp01_range u) as [Hu0 Hu1]. pose proof (clamp01_range v) as [Hv0 Hv1].
  assert (HW : 0 <= inject_Z (textureWidth this)) by (rewrite <- (Zle_Qle 0); exact Hw).
  assert (HH : 0 <= inject_Z (textureHeight this)) by (rewrite <- (Zle_Qle 0); exact Hh).
  assert (Hbound : forall c n : Q, 0 <= c -> c <= 1 -> forall z : Z, n = inject_Z z ->
            (0 <= z)%Z -> (0 <= Qfloor (c * n) <= z)%Z).
  { intros c n Hc0 Hc1 z -> Hz.
    assert (0 <= inject_Z z) by (rewrite <- (Zle_Qle 0); exact Hz).
    split.
    - rewrite <- (Qfloor_Z 0). apply Qfloor_resp_le. apply Qmult_le_0_compat; assumption.
    - rewrite <- (Qfloor_Z z) at 2. apply Qfloor_resp_le. nra. }
  destruct (flipY this); cbn [nmul nsub nfloor].
  - eexists _, _. split; [reflexivity|]. split.
    + now apply Hbound.
    + apply Hbound; [lra | lra | reflexivity | exact Hh].
  - eexists _, _. split; [reflexivity|]. split; now apply Hbound.
Qed.

(** ** A mesh without index data *)

(** Four vertices without indices: [triCount] is 4/3, the loop visits
    two triples, and the second one, which reads past the end of the
    index array, never hits. *)
Example unindexed_caches :
  let mp := paintable 8 8 true true (Some plane_unindexed) in
  _triCount mp == 4 # 3 /\
  _triIndices mp = Some [0; 1; 2; 3]%Z /\
  for_lt (_triCount mp) = [0; 1]%nat /\
  triangle_of mp 1 = None /\
  option_map triIndex
    (getUVFromLocalRay mp (fin3 (-(1 # 2), 1, 1 # 2)) (fin3 (0, -1, 0)) (Fin 10)) = None /\
  option_map triIndex
    (getUVFromLocalRay mp (fin3 (1 # 2, 1, -(1 # 2))) (fin3 (0, -1, 0)) (Fin 10)) = Some 0%nat.
Proof. vm_compute. repeat split; reflexivity. Qed.

(** ** The unit quad of the specification *)

(** A ray that runs inside the plane of a flat mesh meets no triangle:
    every determinant is zero. *)
Lemma flat_mesh_parallel_ray (w h : Z) (flip planar : bool) (mesh : Mesh)
    (pos : list (Q * Q * Q)) (ox oy oz dx dz maxD : Q) :
  positionAttr mesh = Some pos ->
  (forall p, In p pos -> snd (fst p) == 0) ->
  getUVFromLocalRay (paintable w h flip planar (Some mesh))
    (fin3 (ox, oy, oz)) (fin3 (dx, 0, dz)) (Fin maxD) = None.
Proof.
  intros Hpos Hflat.
  apply no_valid_intersection_none.
  intros t [[p0 p1] p2] Htri (Hdet & _).
  unfold triangle_of in Htri.
  destruct (paintable_cases w h flip planar (Some mesh))
    as [[E E']|(mesh' & pos' & ti & tmin & tmax & Em & Epos & Hp & Hi & _)].
  { rewrite E in Htri. discriminate. }
  injection Em as <-. rewrite Hpos in Epos. injection Epos as <-.
  rewrite Hp, Hi in Htri.
  destruct (triangle_vertices_in_mesh pos ti t p0 p1 p2 Htri)
    as (z0 & z1 & z2 & _ & _ & _ & _ & _ & _ & P0 & P1 & P2).
  apply list_elem_of_lookup_2, list_elem_of_In, Hflat in P0, P1, P2.
  destruct p0 as [[ax ay] az], p1 as [[bx b_y] bz], p2 as [[cx cy] cz].
  cbn [fst snd] in P0, P1, P2.
  assert (Hz : mt_det (dx, 0, dz) ((ax, ay, az), (bx, b_y, bz), (cx, cy, cz)) == 0).
  { unfold mt_det, dot, cross, vsub. rewrite P0, P1, P2. ring. }
  rewrite Hz in Hdet. vm_compute in Hdet. now apply Hdet.
Qed.

(** C9 as stated fails: the ray from (0,0,1) aimed (0,0,-1) runs inside
    the plane of the quad that spans X and Z. *)
Lemma quad_hit_counterexample :
  getUVFromLocalRay (paintable 1024 1024 true true (Some quad_xz))
    (fin3 (0, 0, 1)) (fin3 (0, 0, -1)) (Fin 10) = None.
Proof. vm_compute. reflexivity. Qed.

(** C9, amended.  The ray from (0,1,0) aimed (0,-1,0) hits the two-triangle
    unit quad that spans X and Z at the local point (0,0,0), which
    resolves to the UV (1/2, 1/2). *)
Theorem quad_hit_from_above :
  exists r,
    getUVFromLocalRay (paintable 1024 1024 true true (Some quad_xz))
      (fin3 (0, 1, 0)) (fin3 (0, -1, 0)) (Fin 10) = Some r /\
    (at0 (localHit r) =~ Fin 0)%num /\ (at1 (localHit r) =~ Fin 0)%num /\
    (at2 (localHit r) =~ Fin 0)%num /\
    (fst (uv r) =~ Fin (1 # 2))%num /\ (snd (uv r) =~ Fin (1 # 2))%num.
Proof.
  eexists. split; [vm_compute; reflexivity|]. vm_compute. auto 6.
Qed.

(** ** The query on binary64 numbers *)

(** *** The order of the values *)

Ltac xorder :=
  intros;
  repeat match goal with
         | x : Binary64.xreal |- _ => destruct x
         end;
  cbn [Binary64.xlt Binary64.xle] in *; try discriminate; try reflexivity;
  repeat match goal with
         | H : Qltb _ _ = true |- _ => apply Qltb_lt in H
         | H : Qltb _ _ = false |- _ => apply Qltb_ge in H
         | H : Qleb _ _ = true |- _ => apply Qleb_le in H
         | H : Qleb _ _ = false |- _ => apply Qleb_gt in H
         end;
  try (apply Qltb_lt; lra); try (apply Qleb_le; lra);
  try (apply Qltb_ge; lra); try (apply Qleb_gt; lra).

Section BinaryOrder.

Import Binary64.

Lemma value_some (x : float) : is_nan x = false -> exists r, value x = Some r.
Proof. destruct x as [s|s| |s m e]; cbn; intros H; try discriminate; eauto. Qed.

Lemma flt_defined (a b : float) :
  flt a b = true -> is_nan a = false /\ is_nan b = false.
Proof.
  unfold flt. destruct a as [s|s| |s m e], b as [s'|s'| |s' m' e']; cbn; auto; discriminate.
Qed.

Lemma flt_trans (a b c : float) : flt a b = true -> flt b c = true -> flt a c = true.
Proof.
  unfold flt. destruct (value a) as [x|], (value b) as [y|], (value c) as [z|];
    try discriminate. xorder.
Qed.

Lemma flt_fle_trans (a b c : float) : flt a b = true -> fle b c = true -> flt a c = true.
Proof.
  unfold flt, fle. destruct (value a) as [x|], (value b) as [y|], (value c) as [z|];
    try discriminate. xorder.
Qed.

Lemma flt_fle (a b : float) : flt a b = true -> fle a b = true.
Proof.
  unfold flt, fle. destruct (value a) as [x|], (value b) as [y|]; try discriminate. xorder.
Qed.

Lemma fle_refl (a : float) : is_nan a = false -> fle a a = true.
Proof.
  intros H. destruct (value_some a H) as [x E]. unfold fle. rewrite E. xorder.
Qed.

(** Two numbers are comparable. *)
Lemma flt_false_fle (a b : float) :
  is_nan a = false -> is_nan b = false -> flt a b = false -> fle b a = true.
Proof.
  intros Ha Hb. destruct (value_some a Ha) as [x Ex], (value_some b Hb) as [y Ey].
  unfold flt, fle. rewrite Ex, Ey. xorder.
Qed.

Lemma flt_not_fle (a b : float) : flt a b = true -> fle b a = false.
Proof.
  unfold flt, fle. destruct (value a) as [x|], (value b) as [y|]; try discriminate. xorder.
Qed.

Lemma fle_not_flt (a b : float) : fle a b = true -> flt b a = false.
Proof.
  unfold flt, fle. destruct (value a) as [x|], (value b) as [y|]; try discriminate. xorder.
Qed.

(** What is below a number is below [Infinity]. *)
Lemma flt_below_infinity (a b : float) : flt a b = true -> flt a Infinity = true.
Proof.
  unfold flt. change (value Infinity) with (Some PosInf).
  destruct (value a) as [x|], (value b) as [y|]; try discriminate. xorder.
Qed.

(** *** [NaN] in the arithmetic *)

Lemma fmul_defined (a b : float) :
  is_nan (fmul a b) = false -> is_nan a = false /\ is_nan b = false.
Proof.
  destruct a as [s|s| |s m e], b as [s'|s'| |s' m' e']; cbn; auto; discriminate.
Qed.

Lemma fdiv_defined (a b : float) :
  is_nan (fdiv a b) = false -> is_nan a = false /\ is_nan b = false.
Proof.
  destruct a as [s|s| |s m e], b as [s'|s'| |s' m' e']; cbn; auto; discriminate.
Qed.

Lemma iter_pos_keeps {A} (P : A -> Prop) (f : A -> A) :
  (forall x, P x -> P (f x)) -> forall p x, P x -> P (SpecFloat.iter_pos f p x).
Proof.
  intros Hf. induction p as [p IH|p IH|]; intros x Hx; cbn [SpecFloat.iter_pos]; auto.
Qed.

Lemma shr_1_nonneg (mrs : shr_record) : (0 <= shr_m mrs)%Z -> (0 <= shr_m (shr_1 mrs))%Z.
Proof.
  destruct mrs as [m r s]. cbn [shr_m]. intros Hm.
  destruct m as [|[p|p|]|p]; cbn; lia.
Qed.

Lemma shr_nonneg (mrs : shr_record) (e n : Z) :
  (0 <= shr_m mrs)%Z -> (0 <= shr_m (fst (shr mrs e n)))%Z.
Proof.
  intros Hm. unfold shr. destruct n as [|p|p]; cbn [fst]; try exact Hm.
  apply (iter_pos_keeps (fun x => (0 <= shr_m x)%Z)); [apply shr_1_nonneg|exact Hm].
Qed.

Lemma shr_fexp_nonneg (pr em m e : Z) (l : location) :
  (0 <= m)%Z -> (0 <= shr_m (fst (shr_fexp pr em m e l)))%Z.
Proof.
  intros Hm. unfold shr_fexp. apply shr_nonneg.
  destruct l as [|[| |]]; exact Hm.
Qed.

Lemma binary_round_aux_defined (pr em : Z) (sx : bool) (mx ex : Z) (lx : location) :
  (0 <= mx)%Z -> is_nan (binary_round_aux pr em sx mx ex lx) = false.
Proof.
  intros Hm. unfold binary_round_aux.
  pose proof (shr_fexp_nonneg pr em mx ex lx Hm) as H1.
  destruct (shr_fexp pr em mx ex lx) as [mrs' e']. cbn [fst] in H1.
  assert (H2 : (0 <= round_nearest_even (shr_m mrs') (loc_of_shr_record mrs'))%Z).
  { unfold round_nearest_even.
    destruct (loc_of_shr_record mrs') as [|[| |]]; try exact H1; [|lia].
    destruct (Z.even (shr_m mrs')); lia. }
  pose proof (shr_fexp_nonneg pr em _ e' loc_Exact H2) as H3.
  destruct (shr_fexp pr em _ e' loc_Exact) as [mrs'' e'']. cbn [fst] in H3.
  destruct (shr_m mrs'') as [|p|p]; [reflexivity| |lia].
  now destruct (Z.leb e'' (em - pr)).
Qed.

Lemma binary_normalize_defined (pr em m e : Z) (s : bool) :
  is_nan (binary_normalize pr em m e s) = false.
Proof.
  unfold binary_normalize, binary_round. destruct m as [|p|p]; [reflexivity| |].
  - destruct (shl_align _ _ _) as [mz ez]. now apply binary_round_aux_defined.
  - destruct (shl_align _ _ _) as [mz ez]. now apply binary_round_aux_defined.
Qed.

End BinaryOrder.

(** *** The intersection test *)

Section BinaryScan.

Import Binary64.
Local Open Scope float_scope.

Lemma mt_spec (orig dir p0 p1 p2 : vec3) :
  rayTriangleIntersectMollerTrumbore orig dir p0 p1 p2 =
  let q := quantities orig dir p0 p1 p2 in
  if (q_det q >? fneg EPS) && (q_det q <? EPS) then None else
  if (q_u q <? of_Z 0) || (q_u q >? of_Z 1) then None else
  if (q_v q <? of_Z 0) || (q_u q + q_v q >? of_Z 1) then None else
  if q_t q <=? EPS then None else
  Some {| hit_t := q_t q; hit_u := q_u q; hit_v := q_v q |}.
Proof. reflexivity. Qed.

Lemma eps_value :
  exists eps : Q, (0 < eps)%Q /\ value EPS = Some (Real eps) /\
                  value (fneg EPS) = Some (Real (- eps)).
Proof.
  exists (inject_Z 6044629098073146 * Qpower 2 (-79))%Q.
  split; [reflexivity|]. split; vm_compute; reflexivity.
Qed.

Lemma eps_below_threshold : (EPS <? literal 1 1000000) = true.
Proof. vm_compute. reflexivity. Qed.

(** [|det| >= EPS], as the test decides it. *)
Lemma det_gate (x : float) :
  is_nan x = false ->
  ((fneg EPS <? x) && (x <? EPS) = false <-> (EPS <=? fabs x) = true).
Proof.
  intros Hx. destruct eps_value as (eps & Heps & E1 & E2).
  unfold flt, fle. rewrite E1, E2.
  destruct x as [s|s| |s m e]; [| |discriminate|].
  - cbn [value fabs SFabs xlt xle].
    assert (A : Qltb (- eps) 0 = true) by (apply Qltb_lt; lra).
    assert (B : Qltb 0 eps = true) by (apply Qltb_lt; lra).
    assert (C : Qleb eps 0 = false) by (apply Qleb_gt; lra).
    rewrite A, B, C. cbn. split; discriminate.
  - destruct s; cbn; split; auto.
  - cbn [value fabs SFabs cond_Zopp xlt xle].
    set (w := (inject_Z (Z.pos m) * Qpower 2 e)%Q).
    assert (Hw : (0 < w)%Q).
    { unfold w. apply Qmult_lt_0_compat; [reflexivity|]. now apply Qpower_0_lt. }
    destruct s; cbn [cond_Zopp].
    + assert (Eneg : (inject_Z (- Z.pos m) * Qpower 2 e == - w)%Q).
      { unfold w. rewrite inject_Z_opp. ring. }
      change (Z.neg m) with (- Z.pos m)%Z.
      set (w' := (inject_Z (- Z.pos m) * Qpower 2 e)%Q) in *.
      rewrite andb_false_iff. split.
      * intros [H|H]; [apply Qltb_ge in H|apply Qltb_ge in H]; apply Qleb_le; lra.
      * intros H. apply Qleb_le in H. left. apply Qltb_ge. lra.
    + fold w. rewrite andb_false_iff. split.
      * intros [H|H]; [apply Qltb_ge in H|apply Qltb_ge in H]; apply Qleb_le; lra.
      * intros H. apply Qleb_le in H. right. apply Qltb_ge. lra.
Qed.

(** A number between 0 and 1 is real. *)
Lemma unit_is_real (x : float) :
  (of_Z 0 <=? x) = true -> (x <=? of_Z 1) = true -> exists p, value x = Some (Real p).
Proof.
  destruct x as [s|s| |s m e]; cbn [value]; eauto.
  - destruct s; intros H1 H2; [vm_compute in H1|vm_compute in H2]; discriminate.
  - intros H. vm_compute in H. discriminate.
Qed.

(** A real number plus a number is a number. *)
Lemma fadd_defined (a b : float) (p : Q) :
  value a = Some (Real p) -> is_nan b = false -> is_nan (a + b) = false.
Proof.
  destruct a as [s|s| |s m e], b as [s'|s'| |s' m' e']; cbn [value is_nan];
    try discriminate; try (destruct s; discriminate); intros _ _.
  - cbn. now destruct s, s'.
  - reflexivity.
  - reflexivity.
  - reflexivity.
  - reflexivity.
  - unfold fadd, SFadd. apply binary_normalize_defined.
Qed.

Lemma quantities_det_defined (orig dir p0 p1 p2 : vec3) :
  is_nan (q_t (quantities orig dir p0 p1 p2)) = false ->
  is_nan (q_det (quantities orig dir p0 p1 p2)) = false.
Proof.
  unfold quantities. cbn [q_t q_det]. intros H.
  apply fmul_defined in H. destruct H as [_ H].
  apply fdiv_defined in H. now destruct H.
Qed.

(** For numbers [u] and [v], the triangles the scan takes as candidates
    are those with a valid intersection whose [t] is finite. *)
Lemma accepted_valid (orig dir p0 p1 p2 : vec3) (maxD : float) :
  let q := quantities orig dir p0 p1 p2 in
  numbers q ->
  (accepted q maxD = true <-> valid_intersection q maxD /\ (q_t q <? Infinity) = true).
Proof.
  intros q [Hu Hv]. unfold accepted, valid_intersection.
  assert (H0 : is_nan (of_Z 0) = false) by reflexivity.
  assert (H1 : is_nan (of_Z 1) = false) by reflexivity.
  rewrite !andb_true_iff, !negb_true_iff. split.
  - intros (((((((G1 & G2) & G3) & G4) & G5) & G6) & G7) & G8).
    assert (Hdet : is_nan (q_det q) = false).
    { apply quantities_det_defined. exact (proj2 (flt_defined _ _ G6)). }
    assert (U0 : (of_Z 0 <=? q_u q) = true) by (apply flt_false_fle; assumption).
    assert (U1 : (q_u q <=? of_Z 1) = true) by (apply flt_false_fle; assumption).
    destruct (unit_is_real _ U0 U1) as [p Ep].
    pose proof (fadd_defined _ _ p Ep Hv) as Huv.
    split; [|exact G7].
    split; [apply det_gate; assumption|]. split; [exact U0|]. split; [exact U1|].
    split; [apply flt_false_fle; assumption|].
    split; [apply flt_false_fle; assumption|]. split; assumption.
  - intros [(V1 & V2 & V3 & V4 & V5 & V6 & V7) G7].
    assert (Hdet : is_nan (q_det q) = false).
    { apply quantities_det_defined. exact (proj2 (flt_defined _ _ V6)). }
    repeat split; try assumption; try (apply fle_not_flt; assumption).
    apply det_gate; assumption.
Qed.

(** *** The loop *)

Lemma scan_exact_keep (positions : list float) (triIndices : list Z) (o d : vec3)
    (maxD : float) (s : Scan) (t : nat) :
  scan_exact positions triIndices o d maxD s t =
  keep_least (fun t => accepted (tri_quantities positions triIndices o d t) maxD)
    (fun t => q_t (tri_quantities positions triIndices o d t))
    (scan_of_hit positions triIndices o d) s t.
Proof.
  unfold scan_exact, keep_least, scan_of_hit, tri_quantities, corner, accepted, stored_point.
  rewrite mt_spec. cbv zeta.
  set (q := quantities o d _ _ _).
  unfold fgt.
  destruct ((fneg EPS <? q_det q) && (q_det q <? EPS)); [reflexivity|].
  destruct (q_u q <? of_Z 0); [reflexivity|].
  destruct (of_Z 1 <? q_u q); [reflexivity|].
  destruct (q_v q <? of_Z 0); [reflexivity|].
  destruct (of_Z 1 <? q_u q + q_v q); [reflexivity|].
  cbn [negb andb orb].
  destruct (q_t q <=? EPS) eqn:Ht.
  - assert (E : (literal 1 1000000 <? q_t q) = false).
    { destruct (literal 1 1000000 <? q_t q) eqn:E; [|reflexivity].
      pose proof (flt_fle_trans _ _ _ E Ht) as H.
      pose proof (flt_trans _ _ _ H eps_below_threshold) as H'.
      vm_compute in H'. discriminate. }
    now rewrite E.
  - cbn [hit_t hit_u hit_v].
    destruct (literal 1 1000000 <? q_t q); [|reflexivity]. cbn [andb].
    destruct (q_t q <? closestT s) eqn:Hc.
    + rewrite (flt_below_infinity _ _ Hc). cbn [andb].
      destruct (q_t q <=? maxD); reflexivity.
    + rewrite !andb_false_r. cbn [andb]. now destruct (q_t q <? Infinity).
Qed.

Lemma box_miss_rejected (triMin triMax : list float) (o d : vec3) (maxD : float) (t : nat) :
  box_miss triMin triMax o d maxD t = true <-> rejected triMin triMax o d maxD t.
Proof.
  unfold box_miss, rejected, apart, ray_end, fgt. cbv zeta. cbn [at0 at1 at2].
  rewrite !orb_true_iff. tauto.
Qed.

Lemma scan_step_keep (positions : list float) (triIndices : list Z) (triMin triMax : list float)
    (o d : vec3) (maxD : float) (s : Scan) (t : nat) :
  scan_step positions triIndices triMin triMax o d maxD s t =
  keep_least (fun t => negb (box_miss triMin triMax o d maxD t) &&
                       accepted (tri_quantities positions triIndices o d t) maxD)
    (fun t => q_t (tri_quantities positions triIndices o d t))
    (scan_of_hit positions triIndices o d) s t.
Proof.
  unfold scan_step. rewrite scan_exact_keep. unfold keep_least.
  destruct (box_miss triMin triMax o d maxD t); cbn [negb andb]; reflexivity.
Qed.

(** The loop keeps the first least. *)
Lemma keep_least_fold (ok : nat -> bool) (tt : nat -> float) (hit : nat -> Scan) (n : nat) :
  (forall k, closestT (hit k) = tt k) ->
  (forall k, ok k = true -> (tt k <? Infinity) = true) ->
  first_least ok tt hit n (fold_left (keep_least ok tt hit) (seq 0 n) scan_init).
Proof.
  intros Hclosest Hfin.
  induction n as [|n IH].
  - left. split; [reflexivity|]. intros j Hj. lia.
  - rewrite seq_S, fold_left_app. cbn [fold_left Nat.add].
    set (s := fold_left (keep_least ok tt hit) (seq 0 n) scan_init) in *.
    unfold keep_least at 1.
    destruct (ok n) eqn:Hok; cbn [andb].
    2: { destruct IH as [[E Hnone]|(k & Hk & Hokk & E & Hmin & Hfirst)].
         - left. split; [exact E|]. intros j Hj.
           destruct (Nat.eq_dec j n) as [->|]; [exact Hok|apply Hnone; lia].
         - right. exists k. split; [lia|]. split; [exact Hokk|]. split; [exact E|].
           split; [|exact Hfirst]. intros j Hj Hokj.
           destruct (Nat.eq_dec j n) as [->|]; [congruence|apply Hmin; [lia|exact Hokj]]. }
    pose proof (Hfin n Hok) as Hn.
    assert (Hnn : is_nan (tt n) = false) by now apply flt_defined in Hn.
    destruct (tt n <? closestT s) eqn:Hlt.
    + right. exists n. split; [lia|]. split; [exact Hok|]. split; [reflexivity|].
      destruct IH as [[E Hnone]|(k & Hk & Hokk & E & Hmin & Hfirst)].
      * split.
        -- intros j Hj Hokj. destruct (Nat.eq_dec j n) as [->|]; [now apply fle_refl|].
           rewrite Hnone in Hokj by lia. discriminate.
        -- intros j Hj Hokj. rewrite Hnone in Hokj by lia. discriminate.
      * rewrite E, Hclosest in Hlt. split.
        -- intros j Hj Hokj. destruct (Nat.eq_dec j n) as [->|]; [now apply fle_refl|].
           apply flt_fle. apply (flt_fle_trans _ _ _ Hlt). apply Hmin; [lia|exact Hokj].
        -- intros j Hj Hokj. apply (flt_fle_trans _ _ _ Hlt). apply Hmin; [lia|exact Hokj].
    + destruct IH as [[E Hnone]|(k & Hk & Hokk & E & Hmin & Hfirst)].
      * rewrite E in Hlt. cbn [closestT scan_init] in Hlt. congruence.
      * right. exists k. split; [lia|]. split; [exact Hokk|]. split; [exact E|].
        split; [|exact Hfirst]. intros j Hj Hokj.
        destruct (Nat.eq_dec j n) as [->|]; [|apply Hmin; [lia|exact Hokj]].
        rewrite E, Hclosest in Hlt.
        apply flt_false_fle; [exact Hnn| |exact Hlt].
        pose proof (Hfin k Hokk) as Hkf. now apply flt_defined in Hkf.
Qed.


End BinaryScan.

(** *** The query *)

Section BinaryQuery.

Import Binary64.
Local Open Scope float_scope.

Lemma for_lt_seq (x : float) : for_lt x = seq 0 (length (for_lt x)).
Proof.
  unfold for_lt. destruct (value x) as [[|q|]|]; try reflexivity.
  now rewrite length_seq.
Qed.

Lemma for_lt_in (x : float) (t : nat) : In t (for_lt x) <-> (t < length (for_lt x))%nat.
Proof. rewrite (for_lt_seq x) at 1. rewrite in_seq. lia. Qed.

Lemma accepted_finite (q : Quantities) (maxD : float) :
  accepted q maxD = true -> (q_t q <? Infinity) = true.
Proof.
  unfold accepted. rewrite !andb_true_iff. intros [[_ H] _]. exact H.
Qed.

Lemma not_rejected (triMin triMax : list float) (o d : vec3) (maxD : float) (t : nat) :
  negb (box_miss triMin triMax o d maxD t) = true <-> ~ rejected triMin triMax o d maxD t.
Proof.
  rewrite <- box_miss_rejected. destruct (box_miss triMin triMax o d maxD t); cbn; split;
    congruence.
Qed.

(** The loop variables after the two scans. *)
Lemma scan_states (positions : list float) (triIndices : list Z) (triMin triMax : list float)
    (o d : vec3) (maxD : float) (n : float) :
  let tq t := tri_quantities positions triIndices o d t in
  first_least (fun t => accepted (tq t) maxD) (fun t => q_t (tq t))
    (scan_of_hit positions triIndices o d) (length (for_lt n))
    (fold_left (scan_exact positions triIndices o d maxD) (for_lt n) scan_init) /\
  first_least (fun t => negb (box_miss triMin triMax o d maxD t) && accepted (tq t) maxD)
    (fun t => q_t (tq t))
    (scan_of_hit positions triIndices o d) (length (for_lt n))
    (fold_left (scan_step positions triIndices triMin triMax o d maxD) (for_lt n) scan_init).
Proof.
  intros tq. rewrite (for_lt_seq n) at 2 4. split.
  - rewrite (fold_left_agree _ _ _ _ (scan_exact_keep positions triIndices o d maxD)).
    apply keep_least_fold; [reflexivity|]. intros k. apply accepted_finite.
  - rewrite (fold_left_agree _ _ _ _
               (scan_step_keep positions triIndices triMin triMax o d maxD)).
    apply keep_least_fold; [reflexivity|]. intros k Hk.
    apply andb_true_iff in Hk. destruct Hk as [_ Hk]. revert Hk. apply accepted_finite.
Qed.

Lemma resolve_uv_init (this : MeshPaintable) (positions : list float) (triIndices : list Z) :
  resolve_uv this positions triIndices scan_init = None.
Proof. reflexivity. Qed.

Lemma resolve_uv_hit (this : MeshPaintable) (positions : list float) (triIndices : list Z)
    (o d : vec3) (k : nat) :
  match resolve_uv this positions triIndices (scan_of_hit positions triIndices o d k) with
  | Some r =>
      (_uvsFlat this <> None \/ planarFallback this = true) /\ triIndex r = k /\
      localHit r = stored_point o d (q_t (tri_quantities positions triIndices o d k))
  | None => ~ (_uvsFlat this <> None \/ planarFallback this = true)
  end.
Proof.
  unfold resolve_uv. cbn [bestTri bestLocalHit scan_of_hit].
  destruct (_uvsFlat this) as [uvs|].
  - cbn [triIndex localHit]. split; [left; discriminate|]. split; reflexivity.
  - destruct (planarFallback this).
    + cbn [triIndex localHit]. split; [right; reflexivity|]. split; reflexivity.
    + intros [H|H]; [now apply H|discriminate].
Qed.

End BinaryQuery.

Section BinaryClaims.

Import Binary64.
Local Open Scope float_scope.

(** C1, amended.  On binary64 numbers, for every component with its
    caches and every ray: [getUVFromLocalRay] returns a hit exactly when
    the mesh carries UVs or the planar fallback is enabled and some
    triangle is a candidate, that is, its stored box is not apart from
    the box of the ray and the test accepts it with [t] above 1e-6,
    finite and at most [maxDistance].  The hit is on a candidate whose
    [t] is least among all the candidates, at the stored point of the
    ray with that [t].  For numbers [u] and [v] the test accepts a
    triangle exactly when it has a valid intersection, in the words of
    the specification. *)
Theorem closest_valid_hit (this : MeshPaintable) (o d : vec3) (maxD : float)
    (positions : list float) (triIndices : list Z) (triMin triMax : list float) :
  _positionsFlat this = Some positions -> _triIndices this = Some triIndices ->
  _triMin this = Some triMin -> _triMax this = Some triMax ->
  let q t := tri_quantities positions triIndices o d t in
  let candidate t :=
    In t (for_lt (_triCount this)) /\ ~ rejected triMin triMax o d maxD t /\
    accepted (q t) maxD = true in
  let resolvable := _uvsFlat this <> None \/ planarFallback this = true in
  (forall t, numbers (q t) ->
     (accepted (q t) maxD = true <->
      valid_intersection (q t) maxD /\ (q_t (q t) <? Infinity) = true)) /\
  match getUVFromLocalRay this o d maxD with
  | Some r =>
      resolvable /\ candidate (triIndex r) /\
      localHit r = stored_point o d (q_t (q (triIndex r))) /\
      forall j, candidate j -> (q_t (q (triIndex r)) <=? q_t (q j)) = true
  | None => ~ resolvable \/ forall j, ~ candidate j
  end.
Proof.
  intros Hp Hi Hmin Hmax q candidate resolvable. split.
  { intros t. apply accepted_valid. }
  unfold getUVFromLocalRay. rewrite Hp, Hi, Hmin, Hmax. cbv zeta.
  destruct (scan_states positions triIndices triMin triMax o d maxD (_triCount this))
    as [_ Hs].
  destruct Hs as [[E Hnone]|(k & Hk & Hok & E & Hleast & _)]; rewrite E.
  - rewrite resolve_uv_init. right. intros j (Hin & Hrej & Hacc).
    apply for_lt_in in Hin. specialize (Hnone j Hin).
    apply not_rejected in Hrej. unfold q in Hacc. rewrite Hrej, Hacc in Hnone. discriminate.
  - pose proof (resolve_uv_hit this positions triIndices o d k) as Hr.
    destruct (resolve_uv this positions triIndices (scan_of_hit positions triIndices o d k))
      as [r|]; [|left; exact Hr].
    destruct Hr as (Hres & Ek & Eh). rewrite Ek.
    apply andb_true_iff in Hok. destruct Hok as [Hkeep Hacc].
    split; [exact Hres|]. split.
    + split; [now apply for_lt_in|]. split; [now apply not_rejected|exact Hacc].
    + split; [exact Eh|]. intros j (Hin & Hrej & Hacc').
      apply Hleast; [now apply for_lt_in|].
      apply not_rejected in Hrej. unfold q in Hacc'. now rewrite Hrej, Hacc'.
Qed.


(** X1.  Among candidates with the same least [t] the scan returns the
    one with the lowest index: every candidate of a lower index is
    strictly farther than the triangle returned. *)
Theorem lowest_index_wins (this : MeshPaintable) (o d : vec3) (maxD : float)
    (positions : list float) (triIndices : list Z) (triMin triMax : list float)
    (r : UVResult) :
  _positionsFlat this = Some positions -> _triIndices this = Some triIndices ->
  _triMin this = Some triMin -> _triMax this = Some triMax ->
  getUVFromLocalRay this o d maxD = Some r ->
  let q t := tri_quantities positions triIndices o d t in
  forall j,
    In j (for_lt (_triCount this)) -> ~ rejected triMin triMax o d maxD j ->
    accepted (q j) maxD = true ->
    ((j < triIndex r)%nat -> (q_t (q (triIndex r)) <? q_t (q j)) = true) /\
    ((q_t (q j) <=? q_t (q (triIndex r))) = true -> (triIndex r <= j)%nat).
Proof.
  intros Hp Hi Hmin Hmax Hr q j Hin Hrej Hacc.
  unfold getUVFromLocalRay in Hr. rewrite Hp, Hi, Hmin, Hmax in Hr. cbv zeta in Hr.
  destruct (scan_states positions triIndices triMin triMax o d maxD (_triCount this))
    as [_ Hs].
  destruct Hs as [[E _]|(k & Hk & Hok & E & _ & Hfirst)]; rewrite E in Hr.
  { rewrite resolve_uv_init in Hr. discriminate. }
  pose proof (resolve_uv_hit this positions triIndices o d k) as Hk'.
  rewrite Hr in Hk'. destruct Hk' as (_ & Ek & _). subst k.
  apply not_rejected in Hrej.
  assert (Hstrict : (j < triIndex r)%nat -> (q_t (q (triIndex r)) <? q_t (q j)) = true).
  { intros Hlt. apply Hfirst; [exact Hlt|]. unfold q in Hacc. now rewrite Hrej, Hacc. }
  split; [exact Hstrict|].
  intros Hle. destruct (le_lt_dec (triIndex r) j) as [H|H]; [exact H|].
  rewrite (flt_not_fle _ _ (Hstrict H)) in Hle. discriminate.
Qed.

End BinaryClaims.

(** *** Fixtures *)

Section BinaryFixtures.

Import Binary64.
Local Open Scope float_scope.

Lemma closest_valid_hit_witness :
  let mp := paintable true (Some quad_xz) in
  let o := vec (of_Z 0) (of_Z 1) (of_Z 0) in
  let d := vec (of_Z 0) (of_Z (-1)) (of_Z 0) in
  exists r positions triIndices,
    _positionsFlat mp = Some positions /\ _triIndices mp = Some triIndices /\
    getUVFromLocalRay mp o d (of_Z 10) = Some r /\
    valid_intersection (tri_quantities positions triIndices o d (triIndex r)) (of_Z 10).
Proof.
  intros mp o d.
  pose proof (closest_valid_hit mp o d (of_Z 10) _ _ _ _ eq_refl eq_refl eq_refl eq_refl)
    as [Hvalid Hhit].
  destruct (getUVFromLocalRay mp o d (of_Z 10)) as [r|] eqn:Hr;
    [|vm_compute in Hr; discriminate].
  destruct Hhit as (_ & (_ & _ & Hacc) & _).
  eexists r, _, _. split; [reflexivity|]. split; [reflexivity|]. split; [reflexivity|].
  apply Hvalid in Hacc; [exact (proj1 Hacc)|].
  vm_compute in Hr. injection Hr as <-. split; vm_compute; reflexivity.
Defined.

(** C1 as stated fails in two ways.  Without UVs and with the planar
    fallback off, triangle 0 of the square has a valid intersection with
    the vertical ray through (1/2, ., -1/2) and the query returns
    nothing.  With UVs, the triangle at y = -2^-100 has a valid
    intersection with the vertical ray from (1/4, 1, 1/4) within
    [maxDistance = 1], its [t] being 1 after rounding, and the query
    returns nothing: the box of the triangle ends below the box of the
    ray. *)
Lemma closest_valid_hit_counterexample :
  (let mp := paintable false (Some plane_no_uv) in
   let o := vec (literal 1 2) (of_Z 1) (literal (-1) 2) in
   let d := vec (of_Z 0) (of_Z (-1)) (of_Z 0) in
   exists positions triIndices,
     _positionsFlat mp = Some positions /\ _triIndices mp = Some triIndices /\
     In 0%nat (for_lt (_triCount mp)) /\
     valid_intersection (tri_quantities positions triIndices o d 0) (of_Z 10) /\
     getUVFromLocalRay mp o d (of_Z 10) = None) /\
  (let mp := paintable true (Some sunken_triangle) in
   let o := vec (literal 1 4) (of_Z 1) (literal 1 4) in
   let d := vec (of_Z 0) (of_Z (-1)) (of_Z 0) in
   exists positions triIndices,
     _positionsFlat mp = Some positions /\ _triIndices mp = Some triIndices /\
     In 0%nat (for_lt (_triCount mp)) /\
     valid_intersection (tri_quantities positions triIndices o d 0) (of_Z 1) /\
     _uvsFlat mp <> None /\
     getUVFromLocalRay mp o d (of_Z 1) = None).
Proof.
  split; intros mp o d; eexists _, _.
  - split; [reflexivity|]. split; [reflexivity|].
    split; [vm_compute; left; reflexivity|].
    split; [repeat split; vm_compute; reflexivity|]. vm_compute. reflexivity.
  - split; [reflexivity|]. split; [reflexivity|].
    split; [vm_compute; left; reflexivity|].
    split; [repeat split; vm_compute; reflexivity|].
    split; [vm_compute; discriminate|]. vm_compute. reflexivity.
Qed.



Lemma lowest_index_wins_witness :
  let mp := paintable true (Some doubled_triangle) in
  let o := vec (literal 1 4) (of_Z 1) (literal 1 4) in
  let d := vec (of_Z 0) (of_Z (-1)) (of_Z 0) in
  exists r positions triIndices,
    _positionsFlat mp = Some positions /\ _triIndices mp = Some triIndices /\
    getUVFromLocalRay mp o d (of_Z 10) = Some r /\
    same_value (q_t (tri_quantities positions triIndices o d 1))
               (q_t (tri_quantities positions triIndices o d 0)) /\
    (triIndex r <= 1)%nat /\ triIndex r = 0%nat.
Proof.
  intros mp o d.
  destruct (getUVFromLocalRay mp o d (of_Z 10)) as [r|] eqn:Hr;
    [|vm_compute in Hr; discriminate].
  eexists r, _, _. split; [reflexivity|]. split; [reflexivity|]. split; [reflexivity|].
  split; [vm_compute; reflexivity|].
  split; [|vm_compute in Hr; injection Hr as <-; reflexivity].
  refine (proj2 (lowest_index_wins mp o d (of_Z 10) _ _ _ _ r eq_refl eq_refl eq_refl eq_refl
                   Hr 1%nat _ _ _) _).
  - vm_compute. right. left. reflexivity.
  - apply not_rejected. vm_compute. reflexivity.
  - vm_compute. reflexivity.
  - vm_compute in Hr. injection Hr as <-. vm_compute. reflexivity.
Defined.

End BinaryFixtures.

(** *** Outcomes that rounding decides *)

Section BinaryOutcomes.

Import Binary64.
Local Open Scope float_scope.

(** X2.  A larger [maxDistance] can change the triangle that is
    returned.  Of two triangles over the same footprint, the first at
    y = -2^-100 and the second at y = 0, the vertical ray from
    (1/4, 1, 1/4) meets both at a [t] that is 1 after rounding, a valid
    intersection within [maxDistance = 1] on each.  With
    [maxDistance = 1] the query returns the second, the first being
    skipped by the box test; with [maxDistance = 2], and with
    [Infinity], it returns the first. *)
Theorem farther_limit_other_hit :
  let mp := paintable true (Some two_layers) in
  let o := vec (literal 1 4) (of_Z 1) (literal 1 4) in
  let d := vec (of_Z 0) (of_Z (-1)) (of_Z 0) in
  (exists positions triIndices,
     _positionsFlat mp = Some positions /\ _triIndices mp = Some triIndices /\
     forall t, (t < 2)%nat ->
       valid_intersection (tri_quantities positions triIndices o d t) (of_Z 1) /\
       same_value (q_t (tri_quantities positions triIndices o d t)) (of_Z 1)) /\
  option_map triIndex (getUVFromLocalRay mp o d (of_Z 1)) = Some 1%nat /\
  option_map triIndex (getUVFromLocalRay mp o d (of_Z 2)) = Some 0%nat /\
  option_map triIndex (getUVFromLocalRay mp o d Infinity) = Some 0%nat.
Proof.
  intros mp o d. split; [|split; [|split]; vm_compute; reflexivity].
  eexists _, _. split; [reflexivity|]. split; [reflexivity|].
  intros [|[|t]] Ht; [| |lia]; (split; [repeat split|]; vm_compute; reflexivity).
Qed.

(** X4.  The outcome of the exact test can depend on the order in which
    the vertices of a triangle are given.  The ray of binary32 numbers
    from [slanted_origin] along [slanted_dir] ends on the vertex
    [slanted_end]; with the vertices in the order [corner_a],
    [slanted_end], [corner_b] the test returns a hit with t = 1, u = 1
    and v = 0, and with the last two exchanged it returns nothing. *)
Theorem winding_can_matter :
  at0 slanted_origin + at0 slanted_dir = at0 slanted_end /\
  at1 slanted_origin + at1 slanted_dir = at1 slanted_end /\
  at2 slanted_origin + at2 slanted_dir = at2 slanted_end /\
  (forall x, In x [slanted_origin; slanted_dir; slanted_end; corner_a; corner_b] ->
     fround (at0 x) = at0 x /\ fround (at1 x) = at1 x /\ fround (at2 x) = at2 x) /\
  (exists h,
     rayTriangleIntersectMollerTrumbore slanted_origin slanted_dir
       corner_a slanted_end corner_b = Some h /\
     same_value (hit_t h) (of_Z 1) /\ same_value (hit_u h) (of_Z 1) /\
     same_value (hit_v h) (of_Z 0)) /\
  rayTriangleIntersectMollerTrumbore slanted_origin slanted_dir
    corner_a corner_b slanted_end = None.
Proof.
  split; [vm_compute; reflexivity|]. split; [vm_compute; reflexivity|].
  split; [vm_compute; reflexivity|]. split.
  - intros x Hx. cbn [In] in Hx.
    destruct Hx as [<-|[<-|[<-|[<-|[<-|[]]]]]]; vm_compute; repeat split; reflexivity.
  - split; [|vm_compute; reflexivity].
    eexists. split; [vm_compute; reflexivity|]. vm_compute. repeat split.
Qed.

End BinaryOutcomes.

(** ** The color recognizer *)

Lemma hex_value_range (c : ascii) :
  is_hex_digit c = true -> (0 <= hex_value c <= 15)%Z.
Proof.
  destruct c as [[] [] [] [] [] [] [] []]; cbv; intros H; try discriminate H;
    split; intros H'; discriminate H'.
Qed.

Lemma hex_digits_spec (n : nat) (s h : string) :
  hex_digits n s = Some h ->
  String.length h = n /\ (exists rest, s = (h ++ rest)%string) /\
  hex_digits n h = Some h.
Proof.
  revert s h. induction n as [|n IH]; intros s h; simpl.
  - intros [= <-]. split; [reflexivity|]. split; [now exists s|reflexivity].
  - destruct s as [|c s]; [discriminate|].
    destruct (is_hex_digit c) eqn:Ec; [|discriminate].
    destruct (hex_digits n s) as [h'|] eqn:Eh; [|discriminate].
    intros [= <-]. destruct (IH s h' Eh) as (Hl & [rest ->] & Hh).
    simpl. rewrite Ec, Hh, Hl. split; [reflexivity|]. split; [now exists rest|reflexivity].
Qed.

(** The token that starts at the head of [s], if any: [#] and six hex
    digits, else [#] and three. *)
Lemma match_hex_color_token (name token : string) :
  match_hex_color name = Some token ->
  exists h, token = String "#" h /\
            (String.length h = 6%nat \/ String.length h = 3%nat) /\
            hex_digits (String.length h) h = Some h.
Proof.
  induction name as [|c name IH]; cbn [match_hex_color]; [discriminate|].
  destruct (Ascii.eqb c "#"); [|exact IH].
  destruct (hex_digits 6 name) as [h|] eqn:E6.
  - intros [= Heq]. subst token. exists h.
    destruct (hex_digits_spec _ _ _ E6) as (Hl & _ & Hh). rewrite Hl. auto.
  - destruct (hex_digits 3 name) as [h|] eqn:E3; [|exact IH].
    intros [= Heq]. subst token. exists h.
    destruct (hex_digits_spec _ _ _ E3) as (Hl & _ & Hh). rewrite Hl. auto.
Qed.

Lemma parse_two_digits (a b : ascii) :
  is_hex_digit a = true -> is_hex_digit b = true ->
  parseInt16 (String a (String b "")) = Some (hex_value a * 16 + hex_value b)%Z.
Proof.
  intros Ha Hb. unfold parseInt16. cbn [hex_prefix]. rewrite Ha.
  cbn [hex_prefix]. now rewrite Hb.
Qed.

Lemma byte_fraction_range (x y : Z) :
  (0 <= x <= 15)%Z -> (0 <= y <= 15)%Z ->
  0 <= inject_Z (x * 16 + y) / 255 /\ inject_Z (x * 16 + y) / 255 <= 1.
Proof.
  intros Hx Hy.
  assert (H0 : 0 <= inject_Z (x * 16 + y)) by (rewrite <- (Zle_Qle 0); lia).
  assert (H1 : inject_Z (x * 16 + y) <= 255) by (rewrite <- (Zle_Qle _ 255); lia).
  split.
  - apply Qle_shift_div_l; lra.
  - apply Qle_shift_div_r; lra.
Qed.

(** The RGB triple of a token: the three bytes of its six digits, or of
    its three digits each written twice, over 255. *)
Lemma hexToRgb_token (h : string) :
  (String.length h = 6%nat \/ String.length h = 3%nat) ->
  hex_digits (String.length h) h = Some h ->
  exists r g b,
    _hexToRgbNormalized (String "#" h) = Some (r, g, b) /\
    _hexToRgbNormalized
      (String "#" (if Nat.eqb (String.length h) 3 then double_chars h else h)) = Some (r, g, b) /\
    0 <= r /\ r <= 1 /\ 0 <= g /\ g <= 1 /\ 0 <= b /\ b <= 1.
Proof.
  intros [Hl|Hl] Hh; rewrite Hl in Hh.
  - destruct h as [|c1 [|c2 [|c3 [|c4 [|c5 [|c6 [|]]]]]]]; try discriminate Hl.
    cbn [hex_digits] in Hh.
    destruct (is_hex_digit c1) eqn:E1; [|discriminate].
    destruct (is_hex_digit c2) eqn:E2; [|discriminate].
    destruct (is_hex_digit c3) eqn:E3; [|discriminate].
    destruct (is_hex_digit c4) eqn:E4; [|discriminate].
    destruct (is_hex_digit c5) eqn:E5; [|discriminate].
    destruct (is_hex_digit c6) eqn:E6; [|discriminate].
    unfold _hexToRgbNormalized.
    cbn [remove_first_hash Ascii.eqb Bool.eqb String.length Nat.eqb negb double_chars].
    cbn [substring].
    rewrite !parse_two_digits by assumption.
    eexists _, _, _. split; [reflexivity|]. split; [reflexivity|].
    pose proof (hex_value_range _ E1). pose proof (hex_value_range _ E2).
    pose proof (hex_value_range _ E3). pose proof (hex_value_range _ E4).
    pose proof (hex_value_range _ E5). pose proof (hex_value_range _ E6).
    repeat split; now apply byte_fraction_range.
  - destruct h as [|c1 [|c2 [|c3 [|]]]]; try discriminate Hl.
    cbn [hex_digits] in Hh.
    destruct (is_hex_digit c1) eqn:E1; [|discriminate].
    destruct (is_hex_digit c2) eqn:E2; [|discriminate].
    destruct (is_hex_digit c3) eqn:E3; [|discriminate].
    unfold _hexToRgbNormalized.
    cbn [remove_first_hash Ascii.eqb Bool.eqb String.length Nat.eqb negb double_chars].
    cbn [substring].
    rewrite !parse_two_digits by assumption.
    eexists _, _, _. split; [reflexivity|]. split; [reflexivity|].
    pose proof (hex_value_range _ E1). pose proof (hex_value_range _ E2).
    pose proof (hex_value_range _ E3).
    repeat split; now apply byte_fraction_range.
Qed.

Lemma string_drop_empty (i : nat) : string_drop i "" = ""%string.
Proof. now destruct i. Qed.

(** The pattern matches at the first position that starts a token. *)
Lemma match_hex_color_first (name : string) :
  match match_hex_color name with
  | Some token =>
      exists i, token_at_head (string_drop i name) = Some token /\
                forall j, (j < i)%nat -> token_at_head (string_drop j name) = None
  | None => forall i, token_at_head (string_drop i name) = None
  end.
Proof.
  induction name as [|c name IH].
  - cbn [match_hex_color]. intros i. now rewrite string_drop_empty.
  - cbn [match_hex_color].
    assert (Hhead : token_at_head (String c name) =
                    if Ascii.eqb c "#"
                    then match hex_digits 6 name with
                         | Some h => Some (String "#" h)
                         | None => match hex_digits 3 name with
                                   | Some h => Some (String "#" h)
                                   | None => None
                                   end
                         end
                    else None) by reflexivity.
    assert (Hshift : forall tok,
      match match_hex_color name with
      | Some token =>
          exists i, token_at_head (string_drop i name) = Some token /\
                    forall j, (j < i)%nat -> token_at_head (string_drop j name) = None
      | None => forall i, token_at_head (string_drop i name) = None
      end ->
      token_at_head (String c name) = None ->
      tok = match_hex_color name ->
      match tok with
      | Some token =>
          exists i, token_at_head (string_drop i (String c name)) = Some token /\
                    forall j, (j < i)%nat ->
                      token_at_head (string_drop j (String c name)) = None
      | None => forall i, token_at_head (string_drop i (String c name)) = None
      end).
    { intros tok H Hnone ->. destruct (match_hex_color name) as [token|].
      - destruct H as (i & Hi & Hlt). exists (S i). split; [exact Hi|].
        intros [|j] Hj; [exact Hnone|]. apply Hlt. lia.
      - intros [|i]; [exact Hnone|]. apply H. }
    destruct (Ascii.eqb c "#").
    + destruct (hex_digits 6 name) as [h|].
      * exists 0%nat. split; [exact Hhead|]. intros j Hj; lia.
      * destruct (hex_digits 3 name) as [h|].
        -- exists 0%nat. split; [exact Hhead|]. intros j Hj; lia.
        -- now apply Hshift.
    + now apply Hshift.
Qed.

Lemma token_at_head_shape (s token : string) :
  token_at_head s = Some token ->
  exists h, token = String "#" h /\
            (String.length h = 6%nat \/ String.length h = 3%nat) /\
            hex_digits (String.length h) h = Some h.
Proof.
  destruct s as [|c s]; [discriminate|]. cbn [token_at_head].
  destruct (Ascii.eqb c "#"); [|discriminate].
  destruct (hex_digits 6 s) as [h|] eqn:E6.
  - intros [= Heq]. subst token. exists h.
    destruct (hex_digits_spec _ _ _ E6) as (Hl & _ & Hh). rewrite Hl. auto.
  - destruct (hex_digits 3 s) as [h|] eqn:E3; [|discriminate].
    intros [= Heq]. subst token. exists h.
    destruct (hex_digits_spec _ _ _ E3) as (Hl & _ & Hh). rewrite Hl. auto.
Qed.

(** What the recognizer does with a name. *)
Lemma tryPick_cases (this : MeshBrush) (name : option string) :
  (exists n token h r g b,
     name = Some n /\ match_hex_color n = Some token /\
     token = String "#" h /\
     (String.length h = 6%nat \/ String.length h = 3%nat) /\
     hex_digits (String.length h) h = Some h /\
     _hexToRgbNormalized
       (String "#" (if Nat.eqb (String.length h) 3 then double_chars h else h)) = Some (r, g, b) /\
     (0 <= r /\ r <= 1 /\ 0 <= g /\ g <= 1 /\ 0 <= b /\ b <= 1) /\
     _tryPickColorFromName this name =
       (set_brushColor (r, g, b, 1) this, Some (toLowerCase token))) \/
  (_tryPickColorFromName this name = (this, None) /\
   forall n, name = Some n -> match_hex_color n = None).
Proof.
  destruct name as [n|]; [|right; split; [reflexivity|discriminate]].
  destruct (match_hex_color n) as [token|] eqn:Em.
  - left. destruct (match_hex_color_token n token Em) as (h & -> & Hl & Hh).
    destruct (hexToRgb_token h Hl Hh) as (r & g & b & Hrgb & Hrgb' & Hrange).
    exists n, (String "#" h), h, r, g, b.
    refine (conj eq_refl (conj Em (conj eq_refl (conj Hl (conj Hh (conj Hrgb' (conj Hrange _))))))).
    unfold _tryPickColorFromName. destruct n as [|c n]; [discriminate Em|].
    now rewrite Em, Hrgb.
  - right. split.
    + unfold _tryPickColorFromName. destruct n; [reflexivity|]. now rewrite Em.
    + now intros n' [= <-].
Qed.

(** What the recognizer does.  For every name it either finds the first
    position at which [#] is followed by six hex digits, or else by
    three, of either case, sets the brush color to the RGB triple of
    those digits (three digits counting as each written twice) over 255,
    every component in [0,1], with alpha 1, and returns the matched
    token itself in lower case; or it finds no such position, returns
    nothing and leaves the brush unchanged.  [Palette_#1a2b3c_swatch]
    gives [#1a2b3c] and (26/255, 43/255, 60/255); [Palette_#abc] gives
    [#abc] and the triple of [#aabbcc]. *)
Lemma color_recognizer (this : MeshBrush) (name : option string) :
  ((exists n i token h r g b,
      name = Some n /\
      token_at_head (string_drop i n) = Some token /\
      (forall j, (j < i)%nat -> token_at_head (string_drop j n) = None) /\
      token = String "#" h /\
      (String.length h = 6%nat \/ String.length h = 3%nat) /\
      hex_digits (String.length h) h = Some h /\
      _hexToRgbNormalized
        (String "#" (if Nat.eqb (String.length h) 3 then double_chars h else h)) = Some (r, g, b) /\
      (0 <= r /\ r <= 1 /\ 0 <= g /\ g <= 1 /\ 0 <= b /\ b <= 1) /\
      _tryPickColorFromName this name =
        (set_brushColor (r, g, b, 1) this, Some (toLowerCase token))) \/
   (_tryPickColorFromName this name = (this, None) /\
    forall n i, name = Some n -> token_at_head (string_drop i n) = None)) /\
  _tryPickColorFromName this (Some "Palette_#1a2b3c_swatch"%string) =
    (set_brushColor (26 # 255, 43 # 255, 60 # 255, 1) this, Some "#1a2b3c"%string) /\
  _tryPickColorFromName this (Some "Palette_#abc"%string) =
    (set_brushColor (170 # 255, 187 # 255, 204 # 255, 1) this, Some "#abc"%string) /\
  _hexToRgbNormalized "#aabbcc" = Some (170 # 255, 187 # 255, 204 # 255).
Proof.
  split; [|split; [reflexivity|split; reflexivity]].
  destruct (tryPick_cases this name)
    as [(n & token & h & r & g & b & En & Em & Et & Hl & Hh & Hrgb & Hrange & Hpick)
       |[Hpick Hnone]].
  - left. pose proof (match_hex_color_first n) as Hfirst. rewrite Em in Hfirst.
    destruct Hfirst as (i & Hi & Hlt).
    exists n, i, token, h, r, g, b.
    exact (conj En (conj Hi (conj Hlt (conj Et (conj Hl (conj Hh (conj Hrgb
             (conj Hrange Hpick)))))))).
  - right. split; [exact Hpick|]. intros n i En.
    pose proof (match_hex_color_first n) as Hfirst.
    rewrite (Hnone n En) in Hfirst. apply Hfirst.
Qed.

(** C8.  The recognizer on a three-digit token: the string returned for
    [Palette_#abc] is [#abc], the token as it was matched, and not
    [#aabbcc], the normalized string that the specification and the
    comment above [_tryPickColorFromName] announce. *)
Lemma color_recognizer_counterexample :
  snd (_tryPickColorFromName default_brush (Some "Palette_#abc"%string)) = Some "#abc"%string /\
  snd (_tryPickColorFromName default_brush (Some "Palette_#abc"%string)) <> Some "#aabbcc"%string.
Proof. split; [reflexivity|]. cbv. discriminate. Qed.

(** ** Frames *)

Lemma mark_all_lost_flag (this : MeshBrush) (k : Z) :
  _contactLostPerObject (mark_all_lost this) !! k =
  match _lastUVPerObject this !! k with
  | Some _ => Some true
  | None => _contactLostPerObject this !! k
  end.
Proof.
  unfold mark_all_lost. cbn [_contactLostPerObject set_contactLost].
  generalize (_contactLostPerObject this) as c. intros c.
  apply (map_fold_weak_ind
    (fun r (m : gmap Z (num * num)) =>
       r !! k = match m !! k with Some _ => Some true | None => c !! k end)).
  - now rewrite lookup_empty.
  - intros i x m r Hi IH.
    destruct (decide (i = k)) as [->|Hne].
    + now rewrite !lookup_insert_eq.
    + now rewrite !lookup_insert_ne.
Qed.

Section FrameFacts.

Variable sqrt : Q -> Q.

Lemma update_no_hit (this : MeshBrush) (env : Frame) :
  rayHit env = None \/
  (exists rh, rayHit env = Some rh /\ (hitCount rh = 0%Z \/ object0 rh = None)) ->
  update sqrt this env = (mark_all_lost this, []).
Proof.
  unfold update. intros [->|(rh & -> & [->|Hobj])]; [reflexivity|reflexivity|].
  rewrite Hobj. now destruct (hitCount rh =? 0)%Z.
Qed.

Lemma update_resolved (this : MeshBrush) (env : Frame) (rh : RayHit) (hitObj : Object3D)
    (mp : MeshPaintable) (r : UVResult) :
  resolved_hit sqrt this env rh hitObj mp r ->
  update sqrt this env = stroke sqrt this env (location0 rh) hitObj mp r.
Proof.
  intros (Hrh & Hcount & Hobj & Hpick & Hmp & Huv). unfold update.
  rewrite Hrh. destruct (Z.eqb_spec (hitCount rh) 0) as [Hz|_]; [contradiction|].
  rewrite Hobj.
  destruct (tryPick_cases this (name hitObj))
    as [(n & token & h & r' & g & b & _ & _ & _ & _ & _ & _ & _ & E)|[E _]];
    rewrite E in Hpick |- *; [discriminate|].
  rewrite Hmp.
  destruct (to_local_ray sqrt this env hitObj) as [lo ld]. cbn [fst snd] in Huv.
  now rewrite Huv.
Qed.

Lemma update_unpaintable (this : MeshBrush) (env : Frame) (rh : RayHit) (hitObj : Object3D) :
  rayHit env = Some rh -> hitCount rh <> 0%Z -> object0 rh = Some hitObj ->
  snd (_tryPickColorFromName this (name hitObj)) = None ->
  meshPaintable hitObj = None \/
  (exists mp, meshPaintable hitObj = Some mp /\
     getUVFromLocalRay mp (fst (to_local_ray sqrt this env hitObj))
       (snd (to_local_ray sqrt this env hitObj)) (Fin (maxDistance this)) = None) ->
  update sqrt this env = (mark_hit_lost this hitObj, []).
Proof.
  intros Hrh Hcount Hobj Hpick Hcase. unfold update.
  rewrite Hrh. destruct (Z.eqb_spec (hitCount rh) 0) as [Hz|_]; [contradiction|].
  rewrite Hobj.
  destruct (tryPick_cases this (name hitObj))
    as [(n & token & h & r' & g & b & _ & _ & _ & _ & _ & _ & _ & E)|[E _]];
    rewrite E in Hpick |- *; [discriminate|].
  destruct Hcase as [->|(mp & -> & Huv)]; [reflexivity|].
  destruct (to_local_ray sqrt this env hitObj) as [lo ld]. cbn [fst snd] in Huv.
  now rewrite Huv.
Qed.

End FrameFacts.

(** C3 as stated fails: identity 7 has a stored UV and a clear flag;
    the next frame hits an object without a paintable, and the flag of
    7 stays clear. *)
Lemma lost_contact_counterexample :
  let b1 := fst (update sqrt_floor default_brush
                   (frame_above 0 0 (1 # 50) (quad_object "Quad" 7))) in
  let env := frame_above 0 0 (1 # 50) (bare_object "Wall" 5) in
  is_Some (_lastUVPerObject b1 !! 7%Z) /\
  meshPaintable (bare_object "Wall" 5) = None /\
  _contactLostPerObject (fst (update sqrt_floor b1 env)) !! 7%Z = Some false.
Proof.
  split; [|split].
  - vm_compute. eexists. reflexivity.
  - reflexivity.
  - vm_compute. reflexivity.
Qed.

Section StrokeFacts.

Variable sqrt : Q -> Q.

Lemma end_stroke_lookup (this : MeshBrush) (id k : Z) :
  _lastUVPerObject (end_stroke this id) !! k =
    (if decide (id = k) then None else _lastUVPerObject this !! k) /\
  _lastTriPerObject (end_stroke this id) !! k =
    (if decide (id = k) then None else _lastTriPerObject this !! k) /\
  _contactLostPerObject (end_stroke this id) !! k =
    (if decide (id = k) then Some true else _contactLostPerObject this !! k).
Proof.
  unfold end_stroke.
  cbn [_lastUVPerObject _lastTriPerObject _contactLostPerObject
       set_contactLost set_lastTri set_lastUV].
  rewrite !lookup_delete, lookup_insert. repeat split.
Qed.

Lemma update_picked (this : MeshBrush) (env : Frame) (rh : RayHit) (hitObj : Object3D)
    (this1 : MeshBrush) (picked : string) :
  rayHit env = Some rh -> hitCount rh <> 0%Z -> object0 rh = Some hitObj ->
  _tryPickColorFromName this (name hitObj) = (this1, Some picked) ->
  update sqrt this env =
  (end_stroke this1 (_stableObjectId hitObj), [PickedColor picked (brushColor this1)]).
Proof.
  intros Hrh Hcount Hobj Hpick. unfold update. rewrite Hrh.
  destruct (Z.eqb_spec (hitCount rh) 0) as [Hz|_]; [contradiction|].
  now rewrite Hobj, Hpick.
Qed.

(** C10.  In a frame whose first hit is an object whose name holds a
    color token, the brush color becomes the picked RGB with alpha 1,
    and the [onPickedColor] hook is then called with the lower-cased
    token and finds that color; the stored last UV and triangle of the
    object's identity are deleted and its contact-lost flag is set; no
    dab is painted; the entries of every other identity are unchanged. *)
Theorem color_pick_frame (this : MeshBrush) (env : Frame) (rh : RayHit)
    (hitObj : Object3D) (n token : string) :
  rayHit env = Some rh -> hitCount rh <> 0%Z -> object0 rh = Some hitObj ->
  name hitObj = Some n -> match_hex_color n = Some token ->
  let id := _stableObjectId hitObj in
  let this' := fst (update sqrt this env) in
  exists r g b,
    _tryPickColorFromName this (name hitObj) =
      (set_brushColor (r, g, b, 1) this, Some (toLowerCase token)) /\
    brushColor this' = (r, g, b, 1) /\
    snd (update sqrt this env) = [PickedColor (toLowerCase token) (r, g, b, 1)] /\
    dabs (snd (update sqrt this env)) = [] /\
    _lastUVPerObject this' !! id = None /\
    _lastTriPerObject this' !! id = None /\
    _contactLostPerObject this' !! id = Some true /\
    forall k, k <> id ->
      _lastUVPerObject this' !! k = _lastUVPerObject this !! k /\
      _lastTriPerObject this' !! k = _lastTriPerObject this !! k /\
      _contactLostPerObject this' !! k = _contactLostPerObject this !! k.
Proof.
  intros Hrh Hcount Hobj Hname Hmatch id this'.
  destruct (tryPick_cases this (name hitObj))
    as [(n' & token' & h & r & g & b & En & Em & _ & _ & _ & _ & _ & E)|[_ Hnone]].
  2: { rewrite (Hnone n Hname) in Hmatch. discriminate. }
  rewrite Hname in En. injection En as <-. rewrite Hmatch in Em. injection Em as <-.
  exists r, g, b. subst this'.
  rewrite (update_picked this env rh hitObj _ _ Hrh Hcount Hobj E). cbn [fst snd].
  fold id. change (brushColor (set_brushColor (r, g, b, 1) this)) with (r, g, b, 1%Q).
  pose proof (end_stroke_lookup (set_brushColor (r, g, b, 1) this) id id) as (L1 & L2 & L3).
  rewrite decide_True in L1 by reflexivity. rewrite decide_True in L2 by reflexivity.
  rewrite decide_True in L3 by reflexivity.
  refine (conj E (conj eq_refl (conj eq_refl (conj eq_refl (conj L1 (conj L2 (conj L3 _))))))).
  intros k Hk.
  pose proof (end_stroke_lookup (set_brushColor (r, g, b, 1) this) id k) as (K1 & K2 & K3).
  rewrite decide_False in K1 by congruence. rewrite decide_False in K2 by congruence.
  rewrite decide_False in K3 by congruence.
  now rewrite K1, K2, K3.
Qed.

Lemma stroke_out_of_range (this : MeshBrush) (env : Frame) (hitWorldPos : vec3)
    (hitObj : Object3D) (mp : MeshPaintable) (r : UVResult) :
  withinRange this (worldDist sqrt env hitWorldPos) = false ->
  stroke sqrt this env hitWorldPos hitObj mp r =
  (end_stroke this (_stableObjectId hitObj), []).
Proof. intros H. unfold stroke. now rewrite H. Qed.

Lemma withinRange_spec (this : MeshBrush) (dist : num) :
  withinRange this dist = true <->
  paintOnProximity this = true /\ (dist <=? Fin (brushWorldRadius this))%num = true.
Proof.
  unfold withinRange. destruct (paintOnProximity this); cbn [negb]; split.
  - intros H. now split.
  - now intros [_ H].
  - discriminate.
  - now intros [H _].
Qed.

Lemma stroke_in_range_state (this : MeshBrush) (env : Frame) (hitWorldPos : vec3)
    (hitObj : Object3D) (mp : MeshPaintable) (r : UVResult) :
  withinRange this (worldDist sqrt env hitWorldPos) = true ->
  let id := _stableObjectId hitObj in
  let this' := fst (stroke sqrt this env hitWorldPos hitObj mp r) in
  _lastUVPerObject this' !! id = Some (uv r) /\
  _contactLostPerObject this' !! id = Some false /\
  (forall curr, _getTriangleVertexIndices mp (triIndex r) = Some curr ->
     _lastTriPerObject this' !! id = Some curr).
Proof.
  intros H id this'. subst this'. unfold stroke. rewrite H. cbn [negb fst].
  fold id.
  set (this1 := match _contactLostPerObject this !! id with Some true => _ | _ => this end).
  destruct (_getTriangleVertexIndices mp (triIndex r)) as [curr|];
    cbn [_lastUVPerObject _lastTriPerObject _contactLostPerObject
         set_contactLost set_lastTri set_lastUV];
    rewrite !lookup_insert_eq.
  - split; [reflexivity|]. split; [reflexivity|]. now intros ? [= <-].
  - split; [reflexivity|]. split; [reflexivity|]. discriminate.
Qed.

Lemma dabs_need_range (this : MeshBrush) (env : Frame) (rh : RayHit) :
  rayHit env = Some rh ->
  dabs (snd (update sqrt this env)) <> [] ->
  withinRange this (worldDist sqrt env (location0 rh)) = true.
Proof.
  intros Hrh. unfold update. rewrite Hrh.
  destruct (hitCount rh =? 0)%Z; [now intros []|].
  destruct (object0 rh) as [hitObj|]; [|now intros []].
  destruct (tryPick_cases this (name hitObj))
    as [(n' & token' & h & r & g & b & _ & _ & _ & _ & _ & _ & _ & E)|[E _]]; rewrite E.
  { now intros []. }
  destruct (meshPaintable hitObj) as [mp|]; [|now intros []].
  destruct (to_local_ray sqrt this env hitObj) as [lo ld].
  destruct (getUVFromLocalRay mp lo ld (Fin (maxDistance this))) as [r|]; [|now intros []].
  destruct (withinRange this (worldDist sqrt env (location0 rh))) eqn:Hw; [reflexivity|].
  rewrite stroke_out_of_range by exact Hw. now intros [].
Qed.

End StrokeFacts.

(** ** Interpolated strokes *)

Lemma Qmax2_one_inject (c : Z) : Qmax2 1 (inject_Z c) = inject_Z (Z.max 1 c).
Proof.
  unfold Qmax2. destruct (Qleb 1 (inject_Z c)) eqn:E.
  - apply Qleb_le in E. change 1 with (inject_Z 1) in E. rewrite <- Zle_Qle in E.
    now rewrite Z.max_r.
  - apply Qleb_gt in E. change 1 with (inject_Z 1) in E. rewrite <- Zlt_Qlt in E.
    rewrite Z.max_l by lia. reflexivity.
Qed.

Lemma Qmax2_one_ge (x : Q) : 1 <= Qmax2 1 x.
Proof. destruct (Qmax2_spec 1 x) as [[H ->]|[H ->]]; lra. Qed.

Lemma inject_Z_nonzero (k : Z) : (1 <= k)%Z -> Qeq_bool (inject_Z k) 0 = false.
Proof.
  intros Hk. apply Qeq_bool_false. intros H.
  assert (0 < inject_Z k) by (rewrite <- (Zlt_Qlt 0); lia). lra.
Qed.

Section Interpolation.

Variable sqrt : Q -> Q.

Lemma stepCount_fin (this : MeshBrush) (canvasSize : Z * Z) (la lb a b : Q) :
  stepCount sqrt this canvasSize (Fin la, Fin lb) (Fin a, Fin b) =
  Fin (inject_Z (steps_between sqrt (brushRadiusPx this) canvasSize (la, lb) (a, b))).
Proof.
  unfold stepCount, steps_between, pixel_distance, hypot.
  cbn [fst snd nmul nsub nadd sum_squares nfloor nmax].
  set (size := Qmax2 1 _).
  assert (Hsize : Qeq_bool size 0 = false).
  { apply Qeq_bool_false. pose proof (Qmax2_one_ge (inject_Z (Qfloor (brushRadiusPx this * (1 # 2))))).
    fold size in H. lra. }
  cbn [ndiv]. rewrite Hsize. cbn [nceil nmax]. now rewrite Qmax2_one_inject.
Qed.

Lemma for_le_steps (k : Z) :
  (1 <= k)%Z -> for_le (Fin (inject_Z k)) = seq 0 (Z.to_nat k + 1).
Proof.
  intros Hk. unfold for_le.
  assert (E : Qltb (inject_Z k) 0 = false).
  { apply Qltb_ge. rewrite <- (Zle_Qle 0). lia. }
  now rewrite E, Qfloor_Z.
Qed.

Lemma dab_at_fin (this : MeshBrush) (la lb a b : Q) (k : Z) (s : nat) :
  (1 <= k)%Z ->
  dab_at this (Some (Fin la, Fin lb)) (Fin a, Fin b) (Fin (inject_Z k)) s =
  PaintAtUV (fst (lerp_uv (la, lb) (a, b) k s)) (snd (lerp_uv (la, lb) (a, b) k s))
    (brushRadiusPx this) (brushColor this).
Proof.
  intros Hk. unfold dab_at, lerp_uv, fin_of_nat. cbn [neqb ndiv fst snd].
  now rewrite (inject_Z_nonzero k Hk).
Qed.

Lemma dabs_interpolated (this : MeshBrush) (la lb a b : Q) (k : Z) (l : list nat) :
  (1 <= k)%Z ->
  dabs (map (dab_at this (Some (Fin la, Fin lb)) (Fin a, Fin b) (Fin (inject_Z k))) l) =
  map (lerp_uv (la, lb) (a, b) k) l.
Proof.
  intros Hk. induction l as [|s l IH]; [reflexivity|].
  cbn [map]. rewrite dab_at_fin by exact Hk.
  unfold dabs in *. cbn [flat_map app]. rewrite IH.
  unfold lerp_uv. reflexivity.
Qed.


Lemma shares_vertex_spec (c0 c1 c2 l0 l1 l2 : option Z) :
  shares_vertex (c0, c1, c2) (l0, l1, l2) = true <->
  c0 = l0 \/ c0 = l1 \/ c0 = l2 \/ c1 = l0 \/ c1 = l1 \/ c1 = l2 \/
  c2 = l0 \/ c2 = l1 \/ c2 = l2.
Proof.
  unfold shares_vertex, same_index.
  rewrite !orb_true_iff, !bool_decide_eq_true. tauto.
Qed.

Lemma getUV_started_finite (mp : MeshPaintable) (lo ld : vec3) (m : Q) (r : UVResult) :
  started mp ->
  getUVFromLocalRay mp lo ld (Fin m) = Some r ->
  finite_uv (uv r) /\ is_Some (_triIndices mp).
Proof.
  intros (w & h & flip & planar & meshComp & ->) Hr.
  destruct (getUV_ray_finite _ _ _ _ _ Hr) as (o & d & -> & ->).
  split.
  - destruct (getUV_uv_range w h flip planar meshComp o d m r Hr) as (a & b & E & _).
    now exists a, b.
  - unfold getUVFromLocalRay in Hr.
    destruct (_positionsFlat _); [|discriminate].
    destruct (_triIndices _); [eauto|discriminate].
Qed.

End Interpolation.

(** ** The stored UVs stay numbers *)

Lemma brush_ok_new (radiusPx : Q) (c : color) (proximity : bool) (worldRadius maxDist : Q) :
  brush_ok (new_brush radiusPx c proximity worldRadius maxDist).
Proof. intros id p H. cbn in H. now rewrite lookup_empty in H. Qed.

Lemma brush_ok_same_uv (this this' : MeshBrush) :
  _lastUVPerObject this' = _lastUVPerObject this -> brush_ok this -> brush_ok this'.
Proof. intros E Hok id p H. rewrite E in H. exact (Hok id p H). Qed.

Lemma brush_ok_end_stroke (this : MeshBrush) (id : Z) :
  brush_ok this -> brush_ok (end_stroke this id).
Proof.
  intros Hok k p H. destruct (end_stroke_lookup this id k) as (L & _ & _).
  rewrite L in H. destruct (decide (id = k)); [discriminate|]. exact (Hok k p H).
Qed.

Lemma update_preserves_ok (sqrt : Q -> Q) (this : MeshBrush) (env : Frame) :
  brush_ok this -> frame_ok env -> brush_ok (fst (update sqrt this env)).
Proof.
  intros Hok Hframe. unfold update.
  destruct (rayHit env) as [rh|] eqn:Hrh; [|now apply (brush_ok_same_uv this)].
  destruct (hitCount rh =? 0)%Z; [now apply (brush_ok_same_uv this)|].
  destruct (object0 rh) as [hitObj|] eqn:Hobj; [|now apply (brush_ok_same_uv this)].
  destruct (tryPick_cases this (name hitObj))
    as [(n' & token' & h & r & g & b & _ & _ & _ & _ & _ & _ & _ & E)|[E _]]; rewrite E.
  { cbn [fst]. apply brush_ok_end_stroke. now apply (brush_ok_same_uv this). }
  destruct (meshPaintable hitObj) as [mp|] eqn:Hmp.
  2: { cbn [fst]. apply (brush_ok_same_uv this); [|exact Hok].
       unfold mark_hit_lost. now destruct (objectId hitObj). }
  destruct (to_local_ray sqrt this env hitObj) as [lo ld].
  destruct (getUVFromLocalRay mp lo ld (Fin (maxDistance this))) as [r|] eqn:Hr.
  2: { cbn [fst]. apply (brush_ok_same_uv this); [|exact Hok].
       unfold mark_hit_lost. now destruct (objectId hitObj). }
  destruct (getUV_started_finite mp lo ld _ r (Hframe rh hitObj mp Hrh Hobj Hmp) Hr)
    as [Hfin _].
  unfold stroke.
  destruct (withinRange this (worldDist sqrt env (location0 rh))); cbn [negb].
  2: { cbn [fst]. now apply brush_ok_end_stroke. }
  set (id := _stableObjectId hitObj).
  set (this1 := match _contactLostPerObject this !! id with Some true => _ | _ => this end).
  assert (Hok1 : brush_ok this1).
  { unfold this1. destruct (_contactLostPerObject this !! id) as [[|]|]; try exact Hok.
    intros k p H. cbn [_lastUVPerObject set_contactLost set_lastTri set_lastUV] in H.
    apply lookup_delete_Some in H. destruct H as [_ H]. exact (Hok k p H). }
  clearbody this1. cbn [fst].
  intros k p H.
  assert (H' : <[id := uv r]> (_lastUVPerObject this1) !! k = Some p).
  { destruct (_getTriangleVertexIndices mp (triIndex r)); exact H. }
  destruct (decide (id = k)) as [<-|Hne].
  - rewrite lookup_insert_eq in H'. injection H' as <-. exact Hfin.
  - rewrite lookup_insert_ne in H' by exact Hne. exact (Hok1 k p H').
Qed.

(** The stored UVs of every reachable brush are numbers. *)
Lemma reachable_ok (sqrt : Q -> Q) (this : MeshBrush) :
  reachable sqrt this -> brush_ok this.
Proof.
  induction 1 as [radiusPx c proximity worldRadius maxDist|this env _ IH Hframe].
  - apply brush_ok_new.
  - now apply update_preserves_ok.
Qed.

(** ** The fixtures *)

Lemma frame_ok_above (x z height : Q) (nm : string) (id : Z) :
  frame_ok (frame_above x z height (quad_object nm id)).
Proof.
  intros rh obj mp [= <-] [= <-] [= <-]. now exists 8%Z, 8%Z, true, true, (Some quad_xz).
Qed.

Lemma brush_in_stroke_ok : brush_ok brush_in_stroke.
Proof.
  apply update_preserves_ok; [apply brush_ok_new | apply frame_ok_above].
Qed.

Lemma color_pick_frame_witness :
  snd (update sqrt_floor brush_in_stroke swatch_frame) =
    [PickedColor "#1a2b3c" (26 # 255, 43 # 255, 60 # 255, 1)] /\
  _lastUVPerObject (fst (update sqrt_floor brush_in_stroke swatch_frame)) !! 7%Z = None.
Proof.
  destruct (color_pick_frame sqrt_floor brush_in_stroke swatch_frame
              {| hitCount := 1;
                 location0 := V3 (Fin 0) (Fin 0) (Fin 0);
                 object0 := Some (quad_object "Palette_#1a2b3c_swatch" 7) |}
              (quad_object "Palette_#1a2b3c_swatch" 7)
              "Palette_#1a2b3c_swatch" "#1a2b3c" eq_refl ltac:(discriminate) eq_refl eq_refl eq_refl)
    as (r & g & b & Hpick & _ & Hev & _ & Huv & _).
  split; [|exact Huv].
  rewrite Hev. apply (f_equal (fun p => brushColor (fst p))) in Hpick.
  vm_compute in Hpick. injection Hpick as <- <- <-. reflexivity.
Defined.

(** * Further properties of the code

    Properties read off the code itself, each marked with its number. *)

(** ** The order of the scan *)

(** What [resolve_uv] keeps of the loop variables. *)
Lemma resolve_uv_fields (this : MeshPaintable) (positions : list Q) (triIndices : list Z)
    (s : Scan) (r : UVResult) :
  resolve_uv this positions triIndices s = Some r ->
  bestTri s = Some (triIndex r) /\ bestLocalHit s = Some (localHit r).
Proof.
  unfold resolve_uv.
  destruct (bestTri s) as [k|]; [|discriminate].
  destruct (bestLocalHit s) as [p|]; [|discriminate].
  destruct (_uvsFlat this).
  - intros [= <-]. now split.
  - destruct (planarFallback this); [|discriminate]. intros [= <-]. now split.
Qed.

(** The exhaustive scan over the triangles [0 .. n-1], in that order:
    the best hit is the first triangle that reaches the least [t]. *)
Lemma scan_exact_first (positions : list Q) (triIndices : list Z) (o d : qvec) (maxD : Q)
    (n : nat) :
  let s := fold_left (scan_exact positions triIndices (fin3 o) (fin3 d) (Fin maxD))
             (seq 0 n) scan_init in
  (s = scan_init /\
   forall t tri, (t < n)%nat -> triangle_at positions triIndices t = Some tri ->
     ~ valid_intersection o d maxD tri) \/
  (exists k tri,
     (k < n)%nat /\ triangle_at positions triIndices k = Some tri /\
     valid_intersection o d maxD tri /\ s = scan_of_hit o d k tri /\
     forall j tri', (j < n)%nat -> triangle_at positions triIndices j = Some tri' ->
       valid_intersection o d maxD tri' ->
       mt_t o d tri <= mt_t o d tri' /\ ((j < k)%nat -> mt_t o d tri < mt_t o d tri')).
Proof.
  induction n as [|n IH]; cbv zeta in *.
  - left. split; [reflexivity|]. intros t tri Ht. lia.
  - rewrite seq_S, fold_left_app. cbn [fold_left Nat.add].
    set (s := fold_left _ (seq 0 n) scan_init) in *. clearbody s.
    rewrite scan_exact_spec.
    destruct (triangle_at positions triIndices n) as [tri|] eqn:Etri.
    + destruct (valid_b o d maxD tri) eqn:Hv; cbn [andb].
      * pose proof (proj1 (valid_b_spec _ _ _ _) Hv) as Hvalid.
        destruct IH as [[-> Hnone]|(k & tri0 & Hk & Ek & Hv0 & -> & Hmin)].
        -- cbn [lt_closest closestT scan_init isfin].
           right. exists n, tri.
           split; [lia|]. split; [exact Etri|]. split; [exact Hvalid|].
           split; [reflexivity|].
           intros j tri' Hj Ej Hvj.
           destruct (Nat.eq_dec j n) as [->|Hne].
           ++ rewrite Etri in Ej. injection Ej as <-. split; [apply Qle_refl|lia].
           ++ exfalso. apply (Hnone j tri'); [lia|exact Ej|exact Hvj].
        -- cbn [lt_closest closestT scan_of_hit nlt].
           destruct (Qltb (mt_t o d tri) (mt_t o d tri0)) eqn:Hlt.
           ++ apply Qltb_lt in Hlt.
              right. exists n, tri.
              split; [lia|]. split; [exact Etri|]. split; [exact Hvalid|].
              split; [reflexivity|].
              intros j tri' Hj Ej Hvj.
              destruct (Nat.eq_dec j n) as [->|Hne].
              ** rewrite Etri in Ej. injection Ej as <-. split; [apply Qle_refl|lia].
              ** assert (Hjn : (j < n)%nat) by lia.
                 destruct (Hmin j tri' Hjn Ej Hvj) as [Hle _].
                 split; [lra|]. intros _. lra.
           ++ apply Qltb_ge in Hlt.
              right. exists k, tri0.
              split; [lia|]. split; [exact Ek|]. split; [exact Hv0|].
              split; [reflexivity|].
              intros j tri' Hj Ej Hvj.
              destruct (Nat.eq_dec j n) as [->|Hne].
              ** rewrite Etri in Ej. injection Ej as <-. split; [exact Hlt|lia].
              ** apply Hmin; [lia|exact Ej|exact Hvj].
      * assert (Hnv : ~ valid_intersection o d maxD tri).
        { rewrite <- valid_b_spec, Hv. discriminate. }
        destruct IH as [[-> Hnone]|(k & tri0 & Hk & Ek & Hv0 & -> & Hmin)].
        -- left. split; [reflexivity|].
           intros j tri' Hj Ej.
           destruct (Nat.eq_dec j n) as [->|Hne].
           ++ rewrite Etri in Ej. now injection Ej as <-.
           ++ apply (Hnone j tri'); [lia|exact Ej].
        -- right. exists k, tri0.
           split; [lia|]. split; [exact Ek|]. split; [exact Hv0|].
           split; [reflexivity|].
           intros j tri' Hj Ej Hvj.
           destruct (Nat.eq_dec j n) as [->|Hne].
           ++ rewrite Etri in Ej. injection Ej as <-. contradiction.
           ++ apply Hmin; [lia|exact Ej|exact Hvj].
    + destruct IH as [[-> Hnone]|(k & tri0 & Hk & Ek & Hv0 & -> & Hmin)].
      * left. split; [reflexivity|].
        intros j tri' Hj Ej.
        destruct (Nat.eq_dec j n) as [->|Hne]; [congruence|].
        apply (Hnone j tri'); [lia|exact Ej].
      * right. exists k, tri0.
        split; [lia|]. split; [exact Ek|]. split; [exact Hv0|].
        split; [reflexivity|].
        intros j tri' Hj Ej Hvj.
        destruct (Nat.eq_dec j n) as [->|Hne]; [congruence|].
        apply Hmin; [lia|exact Ej|exact Hvj].
Qed.

(** What a started paintable returns, with the order of the scan. *)
Lemma getUV_first (w h : Z) (flip planar : bool) (meshComp : option Mesh)
    (o d : qvec) (maxD : Q) (r : UVResult) :
  let mp := paintable w h flip planar meshComp in
  getUVFromLocalRay mp (fin3 o) (fin3 d) (Fin maxD) = Some r ->
  exists positions triIndices k tri,
    _positionsFlat mp = Some positions /\ _triIndices mp = Some triIndices /\
    triangle_at positions triIndices k = Some tri /\
    valid_intersection o d maxD tri /\
    resolve_uv mp positions triIndices (scan_of_hit o d k tri) = Some r /\
    forall j tri', triangle_at positions triIndices j = Some tri' ->
      valid_intersection o d maxD tri' ->
      mt_t o d tri <= mt_t o d tri' /\ ((j < k)%nat -> mt_t o d tri < mt_t o d tri').
Proof.
  intros mp. subst mp. unfold getUVFromLocalRay.
  destruct (paintable_cases w h flip planar meshComp)
    as [[E E']|(mesh & pos & ti & tmin & tmax & Em & Epos & Hp & Hi & E3 & E4 & Euv & Epl & Hlen & _)].
  { rewrite E. discriminate. }
  destruct (scan_result w h flip planar meshComp _ _ _ _ o d maxD Hp Hi E3 E4)
    as (Hs & _ & Hloop).
  set (mp := paintable w h flip planar meshComp) in *.
  rewrite Hp, Hi, E3, E4. cbv zeta in Hs |- *. rewrite Hs.
  unfold for_lt in *.
  pose proof (scan_exact_first (flatten3 pos) ti o d maxD (Z.to_nat (Qceiling (_triCount mp))))
    as Hfirst. cbv zeta in Hfirst.
  destruct Hfirst as [[-> _]|(k & tri & _ & Ek & Hv & -> & Hmin)]; [discriminate|].
  intros Hr. exists (flatten3 pos), ti, k, tri.
  split; [reflexivity|]. split; [reflexivity|]. split; [exact Ek|]. split; [exact Hv|].
  split; [exact Hr|].
  intros j tri' Ej Hvj. apply Hmin; [|exact Ej|exact Hvj].
  pose proof (Hloop j tri' Ej) as Hin. apply in_seq in Hin. lia.
Qed.

(** ** The hit point *)

(** X3.  A returned hit lies on the ray and in the returned triangle:
    all three vertices of that triangle are inside the position array,
    and [localHit] is both the point of the ray at a distance [t] with
    1e-6 < t <= maxDistance and the point of the triangle with
    barycentric weights (1-u-v, u, v), all three non-negative. *)
Theorem returned_hit_in_triangle (w h : Z) (flip planar : bool) (meshComp : option Mesh)
    (o d : qvec) (maxD : Q) (r : UVResult) :
  let mp := paintable w h flip planar meshComp in
  getUVFromLocalRay mp (fin3 o) (fin3 d) (Fin maxD) = Some r ->
  exists tri,
    triangle_of mp (triIndex r) = Some tri /\
    let t := mt_t o d tri in
    let u := mt_u o d tri in
    let v := mt_v o d tri in
    localHit r = fin3 (along o d t) /\
    qvec_eq (along o d t) (barycentric tri u v) /\
    (1 # 1000000) < t /\ t <= maxD /\
    0 <= u /\ 0 <= v /\ 0 <= 1 - u - v.
Proof.
  intros mp Hr.
  destruct (getUV_first w h flip planar meshComp o d maxD r Hr)
    as (positions & triIndices & k & tri & Hp & Hi & Ek & Hv & Hres & _).
  fold mp in Hp, Hi, Hres.
  apply resolve_uv_fields in Hres. destruct Hres as [Hk Hl].
  cbn [bestTri bestLocalHit scan_of_hit] in Hk, Hl.
  injection Hk as ->. injection Hl as Hl.
  exists tri. unfold triangle_of. rewrite Hp, Hi.
  split; [exact Ek|]. cbv zeta.
  destruct Hv as (Hdet & Hu0 & Hu1 & Hv0 & Hv1 & Ht & Hm).
  split; [now rewrite Hl|].
  split; [|repeat split; try assumption; lra].
  assert (Hnz : ~ mt_det d tri == 0).
  { intros Hz. revert Hdet. apply Qabs_case; intros; lra. }
  destruct tri as [[p0 p1] p2].
  pose proof (hit_point_barycentric o d p0 p1 p2 Hnz) as Hb. cbv zeta in Hb.
  set (u := mt_u o d (p0, p1, p2)) in *. set (v := mt_v o d (p0, p1, p2)) in *.
  destruct (along o d (mt_t o d (p0, p1, p2))) as [[hx hy] hz].
  destruct p0 as [[ax ay] az], p1 as [[bx b_y] bz], p2 as [[cx cy] cz].
  unfold qvec_eq, barycentric. destruct Hb as (Hx & Hy & Hz).
  rewrite Hx, Hy, Hz. repeat split; ring.
Qed.

Lemma returned_hit_in_triangle_witness :
  exists r tri,
    getUVFromLocalRay (paintable 8 8 true true (Some quad_xz))
      (fin3 (1 # 4, 1, -(1 # 8))) (fin3 (0, -1, 0)) (Fin 10) = Some r /\
    triangle_of (paintable 8 8 true true (Some quad_xz)) (triIndex r) = Some tri /\
    localHit r = fin3 (along (1 # 4, 1, -(1 # 8)) (0, -1, 0)
                         (mt_t (1 # 4, 1, -(1 # 8)) (0, -1, 0) tri)).
Proof.
  destruct (getUVFromLocalRay (paintable 8 8 true true (Some quad_xz))
              (fin3 (1 # 4, 1, -(1 # 8))) (fin3 (0, -1, 0)) (Fin 10)) as [r|] eqn:Hr;
    [|vm_compute in Hr; discriminate].
  destruct (returned_hit_in_triangle 8 8 true true (Some quad_xz)
              (1 # 4, 1, -(1 # 8)) (0, -1, 0) 10 r Hr) as (tri & Htri & Hl & _).
  exists r, tri. auto.
Defined.

(** ** Undefined vertices *)

Lemma nmul_nan_r (a : num) : (a * NaN)%num = NaN.
Proof. now destruct a. Qed.

Lemma nadd_nan_r (a : num) : (a + NaN)%num = NaN.
Proof. now destruct a. Qed.

(** X5.  When a coordinate of the direction or of a vertex is undefined,
    the exact test does not answer null: it returns a hit whose [t],
    [u] and [v] are all [NaN].  The scan, which compares [t] with 1e-6,
    leaves such a triangle aside. *)
Theorem undefined_vertex_gives_nan_hit (orig dir p0 p1 p2 : vec3) :
  defined3 dir && defined3 p0 && defined3 p1 && defined3 p2 = false ->
  rayTriangleIntersectMollerTrumbore orig dir p0 p1 p2 =
    Some {| hit_t := NaN; hit_u := NaN; hit_v := NaN |} /\
  forall positions triIndices maxDistance s t,
    vertex_at positions (tri_vertex_index triIndices t 0) = p0 ->
    vertex_at positions (tri_vertex_index triIndices t 1) = p1 ->
    vertex_at positions (tri_vertex_index triIndices t 2) = p2 ->
    scan_exact positions triIndices orig dir maxDistance s t = s.
Proof.
  intros Hundef.
  assert (Hhit : rayTriangleIntersectMollerTrumbore orig dir p0 p1 p2 =
                 Some {| hit_t := NaN; hit_u := NaN; hit_v := NaN |}).
  { unfold rayTriangleIntersectMollerTrumbore. cbv zeta.
    match goal with |- context [(?x >? negEPS)%num] => remember x as det eqn:Edet end.
    assert (Hnan : det = NaN).
    { destruct det as [q|]; [exfalso|reflexivity].
      assert (Hfin : isfin (Fin q) = true) by reflexivity.
      rewrite Edet in Hfin. clear Edet.
      repeat match goal with
      | H : _ /\ _ |- _ => destruct H
      | H : isfin (_ + _) = true |- _ => rewrite isfin_add, andb_true_iff in H
      | H : isfin (_ - _) = true |- _ => rewrite isfin_sub, andb_true_iff in H
      | H : isfin (_ * _) = true |- _ => rewrite isfin_mul, andb_true_iff in H
      end.
      unfold defined3 in Hundef.
      repeat match goal with
      | H : isfin _ = true |- _ => rewrite H in Hundef; clear H
      end.
      discriminate Hundef. }
    clear Edet. subst det.
    unfold negEPS, EPS. cbn [ngt nlt andb ndiv].
    rewrite !nmul_nan_r. cbn [ngt nlt nle nadd orb]. reflexivity. }
  split; [exact Hhit|].
  intros positions triIndices maxDistance s t <- <- <-.
  unfold scan_exact. rewrite Hhit. reflexivity.
Qed.

Lemma undefined_vertex_gives_nan_hit_witness :
  rayTriangleIntersectMollerTrumbore (fin3 (0, 1, 0)) (fin3 (0, -1, 0))
    (fin3 (0, 0, 0)) (fin3 (1, 0, 0)) (V3 NaN NaN NaN) =
  Some {| hit_t := NaN; hit_u := NaN; hit_v := NaN |}.
Proof.
  exact (proj1 (undefined_vertex_gives_nan_hit (fin3 (0, 1, 0)) (fin3 (0, -1, 0))
                  (fin3 (0, 0, 0)) (fin3 (1, 0, 0)) (V3 NaN NaN NaN) eq_refl)).
Defined.

(** ** A paintable without triangles *)

Lemma started_triCount (w h : Z) (flip planar : bool) (mesh : Mesh) (pos : list (Q * Q * Q)) :
  positionAttr mesh = Some pos ->
  _triCount (paintable w h flip planar (Some mesh)) =
  match indexData mesh with
  | Some ((_ :: _) as indices) => inject_Z (Z.of_nat (length indices)) / 3
  | _ => inject_Z (Z.of_nat (length pos)) / 3
  end.
Proof.
  intros Hpos. unfold paintable, start, _buildMeshCaches. rewrite Hpos.
  destruct (indexData mesh) as [[|i indices]|]; reflexivity.
Qed.

Lemma few_corners_no_triangle (w h : Z) (flip planar : bool) (mesh : Mesh)
    (pos : list (Q * Q * Q)) (t : nat) :
  positionAttr mesh = Some pos ->
  match indexData mesh with
  | Some ((_ :: _) as indices) => (length indices < 3)%nat
  | _ => (length pos < 3)%nat
  end ->
  triangle_of (paintable w h flip planar (Some mesh)) t = None.
Proof.
  intros Hpos Hfew.
  destruct (paintable_cases w h flip planar (Some mesh))
    as [[E E']|(mesh' & pos' & ti & tmin & tmax & Em & Epos & Hp & Hi & _ & _ & _ & _ & Hlen & _)].
  { unfold triangle_of. now rewrite E. }
  injection Em as <-. rewrite Hpos in Epos. injection Epos as <-.
  rewrite (started_triCount w h flip planar mesh pos Hpos) in Hlen.
  unfold triangle_of. rewrite Hp, Hi.
  destruct (triangle_at (flatten3 pos) ti t) as [[[p0 p1] p2]|] eqn:Etri; [exfalso|reflexivity].
  destruct (triangle_vertices_in_mesh pos ti t p0 p1 p2 Etri)
    as (z0 & z1 & z2 & _ & _ & I2 & _).
  unfold tri_vertex_index, read_int in I2.
  destruct (Z.ltb_spec (Z.of_nat t * 3 + 2) 0); [discriminate|].
  apply lookup_lt_Some in I2.
  assert (Hq : forall n : nat, (n < 3)%nat ->
            inject_Z (Z.of_nat (length ti)) <= inject_Z (Z.of_nat n) / 3 * 3 -> False).
  { intros n Hn Hle.
    assert (E : inject_Z (Z.of_nat n) / 3 * 3 == inject_Z (Z.of_nat n)) by field.
    rewrite E in Hle. rewrite <- Zle_Qle in Hle. lia. }
  destruct (indexData mesh) as [[|i indices]|]; eapply Hq; eassumption.
Qed.

(** X6.  A paintable without triangles answers no ray.  Before
    [start()], or when [start()] finds no mesh component, the query
    returns nothing and [paintAtUV] draws nothing.  After [start()] on a
    mesh without a Position attribute the canvas exists but the query
    returns nothing; so it does on a mesh whose index data (or, without
    index data, whose vertex list) has fewer than three entries. *)
Theorem paintable_without_triangles (w h : Z) (flip planar : bool) (lo ld : vec3) (m : Q)
    (u v : num) :
  getUVFromLocalRay (unstarted w h flip planar) lo ld (Fin m) = None /\
  paintAtUV (unstarted w h flip planar) u v = None /\
  getUVFromLocalRay (paintable w h flip planar None) lo ld (Fin m) = None /\
  paintAtUV (paintable w h flip planar None) u v = None /\
  (forall mesh, positionAttr mesh = None ->
     getUVFromLocalRay (paintable w h flip planar (Some mesh)) lo ld (Fin m) = None /\
     created (paintable w h flip planar (Some mesh)) = true) /\
  (forall mesh pos, positionAttr mesh = Some pos ->
     match indexData mesh with
     | Some ((_ :: _) as indices) => (length indices < 3)%nat
     | _ => (length pos < 3)%nat
     end ->
     getUVFromLocalRay (paintable w h flip planar (Some mesh)) lo ld (Fin m) = None).
Proof.
  split; [reflexivity|]. split; [reflexivity|]. split; [reflexivity|].
  split; [reflexivity|]. split.
  - intros mesh Hpos. unfold paintable, start, _buildMeshCaches. rewrite Hpos.
    split; reflexivity.
  - intros mesh pos Hpos Hfew.
    destruct (getUVFromLocalRay (paintable w h flip planar (Some mesh)) lo ld (Fin m))
      as [r|] eqn:Hr; [exfalso|reflexivity].
    destruct (getUV_ray_finite _ _ _ _ _ Hr) as (o & d & -> & ->).
    rewrite (no_valid_intersection_none w h flip planar (Some mesh) o d m) in Hr;
      [discriminate|].
    intros t tri Htri.
    rewrite (few_corners_no_triangle w h flip planar mesh pos t Hpos Hfew) in Htri.
    discriminate.
Qed.

(** ** The pixel under a dab *)

Lemma clamp01_cases (x : Q) :
  (x <= 0 /\ clamp01 x = 0) \/ (0 < x /\ x <= 1 /\ clamp01 x = x) \/ (1 < x /\ clamp01 x = 1).
Proof.
  unfold clamp01.
  destruct (Qmax2_spec x 0) as [[H1 ->]|[H1 ->]].
  - left. split; [exact H1|reflexivity].
  - destruct (Qmin2_spec x 1) as [[H2 ->]|[H2 ->]].
    + right. left. auto.
    + right. right. auto.
Qed.

Lemma floor_of_product (c : Q) (n : Z) :
  0 <= c -> c <= 1 -> (0 < n)%Z ->
  (0 <= Qfloor (c * inject_Z n) <= n)%Z /\
  (Qfloor (c * inject_Z n) = n <-> 1 <= c).
Proof.
  intros Hc0 Hc1 Hn.
  assert (HN : 0 < inject_Z n) by (rewrite <- (Zlt_Qlt 0); exact Hn).
  assert (Hlo : (0 <= Qfloor (c * inject_Z n))%Z).
  { rewrite <- (Qfloor_Z 0). apply Qfloor_resp_le. apply Qmult_le_0_compat; lra. }
  assert (Hhi : (Qfloor (c * inject_Z n) <= n)%Z).
  { rewrite <- (Qfloor_Z n) at 2. apply Qfloor_resp_le. nra. }
  split; [split; assumption|]. split.
  - intros E. pose proof (Qfloor_le (c * inject_Z n)) as Hle. rewrite E in Hle.
    destruct (Qlt_le_dec c 1) as [Hlt|Hge]; [|exact Hge]. exfalso. nra.
  - intros Hge. assert (Ec : c * inject_Z n == inject_Z n) by nra.
    rewrite Ec. apply Qfloor_Z.
Qed.

(** On exact numbers: the pixel under a dab is (floor(u W), floor(v' H))
    of the clamped UV, with v' = 1 - v when [flipY] is set. *)
Lemma pixel_of_exact_uv (this : MeshPaintable) (u v : Q) :
  created this = true ->
  (0 < textureWidth this)%Z -> (0 < textureHeight this)%Z ->
  exists x y : Z,
    paintAtUV this (Fin u) (Fin v) = Some (Fin (inject_Z x), Fin (inject_Z y)) /\
    x = Qfloor (clamp01 u * inject_Z (textureWidth this)) /\
    y = Qfloor ((if flipY this then 1 - clamp01 v else clamp01 v)
                * inject_Z (textureHeight this)) /\
    (0 <= x <= textureWidth this)%Z /\ (0 <= y <= textureHeight this)%Z /\
    (x = textureWidth this <-> 1 <= u) /\
    (y = textureHeight this <-> if flipY this then v <= 0 else 1 <= v) /\
    paintAtUV this (Fin (clamp01 u)) (Fin (clamp01 v)) = paintAtUV this (Fin u) (Fin v).
Proof.
  intros Hc Hw Hh. unfold paintAtUV. rewrite Hc.
  change (nmin (nmax (Fin u) (Fin 0)) (Fin 1)) with (Fin (clamp01 u)).
  change (nmin (nmax (Fin v) (Fin 0)) (Fin 1)) with (Fin (clamp01 v)).
  change (nmin (nmax (Fin (clamp01 u)) (Fin 0)) (Fin 1)) with (Fin (clamp01 (clamp01 u))).
  change (nmin (nmax (Fin (clamp01 v)) (Fin 0)) (Fin 1)) with (Fin (clamp01 (clamp01 v))).
  assert (Hidem : forall x, clamp01 (clamp01 x) = clamp01 x).
  { intros x. destruct (clamp01_cases x) as [[_ ->]|[(H0 & H1 & ->)|[_ ->]]];
      try reflexivity.
    destruct (clamp01_cases x) as [[H _]|[(_ & _ & E)|[H _]]]; [lra|exact E|lra]. }
  rewrite !Hidem.
  pose proof (clamp01_range u) as [Hu0 Hu1]. pose proof (clamp01_range v) as [Hv0 Hv1].
  destruct (floor_of_product (clamp01 u) (textureWidth this) Hu0 Hu1 Hw) as [Hx Hxw].
  assert (Eu : 1 <= clamp01 u <-> 1 <= u).
  { destruct (clamp01_cases u) as [[H ->]|[(H0 & H1 & ->)|[H ->]]]; split; lra. }
  destruct (flipY this); cbn [nmul nsub nfloor].
  - assert (H0 : 0 <= 1 - clamp01 v) by lra. assert (H1 : 1 - clamp01 v <= 1) by lra.
    destruct (floor_of_product (1 - clamp01 v) (textureHeight this) H0 H1 Hh) as [Hy Hyh].
    eexists _, _. split; [reflexivity|]. split; [reflexivity|]. split; [reflexivity|].
    split; [exact Hx|]. split; [exact Hy|]. split; [now rewrite Hxw|].
    split; [|reflexivity]. rewrite Hyh.
    destruct (clamp01_cases v) as [[H ->]|[(G0 & G1 & ->)|[H ->]]]; split; lra.
  - destruct (floor_of_product (clamp01 v) (textureHeight this) Hv0 Hv1 Hh) as [Hy Hyh].
    eexists _, _. split; [reflexivity|]. split; [reflexivity|]. split; [reflexivity|].
    split; [exact Hx|]. split; [exact Hy|]. split; [now rewrite Hxw|].
    split; [|reflexivity]. rewrite Hyh.
    destruct (clamp01_cases v) as [[H ->]|[(G0 & G1 & ->)|[H ->]]]; split; lra.
Qed.

(** X7.  On a created canvas of positive size, [paintAtUV] clamps the UV
    to [0,1] and centres the dab on a pixel of whole coordinates that
    range over 0..W and 0..H inclusive.  The centre falls on column W,
    one past the last column of the canvas, exactly when u >= 1, and on
    column 0 when u <= 0; without [flipY] it falls on row H exactly
    when v >= 1 and on row 0 when v <= 0; with [flipY] it falls on row
    H when v <= 0 and on row 0 when v >= 1.  A UV already clamped gives
    the same pixel. *)
Theorem paintAtUV_pixel (this : MeshPaintable) (u v : Q) :
  created this = true ->
  (0 < textureWidth this)%Z -> (0 < textureHeight this)%Z ->
  exists x y : Z,
    paintAtUV this (Fin u) (Fin v) = Some (Fin (inject_Z x), Fin (inject_Z y)) /\
    (0 <= x <= textureWidth this)%Z /\ (0 <= y <= textureHeight this)%Z /\
    (x = textureWidth this <-> 1 <= u) /\ (u <= 0 -> x = 0%Z) /\
    (if flipY this
     then (v <= 0 -> y = textureHeight this) /\ (1 <= v -> y = 0%Z)
     else (y = textureHeight this <-> 1 <= v) /\ (v <= 0 -> y = 0%Z)) /\
    paintAtUV this (Fin (clamp01 u)) (Fin (clamp01 v)) = paintAtUV this (Fin u) (Fin v).
Proof.
  intros Hc Hw Hh.
  destruct (pixel_of_exact_uv this u v Hc Hw Hh)
    as (x & y & Hp & Hx & Hy & Rx & Ry & Ex & Ey & Hclamp).
  exists x, y. split; [exact Hp|]. split; [exact Rx|]. split; [exact Ry|].
  split; [exact Ex|].
  assert (Zero : forall c n, c == 0 -> Qfloor (c * inject_Z n) = 0%Z).
  { intros c n E. rewrite E, Qmult_0_l. reflexivity. }
  split.
  { intros Hu. rewrite Hx. apply Zero.
    destruct (clamp01_cases u) as [[_ ->]|[(H0 & _)|[H1 _]]]; [reflexivity|lra|lra]. }
  split; [|exact Hclamp].
  destruct (flipY this).
  - split; [intros Hv; now apply Ey|].
    intros Hv. rewrite Hy. apply Zero.
    destruct (clamp01_cases v) as [[H0 _]|[(_ & H1 & ->)|[_ ->]]]; [lra|lra|reflexivity].
  - split; [exact Ey|].
    intros Hv. rewrite Hy. apply Zero.
    destruct (clamp01_cases v) as [[_ ->]|[(H0 & _)|[H1 _]]]; [reflexivity|lra|lra].
Qed.

Lemma paintAtUV_pixel_witness :
  paintAtUV (paintable 8 8 true true (Some quad_xz)) (Fin 1) (Fin 0) =
  Some (Fin 8, Fin 8).
Proof.
  destruct (paintAtUV_pixel (paintable 8 8 true true (Some quad_xz)) 1 0)
    as (x & y & Hp & _ & _ & Ex & _ & [Ey _] & _); [reflexivity | reflexivity | reflexivity |].
  rewrite Hp. rewrite (proj2 Ex) by (vm_compute; discriminate).
  rewrite Ey by (vm_compute; discriminate). reflexivity.
Defined.

(** ** The identity of an object *)

Lemma to_int32_range (x : Z) : (-2147483648 <= to_int32 x <= 2147483647)%Z.
Proof.
  unfold to_int32.
  pose proof (Z.mod_pos_bound (x + 2147483648) 4294967296 ltac:(lia)). lia.
Qed.

Lemma to_int32_mod (x : Z) : (to_int32 x mod 4294967296 = x mod 4294967296)%Z.
Proof.
  unfold to_int32.
  rewrite Zminus_mod, Zmod_mod, <- Zminus_mod.
  f_equal. lia.
Qed.

Lemma to_int32_congr (x y : Z) :
  (x mod 4294967296 = y mod 4294967296)%Z -> to_int32 x = to_int32 y.
Proof.
  intros H. unfold to_int32. f_equal.
  rewrite (Zplus_mod x), (Zplus_mod y), H. reflexivity.
Qed.

Lemma hash_step (a c : Z) :
  to_int32 (to_int32 (to_int32 a * 32) - to_int32 a + c) = to_int32 (a * 31 + c).
Proof.
  apply to_int32_congr.
  rewrite Zplus_mod, Zminus_mod, !to_int32_mod.
  rewrite (Zmult_mod (to_int32 a)), to_int32_mod.
  rewrite <- Zmult_mod, <- Zminus_mod, <- Zplus_mod.
  f_equal. lia.
Qed.

Lemma hash_units_base31 (l : list Z) (a : Z) :
  hash_units l (to_int32 a) = to_int32 (base31_units l a).
Proof.
  revert a. induction l as [|c l IH]; intros a; cbn [hash_units base31_units]; [reflexivity|].
  rewrite hash_step. apply IH.
Qed.

Lemma hash_chars_units (s : string) (h : Z) : hash_chars s h = hash_units (code_units s) h.
Proof.
  revert h. induction s as [|c s IH]; intros h; [reflexivity|].
  cbn [hash_chars]. rewrite IH. reflexivity.
Qed.

(** X8.  The identity of an object is its numeric [objectId] when it has
    one.  Otherwise it is computed from the code units of the name
    ([anonymous_obj] when there is none): the code units read as the
    digits of a number in base 31, wrapped to 32 bits, in absolute
    value, with 1 in place of 0.  For every sequence of code units the
    result is in 1 .. 2^31. *)
Theorem stable_id_of_name (obj : Object3D) :
  (forall id, objectId obj = Some id -> _stableObjectId obj = id) /\
  (objectId obj = None ->
     _stableObjectId obj =
     stable_id_of_units (code_units (default "anonymous_obj"%string (name obj)))) /\
  (forall units : list Z,
     let h := to_int32 (base31_units units 0) in
     stable_id_of_units units = (if (h =? 0)%Z then 1 else Z.abs h)%Z /\
     (1 <= stable_id_of_units units <= 2147483648)%Z) /\
  stable_id_of_units [67; 97; 102; 233]%Z = 2092609%Z.
Proof.
  split; [|split; [|split; [|reflexivity]]].
  - unfold _stableObjectId. now intros id ->.
  - unfold _stableObjectId, stable_id_of_units. intros ->. cbv zeta.
    now rewrite hash_chars_units.
  - intros units h. unfold stable_id_of_units. cbv zeta.
    assert (E0 : hash_units units 0 = h) by exact (hash_units_base31 units 0).
    rewrite E0.
    pose proof (to_int32_range (base31_units units 0)) as Hr. fold h in Hr. clearbody h.
    split.
    + destruct (Z.eqb_spec (Z.abs h) 0) as [E|E]; destruct (Z.eqb_spec h 0) as [E'|E'];
        try reflexivity; lia.
    + destruct (Z.eqb_spec (Z.abs h) 0); lia.
Qed.

(** ** What a frame changes *)

Section FrameEffects.

Variable sqrt : Q -> Q.

Lemma mark_hit_lost_lookup (this : MeshBrush) (hitObj : Object3D) (k : Z) :
  _lastUVPerObject (mark_hit_lost this hitObj) = _lastUVPerObject this /\
  _lastTriPerObject (mark_hit_lost this hitObj) = _lastTriPerObject this /\
  _contactLostPerObject (mark_hit_lost this hitObj) !! k =
    (if decide (objectId hitObj = Some k) then Some true else _contactLostPerObject this !! k).
Proof.
  unfold mark_hit_lost. destruct (objectId hitObj) as [id|].
  - cbn [_lastUVPerObject _lastTriPerObject _contactLostPerObject set_contactLost].
    split; [reflexivity|]. split; [reflexivity|].
    destruct (decide (Some id = Some k)) as [[= ->]|Hne].
    + now rewrite lookup_insert_eq.
    + rewrite lookup_insert_ne; [reflexivity|congruence].
  - split; [reflexivity|]. split; [reflexivity|].
    destruct (decide (None = Some k)); [discriminate|reflexivity].
Qed.

(** The state after a frame that reached the proximity test. *)
Lemma stroke_lookup (this : MeshBrush) (env : Frame) (hitWorldPos : vec3)
    (hitObj : Object3D) (mp : MeshPaintable) (r : UVResult) (k : Z) :
  is_Some (_triIndices mp) ->
  let id := _stableObjectId hitObj in
  let this' := fst (stroke sqrt this env hitWorldPos hitObj mp r) in
  let inRange := withinRange this (worldDist sqrt env hitWorldPos) in
  _lastUVPerObject this' !! k =
    (if decide (id = k) then (if inRange then Some (uv r) else None)
     else _lastUVPerObject this !! k) /\
  _lastTriPerObject this' !! k =
    (if decide (id = k)
     then (if inRange then _getTriangleVertexIndices mp (triIndex r) else None)
     else _lastTriPerObject this !! k) /\
  _contactLostPerObject this' !! k =
    (if decide (id = k) then Some (negb inRange) else _contactLostPerObject this !! k) /\
  is_Some (_getTriangleVertexIndices mp (triIndex r)).
Proof.
  intros [ti Hti] id this' inRange. subst this' inRange. unfold stroke. fold id.
  assert (Hcurr : is_Some (_getTriangleVertexIndices mp (triIndex r))).
  { unfold _getTriangleVertexIndices. rewrite Hti. eauto. }
  destruct (withinRange this (worldDist sqrt env hitWorldPos)); cbn [negb].
  - set (this1 := match _contactLostPerObject this !! id with Some true => _ | _ => this end).
    assert (H1 : forall j, j <> id ->
              _lastUVPerObject this1 !! j = _lastUVPerObject this !! j /\
              _lastTriPerObject this1 !! j = _lastTriPerObject this !! j /\
              _contactLostPerObject this1 !! j = _contactLostPerObject this !! j).
    { intros j Hj. unfold this1.
      destruct (_contactLostPerObject this !! id) as [[|]|]; try (repeat split; reflexivity).
      cbn [_lastUVPerObject _lastTriPerObject _contactLostPerObject
           set_contactLost set_lastTri set_lastUV].
      rewrite !lookup_delete_ne, lookup_insert_ne by congruence. repeat split. }
    clearbody this1.
    destruct Hcurr as [curr Hcurr]. rewrite Hcurr. cbn [fst].
    cbn [_lastUVPerObject _lastTriPerObject _contactLostPerObject
         set_contactLost set_lastTri set_lastUV].
    destruct (decide (id = k)) as [<-|Hne].
    + rewrite !lookup_insert_eq. repeat split; eauto.
    + rewrite !lookup_insert_ne by exact Hne.
      destruct (H1 k ltac:(congruence)) as (-> & -> & ->). repeat split; eauto.
  - cbn [fst]. destruct (end_stroke_lookup this id k) as (-> & -> & ->).
    destruct (decide (id = k)); repeat split; eauto.
Qed.

Lemma getUV_has_indices (mp : MeshPaintable) (lo ld : vec3) (m : num) (r : UVResult) :
  getUVFromLocalRay mp lo ld m = Some r -> is_Some (_triIndices mp).
Proof.
  unfold getUVFromLocalRay.
  destruct (_positionsFlat mp); [|discriminate].
  destruct (_triIndices mp); [eauto|discriminate].
Qed.

(** The branches of [update]. *)
Lemma update_cases (this : MeshBrush) (env : Frame) :
  (no_hit env /\ update sqrt this env = (mark_all_lost this, [])) \/
  (exists rh hitObj,
     rayHit env = Some rh /\ hitCount rh <> 0%Z /\ object0 rh = Some hitObj /\
     ((exists this1 picked,
         _tryPickColorFromName this (name hitObj) = (this1, Some picked) /\
         update sqrt this env =
           (end_stroke this1 (_stableObjectId hitObj),
            [PickedColor picked (brushColor this1)])) \/
      (_tryPickColorFromName this (name hitObj) = (this, None) /\
       update sqrt this env = (mark_hit_lost this hitObj, []) /\
       (meshPaintable hitObj = None \/
        exists mp, meshPaintable hitObj = Some mp /\
          getUVFromLocalRay mp (fst (to_local_ray sqrt this env hitObj))
            (snd (to_local_ray sqrt this env hitObj)) (Fin (maxDistance this)) = None)) \/
      (exists mp r,
         resolved_hit sqrt this env rh hitObj mp r /\
         update sqrt this env = stroke sqrt this env (location0 rh) hitObj mp r))).
Proof.
  destruct (rayHit env) as [rh|] eqn:Hrh.
  2: { left. split; [now left|]. apply update_no_hit. now left. }
  destruct (Z.eq_dec (hitCount rh) 0%Z) as [Hz|Hnz].
  { left. split; [right; eauto|]. apply update_no_hit. right. eauto. }
  destruct (object0 rh) as [hitObj|] eqn:Hobj.
  2: { left. split; [right; eauto|]. apply update_no_hit. right. eauto. }
  right. exists rh, hitObj. split; [reflexivity|]. split; [exact Hnz|]. split; [exact Hobj|].
  destruct (tryPick_cases this (name hitObj))
    as [(n & token & h & r' & g & b & _ & _ & _ & _ & _ & _ & _ & E)|[E _]].
  { left. eexists _, _. split; [exact E|].
    apply (update_picked sqrt this env rh hitObj _ _ Hrh Hnz Hobj E). }
  right.
  assert (Hpick : snd (_tryPickColorFromName this (name hitObj)) = None) by now rewrite E.
  destruct (meshPaintable hitObj) as [mp|] eqn:Hmp.
  2: { left. split; [exact E|]. split; [|now left].
       apply (update_unpaintable sqrt this env rh hitObj Hrh Hnz Hobj Hpick). now left. }
  destruct (getUVFromLocalRay mp (fst (to_local_ray sqrt this env hitObj))
              (snd (to_local_ray sqrt this env hitObj)) (Fin (maxDistance this)))
    as [r|] eqn:Hr.
  - right. exists mp, r.
    assert (Hres : resolved_hit sqrt this env rh hitObj mp r).
    { unfold resolved_hit. auto 10. }
    split; [exact Hres|]. now apply update_resolved.
  - left. split; [exact E|]. split; [|right; eauto].
    apply (update_unpaintable sqrt this env rh hitObj Hrh Hnz Hobj Hpick). right. eauto.
Qed.

Lemma tryPick_settings (this this1 : MeshBrush) (nm : option string) (picked : option string) :
  _tryPickColorFromName this nm = (this1, picked) ->
  brushRadiusPx this1 = brushRadiusPx this /\
  paintOnProximity this1 = paintOnProximity this /\
  brushWorldRadius this1 = brushWorldRadius this /\
  maxDistance this1 = maxDistance this /\
  _lastUVPerObject this1 = _lastUVPerObject this /\
  _lastTriPerObject this1 = _lastTriPerObject this /\
  _contactLostPerObject this1 = _contactLostPerObject this.
Proof.
  destruct (tryPick_cases this nm)
    as [(n & token & h & r' & g & b & _ & _ & _ & _ & _ & _ & _ & E)|[E _]];
    rewrite E; intros [= <- _]; repeat split; reflexivity.
Qed.

(** X9.  A frame touches the stored UV and triangle of one identity at
    most, that of the hit object: for every other identity both are
    unchanged, in every frame; and in a frame that has a hit object the
    contact-lost flag of every other identity is unchanged as well. *)
Theorem other_identities_untouched (this : MeshBrush) (env : Frame) (k : Z) :
  (forall rh obj, rayHit env = Some rh -> object0 rh = Some obj -> _stableObjectId obj <> k) ->
  let this' := fst (update sqrt this env) in
  _lastUVPerObject this' !! k = _lastUVPerObject this !! k /\
  _lastTriPerObject this' !! k = _lastTriPerObject this !! k /\
  ((exists rh obj, rayHit env = Some rh /\ hitCount rh <> 0%Z /\ object0 rh = Some obj) ->
   _contactLostPerObject this' !! k = _contactLostPerObject this !! k).
Proof.
  intros Hother this'. subst this'.
  destruct (update_cases this env)
    as [[Hno ->]|(rh & hitObj & Hrh & Hnz & Hobj &
         [(this1 & picked & Hpick & ->)|[(_ & -> & _)|(mp & r & Hres & ->)]])].
  - cbn [fst]. split; [reflexivity|]. split; [reflexivity|].
    intros (rh & obj & Hrh & Hnz & Hobj).
    destruct Hno as [Hno|(rh' & Hrh' & [Hz|Hnone])]; congruence.
  - cbn [fst]. specialize (Hother rh hitObj Hrh Hobj).
    destruct (end_stroke_lookup this1 (_stableObjectId hitObj) k) as (-> & -> & ->).
    rewrite !decide_False by exact Hother.
    destruct (tryPick_settings this this1 _ _ Hpick) as (_ & _ & _ & _ & -> & -> & ->).
    auto.
  - cbn [fst]. specialize (Hother rh hitObj Hrh Hobj).
    destruct (mark_hit_lost_lookup this hitObj k) as (-> & -> & ->).
    split; [reflexivity|]. split; [reflexivity|]. intros _.
    destruct (decide (objectId hitObj = Some k)) as [E|_]; [|reflexivity].
    exfalso. apply Hother. unfold _stableObjectId. now rewrite E.
  - specialize (Hother rh hitObj Hrh Hobj).
    pose proof Hres as (_ & _ & _ & _ & _ & Huv).
    destruct (stroke_lookup this env (location0 rh) hitObj mp r k
                (getUV_has_indices _ _ _ _ _ Huv)) as (-> & -> & -> & _).
    rewrite !decide_False by exact Hother. auto.
Qed.

Lemma stroke_settings (this : MeshBrush) (env : Frame) (hitWorldPos : vec3)
    (hitObj : Object3D) (mp : MeshPaintable) (r : UVResult) :
  let this' := fst (stroke sqrt this env hitWorldPos hitObj mp r) in
  brushRadiusPx this' = brushRadiusPx this /\
  brushColor this' = brushColor this /\
  paintOnProximity this' = paintOnProximity this /\
  brushWorldRadius this' = brushWorldRadius this /\
  maxDistance this' = maxDistance this.
Proof.
  unfold stroke.
  destruct (withinRange this (worldDist sqrt env hitWorldPos)); cbn [negb fst];
    [|repeat split; reflexivity].
  destruct (_contactLostPerObject this !! _stableObjectId hitObj) as [[|]|];
    destruct (_getTriangleVertexIndices mp (triIndex r)); repeat split; reflexivity.
Qed.

Lemma stroke_paints (this : MeshBrush) (env : Frame) (hitWorldPos : vec3)
    (hitObj : Object3D) (mp : MeshPaintable) (r : UVResult) (e : Event) :
  In e (snd (stroke sqrt this env hitWorldPos hitObj mp r)) ->
  exists u v, e = PaintAtUV u v (brushRadiusPx this) (brushColor this).
Proof.
  unfold stroke.
  destruct (withinRange this (worldDist sqrt env hitWorldPos)); cbn [negb snd]; [|intros []].
  set (this1 := match _contactLostPerObject this !! _stableObjectId hitObj with
                | Some true => _ | _ => this end).
  assert (E1 : brushRadiusPx this1 = brushRadiusPx this /\ brushColor this1 = brushColor this).
  { unfold this1. destruct (_contactLostPerObject this !! _stableObjectId hitObj) as [[|]|];
      now split. }
  destruct E1 as [Er Ec]. clearbody this1.
  match goal with |- In e (if negb ?b then _ else _) -> _ => destruct b end; cbn [negb].
  - intros Hin. apply in_map_iff in Hin. destruct Hin as (s & <- & _).
    unfold dab_at. rewrite Er, Ec. eauto.
  - intros [<-|[]]. rewrite Er, Ec. eauto.
Qed.

(** X10.  A frame never changes the settings of the brush (radius in
    pixels, proximity switch, proximity radius, maximal distance); it
    changes the brush color only when it picks one, and then it paints
    nothing: the events of a frame are either the single call of the
    color hook or calls of [paintAtUV], every one of them with the
    radius and the color the brush had when the frame began. *)
Theorem update_keeps_settings (this : MeshBrush) (env : Frame) :
  let this' := fst (update sqrt this env) in
  let events := snd (update sqrt this env) in
  brushRadiusPx this' = brushRadiusPx this /\
  paintOnProximity this' = paintOnProximity this /\
  brushWorldRadius this' = brushWorldRadius this /\
  maxDistance this' = maxDistance this /\
  ((exists hex, events = [PickedColor hex (brushColor this')]) \/
   (brushColor this' = brushColor this /\
    forall e, In e events ->
      exists u v, e = PaintAtUV u v (brushRadiusPx this) (brushColor this))).
Proof.
  cbv zeta.
  destruct (update_cases this env)
    as [[Hno ->]|(rh & hitObj & Hrh & Hnz & Hobj &
         [(this1 & picked & Hpick & ->)|[(_ & -> & _)|(mp & r & Hres & ->)]])].
  - cbn [fst snd]. repeat (split; [reflexivity|]). right. split; [reflexivity|]. intros e [].
  - cbn [fst snd].
    destruct (tryPick_settings this this1 _ _ Hpick) as (E1 & E2 & E3 & E4 & _).
    split; [exact E1|]. split; [exact E2|]. split; [exact E3|]. split; [exact E4|].
    left. exists picked. reflexivity.
  - cbn [fst snd]. unfold mark_hit_lost.
    destruct (objectId hitObj); repeat (split; [reflexivity|]);
      right; (split; [reflexivity|]); intros e [].
  - destruct (stroke_settings this env (location0 rh) hitObj mp r) as (E1 & E2 & E3 & E4 & E5).
    split; [exact E1|]. split; [exact E3|]. split; [exact E4|]. split; [exact E5|].
    right. split; [exact E2|]. apply stroke_paints.
Qed.

(** Every [paintAtUV] call of a frame carries the radius and the color
    of the brush. *)
Lemma update_paints (this : MeshBrush) (env : Frame) (u v : num) (radius : Q) (c : color) :
  In (PaintAtUV u v radius c) (snd (update sqrt this env)) ->
  radius = brushRadiusPx this /\ c = brushColor this.
Proof.
  destruct (update_cases this env)
    as [[Hno ->]|(rh & hitObj & Hrh & Hnz & Hobj &
         [(this1 & picked & Hpick & ->)|[(_ & -> & _)|(mp & r & Hres & ->)]])];
    cbn [snd].
  - intros [].
  - intros [[=]|[]].
  - intros [].
  - intros Hin. destruct (stroke_paints _ _ _ _ _ _ _ Hin) as (u' & v' & [= _ _ -> ->]).
    now split.
Qed.

(** ** The maps of the brush *)

(** X11.  The three maps of the brush stay in step over every frame: an
    identity has a stored triangle exactly when it has a stored UV,
    every identity with a stored UV has a contact-lost flag, and a clear
    flag is found only on an identity with a stored UV.  This holds for
    the new brush and is kept by every frame. *)
Theorem tracked_maps_agree :
  (forall radiusPx c proximity worldRadius maxDist,
     tracked_ok (new_brush radiusPx c proximity worldRadius maxDist)) /\
  (forall this env, tracked_ok this -> tracked_ok (fst (update sqrt this env))).
Proof.
  split.
  { intros radiusPx c proximity worldRadius maxDist.
    intros id. cbn [new_brush _lastUVPerObject _lastTriPerObject _contactLostPerObject].
    rewrite !lookup_empty.
    split; [split; intros [? [=]]|]. split; [intros [? [=]]|discriminate]. }
  intros this env.
  intros Hok id. destruct (Hok id) as (T1 & T2 & T3).
  destruct (update_cases this env)
    as [[Hno ->]|(rh & hitObj & Hrh & Hnz & Hobj &
         [(this1 & picked & Hpick & ->)|[(_ & -> & _)|(mp & r & Hres & ->)]])].
  - cbn [fst]. rewrite mark_all_lost_flag.
    change (_lastUVPerObject (mark_all_lost this)) with (_lastUVPerObject this).
    change (_lastTriPerObject (mark_all_lost this)) with (_lastTriPerObject this).
    split; [exact T1|].
    destruct (_lastUVPerObject this !! id) as [p|] eqn:Ep.
    + split; [eauto|]. discriminate.
    + split; [intros [? [=]]|exact T3].
  - cbn [fst].
    destruct (end_stroke_lookup this1 (_stableObjectId hitObj) id) as (-> & -> & ->).
    destruct (tryPick_settings this this1 _ _ Hpick) as (_ & _ & _ & _ & -> & -> & ->).
    destruct (decide (_stableObjectId hitObj = id)).
    + split; [split; intros [? [=]]|]. split; [intros [? [=]]|discriminate].
    + auto.
  - cbn [fst]. destruct (mark_hit_lost_lookup this hitObj id) as (-> & -> & ->).
    split; [exact T1|].
    destruct (decide (objectId hitObj = Some id)).
    + split; [eauto|discriminate].
    + auto.
  - pose proof Hres as (_ & _ & _ & _ & _ & Huv).
    destruct (stroke_lookup this env (location0 rh) hitObj mp r id
                (getUV_has_indices _ _ _ _ _ Huv)) as (-> & -> & -> & [curr Hcurr]).
    destruct (decide (_stableObjectId hitObj = id)); [|auto].
    destruct (withinRange this (worldDist sqrt env (location0 rh))); cbn [negb].
    + rewrite Hcurr. split; [split; eauto|]. split; eauto.
    + split; [split; intros [? [=]]|]. split; [intros [? [=]]|discriminate].
Qed.

End FrameEffects.

Lemma other_identities_untouched_witness :
  _lastUVPerObject (fst (update sqrt_floor brush_in_stroke stroke_next)) !! 8%Z =
  _lastUVPerObject brush_in_stroke !! 8%Z.
Proof.
  refine (proj1 (other_identities_untouched sqrt_floor brush_in_stroke stroke_next 8 _)).
  intros rh obj [= <-] [= <-]. discriminate.
Defined.

(** ** The first dab of a stroke *)

Section StrokeStarts.

Variable sqrt : Q -> Q.

Lemma fresh_single (this : MeshBrush) (env : Frame) (hitWorldPos : vec3)
    (hitObj : Object3D) (mp : MeshPaintable) (r : UVResult) :
  withinRange this (worldDist sqrt env hitWorldPos) = true ->
  let id := _stableObjectId hitObj in
  _contactLostPerObject this !! id = Some true \/
  _lastUVPerObject this !! id = None \/ _lastTriPerObject this !! id = None ->
  snd (stroke sqrt this env hitWorldPos hitObj mp r) =
  [PaintAtUV (fst (uv r)) (snd (uv r)) (brushRadiusPx this) (brushColor this)].
Proof.
  intros Hin id Hfresh. unfold stroke. rewrite Hin. cbn [negb snd]. fold id.
  destruct (_contactLostPerObject this !! id) as [[|]|] eqn:Hflag.
  - cbn [_lastUVPerObject _lastTriPerObject set_contactLost set_lastTri set_lastUV
         brushRadiusPx brushColor].
    rewrite !lookup_delete_eq. reflexivity.
  - destruct Hfresh as [?|[->| ->]]; [discriminate|reflexivity|].
    now destruct (_lastUVPerObject this !! id).
  - destruct Hfresh as [?|[->| ->]]; [discriminate|reflexivity|].
    now destruct (_lastUVPerObject this !! id).
Qed.

(** X12.  In a frame with a resolved hit within proximity, when the
    contact-lost flag of the object's identity is set, or no last UV or
    no last triangle is stored for it, exactly one dab is painted, at
    the current UV, with the brush's radius and color: the stroke
    starts afresh, whatever UV was stored. *)
Theorem fresh_contact_single_dab (this : MeshBrush) (env : Frame) (rh : RayHit)
    (hitObj : Object3D) (mp : MeshPaintable) (r : UVResult) :
  resolved_hit sqrt this env rh hitObj mp r ->
  withinRange this (worldDist sqrt env (location0 rh)) = true ->
  _contactLostPerObject this !! _stableObjectId hitObj = Some true \/
  _lastUVPerObject this !! _stableObjectId hitObj = None \/
  _lastTriPerObject this !! _stableObjectId hitObj = None ->
  snd (update sqrt this env) =
    [PaintAtUV (fst (uv r)) (snd (uv r)) (brushRadiusPx this) (brushColor this)] /\
  _lastUVPerObject (fst (update sqrt this env)) !! _stableObjectId hitObj = Some (uv r) /\
  _contactLostPerObject (fst (update sqrt this env)) !! _stableObjectId hitObj = Some false.
Proof.
  intros Hres Hin Hfresh.
  rewrite (update_resolved sqrt this env rh hitObj mp r Hres).
  split; [now apply fresh_single|].
  destruct (stroke_in_range_state sqrt this env (location0 rh) hitObj mp r Hin) as (S1 & S2 & _).
  now split.
Qed.

(** X13.  A stroke does not bridge a miss: after a frame without a ray
    hit, the next frame with a resolved hit within proximity paints
    exactly one dab, at its own UV, on whatever object and however
    close to the last painted UV. *)
Theorem stroke_does_not_bridge_a_miss (this : MeshBrush) (env0 env : Frame) (rh : RayHit)
    (hitObj : Object3D) (mp : MeshPaintable) (r : UVResult) :
  no_hit env0 ->
  resolved_hit sqrt (fst (update sqrt this env0)) env rh hitObj mp r ->
  withinRange (fst (update sqrt this env0)) (worldDist sqrt env (location0 rh)) = true ->
  dabs (snd (update sqrt (fst (update sqrt this env0)) env)) = [uv r].
Proof.
  intros Hno Hres Hin.
  rewrite (update_resolved sqrt _ env rh hitObj mp r Hres).
  rewrite fresh_single; [now destruct (uv r)|exact Hin|].
  rewrite (update_no_hit sqrt this env0 Hno). cbn [fst].
  rewrite mark_all_lost_flag.
  change (_lastUVPerObject (mark_all_lost this)) with (_lastUVPerObject this).
  destruct (_lastUVPerObject this !! _stableObjectId hitObj); auto.
Qed.

(** X14.  A picked color is the color of the dabs that follow: after a
    frame that picks the color of a token, every [paintAtUV] call of
    the next frame carries the RGB of that token with alpha 1, and the
    radius of the brush. *)
Theorem picked_color_paints_next (this : MeshBrush) (env0 env : Frame) (rh0 : RayHit)
    (hitObj0 : Object3D) (n token : string) :
  rayHit env0 = Some rh0 -> hitCount rh0 <> 0%Z -> object0 rh0 = Some hitObj0 ->
  name hitObj0 = Some n -> match_hex_color n = Some token ->
  exists r g b,
    _hexToRgbNormalized token = Some (r, g, b) /\
    brushColor (fst (update sqrt this env0)) = (r, g, b, 1) /\
    forall u v radius c,
      In (PaintAtUV u v radius c) (snd (update sqrt (fst (update sqrt this env0)) env)) ->
      radius = brushRadiusPx this /\ c = (r, g, b, 1).
Proof.
  intros Hrh Hnz Hobj Hname Hmatch.
  destruct (match_hex_color_token n token Hmatch) as (h & -> & Hl & Hh).
  destruct (hexToRgb_token h Hl Hh) as (r & g & b & Hrgb & _).
  assert (Hpick : _tryPickColorFromName this (name hitObj0) =
                  (set_brushColor (r, g, b, 1) this, Some (toLowerCase (String "#" h)))).
  { rewrite Hname. unfold _tryPickColorFromName.
    destruct n as [|c n]; [discriminate Hmatch|]. now rewrite Hmatch, Hrgb. }
  exists r, g, b. split; [exact Hrgb|].
  rewrite (update_picked sqrt this env0 rh0 hitObj0 _ _ Hrh Hnz Hobj Hpick). cbn [fst].
  split; [reflexivity|].
  intros u v radius c Hin.
  apply (update_paints sqrt _ env u v radius c) in Hin. exact Hin.
Qed.

End StrokeStarts.

Lemma fresh_contact_single_dab_witness :
  length (snd (update sqrt_floor default_brush stroke_start)) = 1%nat.
Proof.
  edestruct (fresh_contact_single_dab sqrt_floor default_brush stroke_start
               {| hitCount := 1;
                  location0 := V3 (Fin (-(1 # 4))) (Fin 0) (Fin (-(1 # 8)));
                  object0 := Some (quad_object "Quad" 7) |}
               (quad_object "Quad" 7) (paintable 8 8 true true (Some quad_xz)))
    as (E & _).
  - split; [reflexivity|]. split; [discriminate|]. split; [reflexivity|].
    split; [reflexivity|]. split; [reflexivity|]. vm_compute. reflexivity.
  - vm_compute. reflexivity.
  - right. left. reflexivity.
  - rewrite E. reflexivity.
Defined.

Lemma stroke_does_not_bridge_a_miss_witness :
  length (dabs (snd (update sqrt_floor
                       (fst (update sqrt_floor brush_in_stroke frame_no_hit)) stroke_next))) = 1%nat.
Proof.
  destruct (getUVFromLocalRay (paintable 8 8 true true (Some quad_xz))
              (fst (to_local_ray sqrt_floor (fst (update sqrt_floor brush_in_stroke frame_no_hit))
                      stroke_next (quad_object "Quad" 7)))
              (snd (to_local_ray sqrt_floor (fst (update sqrt_floor brush_in_stroke frame_no_hit))
                      stroke_next (quad_object "Quad" 7)))
              (Fin (maxDistance (fst (update sqrt_floor brush_in_stroke frame_no_hit)))))
    as [r|] eqn:Hr; [|vm_compute in Hr; discriminate].
  rewrite (stroke_does_not_bridge_a_miss sqrt_floor brush_in_stroke frame_no_hit stroke_next
             {| hitCount := 1;
                location0 := V3 (Fin (1 # 4)) (Fin 0) (Fin (-(1 # 8)));
                object0 := Some (quad_object "Quad" 7) |}
             (quad_object "Quad" 7) (paintable 8 8 true true (Some quad_xz)) r).
  - reflexivity.
  - left. reflexivity.
  - split; [reflexivity|]. split; [discriminate|]. split; [reflexivity|].
    split; [reflexivity|]. split; [reflexivity|]. exact Hr.
  - vm_compute. reflexivity.
Defined.

Lemma picked_color_paints_next_witness :
  brushColor (fst (update sqrt_floor default_brush swatch_frame)) =
  (26 # 255, 43 # 255, 60 # 255, 1).
Proof.
  destruct (picked_color_paints_next sqrt_floor default_brush swatch_frame stroke_next
              {| hitCount := 1;
                 location0 := V3 (Fin 0) (Fin 0) (Fin 0);
                 object0 := Some (quad_object "Palette_#1a2b3c_swatch" 7) |}
              (quad_object "Palette_#1a2b3c_swatch" 7)
              "Palette_#1a2b3c_swatch" "#1a2b3c" eq_refl ltac:(discriminate) eq_refl eq_refl eq_refl)
    as (r & g & b & Hrgb & Hc & _).
  rewrite Hc. vm_compute in Hrgb. injection Hrgb as <- <- <-. reflexivity.
Defined.

(** ** Dabs and the unit square *)

Lemma getUV_started_unit (mp : MeshPaintable) (lo ld : vec3) (m : Q) (r : UVResult) :
  started mp -> getUVFromLocalRay mp lo ld (Fin m) = Some r -> unit_uv (uv r).
Proof.
  intros (w & h & flip & planar & meshComp & ->) Hr.
  destruct (getUV_ray_finite _ _ _ _ _ Hr) as (o & d & -> & ->).
  destruct (getUV_uv_range w h flip planar meshComp o d m r Hr) as (a & b & E & Hab).
  now exists a, b.
Qed.

Lemma lerp_unit (la lb a b : Q) (k : Z) (s : nat) :
  (1 <= k)%Z -> (Z.of_nat s <= k)%Z ->
  0 <= la -> la <= 1 -> 0 <= lb -> lb <= 1 -> 0 <= a -> a <= 1 -> 0 <= b -> b <= 1 ->
  unit_uv (lerp_uv (la, lb) (a, b) k s).
Proof.
  intros Hk Hs Hla0 Hla1 Hlb0 Hlb1 Ha0 Ha1 Hb0 Hb1.
  unfold lerp_uv. cbn [fst snd].
  assert (HK : 0 < inject_Z k) by (rewrite <- (Zlt_Qlt 0); lia).
  assert (HS0 : 0 <= inject_Z (Z.of_nat s)) by (rewrite <- (Zle_Qle 0); lia).
  assert (HS1 : inject_Z (Z.of_nat s) <= inject_Z k) by (rewrite <- Zle_Qle; lia).
  set (t := inject_Z (Z.of_nat s) / inject_Z k).
  assert (Et : t * inject_Z k == inject_Z (Z.of_nat s)) by (unfold t; field; lra).
  assert (Ht0 : 0 <= t).
  { destruct (Qlt_le_dec t 0) as [Hneg|]; [|assumption]. exfalso. nra. }
  assert (Ht1 : t <= 1).
  { destruct (Qlt_le_dec 1 t) as [Hbig|]; [|assumption]. exfalso. nra. }
  clearbody t.
  assert (0 <= la * (1 - t)) by (apply Qmult_le_0_compat; lra).
  assert (0 <= a * t) by (apply Qmult_le_0_compat; lra).
  assert (0 <= lb * (1 - t)) by (apply Qmult_le_0_compat; lra).
  assert (0 <= b * t) by (apply Qmult_le_0_compat; lra).
  assert (0 <= (1 - la) * (1 - t)) by (apply Qmult_le_0_compat; lra).
  assert (0 <= (1 - a) * t) by (apply Qmult_le_0_compat; lra).
  assert (0 <= (1 - lb) * (1 - t)) by (apply Qmult_le_0_compat; lra).
  assert (0 <= (1 - b) * t) by (apply Qmult_le_0_compat; lra).
  eexists _, _. split; [reflexivity|]. repeat split; lra.
Qed.

Section UnitSquare.

Variable sqrt : Q -> Q.

Lemma stroke_dabs_unit (this : MeshBrush) (env : Frame) (hitWorldPos : vec3)
    (hitObj : Object3D) (mp : MeshPaintable) (r : UVResult) (p : num * num) :
  unit_uvs this -> unit_uv (uv r) ->
  In p (dabs (snd (stroke sqrt this env hitWorldPos hitObj mp r))) -> unit_uv p.
Proof.
  intros Hok Hr. unfold stroke.
  destruct (withinRange this (worldDist sqrt env hitWorldPos)); cbn [negb snd]; [|intros []].
  set (id := _stableObjectId hitObj).
  set (this1 := match _contactLostPerObject this !! id with Some true => _ | _ => this end).
  assert (Hok1 : unit_uvs this1).
  { unfold this1. destruct (_contactLostPerObject this !! id) as [[|]|]; try exact Hok.
    intros k q H. cbn [_lastUVPerObject set_contactLost set_lastTri set_lastUV] in H.
    apply lookup_delete_Some in H. destruct H as [_ H]. exact (Hok k q H). }
  clearbody this1.
  assert (Hsingle : In p (dabs [PaintAtUV (fst (uv r)) (snd (uv r)) (brushRadiusPx this1)
                                  (brushColor this1)]) -> unit_uv p).
  { intros [<-|[]]. now destruct (uv r). }
  destruct (_lastUVPerObject this1 !! id) as [l|] eqn:El; [|exact Hsingle].
  destruct (_lastTriPerObject this1 !! id) as [lt|]; [|exact Hsingle].
  destruct (_getTriangleVertexIndices mp (triIndex r)) as [curr|]; [|exact Hsingle].
  destruct (shares_vertex curr lt); cbn [negb]; [|exact Hsingle].
  destruct (Hok1 id l El) as (la & lb & -> & Hla0 & Hla1 & Hlb0 & Hlb1).
  destruct Hr as (a & b & -> & Ha0 & Ha1 & Hb0 & Hb1).
  rewrite stepCount_fin.
  set (k := steps_between sqrt (brushRadiusPx this1) (getCanvasSize mp) (la, lb) (a, b)).
  assert (Hk : (1 <= k)%Z) by (unfold k, steps_between; lia).
  rewrite for_le_steps, dabs_interpolated by exact Hk.
  intros Hin. apply in_map_iff in Hin. destruct Hin as (s & <- & Hs).
  apply in_seq in Hs. apply lerp_unit; try assumption. lia.
Qed.

Lemma update_unit (this : MeshBrush) (env : Frame) :
  unit_uvs this -> frame_ok env ->
  unit_uvs (fst (update sqrt this env)) /\
  forall p, In p (dabs (snd (update sqrt this env))) -> unit_uv p.
Proof.
  intros Hok Hframe.
  destruct (update_cases sqrt this env)
    as [[Hno ->]|(rh & hitObj & Hrh & Hnz & Hobj &
         [(this1 & picked & Hpick & ->)|[(_ & -> & _)|(mp & r & Hres & ->)]])].
  - cbn [fst snd]. split; [exact Hok|intros p []].
  - cbn [fst snd]. split; [|intros p []].
    intros k q H.
    destruct (end_stroke_lookup this1 (_stableObjectId hitObj) k) as (L & _ & _).
    rewrite L in H. destruct (decide (_stableObjectId hitObj = k)); [discriminate|].
    destruct (tryPick_settings this this1 _ _ Hpick) as (_ & _ & _ & _ & E & _).
    rewrite E in H. exact (Hok k q H).
  - cbn [fst snd]. split; [|intros p []].
    intros k q H. destruct (mark_hit_lost_lookup this hitObj k) as (E & _).
    rewrite E in H. exact (Hok k q H).
  - pose proof Hres as (_ & _ & _ & _ & Hmp & Huv).
    assert (Hr : unit_uv (uv r)).
    { exact (getUV_started_unit mp _ _ _ r (Hframe rh hitObj mp Hrh Hobj Hmp) Huv). }
    split; [|intros p; now apply stroke_dabs_unit].
    intros k q H.
    destruct (stroke_lookup sqrt this env (location0 rh) hitObj mp r k
                (getUV_has_indices _ _ _ _ _ Huv)) as (L & _).
    rewrite L in H.
    destruct (decide (_stableObjectId hitObj = k)); [|exact (Hok k q H)].
    destruct (withinRange this (worldDist sqrt env (location0 rh))); [|discriminate].
    now injection H as <-.
Qed.

(** X15.  Over the frames of a host whose paintables are started, every
    UV the brush stores and every UV it paints lies in the unit square:
    when the stored UVs are in [0,1] x [0,1] before a frame, so are the
    stored UVs after it and the UVs of all its dabs, the interpolated
    ones included; the clamp of [paintAtUV] leaves every one of them as
    it is. *)
Theorem dabs_stay_in_unit_square (this : MeshBrush) (env : Frame) :
  unit_uvs this -> frame_ok env ->
  unit_uvs (fst (update sqrt this env)) /\
  forall p, In p (dabs (snd (update sqrt this env))) ->
    exists a b, p = (Fin a, Fin b) /\ 0 <= a /\ a <= 1 /\ 0 <= b /\ b <= 1 /\
                (clamp (Fin a) =~ Fin a)%num /\ (clamp (Fin b) =~ Fin b)%num.
Proof.
  intros Hok Hframe. destruct (update_unit this env Hok Hframe) as [H1 H2].
  split; [exact H1|].
  intros p Hp. destruct (H2 p Hp) as (a & b & -> & Ha0 & Ha1 & Hb0 & Hb1).
  exists a, b. split; [reflexivity|]. repeat (split; [assumption|]).
  rewrite !clamp_fin. cbn [num_eq].
  split.
  - destruct (clamp01_cases a) as [[H ->]|[(_ & _ & ->)|[H _]]]; lra.
  - destruct (clamp01_cases b) as [[H ->]|[(_ & _ & ->)|[H _]]]; lra.
Qed.

End UnitSquare.

Lemma unit_uvs_new (radiusPx : Q) (c : color) (proximity : bool) (worldRadius maxDist : Q) :
  unit_uvs (new_brush radiusPx c proximity worldRadius maxDist).
Proof. intros id p H. cbn in H. now rewrite lookup_empty in H. Qed.

Lemma brush_in_stroke_unit : unit_uvs brush_in_stroke.
Proof.
  apply update_unit; [apply unit_uvs_new | apply frame_ok_above].
Qed.

Lemma dabs_stay_in_unit_square_witness :
  exists p, _lastUVPerObject brush_in_stroke !! 7%Z = Some p /\ unit_uv p.
Proof.
  destruct (dabs_stay_in_unit_square sqrt_floor default_brush stroke_start
              (unit_uvs_new _ _ _ _ _) (frame_ok_above _ _ _ _ _)) as [Hst _].
  destruct (_lastUVPerObject brush_in_stroke !! 7%Z) as [p|] eqn:E;
    [|vm_compute in E; discriminate].
  exists p. split; [reflexivity|]. exact (Hst 7%Z p E).
Defined.

Section Canvas.

Variable sqrt : Q -> Q.

(** X16.  Every dab of a frame lands on the canvas of the hit
    paintable: over the frames of a host whose paintables are started,
    each UV painted in a frame is a pair of numbers for which
    [paintAtUV] on the hit object's paintable finds a created canvas
    and a pixel centre in 0..W by 0..H. *)
Theorem dabs_land_on_canvas (this : MeshBrush) (env : Frame) (rh : RayHit)
    (hitObj : Object3D) (mp : MeshPaintable) (u v : num) :
  unit_uvs this -> frame_ok env ->
  rayHit env = Some rh -> object0 rh = Some hitObj -> meshPaintable hitObj = Some mp ->
  (0 <= textureWidth mp)%Z -> (0 <= textureHeight mp)%Z ->
  In (u, v) (dabs (snd (update sqrt this env))) ->
  exists x y : Z,
    paintAtUV mp u v = Some (Fin (inject_Z x), Fin (inject_Z y)) /\
    (0 <= x <= textureWidth mp)%Z /\ (0 <= y <= textureHeight mp)%Z.
Proof.
  intros Hok Hframe Hrh Hobj Hmp Hw Hh Hin.
  destruct (update_unit sqrt this env Hok Hframe) as [_ Hunit].
  destruct (Hunit _ Hin) as (a & b & [= -> ->] & _).
  apply paintAtUV_on_canvas; [|exact Hw|exact Hh].
  destruct (update_cases sqrt this env)
    as [[Hno E]|(rh' & hitObj' & Hrh' & Hnz & Hobj' &
         [(this1 & picked & Hpick & E)|[(_ & E & _)|(mp' & r & Hres & E)]])];
    rewrite E in Hin; try (now destruct Hin).
  destruct Hres as (_ & _ & _ & _ & Hmp' & Huv).
  assert (hitObj' = hitObj) as -> by congruence.
  assert (mp' = mp) as -> by congruence.
  destruct (Hframe rh hitObj mp Hrh Hobj Hmp) as (w & h & flip & planar & meshComp & ->).
  exact (getUV_created w h flip planar meshComp _ _ _ r Huv).
Qed.

(** ** The local ray *)

(** X17.  The local ray handed to the paintable is always defined.  For
    a brush pose of numbers and an object whose inverse transform maps
    the origin and the far end of the world ray to points of numbers,
    the local direction is the local segment divided by its length, or
    the segment itself when that length is zero (no division by zero
    takes place); with a square root that is exact on the squared
    length, the direction is a unit vector. *)
Theorem local_ray_is_defined (this : MeshBrush) (env : Frame) (hitObj : Object3D)
    (o d lo le : qvec) :
  worldOrigin env = fin3 o -> worldDir env = fin3 d ->
  transformPointInverseWorld hitObj (fin3 o) = fin3 lo ->
  transformPointInverseWorld hitObj (fin3 (along o d (maxDistance this))) = fin3 le ->
  let len := norm3 sqrt (vsub le lo) in
  exists ld,
    to_local_ray sqrt this env hitObj = (fin3 lo, fin3 ld) /\
    (len == 0 -> qvec_eq ld (vsub le lo)) /\
    (~ len == 0 -> qvec_eq (scale ld len) (vsub le lo)) /\
    (~ len == 0 -> len * len == dot (vsub le lo) (vsub le lo) -> dot ld ld == 1).
Proof.
  intros Ho Hd Hlo Hle len. unfold to_local_ray. rewrite Ho, Hd, along_fin3, Hlo, Hle.
  destruct lo as [[lx ly] lz], le as [[ex ey] ez].
  cbn [fin3 at0 at1 at2 nsub hypot sum_squares nmul nadd].
  unfold len, norm3, vsub.
  set (s := sqrt _). cbn [nor].
  destruct (Qeq_bool s 0) eqn:Es.
  - apply Qeq_bool_iff in Es. cbn [ndiv].
    change (Qeq_bool 1 0) with false. cbv iota.
    exists ((ex - lx) / 1, (ey - ly) / 1, (ez - lz) / 1).
    split; [reflexivity|]. split; [|split; intros Hnz; contradiction].
    intros _. unfold qvec_eq. repeat split; field.
  - cbn [ndiv]. rewrite Es.
    assert (Hnz : ~ s == 0).
    { intros H. apply Qeq_bool_iff in H. congruence. }
    exists ((ex - lx) / s, (ey - ly) / s, (ez - lz) / s).
    split; [reflexivity|]. split; [intros H; contradiction|].
    split.
    + intros _. unfold qvec_eq, scale. repeat split; field; exact Hnz.
    + intros _ Hsq. unfold dot in *.
      assert (E : (ex - lx) / s * ((ex - lx) / s) + (ey - ly) / s * ((ey - ly) / s) +
                  (ez - lz) / s * ((ez - lz) / s) ==
                  ((ex - lx) * (ex - lx) + (ey - ly) * (ey - ly) + (ez - lz) * (ez - lz))
                  / (s * s)) by (field; exact Hnz).
      rewrite E, <- Hsq. field. exact Hnz.
Qed.

(** ** The spacing of interpolated dabs *)


End Canvas.

Lemma dabs_land_on_canvas_witness :
  exists u v x y,
    In (u, v) (dabs (snd (update sqrt_floor brush_in_stroke stroke_next))) /\
    paintAtUV (paintable 8 8 true true (Some quad_xz)) u v =
      Some (Fin (inject_Z x), Fin (inject_Z y)).
Proof.
  destruct (dabs (snd (update sqrt_floor brush_in_stroke stroke_next))) as [|[u v] l] eqn:E;
    [vm_compute in E; discriminate|].
  assert (Hin : In (u, v) (dabs (snd (update sqrt_floor brush_in_stroke stroke_next)))).
  { rewrite E. now left. }
  assert (Hw : (0 <= textureWidth (paintable 8 8 true true (Some quad_xz)))%Z)
    by (vm_compute; discriminate).
  assert (Hh : (0 <= textureHeight (paintable 8 8 true true (Some quad_xz)))%Z)
    by (vm_compute; discriminate).
  destruct (dabs_land_on_canvas sqrt_floor brush_in_stroke stroke_next
              {| hitCount := 1;
                 location0 := V3 (Fin (1 # 4)) (Fin 0) (Fin (-(1 # 8)));
                 object0 := Some (quad_object "Quad" 7) |}
              (quad_object "Quad" 7) (paintable 8 8 true true (Some quad_xz)) u v
              brush_in_stroke_unit (frame_ok_above _ _ _ _ _) eq_refl eq_refl eq_refl
              Hw Hh Hin) as (x & y & Hp & _).
  exists u, v, x, y. split; [left; reflexivity|exact Hp].
Defined.
Lemma local_ray_is_defined_witness :
  exists ld,
    to_local_ray sqrt_floor default_brush stroke_start (quad_object "Quad" 7) =
      (fin3 (-(1 # 4), 1 # 50, -(1 # 8)), fin3 ld) /\
    dot ld ld == 1.
Proof.
  destruct (local_ray_is_defined sqrt_floor default_brush stroke_start (quad_object "Quad" 7)
              (-(1 # 4), 1 # 50, -(1 # 8)) (0, -1, 0) (-(1 # 4), 1 # 50, -(1 # 8))
              (along (-(1 # 4), 1 # 50, -(1 # 8)) (0, -1, 0) 10)
              eq_refl eq_refl eq_refl eq_refl) as (ld & E & _ & _ & Hunit).
  exists ld. split; [exact E|]. apply Hunit; vm_compute; discriminate || reflexivity.
Defined.

(** ** Adjacent triangles *)

(** X19.  The adjacency test of two triangles is reflexive and
    symmetric: a hit on the triangle of the previous frame always
    counts as adjacent (also when its indices are undefined), and the
    order of the two triangles does not matter.  It is not transitive. *)
Theorem adjacency_reflexive_symmetric (c l : tri_verts) :
  shares_vertex c c = true /\
  shares_vertex c l = shares_vertex l c /\
  shares_vertex (Some 0, Some 1, Some 2)%Z (Some 2, Some 3, Some 4)%Z = true /\
  shares_vertex (Some 2, Some 3, Some 4)%Z (Some 4, Some 5, Some 6)%Z = true /\
  shares_vertex (Some 0, Some 1, Some 2)%Z (Some 4, Some 5, Some 6)%Z = false.
Proof.
  destruct c as [[c0 c1] c2], l as [[l0 l1] l2].
  split; [|split; [|repeat split; reflexivity]].
  - apply shares_vertex_spec. now left.
  - apply eq_true_iff_eq. rewrite !shares_vertex_spec.
    split; intros H; repeat (destruct H as [H|H]); auto 10.
Qed.

(** ** The color token, again *)

Lemma lower_hex_digit (c : ascii) :
  is_hex_digit c = true ->
  is_hex_digit (lower_ascii c) = true /\ hex_value (lower_ascii c) = hex_value c.
Proof.
  destruct c as [[] [] [] [] [] [] [] []]; vm_compute; intros H;
    try discriminate H; split; reflexivity.
Qed.

Lemma lower_ascii_idem (c : ascii) : lower_ascii (lower_ascii c) = lower_ascii c.
Proof. destruct c as [[] [] [] [] [] [] [] []]; vm_compute; reflexivity. Qed.

Lemma toLowerCase_idem (s : string) : toLowerCase (toLowerCase s) = toLowerCase s.
Proof.
  induction s as [|c s IH]; cbn [toLowerCase]; [reflexivity|].
  now rewrite lower_ascii_idem, IH.
Qed.

Lemma toLowerCase_length (s : string) : String.length (toLowerCase s) = String.length s.
Proof. induction s as [|c s IH]; cbn [toLowerCase String.length]; congruence. Qed.

Lemma hex_digits_lower (n : nat) (h : string) :
  hex_digits n h = Some h -> hex_digits n (toLowerCase h) = Some (toLowerCase h).
Proof.
  revert h. induction n as [|n IH]; intros h; cbn [hex_digits].
  - intros [= <-]. reflexivity.
  - destruct h as [|c h]; [discriminate|]. cbn [toLowerCase].
    destruct (is_hex_digit c) eqn:Ec; [|discriminate].
    destruct (hex_digits n h) as [h'|] eqn:Eh; [|discriminate].
    intros [= ->]. destruct (lower_hex_digit c Ec) as [-> _].
    now rewrite (IH h Eh).
Qed.

Lemma hex_digits_short (n : nat) (h : string) :
  (String.length h < n)%nat -> hex_digits n h = None.
Proof.
  revert h. induction n as [|n IH]; intros h Hl; [lia|].
  destruct h as [|c h]; [reflexivity|]. cbn [hex_digits String.length] in *.
  destruct (is_hex_digit c); [|reflexivity].
  rewrite IH by lia. reflexivity.
Qed.

(** The RGB of a token read in lower case is the RGB of the token. *)
Lemma hexToRgb_lower (h : string) :
  (String.length h = 6%nat \/ String.length h = 3%nat) ->
  hex_digits (String.length h) h = Some h ->
  _hexToRgbNormalized (String "#" (toLowerCase h)) = _hexToRgbNormalized (String "#" h).
Proof.
  assert (Hpair : forall a b, is_hex_digit a = true -> is_hex_digit b = true ->
            parseInt16 (String (lower_ascii a) (String (lower_ascii b) "")) =
            parseInt16 (String a (String b ""))).
  { intros a b Ha Hb.
    destruct (lower_hex_digit a Ha) as [La Va], (lower_hex_digit b Hb) as [Lb Vb].
    rewrite !parse_two_digits by assumption. now rewrite Va, Vb. }
  intros [Hl|Hl] Hh; rewrite Hl in Hh.
  - destruct h as [|c1 [|c2 [|c3 [|c4 [|c5 [|c6 [|]]]]]]]; try discriminate Hl.
    cbn [hex_digits] in Hh.
    destruct (is_hex_digit c1) eqn:E1; [|discriminate].
    destruct (is_hex_digit c2) eqn:E2; [|discriminate].
    destruct (is_hex_digit c3) eqn:E3; [|discriminate].
    destruct (is_hex_digit c4) eqn:E4; [|discriminate].
    destruct (is_hex_digit c5) eqn:E5; [|discriminate].
    destruct (is_hex_digit c6) eqn:E6; [|discriminate].
    unfold _hexToRgbNormalized.
    cbn [toLowerCase remove_first_hash Ascii.eqb Bool.eqb String.length Nat.eqb negb
         substring].
    now rewrite !Hpair.
  - destruct h as [|c1 [|c2 [|c3 [|]]]]; try discriminate Hl.
    cbn [hex_digits] in Hh.
    destruct (is_hex_digit c1) eqn:E1; [|discriminate].
    destruct (is_hex_digit c2) eqn:E2; [|discriminate].
    destruct (is_hex_digit c3) eqn:E3; [|discriminate].
    unfold _hexToRgbNormalized.
    cbn [toLowerCase remove_first_hash Ascii.eqb Bool.eqb String.length Nat.eqb negb
         substring double_chars].
    now rewrite !Hpair.
Qed.

(** X20.  The string the recognizer returns names the color it picked:
    given back to the recognizer as a name, it is matched whole, it is
    returned unchanged, and it sets the same brush color. *)
Theorem picked_hex_round_trip (this this1 this0 : MeshBrush) (nm : option string)
    (hex : string) :
  _tryPickColorFromName this nm = (this1, Some hex) ->
  _tryPickColorFromName this0 (Some hex) =
    (set_brushColor (brushColor this1) this0, Some hex).
Proof.
  intros Hpick.
  destruct (tryPick_cases this nm)
    as [(n & token & h & r & g & b & En & Em & Et & Hl & Hh & _ & _ & E)|[E _]];
    rewrite E in Hpick; [|discriminate].
  injection Hpick as <- <-. subst token nm.
  assert (Hrgb : _hexToRgbNormalized (String "#" h) = Some (r, g, b)).
  { unfold _tryPickColorFromName in E. destruct n as [|c n]; [discriminate Em|].
    rewrite Em in E.
    destruct (_hexToRgbNormalized (String "#" h)) as [[[r' g'] b']|]; [|discriminate].
    now injection E as <- <- <-. }
  cbn [brushColor set_brushColor].
  change (toLowerCase (String "#" h)) with (String "#" (toLowerCase h)).
  assert (Hmatch : match_hex_color (String "#" (toLowerCase h)) =
                   Some (String "#" (toLowerCase h))).
  { cbn [match_hex_color]. change (Ascii.eqb "#" "#") with true. cbv iota.
    pose proof (hex_digits_lower _ _ Hh) as Hlow.
    destruct Hl as [Hl|Hl]; rewrite Hl in Hlow.
    - now rewrite Hlow.
    - rewrite hex_digits_short by (rewrite toLowerCase_length; lia). now rewrite Hlow. }
  unfold _tryPickColorFromName. rewrite Hmatch, (hexToRgb_lower h Hl Hh), Hrgb.
  change (toLowerCase (String "#" (toLowerCase h)))
    with (String "#" (toLowerCase (toLowerCase h))).
  now rewrite toLowerCase_idem.
Qed.

Lemma picked_hex_round_trip_witness :
  _tryPickColorFromName default_brush (Some "#abc"%string) =
  (set_brushColor (170 # 255, 187 # 255, 204 # 255, 1) default_brush, Some "#abc"%string).
Proof.
  exact (picked_hex_round_trip default_brush
           (set_brushColor (170 # 255, 187 # 255, 204 # 255, 1) default_brush)
           default_brush (Some "Palette_#ABC"%string) "#abc" eq_refl).
Defined.

(** ** The drawing of a dab *)

Lemma Qfloor_eq (q : Q) (z : Z) : inject_Z z <= q -> q < inject_Z (z + 1) -> Qfloor q = z.
Proof.
  intros Hlo Hhi.
  pose proof (Qfloor_le q) as H1. pose proof (Qlt_floor q) as H2.
  assert (A : (Qfloor q < z + 1)%Z) by (rewrite Zlt_Qlt; lra).
  assert (B : (z < Qfloor q + 1)%Z) by (rewrite Zlt_Qlt; lra).
  lia.
Qed.

Lemma Qmax2_inject (a c : Z) : Qmax2 (inject_Z a) (inject_Z c) = inject_Z (Z.max a c).
Proof.
  unfold Qmax2. destruct (Qleb (inject_Z a) (inject_Z c)) eqn:E.
  - apply Qleb_le in E. rewrite <- Zle_Qle in E. now rewrite Z.max_r.
  - apply Qleb_gt in E. rewrite <- Zlt_Qlt in E. rewrite Z.max_l by lia. reflexivity.
Qed.

(** On exact numbers: the calls of a dab, and the radius of the magenta
    mark with 0.4 taken as 2/5. *)
Lemma magenta_mark_exact (this : MeshPaintable) (u v : num) (radiusPx : Q)
    (c : color) :
  match paintAtUV this u v with
  | Some (x, y) =>
      exists m : Z,
        paintAtUV_calls this true u v radiusPx c =
          [BeginPath; SetFillStyle (rgba_of c); Arc x y (Fin radiusPx); Fill;
           BeginPath; SetFillStyle (Named "magenta"); Arc x y (Fin (inject_Z m)); Fill;
           TextureUpdate] /\
        paintAtUV_calls this false u v radiusPx c =
          [BeginPath; SetFillStyle (rgba_of c); Arc x y (Fin radiusPx); Fill; TextureUpdate] /\
        (2 <= m)%Z /\
        (m = 2%Z <-> radiusPx < 15 # 2) /\
        (radiusPx <= inject_Z m <-> radiusPx <= 2)
  | None =>
      paintAtUV_calls this true u v radiusPx c = [] /\
      paintAtUV_calls this false u v radiusPx c = []
  end.
Proof.
  unfold paintAtUV_calls.
  destruct (paintAtUV this u v) as [[x y]|]; [|now split].
  cbn [nmul nfloor app].
  change (Fin 2) with (Fin (inject_Z 2)). cbn [nmax].
  rewrite (Qmax2_inject 2 (Qfloor (radiusPx * (2 # 5)))).
  exists (Z.max 2 (Qfloor (radiusPx * (2 # 5)))).
  split; [reflexivity|]. split; [reflexivity|].
  pose proof (Qfloor_le (radiusPx * (2 # 5))) as Hle.
  pose proof (Qlt_floor (radiusPx * (2 # 5))) as Hlt.
  set (f := Qfloor (radiusPx * (2 # 5))) in *. clearbody f.
  rewrite inject_Z_plus in Hlt. change (inject_Z 1) with 1 in Hlt.
  split; [lia|]. split; [split|split].
  - intros E.
    assert (Hf : (f <= 2)%Z) by lia.
    assert (inject_Z f <= 2) by (change 2 with (inject_Z 2); rewrite <- Zle_Qle; exact Hf).
    lra.
  - intros Hr.
    assert (Hf : (f < 3)%Z) by (rewrite Zlt_Qlt; change (inject_Z 3) with 3; lra).
    lia.
  - intros Hr.
    destruct (Z.max_spec 2 f) as [[Hlt2 E]|[Hge E]]; rewrite E in Hr.
    + assert (2 < inject_Z f) by (change 2 with (inject_Z 2); rewrite <- Zlt_Qlt; exact Hlt2).
      lra.
    + exact Hr.
  - intros Hr.
    assert (H2 : 2 <= inject_Z (Z.max 2 f))
      by (change 2 with (inject_Z 2); rewrite <- Zle_Qle; lia).
    lra.
Qed.

(** X21.  With [markPaintOnCanvas] set (the default), every dab is
    followed by a magenta disc on the same centre, of radius max(2,
    floor(0.4 radius)) and drawn after the dab, hence on top of it.
    That radius is a whole number, at least 2; it is 2 for every brush
    radius up to 7 and at least 3 from 7.5 on; and it reaches the
    radius of the dab itself exactly when the brush radius is at most
    2, in which case the mark hides the dab.  Without the option only
    the dab is drawn; before [start()] nothing is. *)
Theorem magenta_mark_on_every_dab (this : MeshPaintable) (u v : num) (radiusPx : Q)
    (c : color) :
  match paintAtUV this u v with
  | Some (x, y) =>
      exists m : Z,
        paintAtUV_calls this true u v radiusPx c =
          [BeginPath; SetFillStyle (rgba_of c); Arc x y (Fin radiusPx); Fill;
           BeginPath; SetFillStyle (Named "magenta"); Arc x y (Fin (inject_Z m)); Fill;
           TextureUpdate] /\
        paintAtUV_calls this false u v radiusPx c =
          [BeginPath; SetFillStyle (rgba_of c); Arc x y (Fin radiusPx); Fill; TextureUpdate] /\
        (2 <= m)%Z /\
        (radiusPx <= 7 -> m = 2%Z) /\
        (15 # 2 <= radiusPx -> (3 <= m)%Z) /\
        (radiusPx <= inject_Z m <-> radiusPx <= 2)
  | None =>
      paintAtUV_calls this true u v radiusPx c = [] /\
      paintAtUV_calls this false u v radiusPx c = []
  end.
Proof.
  pose proof (magenta_mark_exact this u v radiusPx c) as H.
  destruct (paintAtUV this u v) as [[x y]|]; [|exact H].
  destruct H as (m & E1 & E2 & Hm & H75 & Hr).
  exists m. split; [exact E1|]. split; [exact E2|]. split; [exact Hm|].
  split; [|split; [|exact Hr]].
  - intros H7. apply H75. lra.
  - intros Hge. destruct (Z.eq_dec m 2%Z) as [E|E]; [|lia].
    apply H75 in E. lra.
Qed.

(** ** The color on the canvas *)

Lemma round_byte (R : Z) : nround (Fin (inject_Z R / 255) * Fin 255)%num = Fin (inject_Z R).
Proof.
  unfold nround. cbn [nmul nadd nfloor]. do 2 f_equal.
  apply Qfloor_eq.
  - assert (E : inject_Z R / 255 * 255 == inject_Z R) by field. lra.
  - rewrite inject_Z_plus. change (inject_Z 1) with 1.
    assert (E : inject_Z R / 255 * 255 == inject_Z R) by field. lra.
Qed.

Lemma token_bytes (h : string) :
  (String.length h = 6%nat \/ String.length h = 3%nat) ->
  hex_digits (String.length h) h = Some h ->
  exists R G B : Z,
    (0 <= R <= 255)%Z /\ (0 <= G <= 255)%Z /\ (0 <= B <= 255)%Z /\
    parseInt16 (substring 0 2 (if Nat.eqb (String.length h) 3 then double_chars h else h)) = Some R /\
    parseInt16 (substring 2 2 (if Nat.eqb (String.length h) 3 then double_chars h else h)) = Some G /\
    parseInt16 (substring 4 2 (if Nat.eqb (String.length h) 3 then double_chars h else h)) = Some B /\
    _hexToRgbNormalized (String "#" h) =
      Some (inject_Z R / 255, inject_Z G / 255, inject_Z B / 255).
Proof.
  intros [Hl|Hl] Hh; rewrite Hl in Hh.
  - destruct h as [|c1 [|c2 [|c3 [|c4 [|c5 [|c6 [|]]]]]]]; try discriminate Hl.
    cbn [hex_digits] in Hh.
    destruct (is_hex_digit c1) eqn:E1; [|discriminate].
    destruct (is_hex_digit c2) eqn:E2; [|discriminate].
    destruct (is_hex_digit c3) eqn:E3; [|discriminate].
    destruct (is_hex_digit c4) eqn:E4; [|discriminate].
    destruct (is_hex_digit c5) eqn:E5; [|discriminate].
    destruct (is_hex_digit c6) eqn:E6; [|discriminate].
    unfold _hexToRgbNormalized.
    cbn [remove_first_hash Ascii.eqb Bool.eqb String.length Nat.eqb negb double_chars].
    cbn [substring].
    rewrite !parse_two_digits by assumption.
    pose proof (hex_value_range _ E1). pose proof (hex_value_range _ E2).
    pose proof (hex_value_range _ E3). pose proof (hex_value_range _ E4).
    pose proof (hex_value_range _ E5). pose proof (hex_value_range _ E6).
    exists (hex_value c1 * 16 + hex_value c2)%Z, (hex_value c3 * 16 + hex_value c4)%Z,
      (hex_value c5 * 16 + hex_value c6)%Z.
    split; [lia|]. split; [lia|]. split; [lia|]. repeat (split; [reflexivity|]). reflexivity.
  - destruct h as [|c1 [|c2 [|c3 [|]]]]; try discriminate Hl.
    cbn [hex_digits] in Hh.
    destruct (is_hex_digit c1) eqn:E1; [|discriminate].
    destruct (is_hex_digit c2) eqn:E2; [|discriminate].
    destruct (is_hex_digit c3) eqn:E3; [|discriminate].
    unfold _hexToRgbNormalized.
    cbn [remove_first_hash Ascii.eqb Bool.eqb String.length Nat.eqb negb double_chars].
    cbn [substring].
    rewrite !parse_two_digits by assumption.
    pose proof (hex_value_range _ E1). pose proof (hex_value_range _ E2).
    pose proof (hex_value_range _ E3).
    exists (hex_value c1 * 16 + hex_value c1)%Z, (hex_value c2 * 16 + hex_value c2)%Z,
      (hex_value c3 * 16 + hex_value c3)%Z.
    split; [lia|]. split; [lia|]. split; [lia|]. repeat (split; [reflexivity|]). reflexivity.
Qed.

(** X22.  The color of a token reaches the canvas unchanged: when the
    recognizer picks a color, the fill style that [paintAtUV] builds
    from the new brush color is [rgba(R,G,B,1)] with R, G, B the three
    bytes (0..255) of the token's digit pairs, a three-digit token
    counting as each digit written twice.  Dividing by 255 and
    multiplying back loses nothing. *)
Theorem token_color_on_canvas (this this1 : MeshBrush) (nm : option string) (hex : string) :
  _tryPickColorFromName this nm = (this1, Some hex) ->
  exists (h : string) (R G B : Z),
    hex = toLowerCase (String "#" h) /\
    (String.length h = 6%nat \/ String.length h = 3%nat) /\
    let digits := if Nat.eqb (String.length h) 3 then double_chars h else h in
    parseInt16 (substring 0 2 digits) = Some R /\
    parseInt16 (substring 2 2 digits) = Some G /\
    parseInt16 (substring 4 2 digits) = Some B /\
    (0 <= R <= 255)%Z /\ (0 <= G <= 255)%Z /\ (0 <= B <= 255)%Z /\
    brushColor this1 = (inject_Z R / 255, inject_Z G / 255, inject_Z B / 255, 1) /\
    rgba_of (brushColor this1) =
      Rgba (Fin (inject_Z R)) (Fin (inject_Z G)) (Fin (inject_Z B)) (Fin 1).
Proof.
  intros Hpick.
  destruct (tryPick_cases this nm)
    as [(n & token & h & r & g & b & En & Em & Et & Hl & Hh & _ & _ & E)|[E _]];
    rewrite E in Hpick; [|discriminate].
  injection Hpick as <- <-. subst token nm.
  destruct (token_bytes h Hl Hh) as (R & G & B & HR & HG & HB & PR & PG & PB & Hrgb).
  assert (Hc : (r, g, b) = (inject_Z R / 255, inject_Z G / 255, inject_Z B / 255)).
  { unfold _tryPickColorFromName in E. destruct n as [|c n]; [discriminate Em|].
    rewrite Em, Hrgb in E. now injection E as <- <- <-. }
  injection Hc as -> -> ->.
  exists h, R, G, B. split; [reflexivity|]. split; [exact Hl|]. cbv zeta.
  split; [exact PR|]. split; [exact PG|]. split; [exact PB|].
  split; [exact HR|]. split; [exact HG|]. split; [exact HB|].
  cbn [brushColor set_brushColor]. split; [reflexivity|].
  unfold rgba_of. now rewrite !round_byte.
Qed.

Lemma token_color_on_canvas_witness :
  exists R G B : Z,
    rgba_of (26 # 255, 43 # 255, 60 # 255, 1) =
      Rgba (Fin (inject_Z R)) (Fin (inject_Z G)) (Fin (inject_Z B)) (Fin 1) /\
    (0 <= R <= 255)%Z.
Proof.
  destruct (token_color_on_canvas default_brush
              (set_brushColor (26 # 255, 43 # 255, 60 # 255, 1) default_brush)
              (Some "Palette_#1a2b3c_swatch"%string) "#1a2b3c" eq_refl)
    as (h & R & G & B & _ & _ & _ & _ & _ & HR & _ & _ & _ & Hs).
  exists R, G, B. split; [exact Hs|exact HR].
Defined.

(** ** The running sums of the areas *)

Section AreaFacts.

Variable sqrt : Q -> Q.

(** The loop of the running sums, with the final sum appended. *)
Lemma cum_fold (areas : list num) (m : nat) :
  let st := fold_left (cum_step areas) (seq 0 m) ([], Fin 0) in
  let full := fst st ++ [snd st] in
  length (fst st) = m /\
  full !! 0%nat = Some (Fin 0) /\
  forall t, (t < m)%nat ->
    exists s, full !! t = Some s /\
              full !! S t = Some (s + read_num areas (Z.of_nat t))%num.
Proof.
  induction m as [|m IH]; cbv zeta in *.
  - cbn. split; [reflexivity|]. split; [reflexivity|]. intros t Ht. lia.
  - rewrite seq_S, fold_left_app. cbn [fold_left Nat.add].
    destruct (fold_left (cum_step areas) (seq 0 m) ([], Fin 0)) as [cells cum].
    cbn [fst snd cum_step] in *. destruct IH as (Hlen & H0 & Hstep).
    rewrite length_app. cbn [length]. split; [lia|]. split.
    + rewrite lookup_app_l; [exact H0|].
      rewrite length_app. cbn [length]. lia.
    + intros t Ht. destruct (Nat.eq_dec t m) as [->|Hne].
      * exists cum. split.
        -- rewrite lookup_app_l by (rewrite length_app; cbn [length]; lia).
           rewrite lookup_app_r by lia. now rewrite Hlen, Nat.sub_diag.
        -- rewrite lookup_app_r by (rewrite length_app; cbn [length]; lia).
           rewrite length_app. cbn [length].
           replace (S m - (length cells + 1))%nat with 0%nat by lia. reflexivity.
      * destruct (Hstep t ltac:(lia)) as (s & E1 & E2). exists s.
        rewrite !(lookup_app_l (_ ++ _)) by (rewrite length_app; cbn [length]; lia).
        now split.
Qed.

Lemma for_lt_integer (q : Q) (n : nat) : q == inject_Z (Z.of_nat n) -> for_lt q = seq 0 n.
Proof.
  intros E. unfold for_lt. rewrite E, Qceiling_Z. now rewrite Nat2Z.id.
Qed.

Lemma typed_array_integer {A} (q : Q) (n : nat) (cells : list A) :
  q == inject_Z (Z.of_nat n) -> typed_array q cells = take n cells.
Proof.
  intros E. unfold typed_array. rewrite E, Qfloor_Z. now rewrite Nat2Z.id.
Qed.

Lemma is_index_integer (q : Q) (n : nat) : q == inject_Z (Z.of_nat n) -> is_index q = true.
Proof.
  intros E. unfold is_index. apply andb_true_iff. split.
  - apply Qeq_bool_iff. rewrite E at 1. rewrite Qfloor_Z. now symmetry.
  - apply Qleb_le. rewrite E. rewrite <- (Zle_Qle 0). lia.
Qed.

Lemma tri_area_defined (positions : list Q) (triIndices : list Z) (t : nat) (tri : triangle) :
  (forall q, 0 <= sqrt q) ->
  triangle_at positions triIndices t = Some tri ->
  exists a, tri_area sqrt positions triIndices t = Fin a /\ 0 <= a.
Proof.
  intros Hsqrt Htri. destruct tri as [[p0 p1] p2].
  apply triangle_at_some in Htri. destruct Htri as (E0 & E1 & E2).
  unfold tri_area. rewrite E0, E1, E2.
  destruct p0 as [[ax ay] az], p1 as [[bx b_y] bz], p2 as [[cx cy] cz].
  cbn [fin3 at0 at1 at2 nsub nmul nadd hypot sum_squares].
  eexists. split; [reflexivity|].
  apply Qmult_le_0_compat; [lra|apply Hsqrt].
Qed.

(** On exact numbers: each running sum is the previous one plus the
    area of its triangle, and the last one is the total. *)
Lemma area_caches_exact (positions : list Q) (triIndices : list Z) (triCount : Q)
    (n : nat) :
  triCount == inject_Z (Z.of_nat n) ->
  let c := build_area_caches sqrt positions triIndices triCount in
  length (_triAreas c) = n /\ length (_triCum c) = S n /\
  _triCum c !! 0%nat = Some (Fin 0) /\
  _triCum c !! n = Some (_triTotalArea c) /\
  (forall t, (t < n)%nat ->
     _triAreas c !! t = Some (tri_area sqrt positions triIndices t) /\
     exists s, _triCum c !! t = Some s /\
               _triCum c !! S t = Some (s + tri_area sqrt positions triIndices t)%num) /\
  ((forall q, 0 <= sqrt q) ->
   (forall t, (t < n)%nat -> triangle_at positions triIndices t <> None) ->
   forall t, (t < n)%nat ->
     exists a s s',
       _triAreas c !! t = Some (Fin a) /\ _triCum c !! t = Some (Fin s) /\
       _triCum c !! S t = Some (Fin s') /\ 0 <= a /\ 0 <= s /\ s' == s + a).
Proof.
  intros En c. subst c. unfold build_area_caches.
  rewrite (for_lt_integer triCount n En), (typed_array_integer triCount n _ En),
    (is_index_integer triCount n En).
  assert (Earr : take n (map (tri_area sqrt positions triIndices) (seq 0 n)) =
                 map (tri_area sqrt positions triIndices) (seq 0 n)).
  { apply take_ge. now rewrite length_map, length_seq. }
  rewrite Earr.
  set (areas := map (tri_area sqrt positions triIndices) (seq 0 n)).
  assert (Hareas : forall t, (t < n)%nat ->
            areas !! t = Some (tri_area sqrt positions triIndices t)).
  { intros t Ht. unfold areas. rewrite list_lookup_fmap, lookup_seq_lt by exact Ht.
    reflexivity. }
  assert (Hread : forall t, (t < n)%nat ->
            read_num areas (Z.of_nat t) = tri_area sqrt positions triIndices t).
  { intros t Ht. unfold read_num.
    destruct (Z.ltb_spec (Z.of_nat t) 0); [lia|].
    now rewrite Nat2Z.id, (Hareas t Ht). }
  pose proof (cum_fold areas n) as Hfold. cbv zeta in Hfold.
  destruct (fold_left (cum_step areas) (seq 0 n) ([], Fin 0)) as [cells cum].
  cbn [fst snd] in Hfold. destruct Hfold as (Hlen & H0 & Hstep).
  assert (E1 : triCount + 1 == inject_Z (Z.of_nat (S n))).
  { rewrite En, Nat2Z.inj_succ. unfold Z.succ. rewrite inject_Z_plus. reflexivity. }
  rewrite (typed_array_integer (triCount + 1) (S n) _ E1).
  assert (Efull : take (S n) (cells ++ [cum]) = cells ++ [cum]).
  { apply take_ge. rewrite length_app. cbn [length]. lia. }
  rewrite Efull.
  cbn [_triAreas _triCum _triTotalArea].
  assert (Hsteps : forall t, (t < n)%nat ->
            exists s, (cells ++ [cum]) !! t = Some s /\
                      (cells ++ [cum]) !! S t =
                        Some (s + tri_area sqrt positions triIndices t)%num).
  { intros t Ht. destruct (Hstep t Ht) as (s & A & B). exists s.
    rewrite <- (Hread t Ht). now split. }
  split; [unfold areas; now rewrite length_map, length_seq|].
  split; [rewrite length_app; cbn [length]; lia|].
  split; [exact H0|].
  split; [rewrite lookup_app_r by lia; now rewrite Hlen, Nat.sub_diag|].
  split.
  - intros t Ht. split; [now apply Hareas|now apply Hsteps].
  - intros Hsqrt Hdef.
    assert (Hnonneg : forall t, (t <= n)%nat ->
              exists s, (cells ++ [cum]) !! t = Some (Fin s) /\ 0 <= s).
    { induction t as [|t IHt]; intros Ht.
      - exists 0. split; [exact H0|lra].
      - destruct (IHt ltac:(lia)) as (s & Es & Hs).
        destruct (Hsteps t ltac:(lia)) as (s0 & A & B).
        rewrite Es in A. injection A as <-.
        destruct (triangle_at positions triIndices t) as [tri|] eqn:Etri;
          [|exfalso; now apply (Hdef t ltac:(lia))].
        destruct (tri_area_defined positions triIndices t tri Hsqrt Etri) as (a & Ea & Ha).
        rewrite Ea in B. cbn [nadd] in B.
        exists (s + a). split; [exact B|lra]. }
    intros t Ht.
    destruct (Hnonneg t ltac:(lia)) as (s & Es & Hs).
    destruct (Hsteps t Ht) as (s0 & A & B).
    rewrite Es in A. injection A as <-.
    destruct (triangle_at positions triIndices t) as [tri|] eqn:Etri;
      [|exfalso; now apply (Hdef t Ht)].
    destruct (tri_area_defined positions triIndices t tri Hsqrt Etri) as (a & Ea & Ha).
    rewrite Ea in B. cbn [nadd] in B.
    exists a, s, (s + a).
    split; [rewrite (Hareas t Ht); now rewrite Ea|].
    split; [exact Es|]. split; [exact B|]. split; [exact Ha|]. split; [exact Hs|reflexivity].
Qed.

(** X24.  When the number of triangles is not whole (a mesh without
    index data whose vertex count is not a multiple of 3, or index data
    whose length is not), the last turn of the loop adds an area read
    past the end of the array: the total area is [NaN]. *)
Theorem fractional_count_total_nan (positions : list Q) (triIndices : list Z) (triCount : Q) :
  0 <= triCount -> ~ triCount == inject_Z (Qfloor triCount) ->
  _triTotalArea (build_area_caches sqrt positions triIndices triCount) = NaN.
Proof.
  intros Hpos Hfrac. unfold build_area_caches.
  set (areas := typed_array triCount _).
  assert (Hf0 : (0 <= Qfloor triCount)%Z).
  { rewrite <- (Qfloor_Z 0). now apply Qfloor_resp_le. }
  assert (Hceil : Qceiling triCount = (Qfloor triCount + 1)%Z).
  { pose proof (Qfloor_le triCount) as H1. pose proof (Qlt_floor triCount) as H2.
    pose proof (Qle_ceiling triCount) as H3. pose proof (Qceiling_lt triCount) as H4.
    assert (inject_Z (Qfloor triCount) < triCount).
    { destruct (Qlt_le_dec (inject_Z (Qfloor triCount)) triCount) as [|Hge]; [assumption|].
      exfalso. apply Hfrac. lra. }
    assert (A : (Qfloor triCount < Qceiling triCount)%Z) by (rewrite Zlt_Qlt; lra).
    assert (B : (Qceiling triCount - 1 < Qfloor triCount + 1)%Z) by (rewrite Zlt_Qlt; lra).
    lia. }
  assert (Hlen : (length areas <= Z.to_nat (Qfloor triCount))%nat).
  { unfold areas, typed_array. rewrite length_take. lia. }
  unfold for_lt. rewrite Hceil.
  replace (Z.to_nat (Qfloor triCount + 1)) with (S (Z.to_nat (Qfloor triCount))) by lia.
  rewrite seq_S, fold_left_app. cbn [fold_left Nat.add].
  destruct (fold_left (cum_step areas) (seq 0 (Z.to_nat (Qfloor triCount))) ([], Fin 0))
    as [cells cum].
  cbn [cum_step _triTotalArea].
  assert (Eread : read_num areas (Z.of_nat (Z.to_nat (Qfloor triCount))) = NaN).
  { unfold read_num. destruct (Z.ltb_spec (Z.of_nat (Z.to_nat (Qfloor triCount))) 0); [lia|].
    rewrite Nat2Z.id. rewrite lookup_ge_None_2 by exact Hlen. reflexivity. }
  rewrite Eread. apply nadd_nan_r.
Qed.

End AreaFacts.

Section AreaBounds.

Variable sqrt : Q -> Q.

(** X23.  For a whole number n of triangles, [_buildMeshCaches] stores
    n areas and n + 1 running sums, the first of them 0.  With a square
    root that is never negative and triangles whose vertices are all
    inside the position array, the areas, the sums and the total are
    numbers, none of them negative, and the sums never decrease. *)
Theorem running_sums_of_areas (positions : list Q) (triIndices : list Z) (triCount : Q)
    (n : nat) :
  triCount == inject_Z (Z.of_nat n) ->
  let c := build_area_caches sqrt positions triIndices triCount in
  length (_triAreas c) = n /\ length (_triCum c) = S n /\
  _triCum c !! 0%nat = Some (Fin 0) /\
  ((forall q, 0 <= sqrt q) ->
   (forall t, (t < n)%nat -> triangle_at positions triIndices t <> None) ->
   (exists total, _triTotalArea c = Fin total /\ 0 <= total) /\
   forall t, (t < n)%nat ->
     exists a s s',
       _triAreas c !! t = Some (Fin a) /\ _triCum c !! t = Some (Fin s) /\
       _triCum c !! S t = Some (Fin s') /\ 0 <= a /\ 0 <= s /\ s <= s').
Proof.
  intros En c.
  destruct (area_caches_exact sqrt positions triIndices triCount n En)
    as (L1 & L2 & H0 & Hlast & _ & Hrun).
  fold c in L1, L2, H0, Hlast, Hrun.
  split; [exact L1|]. split; [exact L2|]. split; [exact H0|].
  intros Hsqrt Hdef. specialize (Hrun Hsqrt Hdef).
  split.
  - destruct n as [|n].
    + rewrite H0 in Hlast. injection Hlast as <-. exists 0. split; [reflexivity|lra].
    + destruct (Hrun n ltac:(lia)) as (a & s & s' & _ & _ & Es' & Ha & Hs & E).
      rewrite Hlast in Es'. injection Es' as ->. exists s'. split; [reflexivity|lra].
  - intros t Ht. destruct (Hrun t Ht) as (a & s & s' & Ea & Es & Es' & Ha & Hs & E).
    exists a, s, s'. repeat split; try assumption. lra.
Qed.

End AreaBounds.

Lemma running_sums_of_areas_witness :
  let mp := paintable 8 8 true true (Some quad_xz) in
  option_map (fun c => (_triAreas c, _triCum c, _triTotalArea c)) (area_caches sqrt_floor mp) =
  Some ([Fin (1 # 2); Fin (1 # 2)], [Fin 0; Fin (1 # 2); Fin (4 # 4)], Fin (4 # 4)) /\
  length (_triCum (build_area_caches sqrt_floor
                     (flatten3 [(-(1 # 2), 0, -(1 # 2)); (1 # 2, 0, -(1 # 2));
                                (1 # 2, 0, 1 # 2); (-(1 # 2), 0, 1 # 2)])
                     [0; 1; 2; 0; 2; 3]%Z (6 # 3))) = 3%nat.
Proof.
  split; [vm_compute; reflexivity|].
  exact (proj1 (proj2 (running_sums_of_areas sqrt_floor _ _ (6 # 3) 2 ltac:(reflexivity)))).
Defined.

Lemma fractional_count_total_nan_witness :
  option_map _triTotalArea
    (area_caches sqrt_floor (paintable 8 8 true true (Some plane_unindexed))) = Some NaN.
Proof.
  pose proof (fractional_count_total_nan sqrt_floor
                (flatten3 [(-1, 0, -1); (1, 0, -1); (1, 0, 1); (-1, 0, 1)])
                [0; 1; 2; 3]%Z (4 # 3) ltac:(vm_compute; discriminate)
                ltac:(vm_compute; discriminate)) as H.
  vm_compute. vm_compute in H. exact (f_equal Some H).
Defined.

(** ** [start()] with the debug pattern *)

(** X25.  With [showUvDebug] set, [start()] does not complete: the debug
    pattern is drawn before the texture of the canvas exists, and the
    call of [update] on that texture at the end of [drawUvDebug] (or,
    on an empty canvas, [createImageData] before it) throws.  The
    component is left as it was: not created and without caches, so
    that afterwards every query returns nothing and [paintAtUV] draws
    nothing.  Without the option [start()] completes and the component
    is the one [start] builds. *)
Theorem uv_debug_stops_start (initialColor : color) (this : MeshPaintable) (mesh : Mesh) :
  snd (drawUvDebug false (textureWidth this) (textureHeight this)) = Throws /\
  completion (start_drawing initialColor true this (Some mesh)) = Throws /\
  component (start_drawing initialColor true this (Some mesh)) = this /\
  (forall meshComp,
     completion (start_drawing initialColor false this meshComp) = Returns /\
     component (start_drawing initialColor false this meshComp) = start this meshComp) /\
  (forall w h flip planar lo ld m u v,
     let mp := component (start_drawing initialColor true (unstarted w h flip planar)
                            (Some mesh)) in
     getUVFromLocalRay mp lo ld m = None /\ paintAtUV mp u v = None).
Proof.
  assert (Hthrow : forall w h, snd (drawUvDebug false w h) = Throws).
  { intros w h. unfold drawUvDebug. now destruct ((w =? 0) || (h =? 0))%Z. }
  assert (Hstart : forall t,
            completion (start_drawing initialColor true t (Some mesh)) = Throws /\
            component (start_drawing initialColor true t (Some mesh)) = t).
  { intros t. unfold start_drawing.
    pose proof (Hthrow (textureWidth t) (textureHeight t)) as H.
    destruct (drawUvDebug false (textureWidth t) (textureHeight t)) as [debug c].
    cbn [snd] in H. subst c. now split. }
  split; [apply Hthrow|]. split; [apply Hstart|]. split; [apply Hstart|]. split.
  - intros [m|]; now split.
  - intros w h flip planar lo ld m u v mp. subst mp.
    rewrite (proj2 (Hstart (unstarted w h flip planar))). now split.
Qed.

(** ** The countdown of the editor plugin *)

Section Countdown.

Import CustomPlugin.

Lemma fin_pred (n : Z) : (Fin (inject_Z n) - Fin 1)%num = Fin (inject_Z (n - 1)).
Proof.
  cbn [nsub]. f_equal. unfold Qminus, Qplus, Qopp, inject_Z. cbn [Qnum Qden].
  f_equal. lia.
Qed.

Lemma tick_counts_down (nm : string) (n due : Z) :
  (2 <= n)%Z ->
  fire {| name := nm; _count := Num (Fin (inject_Z n)); timers := [(due, Tick)]; clock := due - 1000 |} =
  {| name := nm; _count := Num (Fin (inject_Z (n - 1)));
     timers := [((due + 1000)%Z, Tick)]; clock := due |}.
Proof.
  intros Hn. unfold fire, tick, count, setTimeout, set_count, decrement.
  cbn [timers _count name clock]. rewrite fin_pred.
  assert (E : (Fin (inject_Z (n - 1)) >? Fin 0)%num = true).
  { cbn [ngt nlt]. apply Qltb_lt. rewrite <- (Zlt_Qlt 0). lia. }
  rewrite E. reflexivity.
Qed.

Lemma tick_ends (nm : string) (n due clk : Z) :
  (n <= 1)%Z ->
  fire {| name := nm; _count := Num (Fin (inject_Z n)); timers := [(due, Tick)]; clock := clk |} =
  {| name := nm; _count := Smiley; timers := []; clock := due |}.
Proof.
  intros Hn. unfold fire, tick, count, setTimeout, set_count, decrement.
  cbn [timers _count name clock]. rewrite fin_pred.
  assert (E : (Fin (inject_Z (n - 1)) >? Fin 0)%num = false).
  { cbn [ngt nlt]. apply Qltb_ge. rewrite <- (Zle_Qle _ 0). lia. }
  rewrite E. reflexivity.
Qed.

Lemma fire_idle (p : Plugin) : timers p = [] -> fire p = p.
Proof. intros H. unfold fire. now rewrite H. Qed.

Lemma ticking_eq (nm : string) (a b d1 d2 k1 k2 : Z) :
  a = b -> d1 = d2 -> k1 = k2 ->
  {| name := nm; _count := Num (Fin (inject_Z a)); timers := [(d1, Tick)]; clock := k1 |} =
  {| name := nm; _count := Num (Fin (inject_Z b)); timers := [(d2, Tick)]; clock := k2 |}.
Proof. now intros -> -> ->. Qed.

Lemma countdown_steps (nm : string) (n due : Z) (j : nat) :
  (Z.of_nat j < n)%Z ->
  Nat.iter j fire
    {| name := nm; _count := Num (Fin (inject_Z n)); timers := [(due, Tick)];
       clock := due - 1000 |} =
  {| name := nm; _count := Num (Fin (inject_Z (n - Z.of_nat j)));
     timers := [((due + 1000 * Z.of_nat j)%Z, Tick)];
     clock := due + 1000 * Z.of_nat j - 1000 |}.
Proof.
  induction j as [|j IH]; intros Hj.
  - unfold Nat.iter. cbn [nat_rect]. apply ticking_eq; lia.
  - change (Nat.iter (S j) fire ?p) with (fire (Nat.iter j fire p)).
    rewrite IH by lia.
    rewrite (tick_counts_down nm (n - Z.of_nat j) (due + 1000 * Z.of_nat j)) by lia.
    apply ticking_eq; lia.
Qed.

(** X26.  The countdown of the plugin ends.  From a count n >= 1 with
    the tick pending, the j-th tick (j < n) leaves the count n - j and
    one tick pending one second later; the n-th tick replaces the count
    by the text [":)"] and sets no timer, and nothing changes from then
    on.  The label therefore shows n, n - 1, ..., 1 and then [":)"]:
    never 0.  As constructed (10, first call of [count] after one
    second) the plugin shows [":)"] after 11 timers. *)
Theorem countdown_ends (nm : string) (n due : Z) :
  (1 <= n)%Z ->
  let p0 := {| name := nm; _count := Num (Fin (inject_Z n)); timers := [(due, Tick)];
               clock := due - 1000 |} in
  (forall j : nat, (Z.of_nat j < n)%Z ->
     draw (Nat.iter j fire p0) = ("Explosion in: "%string, Num (Fin (inject_Z (n - Z.of_nat j)))) /\
     timers (Nat.iter j fire p0) = [((due + 1000 * Z.of_nat j)%Z, Tick)]) /\
  (forall j : nat, (n <= Z.of_nat j)%Z ->
     draw (Nat.iter j fire p0) = ("Explosion in: "%string, Smiley) /\
     timers (Nat.iter j fire p0) = []) /\
  draw (Nat.iter 11 fire constructor) = ("Explosion in: "%string, Smiley) /\
  timers (Nat.iter 11 fire constructor) = [] /\
  draw (Nat.iter 10 fire constructor) = ("Explosion in: "%string, Num (Fin 1)).
Proof.
  intros Hn p0. split; [|split].
  - intros j Hj. unfold p0. rewrite (countdown_steps nm n due j Hj). now split.
  - assert (Hend : Nat.iter (Z.to_nat n) fire p0 =
                   {| name := nm; _count := Smiley; timers := [];
                      clock := due + 1000 * (n - 1) |}).
    { replace (Z.to_nat n) with (S (Z.to_nat (n - 1))) by lia.
      change (Nat.iter (S ?k) fire ?p) with (fire (Nat.iter k fire p)).
      unfold p0. rewrite countdown_steps by lia.
      rewrite Z2Nat.id by lia.
      now rewrite tick_ends by lia. }
    intros j Hj.
    replace j with ((j - Z.to_nat n) + Z.to_nat n)%nat by lia.
    rewrite Nat.iter_add, Hend.
    induction (j - Z.to_nat n)%nat as [|k IH]; [now split|].
    change (Nat.iter (S k) fire ?p) with (fire (Nat.iter k fire p)).
    destruct IH as [IH1 IH2].
    rewrite (fire_idle _ IH2). now split.
  - vm_compute. repeat split; reflexivity.
Qed.

Lemma countdown_ends_witness :
  draw (Nat.iter 3 fire
          {| name := "CustomPlugin"; _count := Num (Fin (inject_Z 3));
             timers := [(2000%Z, Tick)]; clock := 2000 - 1000 |}) =
  ("Explosion in: "%string, Smiley).
Proof.
  exact (proj1 (proj1 (proj2 (countdown_ends "CustomPlugin" 3 2000 ltac:(lia))) 3%nat
                  ltac:(lia))).
Defined.

End Countdown.

(** ** Frames without a hit *)

Lemma brush_eq (a b : MeshBrush) :
  brushRadiusPx a = brushRadiusPx b -> brushColor a = brushColor b ->
  paintOnProximity a = paintOnProximity b -> brushWorldRadius a = brushWorldRadius b ->
  maxDistance a = maxDistance b ->
  _lastUVPerObject a = _lastUVPerObject b -> _lastTriPerObject a = _lastTriPerObject b ->
  _contactLostPerObject a = _contactLostPerObject b -> a = b.
Proof. destruct a, b. cbn. intros. now subst. Qed.

Lemma mark_all_lost_idem (this : MeshBrush) :
  mark_all_lost (mark_all_lost this) = mark_all_lost this.
Proof.
  apply brush_eq; try reflexivity.
  apply map_eq. intros k. rewrite !mark_all_lost_flag.
  change (_lastUVPerObject (mark_all_lost this)) with (_lastUVPerObject this).
  now destruct (_lastUVPerObject this !! k).
Qed.

Section Misses.

Variable sqrt : Q -> Q.

(** X27.  Frames without a ray hit are idempotent: a second miss in a
    row leaves the brush exactly as the first one left it, and paints
    nothing. *)
Theorem misses_are_idempotent (this : MeshBrush) (env env' : Frame) :
  no_hit env -> no_hit env' ->
  update sqrt (fst (update sqrt this env)) env' = (fst (update sqrt this env), []).
Proof.
  intros Hno Hno'.
  rewrite (update_no_hit sqrt _ env' Hno'), (update_no_hit sqrt this env Hno).
  cbn [fst]. now rewrite mark_all_lost_idem.
Qed.

End Misses.

Lemma misses_are_idempotent_witness :
  update sqrt_floor (fst (update sqrt_floor brush_in_stroke frame_no_hit)) frame_no_hit =
  (fst (update sqrt_floor brush_in_stroke frame_no_hit), []).
Proof.
  apply misses_are_idempotent; left; reflexivity.
Defined.

(** ** The indices of the hit triangle *)

(** X28.  The triangle of a returned hit has three defined vertex
    indices, each the index of a vertex of the mesh: the triple that
    the brush reads back with [_getTriangleVertexIndices] and stores as
    the last triangle never holds an undefined entry. *)
Theorem hit_triangle_has_valid_indices (w h : Z) (flip planar : bool)
    (meshComp : option Mesh) (o d : qvec) (maxD : Q) (r : UVResult) :
  let mp := paintable w h flip planar meshComp in
  getUVFromLocalRay mp (fin3 o) (fin3 d) (Fin maxD) = Some r ->
  exists mesh pos z0 z1 z2,
    meshComp = Some mesh /\ positionAttr mesh = Some pos /\
    _getTriangleVertexIndices mp (triIndex r) = Some (Some z0, Some z1, Some z2) /\
    (0 <= z0 < Z.of_nat (length pos))%Z /\
    (0 <= z1 < Z.of_nat (length pos))%Z /\
    (0 <= z2 < Z.of_nat (length pos))%Z.
Proof.
  intros mp Hr.
  destruct (getUV_some w h flip planar meshComp o d maxD r Hr)
    as (mesh & pos & ti & k & tri & Em & Epos & Hp & Hi & _ & _ & Ek & _ & Hres).
  fold mp in Hp, Hi, Hres.
  apply resolve_uv_fields in Hres. destruct Hres as [Hk _].
  cbn [bestTri scan_of_hit] in Hk. injection Hk as ->.
  destruct tri as [[p0 p1] p2].
  destruct (triangle_vertices_in_mesh pos ti (triIndex r) p0 p1 p2 Ek)
    as (z0 & z1 & z2 & I0 & I1 & I2 & Z0 & Z1 & Z2 & P0 & P1 & P2).
  exists mesh, pos, z0, z1, z2.
  split; [exact Em|]. split; [exact Epos|].
  apply lookup_lt_Some in P0, P1, P2.
  split; [|unfold qvec in *; repeat split; lia].
  unfold _getTriangleVertexIndices. rewrite Hi.
  unfold tri_vertex_index in I0, I1, I2. now rewrite I0, I1, I2.
Qed.

Lemma hit_triangle_has_valid_indices_witness :
  exists r z0 z1 z2,
    getUVFromLocalRay (paintable 8 8 true true (Some quad_xz))
      (fin3 (1 # 4, 1, -(1 # 8))) (fin3 (0, -1, 0)) (Fin 10) = Some r /\
    _getTriangleVertexIndices (paintable 8 8 true true (Some quad_xz)) (triIndex r) =
      Some (Some z0, Some z1, Some z2).
Proof.
  destruct (getUVFromLocalRay (paintable 8 8 true true (Some quad_xz))
              (fin3 (1 # 4, 1, -(1 # 8))) (fin3 (0, -1, 0)) (Fin 10)) as [r|] eqn:Hr;
    [|vm_compute in Hr; discriminate].
  destruct (hit_triangle_has_valid_indices 8 8 true true (Some quad_xz)
              (1 # 4, 1, -(1 # 8)) (0, -1, 0) 10 r Hr)
    as (mesh & pos & z0 & z1 & z2 & _ & _ & Hidx & _).
  exists r, z0, z1, z2. now split.
Defined.

(** ** A hit that cannot be painted *)

Section Unpaintable.

Variable sqrt : Q -> Q.

(** X29.  A hit that cannot be painted (the object has no paintable, or
    its paintable resolves no UV), on an object whose name holds no
    color token, ends the stroke of an object that has a numeric
    [objectId]: the contact-lost flag of that id is set, and
    the next frame with a resolved hit within proximity on that
    identity paints exactly one dab.  On an object without a numeric
    [objectId] such a frame changes nothing at all, so a stroke on it
    goes on across the failure. *)
Theorem unpaintable_hit_and_identity (this : MeshBrush) (env : Frame) (rh : RayHit)
    (hitObj : Object3D) :
  rayHit env = Some rh -> hitCount rh <> 0%Z -> object0 rh = Some hitObj ->
  snd (_tryPickColorFromName this (name hitObj)) = None ->
  meshPaintable hitObj = None \/
  (exists mp, meshPaintable hitObj = Some mp /\
     getUVFromLocalRay mp (fst (to_local_ray sqrt this env hitObj))
       (snd (to_local_ray sqrt this env hitObj)) (Fin (maxDistance this)) = None) ->
  (objectId hitObj = None -> update sqrt this env = (this, [])) /\
  (forall id, objectId hitObj = Some id ->
     _contactLostPerObject (fst (update sqrt this env)) !! id = Some true /\
     forall env' rh' hitObj' mp' r',
       _stableObjectId hitObj' = id ->
       resolved_hit sqrt (fst (update sqrt this env)) env' rh' hitObj' mp' r' ->
       withinRange (fst (update sqrt this env)) (worldDist sqrt env' (location0 rh')) = true ->
       dabs (snd (update sqrt (fst (update sqrt this env)) env')) = [uv r']).
Proof.
  intros Hrh Hnz Hobj Hpick Hcase.
  rewrite (update_unpaintable sqrt this env rh hitObj Hrh Hnz Hobj Hpick Hcase).
  cbn [fst]. unfold mark_hit_lost. split.
  - now intros ->.
  - intros id ->. cbn [_contactLostPerObject set_contactLost].
    split; [now rewrite lookup_insert_eq|].
    intros env' rh' hitObj' mp' r' Hid Hres Hin.
    rewrite (update_resolved sqrt _ env' rh' hitObj' mp' r' Hres).
    rewrite fresh_single; [now destruct (uv r')|exact Hin|].
    left. rewrite Hid. cbn [_contactLostPerObject set_contactLost].
    now rewrite lookup_insert_eq.
Qed.

End Unpaintable.

Lemma unpaintable_hit_and_identity_witness :
  _contactLostPerObject
    (fst (update sqrt_floor brush_in_stroke
            (frame_above 0 0 (1 # 50) (bare_object "Wall" 5)))) !! 5%Z = Some true.
Proof.
  refine (proj1 (proj2 (unpaintable_hit_and_identity sqrt_floor brush_in_stroke
                          (frame_above 0 0 (1 # 50) (bare_object "Wall" 5))
                          _ (bare_object "Wall" 5) eq_refl _ eq_refl eq_refl
                          (or_introl eq_refl)) 5%Z eq_refl)).
  discriminate.
Defined.

(** ** Leaving and re-entering proximity *)

Section Reentry.

Variable sqrt : Q -> Q.

(** X30.  A stroke restarts after the brush has left proximity: after a
    frame with a resolved hit out of range (or with proximity painting
    disabled), the next frame with a resolved hit within proximity on
    the same identity paints exactly one dab, at its own UV. *)
Theorem stroke_restarts_after_leaving_range (this : MeshBrush) (env0 env : Frame)
    (rh0 rh : RayHit) (hitObj0 hitObj : Object3D) (mp0 mp : MeshPaintable)
    (r0 r : UVResult) :
  resolved_hit sqrt this env0 rh0 hitObj0 mp0 r0 ->
  withinRange this (worldDist sqrt env0 (location0 rh0)) = false ->
  _stableObjectId hitObj = _stableObjectId hitObj0 ->
  resolved_hit sqrt (fst (update sqrt this env0)) env rh hitObj mp r ->
  withinRange (fst (update sqrt this env0)) (worldDist sqrt env (location0 rh)) = true ->
  snd (update sqrt this env0) = [] /\
  dabs (snd (update sqrt (fst (update sqrt this env0)) env)) = [uv r].
Proof.
  intros Hres0 Hout Hid Hres Hin.
  rewrite (update_resolved sqrt this env0 rh0 hitObj0 mp0 r0 Hres0) in *.
  rewrite stroke_out_of_range in * by exact Hout. cbn [fst snd] in *.
  split; [reflexivity|].
  rewrite (update_resolved sqrt _ env rh hitObj mp r Hres).
  rewrite fresh_single; [now destruct (uv r)|exact Hin|].
  left. rewrite Hid.
  destruct (end_stroke_lookup this (_stableObjectId hitObj0) (_stableObjectId hitObj0))
    as (_ & _ & L).
  rewrite decide_True in L by reflexivity. exact L.
Qed.

End Reentry.

Lemma stroke_restarts_after_leaving_range_witness :
  length (dabs (snd (update sqrt_floor (fst (update sqrt_floor brush_in_stroke stroke_far))
                       stroke_next))) = 1%nat.
Proof.
  destruct (getUVFromLocalRay (paintable 8 8 true true (Some quad_xz))
              (fst (to_local_ray sqrt_floor brush_in_stroke stroke_far (quad_object "Quad" 7)))
              (snd (to_local_ray sqrt_floor brush_in_stroke stroke_far (quad_object "Quad" 7)))
              (Fin (maxDistance brush_in_stroke)))
    as [r0|] eqn:Hr0; [|vm_compute in Hr0; discriminate].
  destruct (getUVFromLocalRay (paintable 8 8 true true (Some quad_xz))
              (fst (to_local_ray sqrt_floor (fst (update sqrt_floor brush_in_stroke stroke_far))
                      stroke_next (quad_object "Quad" 7)))
              (snd (to_local_ray sqrt_floor (fst (update sqrt_floor brush_in_stroke stroke_far))
                      stroke_next (quad_object "Quad" 7)))
              (Fin (maxDistance (fst (update sqrt_floor brush_in_stroke stroke_far)))))
    as [r|] eqn:Hr; [|vm_compute in Hr; discriminate].
  destruct (stroke_restarts_after_leaving_range sqrt_floor brush_in_stroke stroke_far stroke_next
              {| hitCount := 1;
                 location0 := V3 (Fin (1 # 4)) (Fin 0) (Fin (-(1 # 8)));
                 object0 := Some (quad_object "Quad" 7) |}
              {| hitCount := 1;
                 location0 := V3 (Fin (1 # 4)) (Fin 0) (Fin (-(1 # 8)));
                 object0 := Some (quad_object "Quad" 7) |}
              (quad_object "Quad" 7) (quad_object "Quad" 7)
              (paintable 8 8 true true (Some quad_xz)) (paintable 8 8 true true (Some quad_xz))
              r0 r) as [_ E].
  - split; [reflexivity|]. split; [discriminate|]. split; [reflexivity|].
    split; [reflexivity|]. split; [reflexivity|]. exact Hr0.
  - vm_compute. reflexivity.
  - reflexivity.
  - split; [reflexivity|]. split; [discriminate|]. split; [reflexivity|].
    split; [reflexivity|]. split; [reflexivity|]. exact Hr.
  - vm_compute. reflexivity.
  - rewrite E. reflexivity.
Defined.

(** ** Contact, proximity and adjacent triangles *)

Section Contact.

Variable sqrt : Q -> Q.

(** The proximity test of [update], in terms of the two points. *)
Lemma within_proximity_spec (this : MeshBrush) (env : Frame) (rh : RayHit) :
  within_proximity sqrt this env rh <->
  withinRange this (worldDist sqrt env (location0 rh)) = true.
Proof.
  rewrite withinRange_spec. unfold within_proximity, worldDist. split.
  - intros (Hp & o & p & Eo & Ep & Hle). split; [exact Hp|]. rewrite Eo, Ep.
    destruct o as [[ox oy] oz], p as [[px py] pz].
    cbn [fin3 at0 at1 at2 nsub hypot sum_squares nmul nadd nle vsub norm3] in *.
    apply Qleb_le. exact Hle.
  - intros [Hp Hle]. split; [exact Hp|].
    destruct (worldOrigin env) as [[ox|] [oy|] [oz|]],
             (location0 rh) as [[px|] [py|] [pz|]];
      cbn [at0 at1 at2 nsub hypot sum_squares nmul nadd nle] in Hle; try discriminate.
    exists (ox, oy, oz), (px, py, pz). split; [reflexivity|]. split; [reflexivity|].
    cbn [vsub norm3]. apply Qleb_le in Hle. exact Hle.
Qed.

(** The dabs of a stroke that goes on: the frame is within proximity,
    the flag is clear and a last UV and triangle are stored. *)
Lemma stroke_continued (this : MeshBrush) (env : Frame) (hitWorldPos : vec3)
    (hitObj : Object3D) (mp : MeshPaintable) (r : UVResult) (ti : list Z)
    (la lb a b : Q) (ltri : tri_verts) :
  withinRange this (worldDist sqrt env hitWorldPos) = true ->
  let id := _stableObjectId hitObj in
  _contactLostPerObject this !! id <> Some true ->
  _lastUVPerObject this !! id = Some (Fin la, Fin lb) ->
  _lastTriPerObject this !! id = Some ltri ->
  _triIndices mp = Some ti -> uv r = (Fin a, Fin b) ->
  let curr := (read_int ti (Z.of_nat (triIndex r) * 3 + 0),
               read_int ti (Z.of_nat (triIndex r) * 3 + 1),
               read_int ti (Z.of_nat (triIndex r) * 3 + 2)) in
  let steps := steps_between sqrt (brushRadiusPx this) (getCanvasSize mp) (la, lb) (a, b) in
  (1 <= steps)%Z /\
  snd (stroke sqrt this env hitWorldPos hitObj mp r) =
  (if shares_vertex curr ltri
   then map (dab_at this (Some (Fin la, Fin lb)) (Fin a, Fin b) (Fin (inject_Z steps)))
          (seq 0 (Z.to_nat steps + 1))
   else [PaintAtUV (Fin a) (Fin b) (brushRadiusPx this) (brushColor this)]).
Proof.
  intros Hin id Hflag Hluv Hltri Eti Er curr steps.
  assert (Hsteps : (1 <= steps)%Z) by (unfold steps, steps_between; lia).
  split; [exact Hsteps|].
  assert (Ecurr : _getTriangleVertexIndices mp (triIndex r) = Some curr).
  { unfold _getTriangleVertexIndices. now rewrite Eti. }
  unfold stroke. rewrite Hin. cbn [negb]. fold id.
  assert (Hthis : match _contactLostPerObject this !! id with
                  | Some true =>
                      set_contactLost (<[id:=false]> (_contactLostPerObject this))
                        (set_lastTri (delete id (_lastTriPerObject this))
                           (set_lastUV (delete id (_lastUVPerObject this)) this))
                  | _ => this
                  end = this).
  { destruct (_contactLostPerObject this !! id) as [[|]|]; congruence. }
  rewrite Hthis, Hluv, Hltri, Ecurr, Er. cbn [snd fst].
  destruct (shares_vertex curr ltri); cbn [negb].
  - unfold steps. rewrite stepCount_fin, for_le_steps; [reflexivity|exact Hsteps].
  - reflexivity.
Qed.

(** A frame within proximity paints. *)
Lemma stroke_paints_in_range (this : MeshBrush) (env : Frame) (hitWorldPos : vec3)
    (hitObj : Object3D) (mp : MeshPaintable) (r : UVResult) :
  brush_ok this -> finite_uv (uv r) -> is_Some (_triIndices mp) ->
  withinRange this (worldDist sqrt env hitWorldPos) = true ->
  dabs (snd (stroke sqrt this env hitWorldPos hitObj mp r)) <> [].
Proof.
  intros Hok (a & b & Er) [ti Eti] Hin.
  set (id := _stableObjectId hitObj).
  destruct (_contactLostPerObject this !! id) as [[|]|] eqn:Hflag;
    [rewrite fresh_single; [discriminate|exact Hin|now left]| |].
  all: destruct (_lastUVPerObject this !! id) as [luv|] eqn:Hluv;
    [|rewrite fresh_single; [discriminate|exact Hin|right; now left]].
  all: destruct (_lastTriPerObject this !! id) as [ltri|] eqn:Hltri;
    [|rewrite fresh_single; [discriminate|exact Hin|right; now right]].
  all: destruct (Hok id luv Hluv) as (la & lb & ->).
  all: destruct (stroke_continued this env hitWorldPos hitObj mp r ti la lb a b ltri Hin)
    as [Hsteps ->]; try assumption; try (fold id; congruence).
  all: destruct (shares_vertex _ ltri); [|discriminate].
  all: rewrite dabs_interpolated by exact Hsteps.
  all: rewrite Nat.add_1_r; discriminate.
Qed.

(** C7.  A frame paints a dab only when the hit lies within proximity:
    proximity painting is enabled and the distance from the brush tip
    to the world position of the hit is at most the proximity radius.
    In a frame with a resolved hit on a started paintable, for a brush
    whose stored UVs are numbers: within proximity, and so at a
    distance equal to the radius, at least one dab is painted, the
    current UV is stored and the contact-lost flag is clear; at a
    greater distance, or with proximity painting disabled, the stored
    last UV and triangle of the object's identity are deleted, its
    contact-lost flag is set and no dab is painted.  In a frame whose
    hit object names a color, the stroke of that identity ends in the
    same way at any distance. *)
Theorem proximity_gate (this : MeshBrush) (env : Frame) :
  (forall rh, rayHit env = Some rh ->
     dabs (snd (update sqrt this env)) <> [] -> within_proximity sqrt this env rh) /\
  (forall rh hitObj mp r,
     resolved_hit sqrt this env rh hitObj mp r -> brush_ok this -> started mp ->
     let id := _stableObjectId hitObj in
     let this' := fst (update sqrt this env) in
     let painted := dabs (snd (update sqrt this env)) in
     (within_proximity sqrt this env rh ->
        painted <> [] /\
        _lastUVPerObject this' !! id = Some (uv r) /\
        _contactLostPerObject this' !! id = Some false) /\
     (forall o p, worldOrigin env = fin3 o -> location0 rh = fin3 p ->
        paintOnProximity this = true ->
        norm3 sqrt (vsub o p) == brushWorldRadius this -> painted <> []) /\
     (forall o p, worldOrigin env = fin3 o -> location0 rh = fin3 p ->
        paintOnProximity this = false \/ brushWorldRadius this < norm3 sqrt (vsub o p) ->
        ~ within_proximity sqrt this env rh) /\
     (~ within_proximity sqrt this env rh ->
        _lastUVPerObject this' !! id = None /\
        _lastTriPerObject this' !! id = None /\
        _contactLostPerObject this' !! id = Some true /\
        snd (update sqrt this env) = [])) /\
  (forall rh hitObj this1 picked,
     rayHit env = Some rh -> hitCount rh <> 0%Z -> object0 rh = Some hitObj ->
     _tryPickColorFromName this (name hitObj) = (this1, Some picked) ->
     let id := _stableObjectId hitObj in
     let this' := fst (update sqrt this env) in
     _lastUVPerObject this' !! id = None /\
     _lastTriPerObject this' !! id = None /\
     _contactLostPerObject this' !! id = Some true /\
     dabs (snd (update sqrt this env)) = []).
Proof.
  split; [|split].
  - intros rh Hrh Hd. apply within_proximity_spec. now apply (dabs_need_range sqrt).
  - intros rh hitObj mp r Hres Hok Hstarted id this' painted. subst this' painted.
    rewrite (update_resolved sqrt this env rh hitObj mp r Hres).
    pose proof Hres as (_ & _ & _ & _ & _ & Huv).
    destruct (getUV_started_finite mp _ _ _ r Hstarted Huv) as [Hfin Hti].
    assert (Hpaint : within_proximity sqrt this env rh ->
              dabs (snd (stroke sqrt this env (location0 rh) hitObj mp r)) <> []).
    { intros Hin. apply within_proximity_spec in Hin. now apply stroke_paints_in_range. }
    split; [|split; [|split]].
    + intros Hin. split; [now apply Hpaint|].
      apply within_proximity_spec in Hin.
      destruct (stroke_in_range_state sqrt this env (location0 rh) hitObj mp r Hin)
        as (S1 & S2 & _).
      now split.
    + intros o p Eo Ep Hon Heq. apply Hpaint. split; [exact Hon|].
      exists o, p. split; [exact Eo|]. split; [exact Ep|]. rewrite Heq. apply Qle_refl.
    + intros o p Eo Ep Hout (Hon & o' & p' & Eo' & Ep' & Hle).
      rewrite Eo in Eo'. rewrite Ep in Ep'.
      assert (o' = o).
      { destruct o as [[? ?] ?], o' as [[? ?] ?]. cbn [fin3] in Eo'. congruence. }
      assert (p' = p).
      { destruct p as [[? ?] ?], p' as [[? ?] ?]. cbn [fin3] in Ep'. congruence. }
      subst o' p'. destruct Hout as [Hoff|Hfar]; [congruence|lra].
    + intros Hout.
      assert (Hw : withinRange this (worldDist sqrt env (location0 rh)) = false).
      { apply not_true_is_false. intros Hw. apply Hout. now apply within_proximity_spec. }
      rewrite (stroke_out_of_range sqrt) by exact Hw. cbn [fst snd].
      pose proof (end_stroke_lookup this id id) as (L1 & L2 & L3).
      rewrite decide_True in L1 by reflexivity. rewrite decide_True in L2 by reflexivity.
      rewrite decide_True in L3 by reflexivity. auto.
  - intros rh hitObj this1 picked Hrh Hcount Hobj Hpick id this'. subst this'.
    rewrite (update_picked sqrt this env rh hitObj this1 picked Hrh Hcount Hobj Hpick).
    cbn [fst snd].
    pose proof (end_stroke_lookup this1 id id) as (L1 & L2 & L3).
    rewrite decide_True in L1 by reflexivity. rewrite decide_True in L2 by reflexivity.
    rewrite decide_True in L3 by reflexivity. auto.
Qed.




(** C3, amended.  In a frame without a ray hit (no answer, no hit, or no
    object for the first hit), the contact-lost flag of every identity
    that has a stored last UV is set, every other flag and every stored
    UV and triangle is unchanged, and no dab is painted.  In a frame
    whose hit object carries no paintable, or whose paintable resolves
    no UV, no dab is painted and one flag at most is set: when the name
    of the object holds no color token, the flag of the object's own id
    (none when it has no id), the stored UVs and triangles unchanged;
    when the name holds a color token, which makes the frame a color
    pick whatever the object carries, the flag of the object's
    identity, whose stored UV and triangle are deleted. *)
Theorem lost_contact_paints_nothing (this : MeshBrush) (env : Frame) :
  ((rayHit env = None \/
    (exists rh, rayHit env = Some rh /\ (hitCount rh = 0%Z \/ object0 rh = None))) ->
   snd (update sqrt this env) = [] /\
   (forall id, is_Some (_lastUVPerObject this !! id) ->
      _contactLostPerObject (fst (update sqrt this env)) !! id = Some true) /\
   (forall id, _lastUVPerObject this !! id = None ->
      _contactLostPerObject (fst (update sqrt this env)) !! id =
      _contactLostPerObject this !! id) /\
   _lastUVPerObject (fst (update sqrt this env)) = _lastUVPerObject this /\
   _lastTriPerObject (fst (update sqrt this env)) = _lastTriPerObject this) /\
  (forall rh hitObj,
     rayHit env = Some rh -> hitCount rh <> 0%Z -> object0 rh = Some hitObj ->
     snd (_tryPickColorFromName this (name hitObj)) = None ->
     meshPaintable hitObj = None \/
     (exists mp, meshPaintable hitObj = Some mp /\
        getUVFromLocalRay mp (fst (to_local_ray sqrt this env hitObj))
          (snd (to_local_ray sqrt this env hitObj)) (Fin (maxDistance this)) = None) ->
     snd (update sqrt this env) = [] /\
     _contactLostPerObject (fst (update sqrt this env)) =
       match objectId hitObj with
       | Some id => <[id := true]> (_contactLostPerObject this)
       | None => _contactLostPerObject this
       end /\
     _lastUVPerObject (fst (update sqrt this env)) = _lastUVPerObject this /\
     _lastTriPerObject (fst (update sqrt this env)) = _lastTriPerObject this) /\
  (forall rh hitObj picked,
     rayHit env = Some rh -> hitCount rh <> 0%Z -> object0 rh = Some hitObj ->
     snd (_tryPickColorFromName this (name hitObj)) = Some picked ->
     let id := _stableObjectId hitObj in
     dabs (snd (update sqrt this env)) = [] /\
     _contactLostPerObject (fst (update sqrt this env)) =
       <[id := true]> (_contactLostPerObject this) /\
     _lastUVPerObject (fst (update sqrt this env)) = delete id (_lastUVPerObject this) /\
     _lastTriPerObject (fst (update sqrt this env)) = delete id (_lastTriPerObject this)).
Proof.
  split; [|split].
  - intros Hno. rewrite (update_no_hit sqrt this env Hno). cbn [fst snd].
    split; [reflexivity|]. split; [|split; [|split; reflexivity]].
    + intros id [p Hp]. now rewrite mark_all_lost_flag, Hp.
    + intros id Hp. now rewrite mark_all_lost_flag, Hp.
  - intros rh hitObj Hrh Hcount Hobj Hpick Hcase.
    rewrite (update_unpaintable sqrt this env rh hitObj Hrh Hcount Hobj Hpick Hcase).
    cbn [fst snd]. unfold mark_hit_lost.
    destruct (objectId hitObj); repeat split; reflexivity.
  - intros rh hitObj picked Hrh Hcount Hobj Hpick id.
    destruct (_tryPickColorFromName this (name hitObj)) as [this1 p] eqn:E.
    cbn [snd] in Hpick. subst p.
    rewrite (update_picked sqrt this env rh hitObj this1 picked Hrh Hcount Hobj E).
    destruct (tryPick_settings this this1 _ _ E) as (_ & _ & _ & _ & E1 & E2 & E3).
    cbn [fst snd]. unfold end_stroke.
    cbn [_lastUVPerObject _lastTriPerObject _contactLostPerObject
         set_contactLost set_lastTri set_lastUV].
    fold id. now rewrite E1, E2, E3.
Qed.

End Contact.


Lemma proximity_gate_witness :
  dabs (snd (update sqrt_floor near_brush stroke_at_radius)) <> [] /\
  snd (update sqrt_floor brush_in_stroke stroke_far) = [] /\
  _lastUVPerObject (fst (update sqrt_floor brush_in_stroke stroke_far)) !! 7%Z = None.
Proof.
  split.
  - destruct (proximity_gate sqrt_floor near_brush stroke_at_radius) as (_ & H & _).
    edestruct (H {| hitCount := 1;
                    location0 := V3 (Fin (1 # 4)) (Fin 0) (Fin (-(1 # 8)));
                    object0 := Some (quad_object "Quad" 7) |}
                 (quad_object "Quad" 7) (paintable 8 8 true true (Some quad_xz)))
      as (_ & Hat & _).
    + split; [reflexivity|]. split; [discriminate|]. split; [reflexivity|].
      split; [reflexivity|]. split; [reflexivity|]. vm_compute. reflexivity.
    + apply brush_ok_new.
    + now exists 8%Z, 8%Z, true, true, (Some quad_xz).
    + apply (Hat (1 # 4, 1 # 16, -(1 # 8)) (1 # 4, 0, -(1 # 8)));
        [reflexivity|reflexivity|reflexivity|vm_compute; reflexivity].
  - destruct (proximity_gate sqrt_floor brush_in_stroke stroke_far) as (_ & H & _).
    edestruct (H {| hitCount := 1;
                    location0 := V3 (Fin (1 # 4)) (Fin 0) (Fin (-(1 # 8)));
                    object0 := Some (quad_object "Quad" 7) |}
                 (quad_object "Quad" 7) (paintable 8 8 true true (Some quad_xz)))
      as (_ & _ & Hfar & Hout).
    + split; [reflexivity|]. split; [discriminate|]. split; [reflexivity|].
      split; [reflexivity|]. split; [reflexivity|]. vm_compute. reflexivity.
    + exact brush_in_stroke_ok.
    + now exists 8%Z, 8%Z, true, true, (Some quad_xz).
    + destruct Hout as (A & _ & _ & D).
      * apply (Hfar (1 # 4, 1 # 2, -(1 # 8)) (1 # 4, 0, -(1 # 8)));
          [reflexivity|reflexivity|]. right. vm_compute. reflexivity.
      * split; [exact D|exact A].
Defined.

Lemma lost_contact_paints_nothing_witness :
  snd (update sqrt_floor default_brush frame_no_hit) = [] /\
  snd (update sqrt_floor default_brush (frame_above 0 0 (1 # 50) (bare_object "Wall" 5))) = [] /\
  _lastUVPerObject (fst (update sqrt_floor brush_in_stroke bare_swatch)) !! 7%Z = None.
Proof.
  split; [|split].
  - exact (proj1 (proj1 (lost_contact_paints_nothing sqrt_floor default_brush frame_no_hit)
                    (or_introl eq_refl))).
  - refine (proj1 (proj1 (proj2 (lost_contact_paints_nothing sqrt_floor default_brush
                            (frame_above 0 0 (1 # 50) (bare_object "Wall" 5))))
                     _ (bare_object "Wall" 5) eq_refl _ eq_refl eq_refl (or_introl eq_refl))).
    discriminate.
  - destruct (proj2 (proj2 (lost_contact_paints_nothing sqrt_floor brush_in_stroke bare_swatch))
                _ (bare_object "Wall_#fff" 7) "#fff"%string eq_refl ltac:(discriminate)
                eq_refl eq_refl) as (_ & _ & E & _).
    rewrite E. apply lookup_delete_eq.
Defined.
